(** * DistributedCache: a shallow embedding of the cache core

    The Go packages [store] (LRU and LRU-2 engines), [consistenthash],
    [singleflight] and [mycache] (Cache wrapper and Group) are rendered as
    Rocq functions over explicit states.  Every definition follows the Go
    function of the same name; where two goroutines matter the code is
    cut into its atomic steps and scheduled explicitly. *)

From stdpp Require Import base gmap list strings pretty sorting.
From Stdlib Require Import ZArith Lia Floats.

Local Open Scope Z_scope.

(** ** Common ground: machine integers, outcomes, locks, values *)

(** Two's-complement wrap-around of Go's fixed-width integers. *)
Definition wrap_int64 (x : Z) : Z := (x + 2 ^ 63) mod 2 ^ 64 - 2 ^ 63.
Definition wrap_int32 (x : Z) : Z := (x + 2 ^ 31) mod 2 ^ 32 - 2 ^ 31.
Definition wrap_uint16 (x : Z) : Z := x mod 2 ^ 16.

(** What a call can do in the sequential model: return, panic (index out
    of range, nil dereference), or wait for ever on a lock nobody will
    release. *)
Inductive outcome (A : Type) : Type :=
| Ret (a : A)
| Panic
| Blocked.
Arguments Ret {A} a.
Arguments Panic {A}.
Arguments Blocked {A}.

Definition obind {A B : Type} (x : outcome A) (f : A → outcome B) : outcome B :=
  match x with
  | Ret a => f a
  | Panic => Panic
  | Blocked => Blocked
  end.

(** [returns o P]: the call returns and its result satisfies [P]. *)
Definition returns {A : Type} (o : outcome A) (P : A → Prop) : Prop :=
  match o with
  | Ret a => P a
  | _ => False
  end.

Notation "x ←! e ; k" := (obind e (λ x, k))
  (at level 20, e at level 100, k at level 200, right associativity,
   format "x  ←!  e ;  '/' k").

(** [sync.RWMutex] as seen by a goroutine that is about to take it: the
    number of read holders and whether the write side is held. *)
Record RWMutex := { readers : nat; writer : bool }.

Definition mutex_free : RWMutex := {| readers := 0; writer := false |}.

Definition RLock (mu : RWMutex) : outcome RWMutex :=
  if writer mu then Blocked
  else Ret {| readers := S (readers mu); writer := false |}.

Definition RUnlock (mu : RWMutex) : outcome RWMutex :=
  match readers mu with
  | O => Panic
  | S r => Ret {| readers := r; writer := writer mu |}
  end.

Definition Lock (mu : RWMutex) : outcome RWMutex :=
  if writer mu then Blocked
  else match readers mu with
       | O => Ret {| readers := 0; writer := true |}
       | S _ => Blocked
       end.

Definition Unlock (mu : RWMutex) : outcome RWMutex :=
  if writer mu then Ret {| readers := readers mu; writer := false |}
  else Panic.

(** [mycache.ByteView] is a struct around a byte slice; [store.Value] is
    the interface it implements, whose nil is [None]. *)
Definition ByteView : Type := list Byte.byte.
Definition Value : Type := option ByteView.
Definition Len (b : ByteView) : Z := Z.of_nat (length b).
Definition len (s : string) : Z := Z.of_nat (String.length s).

(** Instants and durations are counted in nanoseconds. *)
Definition After (t u : Z) : bool := u <? t.

(** [Time.Sub]: the difference of two instants as a Duration, which
    saturates at the int64 bounds. *)
Definition Sub (t u : Z) : Z := Z.max (- 2 ^ 63) (Z.min (2 ^ 63 - 1) (t - u)).

(** ** Package store, LRU engine *)

Module lru.

Record lruEntry := { key : string; value : ByteView }.

(** The store.  A pointer to a list.Element is an address into
    [elems]; [list_], the field [list] of the source, gives the
    addresses from Front (least recent) to Back (most recent).
    [onEvicted] tells whether a callback is installed and [evicted]
    records the calls made to it. *)
Record lruCache := {
  mu : RWMutex;
  elems : gmap nat lruEntry;
  list_ : list nat;
  items : gmap string nat;
  expires : gmap string Z;
  maxBytes : Z;
  usedBytes : Z;
  onEvicted : bool;
  evicted : list (string * ByteView)%type;
  fresh : nat
}.

Definition set_mu (c : lruCache) (x : RWMutex) : lruCache :=
  {| mu := x; elems := elems c; list_ := list_ c; items := items c;
     expires := expires c; maxBytes := maxBytes c; usedBytes := usedBytes c;
     onEvicted := onEvicted c; evicted := evicted c; fresh := fresh c |}.
Definition set_elems (c : lruCache) (x : gmap nat lruEntry) : lruCache :=
  {| mu := mu c; elems := x; list_ := list_ c; items := items c;
     expires := expires c; maxBytes := maxBytes c; usedBytes := usedBytes c;
     onEvicted := onEvicted c; evicted := evicted c; fresh := fresh c |}.
Definition set_list (c : lruCache) (x : list nat) : lruCache :=
  {| mu := mu c; elems := elems c; list_ := x; items := items c;
     expires := expires c; maxBytes := maxBytes c; usedBytes := usedBytes c;
     onEvicted := onEvicted c; evicted := evicted c; fresh := fresh c |}.
Definition set_items (c : lruCache) (x : gmap string nat) : lruCache :=
  {| mu := mu c; elems := elems c; list_ := list_ c; items := x;
     expires := expires c; maxBytes := maxBytes c; usedBytes := usedBytes c;
     onEvicted := onEvicted c; evicted := evicted c; fresh := fresh c |}.
Definition set_expires (c : lruCache) (x : gmap string Z) : lruCache :=
  {| mu := mu c; elems := elems c; list_ := list_ c; items := items c;
     expires := x; maxBytes := maxBytes c; usedBytes := usedBytes c;
     onEvicted := onEvicted c; evicted := evicted c; fresh := fresh c |}.
Definition set_usedBytes (c : lruCache) (x : Z) : lruCache :=
  {| mu := mu c; elems := elems c; list_ := list_ c; items := items c;
     expires := expires c; maxBytes := maxBytes c; usedBytes := x;
     onEvicted := onEvicted c; evicted := evicted c; fresh := fresh c |}.
Definition set_evicted (c : lruCache) (x : list (string * ByteView)%type) : lruCache :=
  {| mu := mu c; elems := elems c; list_ := list_ c; items := items c;
     expires := expires c; maxBytes := maxBytes c; usedBytes := usedBytes c;
     onEvicted := onEvicted c; evicted := x; fresh := fresh c |}.
Definition set_fresh (c : lruCache) (x : nat) : lruCache :=
  {| mu := mu c; elems := elems c; list_ := list_ c; items := items c;
     expires := expires c; maxBytes := maxBytes c; usedBytes := usedBytes c;
     onEvicted := onEvicted c; evicted := evicted c; fresh := x |}.

(** Lock operations on the store's own mutex. *)
Definition with_mu (op : RWMutex → outcome RWMutex) (c : lruCache) : outcome lruCache :=
  m ←! op (mu c); Ret (set_mu c m).

(** [newLRUCache]: only the fields the store keeps; the ticker and the
    sweeper goroutine are outside the sequential model. *)
Definition newLRUCache (opt_maxBytes : Z) (opt_onEvicted : bool) : lruCache :=
  {| mu := mutex_free; elems := ∅; list_ := []; items := ∅; expires := ∅;
     maxBytes := opt_maxBytes; usedBytes := 0;
     onEvicted := opt_onEvicted; evicted := []; fresh := 0 |}.

(** container/list: [MoveToBack], [Remove] (both no-ops on an element
    that is not in the list), [PushBack], [Front]. *)
Definition in_list (c : lruCache) (e : nat) : bool := bool_decide (e ∈ list_ c).

Definition list_Remove (c : lruCache) (e : nat) : lruCache :=
  set_list c (filter (λ x, x ≠ e) (list_ c)).

Definition list_MoveToBack (c : lruCache) (e : nat) : lruCache :=
  if in_list c e then set_list c (filter (λ x, x ≠ e) (list_ c) ++ [e]) else c.

Definition list_PushBack (c : lruCache) (en : lruEntry) : (nat * lruCache)%type :=
  let e := fresh c in
  (e, set_fresh (set_list (set_elems c (<[e := en]> (elems c))) (list_ c ++ [e])) (S e)).

Definition list_Front (c : lruCache) : option nat := head (list_ c).

(** The type assertion on [elem.Value] that yields the entry pointer. *)
Definition entry_of (c : lruCache) (e : nat) : outcome lruEntry :=
  match elems c !! e with
  | Some en => Ret en
  | None => Panic
  end.

(** [removeElement]; the caller holds the write lock.  The source
    writes [c.list.Delete(elem)] and [len(entry.value)]; these are read
    as [c.list.Remove(elem)] and [entry.value.Len()]. *)
Definition removeElement (c : lruCache) (e : nat) : outcome lruCache :=
  en ←! entry_of c e;
  let c := list_Remove c e in
  let c := set_items c (delete (key en) (items c)) in
  let c := set_expires c (delete (key en) (expires c)) in
  let c := set_usedBytes c (wrap_int64 (usedBytes c - wrap_int64 (len (key en) + Len (value en)))) in
  Ret (if onEvicted c then set_evicted c (evicted c ++ [(key en, value en)]) else c).

(** First loop of [evict]: every key whose expiry is before [now] and
    that is still in [items] is removed.  A removal only deletes the
    removed key, so ranging over a snapshot of [expires] visits the
    same keys as Go's range over the live map. *)
Fixpoint evict_expired (l : list (string * Z)%type) (now : Z) (c : lruCache) : outcome lruCache :=
  match l with
  | [] => Ret c
  | (k, expTime) :: l =>
      c ←! (if After now expTime
            then match items c !! k with
                 | Some e => removeElement c e
                 | None => Ret c
                 end
            else Ret c);
      evict_expired l now c
  end.

(** Second loop of [evict]: drop the Front element while the byte bound
    is exceeded.  Each round shortens the list, so [length (list_ c)]
    rounds are enough. *)
Fixpoint evict_lru (rounds : nat) (c : lruCache) : outcome lruCache :=
  match rounds with
  | O => Ret c
  | S rounds =>
      if (0 <? maxBytes c) && (maxBytes c <? usedBytes c) && (0 <? Z.of_nat (length (list_ c)))
      then match list_Front c with
           | Some e => c ←! removeElement c e; evict_lru rounds c
           | None => evict_lru rounds c
           end
      else Ret c
  end.

Definition evict (c : lruCache) (now : Z) : outcome lruCache :=
  c ←! evict_expired (map_to_list (expires c)) now c;
  evict_lru (length (list_ c)) c.

(** [Delete] *)
Definition Delete (c : lruCache) (k : string) : outcome (bool * lruCache) :=
  c ←! with_mu Lock c;
  match items c !! k with
  | Some e =>
      c ←! removeElement c e;
      c ←! with_mu Unlock c;
      Ret (true, c)
  | None =>
      c ←! with_mu Unlock c;
      Ret (false, c)
  end.

(** [SetWithExpiration]; [now] is the reading of time.Now() for the
    expiry stamp, [now_evict] the later reading inside [evict]. *)
Definition SetWithExpiration (c : lruCache) (k : string) (val : Value)
    (expiration : Z) (now now_evict : Z) : outcome lruCache :=
  match val with
  | None => r ←! Delete c k; Ret r.2
  | Some b =>
      c ←! with_mu Lock c;
      let c := if 0 <? expiration
               then set_expires c (<[k := now + expiration]> (expires c))
               else set_expires c (delete k (expires c)) in
      match items c !! k with
      | Some e =>
          oldEntry ←! entry_of c e;
          let c := set_usedBytes c (wrap_int64 (usedBytes c + wrap_int64 (Len b - Len (value oldEntry)))) in
          let c := set_elems c (<[e := {| key := key oldEntry; value := b |}]> (elems c)) in
          let c := list_MoveToBack c e in
          with_mu Unlock c
      | None =>
          let '(e, c) := list_PushBack c {| key := k; value := b |} in
          let c := set_items c (<[k := e]> (items c)) in
          let c := set_usedBytes c (wrap_int64 (usedBytes c + wrap_int64 (len k + Len b))) in
          c ←! evict c now_evict;
          with_mu Unlock c
      end
  end.

(** [Set] *)
Definition Set_ (c : lruCache) (k : string) (val : Value) (now now_evict : Z) : outcome lruCache :=
  SetWithExpiration c k val 0 now now_evict.

(** Goroutines started by a call. *)
Inductive spawned := GoDelete (k : string).

(** [Get].  The hit path takes the write lock for the MoveToBack and
    returns without releasing it; the flag it returns is the literal
    [false] of the source's last line. *)
Definition Get (c : lruCache) (k : string) (now : Z)
    : outcome (Value * bool * lruCache * list spawned) :=
  c ←! with_mu RLock c;
  match items c !! k with
  | None =>
      c ←! with_mu RUnlock c;
      Ret (None, false, c, [])
  | Some elem =>
      match expires c !! k with
      | Some expTime =>
          if After now expTime
          then c ←! with_mu RUnlock c; Ret (None, false, c, [GoDelete k])
          else
            entry ←! entry_of c elem;
            c ←! with_mu RUnlock c;
            c ←! with_mu Lock c;
            let c := if bool_decide (is_Some (items c !! k)) then list_MoveToBack c elem else c in
            Ret (Some (value entry), false, c, [])
      | None =>
          entry ←! entry_of c elem;
          c ←! with_mu RUnlock c;
          c ←! with_mu Lock c;
          let c := if bool_decide (is_Some (items c !! k)) then list_MoveToBack c elem else c in
          Ret (Some (value entry), false, c, [])
      end
  end.

(** Bookkeeping invariant of the store: the list has no duplicates and
    only addresses handed out so far, map and list agree, and
    [usedBytes] is the sum of the sizes of the listed entries, far from
    the int64 limit. *)
Definition entry_size (en : lruEntry) : Z := len (key en) + Len (value en).

Definition sum_over (el : gmap nat lruEntry) (l : list nat) : Z :=
  foldr (λ e acc, match el !! e with Some en => entry_size en + acc | None => acc end) 0 l.

Definition sum_sizes (c : lruCache) : Z := sum_over (elems c) (list_ c).

Definition consistent (c : lruCache) : Prop :=
  NoDup (list_ c) ∧
  (∀ e, e ∈ list_ c →
        (e < fresh c)%nat ∧ ∃ en, elems c !! e = Some en ∧ items c !! key en = Some e) ∧
  (∀ k e, items c !! k = Some e → e ∈ list_ c ∧ ∃ en, elems c !! e = Some en ∧ key en = k) ∧
  usedBytes c = sum_sizes c ∧
  sum_sizes c < 2 ^ 62.

(** Every key with an expiry is a key of the store. *)
Definition expires_ok (c : lruCache) : Prop :=
  ∀ k, is_Some (expires c !! k) → is_Some (items c !! k).

Definition set_maxBytes (c : lruCache) (x : Z) : lruCache :=
  {| mu := mu c; elems := elems c; list_ := list_ c; items := items c;
     expires := expires c; maxBytes := x; usedBytes := usedBytes c;
     onEvicted := onEvicted c; evicted := evicted c; fresh := fresh c |}.

(** The callback loop of [Clear] over the entries [l] of [items]. *)
Fixpoint Clear_callbacks (l : list (string * nat)%type) (c : lruCache) : outcome lruCache :=
  match l with
  | [] => Ret c
  | (_, elem) :: l =>
      entry ←! entry_of c elem;
      Clear_callbacks l (set_evicted c (evicted c ++ [(key entry, value entry)]))
  end.

(** [Clear], ranging over [items] in the order [l]. *)
Definition Clear_in (l : list (string * nat)%type) (c : lruCache) : outcome lruCache :=
  c ←! with_mu Lock c;
  c ←! (if onEvicted c then Clear_callbacks l c else Ret c);
  let c := set_list c [] in
  let c := set_items c ∅ in
  let c := set_expires c ∅ in
  let c := set_usedBytes c 0 in
  with_mu Unlock c.

Definition Clear (c : lruCache) : outcome lruCache :=
  Clear_in (map_to_list (items c)) c.

(** [Len] *)
Definition Len_ (c : lruCache) : outcome (Z * lruCache) :=
  c ←! with_mu RLock c;
  let r := Z.of_nat (length (list_ c)) in
  c ←! with_mu RUnlock c;
  Ret (r, c).

(** One round of [cleanupLoop], on a tick of the cleanup ticker. *)
Definition cleanupLoop_tick (c : lruCache) (now : Z) : outcome lruCache :=
  c ←! with_mu Lock c;
  c ←! evict c now;
  with_mu Unlock c.

(** [GetWithExpiration]; [now] is the reading of time.Now() made after
    the key has been found. *)
Definition GetWithExpiration (c : lruCache) (k : string) (now : Z)
    : outcome (Value * Z * bool * lruCache) :=
  c ←! with_mu RLock c;
  match items c !! k with
  | None =>
      c ←! with_mu RUnlock c;
      Ret (None, 0, false, c)
  | Some elem =>
      match expires c !! k with
      | Some expTime =>
          if After now expTime
          then c ←! with_mu RUnlock c; Ret (None, 0, false, c)
          else
            let ttl := Sub expTime now in
            let c := list_MoveToBack c elem in
            entry ←! entry_of c elem;
            c ←! with_mu RUnlock c;
            Ret (Some (value entry), ttl, true, c)
      | None =>
          let c := list_MoveToBack c elem in
          entry ←! entry_of c elem;
          c ←! with_mu RUnlock c;
          Ret (Some (value entry), 0, true, c)
      end
  end.

(** [GetExpiration]; the pair (expTime, ok) is rendered as an option. *)
Definition GetExpiration (c : lruCache) (k : string) : outcome (option Z * lruCache) :=
  c ←! with_mu RLock c;
  let r := expires c !! k in
  c ←! with_mu RUnlock c;
  Ret (r, c).

(** [UpdateExpiration] *)
Definition UpdateExpiration (c : lruCache) (k : string) (expiration : Z) (now : Z)
    : outcome (bool * lruCache) :=
  c ←! with_mu Lock c;
  match items c !! k with
  | None =>
      c ←! with_mu Unlock c;
      Ret (false, c)
  | Some _ =>
      let c := if 0 <? expiration
               then set_expires c (<[k := now + expiration]> (expires c))
               else set_expires c (delete k (expires c)) in
      c ←! with_mu Unlock c;
      Ret (true, c)
  end.

(** [UsedBytes], [MaxBytes] *)
Definition UsedBytes (c : lruCache) : outcome (Z * lruCache) :=
  c ←! with_mu RLock c;
  let r := usedBytes c in
  c ←! with_mu RUnlock c;
  Ret (r, c).

Definition MaxBytes (c : lruCache) : outcome (Z * lruCache) :=
  c ←! with_mu RLock c;
  let r := maxBytes c in
  c ←! with_mu RUnlock c;
  Ret (r, c).

(** [SetMaxBytes]; [now] is the clock reading inside [evict]. *)
Definition SetMaxBytes (c : lruCache) (maxBytes_ : Z) (now : Z) : outcome lruCache :=
  c ←! with_mu Lock c;
  let c := set_maxBytes c maxBytes_ in
  c ←! (if 0 <? maxBytes_ then evict c now else Ret c);
  with_mu Unlock c.

End lru.

(** ** Package store, LRU-2 engine *)

Module lru2.

Record node := { k : string; v : Value; expireAt : Z }.

(** One level of a shard: the link table [dlnk] (row 0 is the
    sentinel, column [p] = 0 the previous and column [n] = 1 the next
    slot), the node arena [m], the key index [hmap] of 1-based slots,
    and [last], the number of slots handed out.  All indices are
    uint16 values. *)
Record cache := {
  dlnk : list (Z * Z)%type;
  m : list node;
  hmap : gmap string Z;
  last : Z
}.

Definition p : Z := 0.
Definition n : Z := 1.

Definition set_dlnk (c : cache) (x : list (Z * Z)%type) : cache :=
  {| dlnk := x; m := m c; hmap := hmap c; last := last c |}.
Definition set_m (c : cache) (x : list node) : cache :=
  {| dlnk := dlnk c; m := x; hmap := hmap c; last := last c |}.
Definition set_hmap (c : cache) (x : gmap string Z) : cache :=
  {| dlnk := dlnk c; m := m c; hmap := x; last := last c |}.
Definition set_last (c : cache) (x : Z) : cache :=
  {| dlnk := dlnk c; m := m c; hmap := hmap c; last := x |}.

(** Slice indexing: out of range is a run-time panic. *)
Definition at_ {A : Type} (l : list A) (i : Z) : outcome A :=
  if i <? 0 then Panic
  else match l !! Z.to_nat i with
       | Some x => Ret x
       | None => Panic
       end.

Definition upd {A : Type} (l : list A) (i : Z) (x : A) : outcome (list A) :=
  a ←! at_ l i; Ret (<[Z.to_nat i := x]> l).

(** [c.dlnk[i][d]] as a read and as an assignment target. *)
Definition rd (c : cache) (i d : Z) : outcome Z :=
  pr ←! at_ (dlnk c) i;
  if d =? 0 then Ret pr.1 else if d =? 1 then Ret pr.2 else Panic.

Definition wr (c : cache) (i d x : Z) : outcome cache :=
  pr ←! at_ (dlnk c) i;
  if d =? 0 then l ←! upd (dlnk c) i (x, pr.2); Ret (set_dlnk c l)
  else if d =? 1 then l ←! upd (dlnk c) i (pr.1, x); Ret (set_dlnk c l)
  else Panic.

(** [c.m[idx-1]], with the uint16 subtraction. *)
Definition slot (idx : Z) : Z := wrap_uint16 (idx - 1).

Definition node_at (c : cache) (idx : Z) : outcome node := at_ (m c) (slot idx).

Definition set_node (c : cache) (idx : Z) (nd : node) : outcome cache :=
  l ←! upd (m c) (slot idx) nd; Ret (set_m c l).

(** [Create] *)
Definition Create (cap : Z) : cache :=
  {| dlnk := replicate (Z.to_nat (wrap_uint16 (cap + 1))) (0, 0);
     m := replicate (Z.to_nat cap) {| k := ""; v := None; expireAt := 0 |};
     hmap := ∅;
     last := 0 |}.

(** [adjust]: unlink [idx] and relink it next to the sentinel on side
    [t]; [(p, n)] moves to the head, [(n, p)] to the tail.  In each
    assignment the indices and the right-hand side are read before
    the store. *)
Definition adjust (c : cache) (idx f t : Z) : outcome cache :=
  x ←! rd c idx f;
  if negb (x =? 0) then
    a ←! rd c idx t; b ←! rd c idx f; c ←! wr c a f b;
    a ←! rd c idx f; b ←! rd c idx t; c ←! wr c a t b;
    c ←! wr c idx f 0;
    b ←! rd c 0 t; c ←! wr c idx t b;
    a ←! rd c 0 t; c ←! wr c a f idx;
    wr c 0 t idx
  else Ret c.

(** [put]; the third component lists the callback invocations. *)
Definition put (c : cache) (key : string) (val : Value) (expireAt_ : Z) (onEvicted : bool)
    : outcome (Z * cache * list (string * Value)%type) :=
  match hmap c !! key with
  | Some idx =>
      nd ←! node_at c idx;
      c ←! set_node c idx {| k := k nd; v := val; expireAt := expireAt_ |};
      c ←! adjust c idx p n;
      Ret (0, c, [])
  | None =>
      if last c =? wrap_uint16 (Z.of_nat (length (m c))) then
        tl ←! rd c 0 p;
        tail ←! node_at c tl;
        let calls := if onEvicted && (0 <? expireAt tail) then [(k tail, v tail)] else [] in
        let c := set_hmap c (delete (k tail) (hmap c)) in
        tl' ←! rd c 0 p;
        let c := set_hmap c (<[key := tl']> (hmap c)) in
        c ←! set_node c tl {| k := key; v := val; expireAt := expireAt_ |};
        tl'' ←! rd c 0 p;
        c ←! adjust c tl'' p n;
        Ret (1, c, calls)
      else
        let c := set_last c (wrap_uint16 (last c + 1)) in
        c ←! (if Z.of_nat (size (hmap c)) <=? 0 then wr c 0 p (last c)
              else h ←! rd c 0 n; wr c h p (last c));
        nd ←! node_at c (last c);
        c ←! set_node c (last c) {| k := key; v := v nd; expireAt := expireAt nd |};
        nd ←! node_at c (last c);
        c ←! set_node c (last c) {| k := k nd; v := val; expireAt := expireAt nd |};
        nd ←! node_at c (last c);
        c ←! set_node c (last c) {| k := k nd; v := v nd; expireAt := expireAt_ |};
        h ←! rd c 0 n;
        l ←! upd (dlnk c) (last c) (0, h);
        let c := set_dlnk c l in
        let c := set_hmap c (<[key := last c]> (hmap c)) in
        c ←! wr c 0 n (last c);
        Ret (1, c, [])
  end.

(** [get]: the node pointer is rendered as the node it points to at
    return time; no caller writes to this level before reading it. *)
Definition get (c : cache) (key : string) : outcome (option node * Z * cache) :=
  match hmap c !! key with
  | Some idx =>
      c ←! adjust c idx p n;
      nd ←! node_at c idx;
      Ret (Some nd, 1, c)
  | None => Ret (None, 0, c)
  end.

(** [del]: tombstone a live slot and move it to the tail. *)
Definition del (c : cache) (key : string) : outcome (option node * Z * Z * cache) :=
  match hmap c !! key with
  | Some idx =>
      nd ←! node_at c idx;
      if 0 <? expireAt nd then
        let e := expireAt nd in
        c ←! set_node c idx {| k := k nd; v := v nd; expireAt := 0 |};
        c ←! adjust c idx n p;
        nd' ←! node_at c idx;
        Ret (Some nd', 1, e, c)
      else Ret (None, 0, 0, c)
  | None => Ret (None, 0, 0, c)
  end.

(** The store: one pair (admission, main) per shard.  Every exported
    method locks its shard on entry and unlocks it by defer on every
    path, so the per-shard mutexes do not show in a sequential run.
    [evicted] records the calls to the [onEvicted] callback. *)
Record lru2Store := {
  caches : list (cache * cache)%type;
  onEvicted : bool;
  evicted : list (string * Value)%type;
  mask : Z
}.

Definition set_caches (s : lru2Store) (x : list (cache * cache)%type) : lru2Store :=
  {| caches := x; onEvicted := onEvicted s; evicted := evicted s; mask := mask s |}.
Definition add_evicted (s : lru2Store) (x : list (string * Value)%type) : lru2Store :=
  {| caches := caches s; onEvicted := onEvicted s; evicted := evicted s ++ x; mask := mask s |}.

(** [hashBKRD], in int32 arithmetic. *)
Definition hashBKRD (s : string) : Z :=
  fold_left (λ hash ch, wrap_int32 (hash * 131 + Z.of_nat (Ascii.nat_of_ascii ch)))
            (String.list_ascii_of_string s) 0.

(** [maskOfNextPowOf2], in uint16 arithmetic. *)
Definition maskOfNextPowOf2 (cap : Z) : Z :=
  if (0 <? cap) && (Z.land cap (wrap_uint16 (cap - 1)) =? 0) then wrap_uint16 (cap - 1)
  else
    let cap := Z.lor cap (Z.shiftr cap 1) in
    let cap := Z.lor cap (Z.shiftr cap 2) in
    let cap := Z.lor cap (Z.shiftr cap 4) in
    Z.lor cap (Z.shiftr cap 8).

(** [newLRU2Cache], without the ticker and the sweeper goroutine. *)
Definition newLRU2Cache (BucketCount CapPerBucket Level2Cap : Z) (OnEvicted : bool) : lru2Store :=
  let BucketCount := if BucketCount =? 0 then 16 else BucketCount in
  let CapPerBucket := if CapPerBucket =? 0 then 1024 else CapPerBucket in
  let Level2Cap := if Level2Cap =? 0 then 1024 else Level2Cap in
  let mask := maskOfNextPowOf2 BucketCount in
  {| caches := replicate (Z.to_nat (wrap_uint16 (mask + 1))) (Create CapPerBucket, Create Level2Cap);
     onEvicted := OnEvicted;
     evicted := [];
     mask := mask |}.

Definition shard (s : lru2Store) (key : string) : Z := Z.land (hashBKRD key) (mask s).

Definition set_level (s : lru2Store) (idx level : Z) (c : cache) : outcome lru2Store :=
  pr ←! at_ (caches s) idx;
  if level =? 0 then l ←! upd (caches s) idx (c, pr.2); Ret (set_caches s l)
  else if level =? 1 then l ←! upd (caches s) idx (pr.1, c); Ret (set_caches s l)
  else Panic.

Definition level_of (s : lru2Store) (idx level : Z) : outcome cache :=
  pr ←! at_ (caches s) idx;
  if level =? 0 then Ret pr.1 else if level =? 1 then Ret pr.2 else Panic.

(** [delete]; the shard lock is held by the caller. *)
Definition delete_ (s : lru2Store) (key : string) (idx : Z) : outcome (bool * lru2Store) :=
  c0 ←! level_of s idx 0;
  r1 ←! del c0 key;
  let '(n1, s1, _, c0) := r1 in
  s ←! set_level s idx 0 c0;
  c1 ←! level_of s idx 1;
  r2 ←! del c1 key;
  let '(n2, s2, _, c1) := r2 in
  s ←! set_level s idx 1 c1;
  let deleted := (0 <? s1) || (0 <? s2) in
  let calls :=
    if deleted && onEvicted s then
      match n1 with
      | Some {| v := Some b |} => [(key, Some b)]
      | _ => match n2 with
             | Some {| v := Some b |} => [(key, Some b)]
             | _ => []
             end
      end
    else [] in
  Ret (deleted, add_evicted s calls).

(** [_get]; [now] is the reading of the virtual clock made inside. *)
Definition _get (s : lru2Store) (key : string) (idx level : Z) (now : Z)
    : outcome (option node * Z * lru2Store) :=
  c ←! level_of s idx level;
  r ←! get c key;
  let '(nd, st, c) := r in
  s ←! set_level s idx level c;
  match nd with
  | Some nd' =>
      if 0 <? st then
        if (expireAt nd' <=? 0) || (expireAt nd' <=? now) then Ret (None, 0, s)
        else Ret (Some nd', st, s)
      else Ret (None, 0, s)
  | None => Ret (None, 0, s)
  end.

(** [Get]; [currentTime] is the clock reading at entry, [now'] the one
    made later by [_get]. *)
Definition Get (s : lru2Store) (key : string) (currentTime now' : Z)
    : outcome (Value * bool * lru2Store) :=
  let idx := shard s key in
  c0 ←! level_of s idx 0;
  r1 ←! del c0 key;
  let '(n1, status1, expireAt_, c0) := r1 in
  s ←! set_level s idx 0 c0;
  if 0 <? status1 then
    if (0 <? expireAt_) && (expireAt_ <=? currentTime) then
      r ←! delete_ s key idx; Ret (None, false, r.2)
    else
      n1v ←! match n1 with Some nd => Ret (v nd) | None => Panic end;
      c1 ←! level_of s idx 1;
      r ←! put c1 key n1v expireAt_ (onEvicted s);
      s ←! set_level s idx 1 r.1.2;
      Ret (n1v, true, add_evicted s r.2)
  else
    r2 ←! _get s key idx 1 now';
    let '(n2, status2, s) := r2 in
    match n2 with
    | Some nd =>
        if 0 <? status2 then
          if (0 <? expireAt nd) && (expireAt nd <=? currentTime) then
            r ←! delete_ s key idx; Ret (None, false, r.2)
          else Ret (v nd, true, s)
        else Ret (None, false, s)
    | None => Ret (None, false, s)
    end.

(** [SetWithExpiration]; [expiration] in nanoseconds, the sum in int64. *)
Definition SetWithExpiration (s : lru2Store) (key : string) (value : Value)
    (expiration : Z) (now : Z) : outcome lru2Store :=
  let expireAt_ := if 0 <? expiration then wrap_int64 (now + expiration) else 0 in
  let idx := shard s key in
  c0 ←! level_of s idx 0;
  r ←! put c0 key value expireAt_ (onEvicted s);
  s ←! set_level s idx 0 r.1.2;
  Ret (add_evicted s r.2).

(** [Set] *)
Definition Set_ (s : lru2Store) (key : string) (value : Value) (now : Z) : outcome lru2Store :=
  SetWithExpiration s key value 9999999999999999 now.

(** [Delete] *)
Definition Delete (s : lru2Store) (key : string) : outcome (bool * lru2Store) :=
  delete_ s key (shard s key).

(** What a level holds for a key: the value and expiry of the slot the
    index points to.  A key is live in a level when that expiry is
    positive; expiry 0 is a tombstone. *)
Definition holds (c : cache) (key : string) : option (Value * Z) :=
  match hmap c !! key with
  | Some idx =>
      match node_at c idx with
      | Ret nd => Some (v nd, expireAt nd)
      | _ => None
      end
  | None => None
  end.

Definition live (c : cache) (key : string) : bool :=
  match holds c key with
  | Some (_, e) => 0 <? e
  | None => false
  end.

Definition admission (s : lru2Store) (key : string) : option cache :=
  fst <$> caches s !! Z.to_nat (shard s key).
Definition main (s : lru2Store) (key : string) : option cache :=
  snd <$> caches s !! Z.to_nat (shard s key).

Definition live_in (lvl : lru2Store → string → option cache) (s : lru2Store) (key : string) : bool :=
  match lvl s key with
  | Some c => live c key
  | None => false
  end.

(** Shape conditions under which no index of a level goes out of range:
    arena sizes, links and index entries within the handed-out slots,
    and a sentinel that is linked on both sides once a slot exists. *)
Definition cache_ok (c : cache) : bool :=
  let cap := Z.of_nat (length (m c)) in
  (1 <=? cap) && (cap <=? 65534) &&
  bool_decide (length (dlnk c) = S (length (m c))) &&
  (0 <=? last c) && (last c <=? cap) &&
  forallb (λ pr, (0 <=? pr.1) && (pr.1 <=? last c) && (0 <=? pr.2) && (pr.2 <=? last c)) (dlnk c) &&
  forallb (λ ki, (1 <=? ki.2) && (ki.2 <=? last c)) (map_to_list (hmap c)) &&
  ((last c <? 1) ||
   match dlnk c with
   | pr :: _ => negb (pr.1 =? 0) && negb (pr.2 =? 0)
   | [] => false
   end).

Definition store_ok (s : lru2Store) : bool :=
  (0 <=? mask s) &&
  bool_decide (length (caches s) = S (Z.to_nat (mask s))) &&
  forallb (λ cc, cache_ok cc.1 && cache_ok cc.2) (caches s).

End lru2.

(** ** Go library functions the ring relies on *)

(** [sort.Search]: binary search for the least index in [0, n) at which
    [f] holds, [n] if there is none.  The interval shrinks at every
    round, so [n] rounds are enough. *)
Fixpoint Search_loop (rounds : nat) (f : Z → bool) (i j : Z) : Z :=
  match rounds with
  | O => i
  | S rounds =>
      if i <? j then
        let h := (i + j) / 2 in
        if negb (f h) then Search_loop rounds f (h + 1) j
        else Search_loop rounds f i h
      else i
  end.

Definition Search (n : Z) (f : Z → bool) : Z := Search_loop (Z.to_nat n) f 0 n.

(** [sort.Ints] *)
Definition sort_Ints (l : list Z) : list Z := merge_sort Z.le l.

(** float64 arithmetic is IEEE 754 binary64, that is, Rocq's primitive
    floats.  [float64_of_int] is the conversion [float64(x)] (round to
    nearest even), [int_of_float64] the conversion [int(f)], which
    truncates toward zero; for NaN, infinities and values outside int64
    the result is implementation-specific in Go and is taken here as the
    smallest int64, as amd64 does. *)
Definition float64_of_int (x : Z) : float := SF2Prim (binary_normalize prec emax x 0 false).

Definition int_of_float64 (f : float) : Z :=
  match Prim2SF f with
  | S754_zero _ => 0
  | S754_finite s mant e =>
      let q := Z.shiftl (Z.pos mant) e in
      let r := if s then - q else q in
      if (- 2 ^ 63 <=? r) && (r <? 2 ^ 63) then r else - 2 ^ 63
  | _ => - 2 ^ 63
  end.

(** ** Package consistenthash *)

Module consistenthash.

(** Modelled from the spec: the [Config] struct, declared in a file of
    the package that is not among the sources.  Its fields are the
    ring options the specification lists and con_hash.go reads.
    [HashFunc s] stands for [int(config.HashFunc([]byte(s)))]. *)
Record Config := {
  DefaultReplicas : Z;
  MinReplicas : Z;
  MaxReplicas : Z;
  LoadBalanceThreshold : float;
  HashFunc : string → Z
}.

Record Map := {
  mu : RWMutex;
  config : Config;
  keys : list Z;
  hashMap : gmap Z string;
  nodeReplicas : gmap string Z;
  nodeCounts : gmap string Z;
  totalRequests : Z
}.

Definition set_mu (m : Map) (x : RWMutex) : Map :=
  {| mu := x; config := config m; keys := keys m; hashMap := hashMap m;
     nodeReplicas := nodeReplicas m; nodeCounts := nodeCounts m;
     totalRequests := totalRequests m |}.
Definition set_keys (m : Map) (x : list Z) : Map :=
  {| mu := mu m; config := config m; keys := x; hashMap := hashMap m;
     nodeReplicas := nodeReplicas m; nodeCounts := nodeCounts m;
     totalRequests := totalRequests m |}.
Definition set_hashMap (m : Map) (x : gmap Z string) : Map :=
  {| mu := mu m; config := config m; keys := keys m; hashMap := x;
     nodeReplicas := nodeReplicas m; nodeCounts := nodeCounts m;
     totalRequests := totalRequests m |}.
Definition set_nodeReplicas (m : Map) (x : gmap string Z) : Map :=
  {| mu := mu m; config := config m; keys := keys m; hashMap := hashMap m;
     nodeReplicas := x; nodeCounts := nodeCounts m;
     totalRequests := totalRequests m |}.
Definition set_nodeCounts (m : Map) (x : gmap string Z) : Map :=
  {| mu := mu m; config := config m; keys := keys m; hashMap := hashMap m;
     nodeReplicas := nodeReplicas m; nodeCounts := x;
     totalRequests := totalRequests m |}.
Definition set_totalRequests (m : Map) (x : Z) : Map :=
  {| mu := mu m; config := config m; keys := keys m; hashMap := hashMap m;
     nodeReplicas := nodeReplicas m; nodeCounts := nodeCounts m;
     totalRequests := x |}.

Definition with_mu (op : RWMutex → outcome RWMutex) (m : Map) : outcome Map :=
  x ←! op (mu m); Ret (set_mu m x).

Inductive error :=
| ErrNoNodes
| ErrInvalidNode
| ErrNodeNotFound (node : string).

(** [New], without the balancer goroutine. *)
Definition New (cfg : Config) : Map :=
  {| mu := mutex_free; config := cfg; keys := []; hashMap := ∅;
     nodeReplicas := ∅; nodeCounts := ∅; totalRequests := 0 |}.

(** The hash of the [i]-th virtual node, [HashFunc(Sprintf("%s-%d", node, i))]. *)
Definition vhash (m : Map) (node : string) (i : Z) : Z :=
  HashFunc (config m) (node +:+ "-" +:+ pretty i).

(** [addNode] *)
Definition addNode (m : Map) (node : string) (replicas : Z) : Map :=
  let m := foldl (λ m i,
               let hash := vhash m node i in
               set_hashMap (set_keys m (keys m ++ [hash])) (<[hash := node]> (hashMap m)))
             m (seqZ 0 replicas) in
  set_nodeReplicas m (<[node := replicas]> (nodeReplicas m)).

(** [Add] *)
Definition Add (m : Map) (nodes : list string) : outcome (option error * Map) :=
  match nodes with
  | [] => Ret (Some ErrNoNodes, m)
  | _ =>
      m ←! with_mu Lock m;
      let m := foldl (λ m node,
                   if bool_decide (node = "") then m
                   else addNode m node (DefaultReplicas (config m)))
                 m nodes in
      let m := set_keys m (sort_Ints (keys m)) in
      m ←! with_mu Unlock m;
      Ret (None, m)
  end.

(** Removal of the first occurrence of [hash] in [keys]. *)
Fixpoint remove_first (hash : Z) (l : list Z) : list Z :=
  match l with
  | [] => []
  | x :: l => if x =? hash then l else x :: remove_first hash l
  end.

(** [Remove]; it takes the write lock itself. *)
Definition Remove (m : Map) (node : string) : outcome (option error * Map) :=
  if bool_decide (node = "") then Ret (Some ErrInvalidNode, m)
  else
    m ←! with_mu Lock m;
    let replicas := default 0 (nodeReplicas m !! node) in
    if replicas =? 0 then
      m ←! with_mu Unlock m;
      Ret (Some (ErrNodeNotFound node), m)
    else
      let m := foldl (λ m i,
                   let hash := vhash m node i in
                   set_keys (set_hashMap m (delete hash (hashMap m)))
                            (remove_first hash (keys m)))
                 m (seqZ 0 replicas) in
      let m := set_nodeReplicas m (delete node (nodeReplicas m)) in
      let m := set_nodeCounts m (delete node (nodeCounts m)) in
      m ←! with_mu Unlock m;
      Ret (None, m).

(** The closure given to [sort.Search]; it is only called inside the
    bounds of [keys]. *)
Definition keys_ge (m : Map) (hash : Z) (i : Z) : bool :=
  match keys m !! Z.to_nat i with
  | Some x => hash <=? x
  | None => false
  end.

(** [Get] *)
Definition Get (m : Map) (key : string) : outcome (string * Map) :=
  if bool_decide (key = "") then Ret ("", m)
  else
    m ←! with_mu RLock m;
    if Z.of_nat (length (keys m)) =? 0 then
      m ←! with_mu RUnlock m;
      Ret ("", m)
    else
      let hash := HashFunc (config m) key in
      let idx := Search (Z.of_nat (length (keys m))) (keys_ge m hash) in
      let idx := if idx =? Z.of_nat (length (keys m)) then 0 else idx in
      match keys m !! Z.to_nat idx with
      | None => Panic
      | Some h =>
          let node := default "" (hashMap m !! h) in
          let count := default 0 (nodeCounts m !! node) in
          let m := set_nodeCounts m (<[node := wrap_int64 (count + 1)]> (nodeCounts m)) in
          let m := set_totalRequests m (wrap_int64 (totalRequests m + 1)) in
          m ←! with_mu RUnlock m;
          Ret (node, m)
      end.

(** The replica count [rebalanceNodes] computes for one node. *)
Definition newReplicas (m : Map) (avgLoad : float) (node : string) (count : Z) : Z :=
  let currentReplicas := default 0 (nodeReplicas m !! node) in
  let loadRatio := PrimFloat.div (float64_of_int count) avgLoad in
  let r :=
    if PrimFloat.ltb (float64_of_int 1) loadRatio
    then int_of_float64 (PrimFloat.div (float64_of_int currentReplicas) loadRatio)
    else int_of_float64 (PrimFloat.mul (float64_of_int currentReplicas)
                                       (PrimFloat.sub (float64_of_int 2) loadRatio)) in
  let r := if r <? MinReplicas (config m) then MinReplicas (config m) else r in
  if MaxReplicas (config m) <? r then MaxReplicas (config m) else r.

Definition avgLoad (m : Map) : float :=
  PrimFloat.div (float64_of_int (totalRequests m))
                (float64_of_int (Z.of_nat (size (nodeReplicas m)))).

(** Body of the range loop of [rebalanceNodes] over the entries
    [l] of [nodeCounts]; the write lock is held.  [Remove] only
    deletes the entry of the node in hand, so ranging over a snapshot
    visits what Go's range visits. *)
Fixpoint rebalance_loop (l : list (string * Z)%type) (avg : float) (m : Map) : outcome Map :=
  match l with
  | [] => Ret m
  | (node, count) :: l =>
      let currentReplicas := default 0 (nodeReplicas m !! node) in
      let new := newReplicas m avg node count in
      if negb (new =? currentReplicas) then
        r ←! Remove m node;
        match r.1 with
        | Some _ => rebalance_loop l avg r.2
        | None => rebalance_loop l avg (addNode r.2 node new)
        end
      else rebalance_loop l avg m
  end.

(** [rebalanceNodes], ranging over [nodeCounts] in the order [l]. *)
Definition rebalanceNodes_in (l : list (string * Z)%type) (m : Map) : outcome Map :=
  m ←! with_mu Lock m;
  m ←! rebalance_loop l (avgLoad m) m;
  let m := set_nodeCounts m ((λ _, 0) <$> nodeCounts m) in
  let m := set_totalRequests m 0 in
  let m := set_keys m (sort_Ints (keys m)) in
  with_mu Unlock m.

Definition rebalanceNodes (m : Map) : outcome Map :=
  rebalanceNodes_in (map_to_list (nodeCounts m)) m.

(** [checkAndRebalance] *)
Definition maxDiff (m : Map) : float :=
  let avg := avgLoad m in
  foldl (λ (acc : float) (kc : string * Z),
           let diff := PrimFloat.abs (PrimFloat.sub (float64_of_int kc.2) avg) in
           if PrimFloat.ltb acc (PrimFloat.div diff avg) then PrimFloat.div diff avg else acc)
        (float64_of_int 0) (map_to_list (nodeCounts m)).

Definition checkAndRebalance (m : Map) : outcome Map :=
  if totalRequests m <? 1000 then Ret m
  else if PrimFloat.ltb (LoadBalanceThreshold (config m)) (maxDiff m)
       then rebalanceNodes m
       else Ret m.

(** [keys] in ascending order. *)
Definition sorted (l : list Z) : Prop :=
  ∀ (i j : nat) (x y : Z), (i ≤ j)%nat → l !! i = Some x → l !! j = Some y → x ≤ y.

End consistenthash.

(** ** Package singleflight *)

Module singleflight.

(** A [call] record: the WaitGroup counter and the stored result
    ([None] while the fields still hold their zero values). *)
Record call := { wg : Z; val : option Z }.

(** Where a goroutine stands inside [Do]; the constructors carry the
    local variable [c].  Each constructor is one atomic action of the
    source: a sync.Map operation, a WaitGroup operation, the start or
    the end of [fn]. *)
Inductive pc :=
| AtLoad
| AtWait (c : nat)
| AtReturnWaited (c : nat)
| AtNew
| AtStore (c : nat)
| AtCallFn (c : nat)
| InFn (c : nat) (nth : nat)
| AtDone (c : nat)
| AtDelete (c : nat)
| AtReturn (c : nat)
| Returned (r : option Z).

Record goroutine := { key : string; at_pc : pc }.

(** The shared state: the sync.Map [m] from keys to call addresses, the
    call records by address, how many invocations of [fn] have started,
    and the goroutines that are inside [Do]. *)
Record Group := {
  m : gmap string nat;
  calls : list call;
  started : nat;
  routines : list goroutine
}.

Definition move (g : Group) (tid : nat) (r : goroutine) (to : pc) : Group :=
  {| m := m g; calls := calls g; started := started g;
     routines := <[tid := {| key := key r; at_pc := to |}]> (routines g) |}.

Definition set_m (g : Group) (x : gmap string nat) : Group :=
  {| m := x; calls := calls g; started := started g; routines := routines g |}.
Definition set_calls (g : Group) (x : list call) : Group :=
  {| m := m g; calls := x; started := started g; routines := routines g |}.
Definition set_started (g : Group) (x : nat) : Group :=
  {| m := m g; calls := calls g; started := x; routines := routines g |}.

(** One atomic action of goroutine [tid]; [None] when it cannot move
    (it waits on a WaitGroup, or it has returned).  [fn nth] is what
    the [nth] invocation of the loader returns. *)
Definition step (fn : nat → Z) (g : Group) (tid : nat) : option Group :=
  r ← routines g !! tid;
  match at_pc r with
  | AtLoad =>
      match m g !! key r with
      | Some c => Some (move g tid r (AtWait c))
      | None => Some (move g tid r AtNew)
      end
  | AtWait c =>
      cl ← calls g !! c;
      if wg cl =? 0 then Some (move g tid r (AtReturnWaited c)) else None
  | AtReturnWaited c =>
      cl ← calls g !! c;
      Some (move g tid r (Returned (val cl)))
  | AtNew =>
      let c := length (calls g) in
      Some (move (set_calls g (calls g ++ [{| wg := 1; val := None |}])) tid r (AtStore c))
  | AtStore c =>
      Some (move (set_m g (<[key r := c]> (m g))) tid r (AtCallFn c))
  | AtCallFn c =>
      Some (move (set_started g (S (started g))) tid r (InFn c (started g)))
  | InFn c nth =>
      cl ← calls g !! c;
      Some (move (set_calls g (<[c := {| wg := wg cl; val := Some (fn nth) |}]> (calls g)))
                 tid r (AtDone c))
  | AtDone c =>
      cl ← calls g !! c;
      Some (move (set_calls g (<[c := {| wg := wg cl - 1; val := val cl |}]> (calls g)))
                 tid r (AtDelete c))
  | AtDelete c =>
      Some (move (set_m g (delete (key r) (m g))) tid r (AtReturn c))
  | AtReturn c =>
      cl ← calls g !! c;
      Some (move g tid r (Returned (val cl)))
  | Returned _ => None
  end.

(** A schedule is the list of goroutines that move, in order. *)
Fixpoint run (fn : nat → Z) (sched : list nat) (g : Group) : option Group :=
  match sched with
  | [] => Some g
  | tid :: sched => g ← step fn g tid; run fn sched g
  end.

(** [callers] goroutines enter [Do] of a fresh group with these keys. *)
Definition enter (ks : list string) : Group :=
  {| m := ∅; calls := []; started := 0;
     routines := (λ k, {| key := k; at_pc := AtLoad |}) <$> ks |}.

Definition returned (g : Group) (tid : nat) : option (option Z) :=
  r ← routines g !! tid;
  match at_pc r with
  | Returned x => Some x
  | _ => None
  end.

Definition in_fn (g : Group) (tid : nat) : bool :=
  match at_pc <$> routines g !! tid with
  | Some (InFn _ _) => true
  | _ => false
  end.

End singleflight.

(** ** Package mycache: Cache wrapper and Group *)

Module mycache.

Inductive error := ErrKeyRequired | ErrValueRequired | ErrGroupClosed.

Inductive CacheType := LRU | LRU2 | OtherType (name : string).

Record CacheOptions := {
  CacheType_ : CacheType;
  MaxBytes : Z;
  BucketCount : Z;
  CapPerBucket : Z;
  Level2Cap : Z;
  CleanupTime : Z;
  OnEvicted : bool
}.

(** [DefaultCacheOptions] *)
Definition DefaultCacheOptions : CacheOptions :=
  {| CacheType_ := LRU2; MaxBytes := 8 * 1024 * 1024; BucketCount := 16;
     CapPerBucket := 512; Level2Cap := 256; CleanupTime := 60 * 10 ^ 9;
     OnEvicted := false |}.

(** The [store.Store] interface with its two implementations. *)
Inductive Store :=
| StoreLRU (c : lru.lruCache)
| StoreLRU2 (s : lru2.lru2Store).

(** [store.NewStore] *)
Definition NewStore (o : CacheOptions) : Store :=
  match CacheType_ o with
  | LRU2 => StoreLRU2 (lru2.newLRU2Cache (BucketCount o) (CapPerBucket o) (Level2Cap o) (OnEvicted o))
  | _ => StoreLRU (lru.newLRUCache (MaxBytes o) (OnEvicted o))
  end.

(** The successive clock readings a call makes on its way down:
    [t_group] in Group.Set, [t_cache] in Cache.AddWithExpiration,
    [t_store] and [t_evict] inside the store. *)
Record clock := { t_group : Z; t_cache : Z; t_store : Z; t_evict : Z }.

Definition Store_Set (st : Store) (key : string) (value : Value) (clk : clock) : outcome Store :=
  match st with
  | StoreLRU c => c ←! lru.Set_ c key value (t_store clk) (t_evict clk); Ret (StoreLRU c)
  | StoreLRU2 s => s ←! lru2.Set_ s key value (t_store clk); Ret (StoreLRU2 s)
  end.

Definition Store_SetWithExpiration (st : Store) (key : string) (value : Value)
    (expiration : Z) (clk : clock) : outcome Store :=
  match st with
  | StoreLRU c =>
      c ←! lru.SetWithExpiration c key value expiration (t_store clk) (t_evict clk);
      Ret (StoreLRU c)
  | StoreLRU2 s =>
      s ←! lru2.SetWithExpiration s key value expiration (t_store clk);
      Ret (StoreLRU2 s)
  end.

Definition Store_Delete (st : Store) (key : string) : outcome (bool * Store) :=
  match st with
  | StoreLRU c => r ←! lru.Delete c key; Ret (r.1, StoreLRU r.2)
  | StoreLRU2 s => r ←! lru2.Delete s key; Ret (r.1, StoreLRU2 r.2)
  end.

(** [Cache]; its own mutex is taken and released by defer in every
    method and is left out. *)
Record Cache := {
  store : option Store;
  opts : CacheOptions;
  hits : Z;
  misses : Z;
  initialized : Z;
  closed : Z
}.

Definition NewCache (o : CacheOptions) : Cache :=
  {| store := None; opts := o; hits := 0; misses := 0; initialized := 0; closed := 0 |}.

Definition set_store (c : Cache) (x : option Store) : Cache :=
  {| store := x; opts := opts c; hits := hits c; misses := misses c;
     initialized := initialized c; closed := closed c |}.

(** [ensureInitialized] *)
Definition ensureInitialized (c : Cache) : Cache :=
  if initialized c =? 1 then c
  else if initialized c =? 0 then
    {| store := Some (NewStore (opts c)); opts := opts c; hits := hits c;
       misses := misses c; initialized := 1; closed := closed c |}
  else c.

Definition the_store (c : Cache) : outcome Store :=
  match store c with
  | Some st => Ret st
  | None => Panic
  end.

(** [Cache.Add] *)
Definition Cache_Add (c : Cache) (key : string) (value : ByteView) (clk : clock) : outcome Cache :=
  if closed c =? 1 then Ret c
  else
    let c := ensureInitialized c in
    st ←! the_store c;
    st ←! Store_Set st key (Some value) clk;
    Ret (set_store c (Some st)).

(** [Cache.AddWithExpiration]; [time.Until(t)] is [t - t_cache]. *)
Definition Cache_AddWithExpiration (c : Cache) (key : string) (value : ByteView)
    (expirationTime : Z) (clk : clock) : outcome Cache :=
  if closed c =? 1 then Ret c
  else
    let c := ensureInitialized c in
    let expiration := expirationTime - t_cache clk in
    if expiration <=? 0 then Ret c
    else
      st ←! the_store c;
      st ←! Store_SetWithExpiration st key (Some value) expiration clk;
      Ret (set_store c (Some st)).

(** [Cache.Delete] *)
Definition Cache_Delete (c : Cache) (key : string) : outcome (bool * Cache) :=
  if (closed c =? 1) || (initialized c =? 0) then Ret (false, c)
  else
    st ←! the_store c;
    r ←! Store_Delete st key;
    Ret (r.1, set_store c (Some r.2)).

(** A [context.Context] as the values it carries; a present key is a
    non-nil value whatever it holds. *)
Definition Context : Type := gmap string bool.
Definition Background : Context := ∅.
Definition WithValue (ctx : Context) (k : string) (val : bool) : Context := <[k := val]> ctx.
Definition carries_from_peer (ctx : Context) : bool := bool_decide (is_Some (ctx !! "from_peer")).

(** Modelled from the spec: the [PeerPicker] interface, declared in a
    file that is not among the sources.  [PickPeer key] yields the
    peer (named here by its address), [ok] and [isSelf], as the
    specification describes it and group.go uses it. *)
Definition PeerPicker : Type := string → (string * bool * bool)%type.

Record Group := {
  name : string;
  mainCache : Cache;
  peers : option PeerPicker;
  expiration : Z;
  gclosed : Z
}.

Definition set_mainCache (g : Group) (c : Cache) : Group :=
  {| name := name g; mainCache := c; peers := peers g;
     expiration := expiration g; gclosed := gclosed g |}.

(** Goroutines a call starts, and the remote calls such a goroutine
    makes on a peer. *)
Inductive goroutine :=
| GoSyncToPeers (ctx : Context) (op : string) (key : string) (value : list Byte.byte).

Inductive rpc :=
| PeerSet (peer : string) (ctx : Context) (group key : string) (value : list Byte.byte)
| PeerDelete (peer : string) (group key : string).

(** [syncToPeers] *)
Definition syncToPeers (g : Group) (ctx : Context) (op key : string) (value : list Byte.byte)
    : list rpc :=
  match peers g with
  | None => []
  | Some pick =>
      let '(peer, ok, isSelf) := pick key in
      if negb ok || isSelf then []
      else
        let syncCtx := WithValue Background "from_peer" true in
        if bool_decide (op = "set") then [PeerSet peer syncCtx (name g) key value]
        else if bool_decide (op = "delete") then [PeerDelete peer (name g) key]
        else []
  end.

Definition run_goroutine (g : Group) (t : goroutine) : list rpc :=
  match t with
  | GoSyncToPeers ctx op key value => syncToPeers g ctx op key value
  end.

(** [Group.Set] *)
Definition Set_ (g : Group) (ctx : Context) (key : string) (value : list Byte.byte)
    (clk : clock) : outcome (option error * Group * list goroutine) :=
  if gclosed g =? 1 then Ret (Some ErrGroupClosed, g, [])
  else if bool_decide (key = "") then Ret (Some ErrKeyRequired, g, [])
  else if Z.of_nat (length value) =? 0 then Ret (Some ErrValueRequired, g, [])
  else
    let isPeerRequest := carries_from_peer ctx in
    let view : ByteView := value in
    c ←! (if 0 <? expiration g
          then Cache_AddWithExpiration (mainCache g) key view (t_group clk + expiration g) clk
          else Cache_Add (mainCache g) key view clk);
    let g := set_mainCache g c in
    Ret (None, g,
         if negb isPeerRequest && bool_decide (is_Some (peers g))
         then [GoSyncToPeers ctx "set" key value] else []).

(** [Group.Delete] *)
Definition Delete (g : Group) (ctx : Context) (key : string)
    : outcome (option error * Group * list goroutine) :=
  if gclosed g =? 1 then Ret (Some ErrGroupClosed, g, [])
  else if bool_decide (key = "") then Ret (Some ErrKeyRequired, g, [])
  else
    r ←! Cache_Delete (mainCache g) key;
    let g := set_mainCache g r.2 in
    let isPeerRequest := carries_from_peer ctx in
    Ret (None, g,
         if negb isPeerRequest && bool_decide (is_Some (peers g))
         then [GoSyncToPeers ctx "delete" key []] else []).

(** The context a remote call is made under, if it takes one. *)
Definition rpc_ctx (r : rpc) : option Context :=
  match r with
  | PeerSet _ ctx _ _ _ => Some ctx
  | PeerDelete _ _ _ => None
  end.

Definition rpc_peer (r : rpc) : string :=
  match r with
  | PeerSet peer _ _ _ _ => peer
  | PeerDelete peer _ _ => peer
  end.

(** [strings.Split] for a separator that is not empty: the pieces of
    [s] between the occurrences of [sep], which are looked for from
    the left and do not overlap.  [skip] counts the bytes of a found
    separator that are still to be passed over, [cur] is the piece
    in hand. *)
Fixpoint Split_from (sep : string) (skip : nat) (cur : string) (s : string) : list string :=
  match s with
  | EmptyString => [cur]
  | String ch s' =>
      match skip with
      | S skip' => Split_from sep skip' cur s'
      | O =>
          if String.prefix sep s
          then cur :: Split_from sep (String.length sep - 1) "" s'
          else Split_from sep 0 (cur +:+ String ch "") s'
      end
  end.

Definition Split (s sep : string) : list string := Split_from sep 0 "" s.

(** [ValidPeerAddr] *)
Definition ValidPeerAddr (addr : string) : bool :=
  let t1 := Split addr ":" in
  if negb (Nat.eqb (length t1) 2) then false
  else
    let t1_0 := default "" (t1 !! 0%nat) in
    let t2 := Split t1_0 "." in
    if negb (String.eqb t1_0 "localhost") && negb (Nat.eqb (length t2) 4) then false
    else true.

Definition set_hits (c : Cache) (x : Z) : Cache :=
  {| store := store c; opts := opts c; hits := x; misses := misses c;
     initialized := initialized c; closed := closed c |}.
Definition set_misses (c : Cache) (x : Z) : Cache :=
  {| store := store c; opts := opts c; hits := hits c; misses := x;
     initialized := initialized c; closed := closed c |}.

(** [Store.Get]; the LRU-2 store reads its clock at entry and again
    in [_get], the LRU store may start a goroutine. *)
Definition Store_Get (st : Store) (key : string) (clk : clock)
    : outcome (Value * bool * Store * list lru.spawned) :=
  match st with
  | StoreLRU c =>
      r ←! lru.Get c key (t_store clk);
      let '(val, ok, c, sp) := r in Ret (val, ok, StoreLRU c, sp)
  | StoreLRU2 s =>
      r ←! lru2.Get s key (t_store clk) (t_evict clk);
      let '(val, ok, s) := r in Ret (val, ok, StoreLRU2 s, [])
  end.

(** [Cache.Get]; the counters are int64, and a found value that is
    not a ByteView counts as a hit and then as a miss. *)
Definition Cache_Get (c : Cache) (key : string) (clk : clock)
    : outcome (ByteView * bool * Cache * list lru.spawned) :=
  if closed c =? 1 then Ret ([], false, c, [])
  else if initialized c =? 0
  then Ret ([], false, set_misses c (wrap_int64 (misses c + 1)), [])
  else
    st ←! the_store c;
    r ←! Store_Get st key clk;
    let '(val, found, st, sp) := r in
    let c := set_store c (Some st) in
    if negb found then Ret ([], false, set_misses c (wrap_int64 (misses c + 1)), sp)
    else
      let c := set_hits c (wrap_int64 (hits c + 1)) in
      match val with
      | Some bv => Ret (bv, true, c, sp)
      | None => Ret ([], false, set_misses c (wrap_int64 (misses c + 1)), sp)
      end.

(** [Cache.Close]; closing the store stops its ticker, which is not
    part of the state. *)
Definition Cache_Close (c : Cache) : Cache :=
  if negb (closed c =? 0) then c
  else
    {| store := None; opts := opts c; hits := hits c; misses := misses c;
       initialized := 0; closed := 1 |}.

(** The package variables [groups] and [groupsMu], and the Group
    objects allocated so far: a pointer to a Group is an index of
    [heap]. *)
Record Registry := {
  heap : list Group;
  groups : gmap string nat;
  groupsMu : RWMutex
}.

Definition set_heap (w : Registry) (x : list Group) : Registry :=
  {| heap := x; groups := groups w; groupsMu := groupsMu w |}.
Definition set_groups (w : Registry) (x : gmap string nat) : Registry :=
  {| heap := heap w; groups := x; groupsMu := groupsMu w |}.
Definition set_groupsMu (w : Registry) (x : RWMutex) : Registry :=
  {| heap := heap w; groups := groups w; groupsMu := x |}.

Definition no_groups : Registry := {| heap := []; groups := ∅; groupsMu := mutex_free |}.

(** [GroupOption] with [WithExpiration], [WithPeers] and
    [WithCacheOptions]. *)
Inductive GroupOption :=
| WithExpiration (d : Z)
| WithPeers (peers : option PeerPicker)
| WithCacheOptions (opts : CacheOptions).

Definition apply_option (g : Group) (o : GroupOption) : Group :=
  match o with
  | WithExpiration d =>
      {| name := name g; mainCache := mainCache g; peers := peers g;
         expiration := d; gclosed := gclosed g |}
  | WithPeers x =>
      {| name := name g; mainCache := mainCache g; peers := x;
         expiration := expiration g; gclosed := gclosed g |}
  | WithCacheOptions o => set_mainCache g (NewCache o)
  end.

(** [NewGroup]; [getter] tells whether the Getter is not nil.  The
    result is the address of the new Group. *)
Definition NewGroup (w : Registry) (name_ : string) (cacheBytes : Z) (getter : bool)
    (opts_ : list GroupOption) : outcome (nat * Registry) :=
  if negb getter then Panic
  else
    let d := DefaultCacheOptions in
    let cacheOpts :=
      {| CacheType_ := CacheType_ d; MaxBytes := cacheBytes; BucketCount := BucketCount d;
         CapPerBucket := CapPerBucket d; Level2Cap := Level2Cap d;
         CleanupTime := CleanupTime d; OnEvicted := OnEvicted d |} in
    let g := {| name := name_; mainCache := NewCache cacheOpts; peers := None;
                expiration := 0; gclosed := 0 |} in
    let g := foldl apply_option g opts_ in
    mu ←! Lock (groupsMu w);
    let w := set_groupsMu w mu in
    let a := length (heap w) in
    let w := set_groups (set_heap w (heap w ++ [g])) (<[name_ := a]> (groups w)) in
    mu ←! Unlock (groupsMu w);
    Ret (a, set_groupsMu w mu).

(** [GetGroup]; [None] is the nil pointer. *)
Definition GetGroup (w : Registry) (name_ : string) : outcome (option nat * Registry) :=
  mu ←! RLock (groupsMu w);
  let w := set_groupsMu w mu in
  let r := groups w !! name_ in
  mu ←! RUnlock (groupsMu w);
  Ret (r, set_groupsMu w mu).

(** [Group.Close] on the Group at address [a]. *)
Definition Group_Close (w : Registry) (a : nat) : outcome Registry :=
  match heap w !! a with
  | None => Panic
  | Some g =>
      if negb (gclosed g =? 0) then Ret w
      else
        let g := {| name := name g; mainCache := Cache_Close (mainCache g); peers := peers g;
                    expiration := expiration g; gclosed := 1 |} in
        let w := set_heap w (<[a := g]> (heap w)) in
        mu ←! Lock (groupsMu w);
        let w := set_groupsMu w mu in
        let w := set_groups w (delete (name g) (groups w)) in
        mu ←! Unlock (groupsMu w);
        Ret (set_groupsMu w mu)
  end.

(** [DestroyGroup] *)
Definition DestroyGroup (w : Registry) (name_ : string) : outcome (bool * Registry) :=
  mu ←! Lock (groupsMu w);
  let w := set_groupsMu w mu in
  match groups w !! name_ with
  | Some a =>
      w ←! Group_Close w a;
      let w := set_groups w (delete name_ (groups w)) in
      mu ←! Unlock (groupsMu w);
      Ret (true, set_groupsMu w mu)
  | None =>
      mu ←! Unlock (groupsMu w);
      Ret (false, set_groupsMu w mu)
  end.

(** [DestroyAllGroups]; the loop visits the entries of the map in
    some order, here that of [map_to_list], and deletes the entry it
    visits. *)
Fixpoint DestroyAllGroups_loop (l : list (string * nat)%type) (w : Registry)
    : outcome Registry :=
  match l with
  | [] => Ret w
  | (name_, a) :: l =>
      if bool_decide (is_Some (groups w !! name_)) then
        w ←! Group_Close w a;
        DestroyAllGroups_loop l (set_groups w (delete name_ (groups w)))
      else DestroyAllGroups_loop l w
  end.

Definition DestroyAllGroups (w : Registry) : outcome Registry :=
  mu ←! Lock (groupsMu w);
  let w := set_groupsMu w mu in
  w ←! DestroyAllGroups_loop (map_to_list (groups w)) w;
  mu ←! Unlock (groupsMu w);
  Ret (set_groupsMu w mu).

(** The counters of [Group.stats], which are kept here beside the
    [Group] record; each one is an int64 changed by atomic.AddInt64. *)
Record groupStats := {
  loads : Z;
  localHits : Z;
  localMisses : Z;
  peerHits : Z;
  peerMisses : Z;
  loaderHits : Z;
  loaderErrors : Z;
  loadDuration : Z
}.

Inductive counter :=
| Loads | LocalHits | LocalMisses | PeerHits | PeerMisses
| LoaderHits | LoaderErrors | LoadDuration.

Definition AddInt64 (st : groupStats) (c : counter) (d : Z) : groupStats :=
  {| loads := if c is Loads then wrap_int64 (loads st + d) else loads st;
     localHits := if c is LocalHits then wrap_int64 (localHits st + d) else localHits st;
     localMisses := if c is LocalMisses then wrap_int64 (localMisses st + d) else localMisses st;
     peerHits := if c is PeerHits then wrap_int64 (peerHits st + d) else peerHits st;
     peerMisses := if c is PeerMisses then wrap_int64 (peerMisses st + d) else peerMisses st;
     loaderHits := if c is LoaderHits then wrap_int64 (loaderHits st + d) else loaderHits st;
     loaderErrors :=
       if c is LoaderErrors then wrap_int64 (loaderErrors st + d) else loaderErrors st;
     loadDuration :=
       if c is LoadDuration then wrap_int64 (loadDuration st + d) else loadDuration st |}.

(** A [Getter] maps a key to bytes or to an error, given by its
    message; the [Get] of a peer, a remote call as [Client.Get]
    makes it, does the same for the peer's address, the group name
    and the key. *)
Definition Getter : Type := string → (list Byte.byte + string)%type.
Definition PeerGet : Type := string → string → string → (list Byte.byte + string)%type.

(** The errors [Group.Get] returns: the package's error values, and
    the Getter's error wrapped by [fmt.Errorf]. *)
Inductive get_error :=
| PackageError (e : error)
| FailedToGetData (cause : string).

(** [getFromPeer] *)
Definition getFromPeer (g : Group) (remote : PeerGet) (peer key : string)
    : (ByteView + string)%type :=
  match remote peer (name g) key with
  | inr msg => inr ("failed to get from peer: " +:+ msg)
  | inl bytes => inl bytes
  end.

(** [loadData]: the owning peer first, when there is one and it is
    not this node, then the Getter. *)
Definition loadData (g : Group) (st : groupStats) (getter : Getter) (remote : PeerGet)
    (key : string) : ((ByteView + get_error) * groupStats)%type :=
  let fromPeer :=
    match peers g with
    | Some pick =>
        let '(peer, ok, isSelf) := pick key in
        if ok && negb isSelf then
          match getFromPeer g remote peer key with
          | inl value => (Some value, AddInt64 st PeerHits 1)
          | inr _ => (None, AddInt64 st PeerMisses 1)
          end
        else (None, st)
    | None => (None, st)
    end in
  match fromPeer.1 with
  | Some value => (inl value, fromPeer.2)
  | None =>
      match getter key with
      | inr msg => (inr (FailedToGetData msg), fromPeer.2)
      | inl bytes => (inl bytes, AddInt64 fromPeer.2 LoaderHits 1)
      end
  end.

(** [load], for a caller that finds no call in flight for the key in
    the loader: [Do] then runs the function and hands back its
    result.  [t_start] and [t_end] are the clock readings around the
    load, [clk] holds those of the write to the cache. *)
Definition load (g : Group) (st : groupStats) (getter : Getter) (remote : PeerGet)
    (key : string) (t_start t_end : Z) (clk : clock)
    : outcome (ByteView * option get_error * Group * groupStats) :=
  let r := loadData g st getter remote key in
  let st := AddInt64 r.2 LoadDuration (Sub t_end t_start) in
  let st := AddInt64 st Loads 1 in
  match r.1 with
  | inr e => Ret ([], Some e, g, AddInt64 st LoaderErrors 1)
  | inl view =>
      c ←! (if 0 <? expiration g
            then Cache_AddWithExpiration (mainCache g) key view (t_group clk + expiration g) clk
            else Cache_Add (mainCache g) key view clk);
      Ret (view, None, set_mainCache g c, st)
  end.

(** [Group.Get]; [clk] holds the clock readings of the lookup in the
    cache. *)
Definition Get (g : Group) (st : groupStats) (getter : Getter) (remote : PeerGet)
    (key : string) (clk : clock) (t_start t_end : Z) (clk' : clock)
    : outcome (ByteView * option get_error * Group * groupStats * list lru.spawned) :=
  if gclosed g =? 1 then Ret ([], Some (PackageError ErrGroupClosed), g, st, [])
  else if bool_decide (key = "") then Ret ([], Some (PackageError ErrKeyRequired), g, st, [])
  else
    r ←! Cache_Get (mainCache g) key clk;
    let '(view, ok, c, sp) := r in
    let g := set_mainCache g c in
    if ok then Ret (view, None, g, AddInt64 st LocalHits 1, sp)
    else
      let st := AddInt64 st LocalMisses 1 in
      r ←! load g st getter remote key t_start t_end clk';
      let '(view, err, g, st) := r in
      Ret (view, err, g, st, sp).

End mycache.

(** ** Statements taken from the specification, and sample states *)

Definition bytes_n (n : nat) : ByteView := replicate n Byte.x61.

(** Two callers of [Do("k", fn)]: goroutine 0 and goroutine 1 both pass
    the Load before either has stored its call record. *)
Definition race_schedule : list nat :=
  [0; 1; 0; 0; 0; 1; 1; 1; 0; 0; 0; 0; 1; 1; 1; 1]%nat.

(** The prefix after which both goroutines are inside [fn]. *)
Definition race_prefix : list nat := [0; 1; 0; 0; 0; 1; 1; 1]%nat.

Definition opts_lru : mycache.CacheOptions :=
  {| mycache.CacheType_ := mycache.LRU; mycache.MaxBytes := 100;
     mycache.BucketCount := 1; mycache.CapPerBucket := 2; mycache.Level2Cap := 2;
     mycache.CleanupTime := 60 * 10 ^ 9; mycache.OnEvicted := false |}.

Definition clk0 : mycache.clock :=
  {| mycache.t_group := 10; mycache.t_cache := 10; mycache.t_store := 10; mycache.t_evict := 10 |}.

Definition group_of (closed_ : Z) (pk : option mycache.PeerPicker) : mycache.Group :=
  {| mycache.name := "g"; mycache.mainCache := mycache.NewCache opts_lru;
     mycache.peers := pk; mycache.expiration := 0; mycache.gclosed := closed_ |}.

Definition cache_with_a : mycache.Cache :=
  match mycache.Cache_Add (mycache.NewCache opts_lru) "a" (bytes_n 3) clk0 with
  | Ret c => c
  | _ => mycache.NewCache opts_lru
  end.

(** Whether a store, or a cache through its store, has a live entry for a
    key. *)
Definition Store_has (st : mycache.Store) (key : string) : bool :=
  match st with
  | mycache.StoreLRU c => bool_decide (is_Some (lru.items c !! key))
  | mycache.StoreLRU2 s => lru2.live_in lru2.admission s key || lru2.live_in lru2.main s key
  end.

Definition Cache_has (c : mycache.Cache) (key : string) : bool :=
  match mycache.store c with
  | Some st => Store_has st key
  | None => false
  end.

(** C10 as it is worded: the call returns and leaves the store of the
    cache completely unchanged. *)
Definition AddWithExpiration_leaves_store (c : mycache.Cache) (key : string)
    (value : ByteView) (t : Z) (clk : mycache.clock) : Prop :=
  returns (mycache.Cache_AddWithExpiration c key value t clk)
          (λ c', mycache.store c' = mycache.store c).

(** The remote calls made by the goroutines a call has started. *)
Definition propagation (g : mycache.Group) (l : list mycache.goroutine) : list mycache.rpc :=
  concat (mycache.run_goroutine g <$> l).

(** The second half of C6 as it is worded: some remote call reaches the
    owner under a context that carries the marker. *)
Definition propagated_marked (g : mycache.Group) (key : string) (l : list mycache.goroutine) : Prop :=
  ∃ r pick ctx, r ∈ propagation g l ∧ mycache.peers g = Some pick ∧
                mycache.rpc_peer r = (pick key).1.1 ∧
                mycache.rpc_ctx r = Some ctx ∧ mycache.carries_from_peer ctx = true.

Definition remote_owner : mycache.PeerPicker := λ _, ("n2:8002", true, false).
Definition self_owner : mycache.PeerPicker := λ _, ("n1:8001", true, true).

Definition ring_cfg : consistenthash.Config :=
  {| consistenthash.DefaultReplicas := 50; consistenthash.MinReplicas := 10;
     consistenthash.MaxReplicas := 200;
     consistenthash.LoadBalanceThreshold := 0.25%float;
     consistenthash.HashFunc := lru2.hashBKRD |}.

(** The ring after [Add("A", "B")]. *)
Definition ring_AB : consistenthash.Map :=
  match consistenthash.Add (consistenthash.New ring_cfg) ["A"; "B"] with
  | Ret r => r.2
  | _ => consistenthash.New ring_cfg
  end.

(** The same ring after 1500 lookups served by A and 500 by B. *)
Definition ring_loaded : consistenthash.Map :=
  consistenthash.set_totalRequests
    (consistenthash.set_nodeCounts ring_AB (<["A" := 1500]> (<["B" := 500]> ∅))) 2000.




(** [i] is the first index of [l] whose element is at least [h], or the
    length of [l] when there is none. *)
Definition first_ge (l : list Z) (h : Z) (i : Z) : Prop :=
  0 ≤ i ≤ Z.of_nat (length l) ∧
  (∀ (j : nat) x, Z.of_nat j < i → l !! j = Some x → x < h) ∧
  (∀ (j : nat) x, i ≤ Z.of_nat j → l !! j = Some x → h ≤ x).

(** C5 as it is worded, for one ring and one key. *)
Definition Get_as_specified (m : consistenthash.Map) (key : string) : Prop :=
  match consistenthash.keys m with
  | [] => consistenthash.Get m key = Ret ("", m)
  | _ =>
      ∃ i h,
        first_ge (consistenthash.keys m) (consistenthash.HashFunc (consistenthash.config m) key) i ∧
        consistenthash.keys m !! Z.to_nat (if i =? Z.of_nat (length (consistenthash.keys m)) then 0 else i)
          = Some h ∧
        let node := default "" (consistenthash.hashMap m !! h) in
        consistenthash.Get m key =
          Ret (node,
               consistenthash.set_totalRequests
                 (consistenthash.set_nodeCounts m
                    (<[node := wrap_int64 (default 0 (consistenthash.nodeCounts m !! node) + 1)]>
                       (consistenthash.nodeCounts m)))
                 (wrap_int64 (consistenthash.totalRequests m + 1)))
  end.

(** The LRU store's invariant: the books agree, and only stored keys
    have an expiry. *)
Definition lru_inv (c : lru.lruCache) : Prop := lru.consistent c ∧ lru.expires_ok c.

(** Whether the key [k] has an expiry among [l] that lies before [now];
    whether the element [e] is not the element of such a key. *)
Definition lru_expired (l : list (string * Z)%type) (now : Z) (c : lru.lruCache) (k : string) : bool :=
  match lru.expires c !! k with
  | Some t => bool_decide ((k, t) ∈ l) && After now t
  | None => false
  end.

Definition lru_keeps (l : list (string * Z)%type) (now : Z) (c : lru.lruCache) (e : nat) : bool :=
  match lru.elems c !! e with
  | Some en => negb (lru_expired l now c (lru.key en))
  | None => true
  end.

(** Whether the key [k] has expired at [now]; whether the element [e] is
    the element of a key that has not. *)
Definition lru_stale (now : Z) (c : lru.lruCache) (k : string) : bool :=
  match lru.expires c !! k with
  | Some t => After now t
  | None => false
  end.

Definition lru_fresh (now : Z) (c : lru.lruCache) (e : nat) : bool :=
  match lru.elems c !! e with
  | Some en => negb (lru_stale now c (lru.key en))
  | None => true
  end.

(** The (key, value) pairs of the elements [l], as the callback sees
    them. *)
Definition lru_entries (el : gmap nat lru.lruEntry) (l : list nat) : list (string * ByteView)%type :=
  omap (λ e, (λ en, (lru.key en, lru.value en)) <$> el !! e) l.

(** An LRU store of 100 bytes with a callback, after
    [SetWithExpiration("a", 3 bytes, 5ns)] at time 0 and
    [Set("b", 5 bytes)]. *)
Definition lru_ab : lru.lruCache :=
  match lru.SetWithExpiration (lru.newLRUCache 100 true) "a" (Some (bytes_n 3)) 5 0 0 with
  | Ret c =>
      match lru.Set_ c "b" (Some (bytes_n 5)) 1 1 with
      | Ret c => c
      | _ => lru.newLRUCache 100 true
      end
  | _ => lru.newLRUCache 100 true
  end.

(** How many times the byte [c] occurs in [s]. *)
Fixpoint count_byte (c : Ascii.ascii) (s : string) : nat :=
  match s with
  | EmptyString => 0
  | String ch s' => (if Ascii.eqb c ch then 1 else 0) + count_byte c s'
  end.

(** The call record a goroutine is producing: it has created the record
    and has not yet called Done on it. *)
Definition sf_owns (p : singleflight.pc) : option nat :=
  match p with
  | singleflight.AtStore c | singleflight.AtCallFn c
  | singleflight.InFn c _ | singleflight.AtDone c => Some c
  | _ => None
  end.

(** What holds of a goroutine at each point of [Do]. *)
Definition sf_pc_ok (fn : nat → Z) (g : singleflight.Group) (p : singleflight.pc) : Prop :=
  match p with
  | singleflight.AtLoad | singleflight.AtNew => True
  | singleflight.AtWait c => (c < length (singleflight.calls g))%nat
  | singleflight.AtReturnWaited c | singleflight.AtDelete c | singleflight.AtReturn c =>
      ∃ cl, singleflight.calls g !! c = Some cl ∧ is_Some (singleflight.val cl)
  | singleflight.AtStore c | singleflight.AtCallFn c =>
      ∃ cl, singleflight.calls g !! c = Some cl ∧ singleflight.wg cl = 1
  | singleflight.InFn c nth =>
      (nth < singleflight.started g)%nat ∧
      ∃ cl, singleflight.calls g !! c = Some cl ∧ singleflight.wg cl = 1
  | singleflight.AtDone c =>
      ∃ cl, singleflight.calls g !! c = Some cl ∧ singleflight.wg cl = 1 ∧
            is_Some (singleflight.val cl)
  | singleflight.Returned r => ∃ i, (i < singleflight.started g)%nat ∧ r = Some (fn i)
  end.

(** The invariant of a single-flight group: the map points at call
    records; every goroutine is where its record says; a stored result
    is the result of an invocation that has started; a record is either
    done, with its result stored, or has its counter at 1 and one
    goroutine producing it. *)
Definition sf_inv (fn : nat → Z) (g : singleflight.Group) : Prop :=
  (∀ k c, singleflight.m g !! k = Some c → (c < length (singleflight.calls g))%nat) ∧
  (∀ tid r, singleflight.routines g !! tid = Some r → sf_pc_ok fn g (singleflight.at_pc r)) ∧
  (∀ c cl, singleflight.calls g !! c = Some cl →
     (∀ x, singleflight.val cl = Some x → ∃ i, (i < singleflight.started g)%nat ∧ x = fn i) ∧
     ((singleflight.wg cl = 0 ∧ is_Some (singleflight.val cl)) ∨
      (singleflight.wg cl = 1 ∧
       ∃ tid r, singleflight.routines g !! tid = Some r ∧
                sf_owns (singleflight.at_pc r) = Some c))) ∧
  (∀ t1 t2 r1 r2 c,
     singleflight.routines g !! t1 = Some r1 → singleflight.routines g !! t2 = Some r2 →
     sf_owns (singleflight.at_pc r1) = Some c → sf_owns (singleflight.at_pc r2) = Some c →
     t1 = t2).

(** The number of atomic actions a goroutine at [p] has left at most,
    and whether it may still call [fn]. *)
Definition sf_rank (p : singleflight.pc) : nat :=
  match p with
  | singleflight.AtLoad => 8
  | singleflight.AtNew => 7
  | singleflight.AtStore _ => 6
  | singleflight.AtCallFn _ => 5
  | singleflight.InFn _ _ => 4
  | singleflight.AtDone _ => 3
  | singleflight.AtDelete _ => 2
  | singleflight.AtReturn _ => 1
  | singleflight.AtWait _ => 2
  | singleflight.AtReturnWaited _ => 1
  | singleflight.Returned _ => 0
  end.

Definition sf_before_fn (p : singleflight.pc) : nat :=
  match p with
  | singleflight.AtLoad | singleflight.AtNew
  | singleflight.AtStore _ | singleflight.AtCallFn _ => 1
  | _ => 0
  end.

(** The group after the two racing callers of [race_schedule] have
    returned, with a loader whose [n]-th invocation returns [n]. *)
Definition sf_race_end : singleflight.Group :=
  default (singleflight.enter [])
          (singleflight.run (λ n, Z.of_nat n) race_schedule (singleflight.enter ["k"; "k"])).

(** The hashes of the [R] virtual nodes of [node]. *)
Definition ring_vhashes (cfg : consistenthash.Config) (node : string) (R : Z) : list Z :=
  (λ i, consistenthash.HashFunc cfg (node +:+ "-" +:+ pretty i)) <$> seqZ 0 R.

(** Every virtual node on the ring belongs to a registered node with a
    name. *)
Definition ring_owned (m : consistenthash.Map) : Prop :=
  ∀ h, h ∈ consistenthash.keys m →
       ∃ node, consistenthash.hashMap m !! h = Some node ∧ node ≠ "" ∧
               is_Some (consistenthash.nodeReplicas m !! node).

(** The shape conditions of [lru2.cache_ok], stated through reads of the
    link table. *)
Definition lru2_shape (c : lru2.cache) : Prop :=
  let cap := Z.of_nat (length (lru2.m c)) in
  1 ≤ cap ≤ 65534 ∧
  length (lru2.dlnk c) = S (length (lru2.m c)) ∧
  0 ≤ lru2.last c ≤ cap ∧
  (∀ j d x, lru2.rd c j d = Ret x → 0 ≤ x ≤ lru2.last c) ∧
  (∀ key i, lru2.hmap c !! key = Some i → 1 ≤ i ≤ lru2.last c) ∧
  (1 ≤ lru2.last c →
   ∃ a b, lru2.rd c 0 0 = Ret a ∧ a ≠ 0 ∧ lru2.rd c 0 1 = Ret b ∧ b ≠ 0).

(** The link table alone: every link is at most [b], [b] is a row of the
    table, and the sentinel is linked on both sides. *)
Definition lru2_linked (c : lru2.cache) (b : Z) : Prop :=
  b < Z.of_nat (length (lru2.dlnk c)) ∧
  (∀ j d x, lru2.rd c j d = Ret x → 0 ≤ x ≤ b) ∧
  (∃ a a', lru2.rd c 0 0 = Ret a ∧ a ≠ 0 ∧ lru2.rd c 0 1 = Ret a' ∧ a' ≠ 0).

(** The store [s] with the pair of levels of shard [i] replaced by [cc]
    and the callback calls [ev] appended. *)
Definition lru2_with_shard (s : lru2.lru2Store) (i : nat) (cc : lru2.cache * lru2.cache)
    (ev : list (string * Value)%type) : lru2.lru2Store :=
  {| lru2.caches := <[i := cc]> (lru2.caches s);
     lru2.onEvicted := lru2.onEvicted s;
     lru2.evicted := lru2.evicted s ++ ev;
     lru2.mask := lru2.mask s |}.

(** A store with one shard, two slots per level, that has seen
    [Set("a", 1 byte)] at clock 5. *)
Definition lru2_one_key : lru2.lru2Store :=
  match lru2.Set_ (lru2.newLRU2Cache 1 2 2 false) "a" (Some (bytes_n 1)) 5 with
  | Ret s => s
  | _ => lru2.newLRU2Cache 1 2 2 false
  end.


(** The calls that the LRU-2 store answers from one shard, each with
    the clock readings it makes, and a run of such calls on one store. *)
Inductive lru2_call :=
| CallSet (key : string) (value : Value) (now : Z)
| CallSetWithExpiration (key : string) (value : Value) (expiration now : Z)
| CallGet (key : string) (currentTime now' : Z)
| CallDelete (key : string).

Definition lru2_do (s : lru2.lru2Store) (c : lru2_call) : outcome lru2.lru2Store :=
  match c with
  | CallSet key value now => lru2.Set_ s key value now
  | CallSetWithExpiration key value expiration now =>
      lru2.SetWithExpiration s key value expiration now
  | CallGet key currentTime now' => r ←! lru2.Get s key currentTime now'; Ret r.2
  | CallDelete key => r ←! lru2.Delete s key; Ret r.2
  end.

Fixpoint lru2_run (s : lru2.lru2Store) (cs : list lru2_call) : outcome lru2.lru2Store :=
  match cs with
  | [] => Ret s
  | c :: cs => s' ←! lru2_do s c; lru2_run s' cs
  end.

(** The store [lru2_one_key] after a [Get("a")] at clock 6, which moves
    the key to the main level. *)
Definition lru2_promoted : lru2.lru2Store :=
  match lru2.Get lru2_one_key "a" 6 6 with
  | Ret r => r.2
  | _ => lru2_one_key
  end.

(** The registry as the package keeps it between calls: [groupsMu] is
    free, and every registered name points to an allocated Group that
    is open and carries that name. *)
Definition registry_inv (w : mycache.Registry) : Prop :=
  mycache.groupsMu w = mutex_free ∧
  ∀ name a, mycache.groups w !! name = Some a →
    ∃ g, mycache.heap w !! a = Some g ∧ mycache.gclosed g = 0 ∧ mycache.name g = name.

(** The registry after [NewGroup("scores", 64, getter)]. *)
Definition registry_one : mycache.Registry :=
  match mycache.NewGroup mycache.no_groups "scores" 64 true [] with
  | Ret r => r.2
  | _ => mycache.no_groups
  end.

(** An open group without peers whose cache has the default options,
    and counters that are all 0. *)
Definition group_lru2 : mycache.Group :=
  mycache.set_mainCache (group_of 0 None) (mycache.NewCache mycache.DefaultCacheOptions).

Definition stats0 : mycache.groupStats :=
  {| mycache.loads := 0; mycache.localHits := 0; mycache.localMisses := 0;
     mycache.peerHits := 0; mycache.peerMisses := 0; mycache.loaderHits := 0;
     mycache.loaderErrors := 0; mycache.loadDuration := 0 |}.

(** * Properties *)

(** ** LRU engine *)

Section lru_facts.
Import lru.

Lemma with_mu_RLock c :
  writer (mu c) = false →
  with_mu RLock c = Ret (set_mu c {| readers := S (readers (mu c)); writer := false |}).
Proof. intros H. unfold with_mu, RLock. rewrite H. reflexivity. Qed.

Lemma with_mu_Lock c :
  writer (mu c) = false → readers (mu c) = 0%nat →
  with_mu Lock c = Ret (set_mu c {| readers := 0; writer := true |}).
Proof. intros H1 H2. unfold with_mu, Lock. rewrite H1, H2. reflexivity. Qed.

(** A hit of [Get] on an idle store: the value found is returned with
    the flag [false], the element is moved to the Back, and the write
    lock stays held. *)
Lemma Get_hit c k now e en :
  writer (mu c) = false → readers (mu c) = 0%nat →
  items c !! k = Some e → elems c !! e = Some en →
  (∀ t, expires c !! k = Some t → After now t = false) →
  ∃ c', Get c k now = Ret (Some (value en), false, c', []) ∧
        list_ c' = list_ (list_MoveToBack c e) ∧
        mu c' = {| readers := 0; writer := true |} ∧
        items c' = items c ∧ elems c' = elems c.
Proof.
  intros Hw Hr Hi He Hx.
  unfold Get. rewrite with_mu_RLock by done. cbn [obind set_mu items expires].
  rewrite Hi.
  assert (Hgo : ∀ c1, c1 = set_mu c {| readers := 1; writer := false |} →
    ∃ c', (entry ←! entry_of c1 e;
           c2 ←! with_mu RUnlock c1;
           c3 ←! with_mu Lock c2;
           let c4 := if bool_decide (is_Some (items c3 !! k)) then list_MoveToBack c3 e else c3 in
           Ret (Some (value entry), false, c4, []))
          = Ret (Some (value en), false, c', @nil spawned) ∧
          list_ c' = list_ (list_MoveToBack c e) ∧
          mu c' = {| readers := 0; writer := true |} ∧
          items c' = items c ∧ elems c' = elems c).
  { intros c1 ->. unfold entry_of. cbn [set_mu elems]. rewrite He. cbn.
    rewrite Hi. rewrite bool_decide_eq_true_2 by eauto.
    eexists. split; [reflexivity|].
    unfold list_MoveToBack, in_list. cbn. destruct (bool_decide (e ∈ list_ c)); cbn; done. }
  rewrite Hr.
  destruct (expires c !! k) as [t|] eqn:Ht.
  - rewrite (Hx t eq_refl). apply Hgo. reflexivity.
  - apply Hgo. reflexivity.
Qed.

(** C1.  On a fresh store without byte bound, [Set k b] followed by
    [Get k] returns the stored value [b] and moves the node of [k] to
    the most-recent end, but the boolean it returns is [false], and
    the store's write lock is still held when [Get] returns. *)
Theorem lru_Get_after_Set_returns_false (k : string) (b : ByteView) (t1 t2 t3 : Z) :
  ∃ c1 c2 e,
    Set_ (newLRUCache 0 false) k (Some b) t1 t2 = Ret c1 ∧
    Get c1 k t3 = Ret (Some b, false, c2, []) ∧
    items c2 !! k = Some e ∧ last (list_ c2) = Some e ∧
    writer (mu c2) = true.
Proof.
  assert (HS : Set_ (newLRUCache 0 false) k (Some b) t1 t2 =
               Ret {| mu := mutex_free; elems := {[ 0%nat := {| key := k; value := b |} ]};
                      list_ := [0%nat]; items := {[ k := 0%nat ]}; expires := ∅;
                      maxBytes := 0; usedBytes := wrap_int64 (0 + wrap_int64 (len k + Len b));
                      onEvicted := false; evicted := []; fresh := 1 |}).
  { unfold Set_, SetWithExpiration, newLRUCache. cbn.
    rewrite lookup_empty. cbn. unfold evict. cbn.
    rewrite delete_empty, map_to_list_empty. cbn. reflexivity. }
  edestruct (Get_hit {| mu := mutex_free; elems := {[ 0%nat := {| key := k; value := b |} ]};
                      list_ := [0%nat]; items := {[ k := 0%nat ]}; expires := ∅;
                      maxBytes := 0; usedBytes := wrap_int64 (0 + wrap_int64 (len k + Len b));
                      onEvicted := false; evicted := []; fresh := 1 |} k t3 0%nat
                     {| key := k; value := b |}) as (c' & HG & Hl & Hm & Hit & _).
  1-2: reflexivity.
  1-2: cbn; apply lookup_singleton_eq.
  { cbn. intros t. rewrite lookup_empty. done. }
  eexists _, c', 0%nat. split; [exact HS|].
  split; [exact HG|].
  split; [rewrite Hit; cbn; apply lookup_singleton_eq|].
  split; [rewrite Hl; vm_compute; reflexivity|].
  rewrite Hm. reflexivity.
Qed.

(** C3.  With [maxBytes] = 20, [Set "a"] of 5 bytes followed by
    [Set "a"] of 30 bytes returns with [usedBytes] = 31: the update of
    a present key returns before [evict] is reached. *)
Theorem lru_update_exceeds_maxBytes :
  returns (Set_ (newLRUCache 20 false) "a" (Some (bytes_n 5)) 0 0) (λ c1,
  returns (Set_ c1 "a" (Some (bytes_n 30)) 1 1) (λ c2,
    usedBytes c1 = 6 ∧ maxBytes c2 = 20 ∧ usedBytes c2 = 31 ∧
    maxBytes c2 < usedBytes c2)).
Proof. vm_compute. repeat split; reflexivity. Qed.

(** The update path in general: on an idle store that already has [k],
    [SetWithExpiration] adds the difference of the value lengths to
    [usedBytes] and returns, whatever [maxBytes] is. *)
Lemma SetWithExpiration_update c k b d now now' e old :
  writer (mu c) = false → readers (mu c) = 0%nat →
  items c !! k = Some e → elems c !! e = Some old →
  ∃ c', SetWithExpiration c k (Some b) d now now' = Ret c' ∧
        usedBytes c' = wrap_int64 (usedBytes c + wrap_int64 (Len b - Len (value old))) ∧
        maxBytes c' = maxBytes c.
Proof.
  intros Hw Hr Hi He. unfold SetWithExpiration.
  rewrite with_mu_Lock by done. cbn [obind].
  destruct (0 <? d); cbn [set_expires set_mu items elems]; rewrite Hi;
    unfold entry_of; cbn [set_expires set_mu items elems]; rewrite He; cbn [obind];
    unfold list_MoveToBack, in_list; cbn;
    destruct (bool_decide (e ∈ list_ c)); cbn; eexists; split; reflexivity || (split; reflexivity).
Qed.
End lru_facts.

(** ** LRU engine: the byte bound on the insert path *)

Section lru_bound.
Import lru.

Lemma newLRUCache_consistent maxB oe : consistent (newLRUCache maxB oe).
Proof.
  unfold consistent, sum_sizes. cbn. split; [apply NoDup_nil_2|].
  split; [intros e He; by apply elem_of_nil in He|].
  split; [intros k e; rewrite lookup_empty; discriminate|]. split; [reflexivity|lia].
Qed.

Lemma wrap_int64_small x : - 2 ^ 63 ≤ x < 2 ^ 63 → wrap_int64 x = x.
Proof.
  intros H. unfold wrap_int64.
  rewrite Z.mod_small by lia. lia.
Qed.

Lemma entry_size_nonneg en : 0 ≤ entry_size en.
Proof. unfold entry_size, len, Len. lia. Qed.

Lemma sum_over_cons el e l :
  sum_over el (e :: l) =
  match el !! e with Some en => entry_size en + sum_over el l | None => sum_over el l end.
Proof. reflexivity. Qed.

Lemma sum_over_nonneg el l : 0 ≤ sum_over el l.
Proof.
  induction l as [|e l IH]; [cbn; lia|]. rewrite sum_over_cons.
  destruct (el !! e) as [en|]; [|assumption].
  pose proof (entry_size_nonneg en). lia.
Qed.

Lemma sum_over_app el l e :
  sum_over el (l ++ [e]) =
  sum_over el l + match el !! e with Some en => entry_size en | None => 0 end.
Proof.
  induction l as [|x l IH].
  - cbn [app]. rewrite sum_over_cons. cbn. destruct (el !! e); lia.
  - cbn [app]. rewrite !sum_over_cons, IH. destruct (el !! x); lia.
Qed.

Lemma sum_over_insert el l e en :
  e ∉ l → sum_over (<[e := en]> el) l = sum_over el l.
Proof.
  induction l as [|x l IH]; intros Hn; [reflexivity|].
  apply not_elem_of_cons in Hn as [Hx Hl].
  rewrite !sum_over_cons. rewrite lookup_insert_ne by congruence.
  rewrite IH by assumption. reflexivity.
Qed.

Lemma filter_ne_id (l : list nat) e : e ∉ l → filter (λ x, x ≠ e) l = l.
Proof.
  induction l as [|y l IH]; intros Hx; [reflexivity|].
  apply not_elem_of_cons in Hx as [Hy Hl]. rewrite filter_cons.
  rewrite decide_True by congruence. rewrite IH by assumption. reflexivity.
Qed.

Lemma sum_over_remove el l e en :
  NoDup l → e ∈ l → el !! e = Some en →
  sum_over el (filter (λ x, x ≠ e) l) = sum_over el l - entry_size en.
Proof.
  induction l as [|x l IH]; intros Hnd Hin He.
  - by apply elem_of_nil in Hin.
  - apply NoDup_cons in Hnd as [Hx Hnd]. rewrite filter_cons.
    destruct (decide (x ≠ e)) as [Hne|Heq].
    + apply elem_of_cons in Hin as [->|Hin]; [congruence|].
      rewrite !sum_over_cons, IH by assumption. destruct (el !! x); lia.
    + assert (x = e) as -> by (destruct (decide (x = e)); [assumption|contradiction]).
      rewrite sum_over_cons, He, filter_ne_id by assumption. lia.
Qed.

Lemma length_filter_remove (l : list nat) e :
  e ∈ l → (length (filter (λ x, x ≠ e) l) < length l)%nat.
Proof.
  induction l as [|x l IH]; intros He; [by apply elem_of_nil in He|].
  rewrite filter_cons. destruct (decide (x ≠ e)).
  - apply elem_of_cons in He as [->|He]; [congruence|]. cbn. specialize (IH He). lia.
  - cbn. pose proof (length_filter (λ x, x ≠ e) l). lia.
Qed.

(** [removeElement] of a listed element keeps the books. *)
Lemma removeElement_consistent c e :
  consistent c → e ∈ list_ c →
  ∃ c', removeElement c e = Ret c' ∧ consistent c' ∧
        maxBytes c' = maxBytes c ∧ mu c' = mu c ∧
        (length (list_ c') < length (list_ c))%nat.
Proof.
  intros (Hnd & Hl & Hi & Hu & Hb) He.
  destruct (Hl e He) as (Hfr & en & Hen & Hien).
  unfold removeElement, entry_of. rewrite Hen. cbn [obind].
  pose proof (sum_over_nonneg (elems c) (filter (λ x, x ≠ e) (list_ c))) as Hnn.
  pose proof (sum_over_remove (elems c) (list_ c) e en Hnd He Hen) as Hrem.
  pose proof (entry_size_nonneg en) as Hsz.
  assert (Hused : wrap_int64 (usedBytes c - wrap_int64 (len (key en) + Len (value en)))
                  = sum_over (elems c) (filter (λ x, x ≠ e) (list_ c))).
  { fold (entry_size en). unfold sum_sizes in *.
    rewrite (wrap_int64_small (entry_size en)) by lia.
    rewrite wrap_int64_small by lia. lia. }
  set (c1 := set_usedBytes _ _).
  assert (Hc1 : consistent c1 ∧ maxBytes c1 = maxBytes c ∧ mu c1 = mu c ∧
                (length (list_ c1) < length (list_ c))%nat).
  { split; [|split; [reflexivity|split; [reflexivity|]]].
    - unfold consistent, sum_sizes. subst c1.
      cbn [set_usedBytes set_expires set_items list_Remove set_list list_ elems items
           usedBytes fresh].
      split; [apply NoDup_filter; assumption|]. split; [|split; [|split]].
      + intros e' [Hne Hin]%list_elem_of_filter.
        destruct (Hl e' Hin) as (Hfr' & en' & Hen' & Hien'). split; [assumption|].
        exists en'. split; [assumption|].
        rewrite lookup_delete_ne; [assumption|].
        intros Hk. rewrite <- Hk in Hien'. congruence.
      + intros k e' [Hk Hke]%lookup_delete_Some.
        destruct (Hi k e' Hke) as (Hin & en' & Hen' & Hkey).
        split; [|eauto]. apply list_elem_of_filter. split; [|assumption].
        intros ->. congruence.
      + exact Hused.
      + unfold sum_sizes in Hb. lia.
    - subst c1. cbn [set_usedBytes set_expires set_items list_Remove set_list list_].
      apply length_filter_remove. assumption. }
  destruct Hc1 as (H1 & H2 & H3 & H4).
  destruct (onEvicted c1) eqn:Hoe.
  - eexists. split; [reflexivity|]. split; [exact H1|]. split; [exact H2|]. split; [exact H3|exact H4].
  - exists c1. split; [reflexivity|]. split; [exact H1|]. split; [exact H2|]. split; [exact H3|exact H4].
Qed.

Lemma evict_expired_consistent l now c :
  consistent c →
  ∃ c', evict_expired l now c = Ret c' ∧ consistent c' ∧
        maxBytes c' = maxBytes c ∧ mu c' = mu c.
Proof.
  revert c. induction l as [|[k expTime] l IH]; intros c Hc; [exists c; done|].
  cbn [evict_expired].
  destruct (After now expTime); [|cbn [obind]; apply IH; assumption].
  destruct (items c !! k) as [e|] eqn:Hk; [|cbn [obind]; apply IH; assumption].
  pose proof Hc as (Hnd & Hl & Hi & Hu & Hb).
  destruct (Hi k e Hk) as (Hin & _).
  destruct (removeElement_consistent c e Hc Hin) as (c1 & -> & Hc1 & Hm1 & Hmu1 & _).
  cbn [obind]. destruct (IH c1 Hc1) as (c' & -> & Hc' & Hm' & Hmu').
  exists c'. split; [reflexivity|]. split; [exact Hc'|]. split; congruence.
Qed.

Lemma evict_lru_consistent rounds c :
  consistent c → (length (list_ c) ≤ rounds)%nat →
  ∃ c', evict_lru rounds c = Ret c' ∧ consistent c' ∧
        maxBytes c' = maxBytes c ∧ mu c' = mu c ∧
        (0 < maxBytes c → usedBytes c' ≤ maxBytes c).
Proof.
  revert c. induction rounds as [|rounds IH]; intros c Hc Hlen.
  - exists c. cbn. do 4 (split; [done|]). intros Hmax.
    destruct Hc as (_ & _ & _ & Hu & _). rewrite Hu. unfold sum_sizes.
    destruct (list_ c); [cbn; lia|cbn in Hlen; lia].
  - cbn [evict_lru].
    destruct ((0 <? maxBytes c) && (maxBytes c <? usedBytes c) &&
              (0 <? Z.of_nat (length (list_ c)))) eqn:Hcond.
    + unfold list_Front. destruct (list_ c) as [|e l] eqn:Hl.
      { cbn in Hcond. rewrite andb_false_r in Hcond. discriminate. }
      cbn [head].
      destruct (removeElement_consistent c e Hc) as (c1 & -> & Hc1 & Hm1 & Hmu1 & Hlt);
        [rewrite Hl; left|].
      cbn [obind]. destruct (IH c1 Hc1) as (c' & -> & Hc' & Hm' & Hmu' & Hbound);
        [rewrite Hl in Hlt; cbn in *; lia|].
      exists c'. do 2 (split; [done|]). split; [congruence|]. split; [congruence|].
      rewrite Hm1 in Hbound. exact Hbound.
    + exists c. do 4 (split; [done|]). intros Hmax.
      apply andb_false_iff in Hcond as [[Hc1|Hc2]%andb_false_iff|Hc3].
      * apply Z.ltb_ge in Hc1. lia.
      * apply Z.ltb_ge in Hc2. lia.
      * apply Z.ltb_ge in Hc3.
        destruct Hc as (_ & _ & _ & Hu & _). rewrite Hu. unfold sum_sizes.
        destruct (list_ c); [cbn; lia|cbn in Hc3; lia].
Qed.

(** The insert path of [SetWithExpiration]: on an idle, consistent
    store with a byte bound, a [Set] of a key that is not present
    returns with [usedBytes] within [maxBytes]. *)
Lemma SetWithExpiration_insert_within_maxBytes c k b d now now' :
  consistent c → mu c = mutex_free → items c !! k = None →
  0 < maxBytes c → sum_sizes c + len k + Len b < 2 ^ 62 →
  ∃ c', SetWithExpiration c k (Some b) d now now' = Ret c' ∧
        consistent c' ∧ maxBytes c' = maxBytes c ∧ mu c' = mutex_free ∧
        usedBytes c' ≤ maxBytes c'.
Proof.
  intros Hc Hmu Hk Hmax Hsz. pose proof Hc as (Hnd & Hl & Hi & Hu & Hb).
  unfold SetWithExpiration, with_mu. rewrite Hmu. cbn [Lock mutex_free writer readers obind].
  set (ex := if 0 <? d then _ else _).
  assert (Hex : ∃ x, ex = set_expires (set_mu c {| readers := 0; writer := true |}) x)
    by (subst ex; destruct (0 <? d); eauto).
  destruct Hex as [x ->]. cbn [items set_expires set_mu]. rewrite Hk.
  unfold list_PushBack. cbv zeta.
  cbn [fresh elems list_ set_expires set_mu set_elems set_list set_fresh set_items
       set_usedBytes usedBytes items].
  set (cI := set_usedBytes _ _).
  pose proof (sum_over_nonneg (elems c) (list_ c)) as Hnn.
  pose proof (entry_size_nonneg {| key := k; value := b |}) as Hen.
  unfold entry_size in Hen. cbn [key value] in Hen.
  assert (Hfresh : fresh c ∉ list_ c).
  { intros Hin. destruct (Hl _ Hin) as [Hlt _]. lia. }
  assert (HcI : consistent cI).
  { unfold consistent, sum_sizes. subst cI.
    cbn [list_ elems items usedBytes fresh set_expires set_mu set_elems set_list set_fresh
         set_items set_usedBytes].
    split; [|split; [|split; [|split]]].
    - apply NoDup_app. split; [assumption|]. split; [|apply NoDup_singleton].
      intros e He Hs%list_elem_of_singleton. subst e. contradiction.
    - intros e [He|Hs%list_elem_of_singleton]%elem_of_app; [|subst e].
      + destruct (Hl e He) as (Hlt & en & Hen' & Hien). split; [lia|].
        exists en. rewrite lookup_insert_ne by lia. split; [assumption|].
        rewrite lookup_insert_ne; [assumption|]. intros Heq. rewrite <- Heq in Hien. congruence.
      + split; [lia|]. exists {| key := k; value := b |}.
        rewrite lookup_insert_eq. cbn [key]. rewrite lookup_insert_eq. done.
    - intros k' e. rewrite lookup_insert_Some. intros [[<- <-]|[Hne Hke]].
      + split; [apply elem_of_app; right; apply list_elem_of_singleton; reflexivity|].
        exists {| key := k; value := b |}. rewrite lookup_insert_eq. done.
      + destruct (Hi k' e Hke) as (Hin & en & Hen' & Hkey).
        split; [apply elem_of_app; left; assumption|].
        exists en. rewrite lookup_insert_ne; [done|]. intros Heq. subst e. contradiction.
    - rewrite sum_over_app, lookup_insert_eq, sum_over_insert by assumption.
      unfold entry_size. cbn [key value]. unfold sum_sizes in *.
      rewrite (wrap_int64_small (len k + Len b)) by lia.
      rewrite wrap_int64_small by lia. lia.
    - rewrite sum_over_app, lookup_insert_eq, sum_over_insert by assumption.
      unfold entry_size. cbn [key value]. unfold sum_sizes in *. lia. }
  unfold evict.
  destruct (evict_expired_consistent (map_to_list (expires cI)) now' cI HcI)
    as (c1 & -> & Hc1 & Hm1 & Hmu1). cbn [obind].
  destruct (evict_lru_consistent (length (list_ c1)) c1 Hc1 (le_n _))
    as (c2 & -> & Hc2 & Hm2 & Hmu2 & Hbound). cbn [obind].
  assert (HmI : maxBytes cI = maxBytes c) by reflexivity.
  assert (HmuI : mu cI = {| readers := 0; writer := true |}) by reflexivity.
  rewrite Hmu2, Hmu1, HmuI. cbn [Unlock writer readers obind].
  eexists. split; [reflexivity|].
  split; [exact Hc2|].
  cbn [set_mu maxBytes mu usedBytes]. split; [congruence|]. split; [reflexivity|].
  rewrite Hm2. apply Hbound. rewrite Hm1, HmI. assumption.
Qed.
End lru_bound.

(** ** Single-flight *)

Section singleflight_facts.
Import singleflight.

(** C4.  Two overlapping calls of [Do] for the same key can both miss
    the Load, both run [fn] at the same time, and return the results
    of two different invocations. *)
Theorem singleflight_overlapping_calls_run_fn_twice (fn : nat → Z) :
  (g_mid ← run fn race_prefix (enter ["k"; "k"]);
   Some (in_fn g_mid 0, in_fn g_mid 1)) = Some (true, true) ∧
  (g_end ← run fn race_schedule (enter ["k"; "k"]);
   Some (started g_end, returned g_end 0, returned g_end 1))
  = Some (2%nat, Some (Some (fn 0%nat)), Some (Some (fn 1%nat))).
Proof. split; vm_compute; reflexivity. Qed.

(** When the second caller only starts after the first has stored its
    record, it waits and returns the first caller's result: one
    invocation. *)
Lemma singleflight_coalesced (fn : nat → Z) :
  (g_end ← run fn [0; 0; 0; 1; 0; 0; 0; 1; 1; 0; 0]%nat (enter ["k"; "k"]);
   Some (started g_end, returned g_end 0, returned g_end 1))
  = Some (1%nat, Some (Some (fn 0%nat)), Some (Some (fn 0%nat))).
Proof. vm_compute. reflexivity. Qed.

(** A waiter cannot move while the producer has not called Done. *)
Lemma singleflight_waiter_blocked (fn : nat → Z) :
  (g ← run fn [0; 0; 0; 1; 0]%nat (enter ["k"; "k"]); step fn g 1) = None.
Proof. vm_compute. reflexivity. Qed.

(** A call that starts after the first has returned runs [fn] again. *)
Lemma singleflight_later_call_reruns (fn : nat → Z) :
  (g_end ← run fn [0; 0; 0; 0; 0; 0; 0; 0; 1; 1; 1; 1; 1; 1; 1; 1]%nat (enter ["k"; "k"]);
   Some (started g_end, returned g_end 0, returned g_end 1))
  = Some (2%nat, Some (Some (fn 0%nat)), Some (Some (fn 1%nat))).
Proof. vm_compute. reflexivity. Qed.
End singleflight_facts.

(** ** Cache wrapper and Group *)

Section mycache_facts.
Import mycache.

(** C9.  [Group.Set] checks closed, empty key, empty value in this
    order; in each case it returns the matching error, leaves the
    group (and with it the local store) as it was, and starts no
    goroutine. *)
Theorem Group_Set_errors (g : Group) (ctx : Context) (key : string)
    (value : list Byte.byte) (clk : clock) :
  (gclosed g = 1 → Set_ g ctx key value clk = Ret (Some ErrGroupClosed, g, [])) ∧
  (gclosed g ≠ 1 → key = "" → Set_ g ctx key value clk = Ret (Some ErrKeyRequired, g, [])) ∧
  (gclosed g ≠ 1 → key ≠ "" → value = [] →
     Set_ g ctx key value clk = Ret (Some ErrValueRequired, g, [])).
Proof.
  unfold Set_. repeat split.
  - intros ->. reflexivity.
  - intros Hc ->. apply Z.eqb_neq in Hc. rewrite Hc. reflexivity.
  - intros Hc Hk ->. apply Z.eqb_neq in Hc. rewrite Hc.
    rewrite bool_decide_eq_false_2 by done. reflexivity.
Qed.

Lemma Group_Set_errors_witness :
  Set_ (group_of 1 None) Background "" [] clk0 = Ret (Some ErrGroupClosed, group_of 1 None, []) ∧
  Set_ (group_of 0 None) Background "" [] clk0 = Ret (Some ErrKeyRequired, group_of 0 None, []) ∧
  Set_ (group_of 0 None) Background "k" [] clk0 = Ret (Some ErrValueRequired, group_of 0 None, []).
Proof.
  split; [|split].
  - apply (Group_Set_errors (group_of 1 None) Background "" [] clk0). reflexivity.
  - apply (Group_Set_errors (group_of 0 None) Background "" [] clk0); [discriminate|reflexivity].
  - apply (Group_Set_errors (group_of 0 None) Background "k" [] clk0);
      [discriminate|discriminate|reflexivity].
Defined.

(** A store fresh from [NewStore] has no entry. *)
Lemma NewStore_empty o key : Store_has (NewStore o) key = false.
Proof.
  unfold NewStore. destruct (CacheType_ o); cbn [Store_has].
  - reflexivity.
  - unfold lru2.live_in, lru2.admission, lru2.main, lru2.newLRU2Cache. cbv zeta.
    cbn [lru2.caches].
    destruct (replicate _ _ !! _) as [cc|] eqn:E; [|reflexivity].
    apply lookup_replicate_1 in E as [-> _]. reflexivity.
  - reflexivity.
Qed.

(** C10.  [Cache.AddWithExpiration] with an instant that is not in the
    future never reaches the store's [SetWithExpiration]: nothing is
    inserted and nothing is deleted.  A closed cache, and a cache
    that has its store, are returned exactly as they were.  An open
    cache that has no store yet is initialised first, because
    [ensureInitialized] runs before the check of the instant: it
    gets the empty store that [NewStore] builds and is marked
    initialised.  In every case the keys that have an entry are the
    same before and after. *)
Theorem Cache_AddWithExpiration_not_in_future (c : Cache) (key : string)
    (value : ByteView) (t : Z) (clk : clock) :
  t - t_cache clk ≤ 0 →
  ∃ c', Cache_AddWithExpiration c key value t clk = Ret c' ∧
        (initialized c = 1 → c' = c) ∧
        (closed c = 1 → c' = c) ∧
        (closed c ≠ 1 → initialized c = 0 →
           store c' = Some (NewStore (opts c)) ∧ initialized c' = 1) ∧
        ((initialized c ≠ 1 → store c = None) →
           ∀ key', Cache_has c' key' = Cache_has c key').
Proof.
  intros Ht. unfold Cache_AddWithExpiration.
  destruct (closed c =? 1) eqn:Hc.
  - exists c. apply Z.eqb_eq in Hc. repeat split; try done.
  - apply Z.eqb_neq in Hc.
    rewrite (proj2 (Z.leb_le _ _) Ht).
    exists (ensureInitialized c). unfold ensureInitialized.
    split; [reflexivity|].
    split; [intros ->; reflexivity|].
    split; [intros; lia|].
    split; [intros _ ->; cbn; done|].
    intros Hinv key'.
    destruct (initialized c =? 1) eqn:E1; [reflexivity|].
    destruct (initialized c =? 0) eqn:E0; [|reflexivity].
    apply Z.eqb_neq in E1. unfold Cache_has. cbn [store].
    rewrite (Hinv E1). apply NewStore_empty.
Qed.

Lemma Cache_AddWithExpiration_not_in_future_witness :
  ∃ c', Cache_AddWithExpiration cache_with_a "a" (bytes_n 7) 10 clk0 = Ret c' ∧
        (initialized cache_with_a = 1 → c' = cache_with_a) ∧
        (closed cache_with_a = 1 → c' = cache_with_a) ∧
        (closed cache_with_a ≠ 1 → initialized cache_with_a = 0 →
           store c' = Some (NewStore (opts cache_with_a)) ∧ initialized c' = 1) ∧
        ((initialized cache_with_a ≠ 1 → store cache_with_a = None) →
           ∀ key', Cache_has c' key' = Cache_has cache_with_a key').
Proof.
  apply (Cache_AddWithExpiration_not_in_future cache_with_a "a" (bytes_n 7) 10 clk0).
  vm_compute. discriminate.
Defined.

(** On an open cache that has no store yet the call does not leave
    the store as it was: with an instant that is not in the future
    it returns a cache that holds the store [NewStore] builds, where
    there was none, and that is marked initialised. *)
Lemma Cache_AddWithExpiration_creates_store :
  10 - t_cache clk0 ≤ 0 ∧
  store (NewCache opts_lru) = None ∧ initialized (NewCache opts_lru) = 0 ∧
  returns (Cache_AddWithExpiration (NewCache opts_lru) "a" (bytes_n 7) 10 clk0)
          (λ c', store c' = Some (NewStore opts_lru) ∧ initialized c' = 1 ∧
                 ∀ key', Cache_has c' key' = false) ∧
  ¬ AddWithExpiration_leaves_store (NewCache opts_lru) "a" (bytes_n 7) 10 clk0.
Proof.
  assert (E : Cache_AddWithExpiration (NewCache opts_lru) "a" (bytes_n 7) 10 clk0
              = Ret (ensureInitialized (NewCache opts_lru))) by reflexivity.
  split; [cbn; lia|]. split; [reflexivity|]. split; [reflexivity|]. split.
  - rewrite E. cbn [returns]. split; [reflexivity|]. split; [reflexivity|].
    intros key'. apply (NewStore_empty opts_lru key').
  - unfold AddWithExpiration_leaves_store. rewrite E. cbn [returns].
    intros H. discriminate H.
Qed.

(** The same call with an instant in the future does write the store. *)
Example Cache_AddWithExpiration_future_writes :
  returns (Cache_AddWithExpiration cache_with_a "a" (bytes_n 7) 11 clk0)
          (λ c', store c' ≠ store cache_with_a).
Proof. vm_compute. discriminate. Qed.

(** *** Propagation to peers *)

(** A locally originated [Delete] on a group whose picker names a
    remote owner reaches that owner by [Peer.Delete], which takes no
    context; and a locally originated [Set] whose owner is this node
    reaches nobody. *)
Lemma Group_propagation_counterexample :
  returns (Delete (group_of 0 (Some remote_owner)) Background "k") (λ r,
    r.1.1 = None ∧ propagation r.1.2 r.2 = [PeerDelete "n2:8002" "g" "k"] ∧
    ¬ propagated_marked r.1.2 "k" r.2) ∧
  returns (Set_ (group_of 0 (Some self_owner)) Background "k" (bytes_n 1) clk0) (λ r,
    r.1.1 = None ∧ propagation r.1.2 r.2 = [] ∧
    ¬ propagated_marked r.1.2 "k" r.2).
Proof.
  split.
  - assert (E : Delete (group_of 0 (Some remote_owner)) Background "k"
                = Ret (None, group_of 0 (Some remote_owner), [GoSyncToPeers Background "delete" "k" []]))
      by (vm_compute; reflexivity).
    rewrite E. cbn [returns fst snd]. split; [reflexivity|]. split; [reflexivity|].
    intros (r & pick & ctx & Hin & _ & _ & Hctx & _).
    cbn in Hin. apply list_elem_of_singleton in Hin. subst r. discriminate.
  - destruct (Set_ (group_of 0 (Some self_owner)) Background "k" (bytes_n 1) clk0)
      as [[[e g'] l]| |] eqn:E.
    2,3: vm_compute in E; discriminate.
    assert (e = None ∧ l = [GoSyncToPeers Background "set" "k" (bytes_n 1)] ∧ peers g' = Some self_owner)
      as (-> & -> & Hp).
    { vm_compute in E. injection E as <- <- <-. repeat split. }
    cbn [returns fst snd]. split; [reflexivity|].
    assert (Hpr : propagation g' [GoSyncToPeers Background "set" "k" (bytes_n 1)] = []).
    { unfold propagation. cbn -[syncToPeers]. unfold syncToPeers. rewrite Hp. reflexivity. }
    split; [exact Hpr|].
    intros (r & pick & ctx & Hin & _). rewrite Hpr in Hin. by apply elem_of_nil in Hin.
Qed.

(** C6, amended.  A [Set] or [Delete] under a context that carries
    [from_peer] starts no goroutine.  A [Set] or [Delete] that passes
    its argument checks under a context without the marker, on a group
    with a picker, starts exactly one [syncToPeers]; that goroutine
    makes no call when the picker reports no peer or this node, and
    otherwise one call on the owner: [Peer.Set] under a fresh context
    that carries [from_peer], or [Peer.Delete], which has no context. *)
Theorem Group_propagation (g : Group) (ctx : Context) (key : string)
    (value : list Byte.byte) (clk : clock) :
  (carries_from_peer ctx = true →
     (∀ e g' l, Set_ g ctx key value clk = Ret (e, g', l) → l = []) ∧
     (∀ e g' l, Delete g ctx key = Ret (e, g', l) → l = [])) ∧
  (carries_from_peer ctx = false → ∀ pick, peers g = Some pick →
     (∀ g' l, Set_ g ctx key value clk = Ret (None, g', l) →
        l = [GoSyncToPeers ctx "set" key value] ∧
        propagation g' l =
          (let '(peer, ok, isSelf) := pick key in
           if negb ok || isSelf then []
           else [PeerSet peer (WithValue Background "from_peer" true) (name g) key value]) ∧
        (∀ r c, r ∈ propagation g' l → rpc_ctx r = Some c → carries_from_peer c = true)) ∧
     (∀ g' l, Delete g ctx key = Ret (None, g', l) →
        l = [GoSyncToPeers ctx "delete" key []] ∧
        propagation g' l =
          (let '(peer, ok, isSelf) := pick key in
           if negb ok || isSelf then [] else [PeerDelete peer (name g) key]))).
Proof.
  split.
  - intros Hm. split.
    + intros e g' l. unfold Set_. rewrite Hm. cbn [negb andb].
      repeat case_match; try (intros [= <- <- <-]; reflexivity); try discriminate.
      all: destruct (Cache_AddWithExpiration _ _ _ _ _) || destruct (Cache_Add _ _ _ _);
        cbn; try discriminate; intros [= <- <- <-]; reflexivity.
    + intros e g' l. unfold Delete. rewrite Hm. cbn [negb andb].
      repeat case_match; try (intros [= <- <- <-]; reflexivity); try discriminate.
      destruct (Cache_Delete _ _); cbn; try discriminate. intros [= <- <- <-]; reflexivity.
  - intros Hm pick Hp. split.
    + intros g' l. unfold Set_. rewrite Hm. cbn [negb andb].
      destruct (gclosed g =? 1); [discriminate|].
      destruct (bool_decide (key = "")); [discriminate|].
      destruct (Z.of_nat (length value) =? 0); [discriminate|].
      destruct (if 0 <? expiration g then _ else _) as [c0| |]; cbn; try discriminate.
      rewrite Hp. rewrite bool_decide_eq_true_2 by eauto.
      intros [= <- <-]. split; [reflexivity|].
      unfold propagation. cbn -[syncToPeers]. unfold syncToPeers. cbn [peers set_mainCache name]. rewrite Hp. rewrite app_nil_r.
      destruct (pick key) as [[peer ok] isSelf].
      split; [destruct (negb ok || isSelf); reflexivity|].
      intros r c1 Hin. destruct (negb ok || isSelf).
      * by apply elem_of_nil in Hin.
      * apply list_elem_of_singleton in Hin. subst r. cbn. intros [= <-]. reflexivity.
    + intros g' l. unfold Delete. rewrite Hm. cbn [negb andb].
      destruct (gclosed g =? 1); [discriminate|].
      destruct (bool_decide (key = "")); [discriminate|].
      destruct (Cache_Delete _ _) as [r| |]; cbn; try discriminate.
      rewrite Hp. rewrite bool_decide_eq_true_2 by eauto.
      intros [= <- <-]. split; [reflexivity|].
      unfold propagation. cbn -[syncToPeers]. unfold syncToPeers. cbn [peers set_mainCache name]. rewrite Hp. rewrite app_nil_r.
      destruct (pick key) as [[peer ok] isSelf].
      destruct (negb ok || isSelf); reflexivity.
Qed.

Lemma Group_propagation_witness :
  returns (Set_ (group_of 0 (Some remote_owner)) (WithValue Background "from_peer" true)
                "k" (bytes_n 1) clk0) (λ r, r.2 = []) ∧
  returns (Set_ (group_of 0 (Some remote_owner)) Background "k" (bytes_n 1) clk0) (λ r,
    r.1.1 = None →
    r.2 = [GoSyncToPeers Background "set" "k" (bytes_n 1)] ∧
    propagation r.1.2 r.2 =
      [PeerSet "n2:8002" (WithValue Background "from_peer" true) "g" "k" (bytes_n 1)]) ∧
  returns (Delete (group_of 0 (Some remote_owner)) Background "k") (λ r,
    r.1.1 = None →
    r.2 = [GoSyncToPeers Background "delete" "k" []] ∧
    propagation r.1.2 r.2 = [PeerDelete "n2:8002" "g" "k"]).
Proof.
  pose proof (Group_propagation (group_of 0 (Some remote_owner))
                (WithValue Background "from_peer" true) "k" (bytes_n 1) clk0) as [Hmarked _].
  pose proof (Group_propagation (group_of 0 (Some remote_owner))
                Background "k" (bytes_n 1) clk0) as [_ Hplain].
  specialize (Hmarked eq_refl) as [HmS _].
  specialize (Hplain eq_refl remote_owner eq_refl) as [HpS HpD].
  split; [|split].
  - remember (Set_ (group_of 0 (Some remote_owner)) (WithValue Background "from_peer" true)
                   "k" (bytes_n 1) clk0) as o eqn:E in *.
    destruct o as [[[e g'] l]| |]; cbn [returns snd].
    + eapply HmS. reflexivity.
    + vm_compute in E. discriminate.
    + vm_compute in E. discriminate.
  - remember (Set_ (group_of 0 (Some remote_owner)) Background "k" (bytes_n 1) clk0)
      as o eqn:E in *.
    destruct o as [[[e g'] l]| |]; cbn [returns fst snd].
    + intros ->. destruct (HpS g' l eq_refl) as (H1 & H2 & _). split; assumption.
    + vm_compute in E. discriminate.
    + vm_compute in E. discriminate.
  - remember (Delete (group_of 0 (Some remote_owner)) Background "k") as o eqn:E in *.
    destruct o as [[[e g'] l]| |]; cbn [returns fst snd].
    + intros ->. destruct (HpD g' l eq_refl) as (H1 & H2). split; assumption.
    + vm_compute in E. discriminate.
    + vm_compute in E. discriminate.
Defined.
End mycache_facts.

(** ** Consistent hash ring *)

Section ring_facts.
Import consistenthash.

Lemma ring_RLock m :
  writer (mu m) = false →
  with_mu RLock m = Ret (set_mu m {| readers := S (readers (mu m)); writer := false |}).
Proof. intros H. unfold with_mu, RLock. rewrite H. reflexivity. Qed.

(** *** Binary search *)

Lemma Search_loop_first_ge (l : list Z) (h : Z) (rounds : nat) :
  sorted l →
  ∀ i j,
    0 ≤ i ≤ j → j ≤ Z.of_nat (length l) → j - i ≤ Z.of_nat rounds →
    (∀ (a : nat) x, Z.of_nat a < i → l !! a = Some x → x < h) →
    (∀ (a : nat) x, j ≤ Z.of_nat a → l !! a = Some x → h ≤ x) →
    first_ge l h (Search_loop rounds
                    (λ i, match l !! Z.to_nat i with Some x => h <=? x | None => false end) i j).
Proof.
  intros Hs. induction rounds as [|rounds IH]; intros i j Hij Hj Hr Hlo Hhi.
  - cbn. assert (i = j) as -> by lia.
    split; [lia|]. split; assumption.
  - cbn [Search_loop]. destruct (i <? j) eqn:Hlt.
    + apply Z.ltb_lt in Hlt.
      assert (Hh : i ≤ (i + j) / 2 < j) by (split; [apply Z.div_le_lower_bound|apply Z.div_lt_upper_bound]; lia).
      destruct (l !! Z.to_nat ((i + j) / 2)) as [x|] eqn:Hx.
      * destruct (h <=? x) eqn:Hc; cbn [negb].
        -- apply Z.leb_le in Hc. apply IH; try lia; [assumption|].
           intros a y Ha Hy.
           destruct (decide (j ≤ Z.of_nat a)) as [Hja|Hja]; [by eapply Hhi|].
           pose proof (Hs (Z.to_nat ((i + j) / 2)) a x y ltac:(lia) Hx Hy). lia.
        -- apply Z.leb_gt in Hc. apply IH; try lia; [|assumption].
           intros a y Ha Hy.
           pose proof (Hs a (Z.to_nat ((i + j) / 2)) y x ltac:(lia) Hy Hx). lia.
      * apply lookup_ge_None in Hx. lia.
    + apply Z.ltb_ge in Hlt. assert (i = j) as -> by lia.
      split; [lia|]. split; assumption.
Qed.

Lemma Search_first_ge (l : list Z) (h : Z) :
  sorted l →
  first_ge l h (Search (Z.of_nat (length l))
                  (λ i, match l !! Z.to_nat i with Some x => h <=? x | None => false end)).
Proof.
  intros Hs. unfold Search. apply Search_loop_first_ge; try assumption; try lia.
  intros a x Ha Hx. apply lookup_lt_Some in Hx. lia.
Qed.

(** *** Lookup *)

(** [Get] with the empty key returns at once, before any lock. *)
Lemma Get_empty_key m : Get m "" = Ret ("", m).
Proof. reflexivity. Qed.

(** On a ring with virtual nodes the empty key still gets the empty
    answer and no counter moves, where the wording of C5 asks for the
    owner of the first virtual node at or after the hash and for two
    increments. *)
Lemma ring_Get_empty_key_counterexample :
  Get ring_AB "" = Ret ("", ring_AB) ∧
  length (keys ring_AB) = 100%nat ∧
  ¬ Get_as_specified ring_AB "".
Proof.
  split; [apply Get_empty_key|]. split; [vm_compute; reflexivity|].
  assert (E : ∃ k0 ks, keys ring_AB = k0 :: ks) by (vm_compute; eauto).
  destruct E as (k0 & ks & E).
  unfold Get_as_specified. rewrite E.
  intros (i & h & _ & _ & HG). rewrite Get_empty_key in HG.
  assert (Htot : totalRequests ring_AB = 0) by (vm_compute; reflexivity).
  assert (HT := f_equal (λ o, match o with Ret r => totalRequests r.2 | _ => 0 end) HG).
  cbn [snd totalRequests set_totalRequests] in HT. rewrite Htot in HT.
  vm_compute in HT. discriminate.
Qed.

(** C5, amended.  On a ring whose write lock is free and whose [keys]
    are sorted: the empty key is answered by the empty string with the
    ring untouched; any other key is answered as the specification
    says - the empty string when there are no virtual nodes, otherwise
    the owner recorded for the first virtual node at or after the
    key's hash (the first of all when there is none), with that
    owner's count and [totalRequests] incremented in int64. *)
Theorem ring_Get (m : Map) (key : string) :
  writer (mu m) = false → sorted (keys m) →
  (key = "" → Get m key = Ret ("", m)) ∧
  (key ≠ "" → Get_as_specified m key).
Proof.
  intros Hw Hs. split; [intros ->; apply Get_empty_key|].
  intros Hk. unfold Get_as_specified, Get.
  rewrite bool_decide_eq_false_2 by assumption.
  rewrite ring_RLock by assumption. cbn [obind].
  destruct (keys m) as [|k0 ks] eqn:Hkeys.
  - cbn [set_mu keys]. rewrite Hkeys. cbn.
    destruct m as [[r w] ? ? ? ? ? ?]. cbn in *. subst w. reflexivity.
  - cbn [set_mu keys]. rewrite Hkeys.
    replace (Z.of_nat (length (k0 :: ks)) =? 0) with false
      by (symmetry; apply Z.eqb_neq; cbn [length]; lia).
    pose proof (Search_first_ge (k0 :: ks) (HashFunc (config m) key)) as Hf.
    rewrite <- Hkeys in Hs. rewrite Hkeys in Hs. specialize (Hf Hs).
    unfold keys_ge. cbn [set_mu keys config]. rewrite Hkeys.
    set (i := Search _ _) in *.
    set (idx := if i =? Z.of_nat (length (k0 :: ks)) then 0 else i).
    assert (Hidx : 0 ≤ idx < Z.of_nat (length (k0 :: ks))).
    { subst idx. destruct Hf as [Hb _]. destruct (i =? _) eqn:He.
      - cbn [length]. lia.
      - apply Z.eqb_neq in He. lia. }
    destruct ((k0 :: ks) !! Z.to_nat idx) as [h|] eqn:Hh;
      [|apply lookup_ge_None in Hh; lia].
    exists i, h. split; [exact Hf|]. split; [exact Hh|].
    cbn. unfold with_mu, RUnlock. cbn.
    destruct m as [[r w] ? ? ? ? ? ?]. cbn in *. subst w. reflexivity.
Qed.

Lemma ring_AB_sorted : sorted (keys ring_AB).
Proof.
  assert (H : Sorted Z.le (keys ring_AB)).
  { assert (E : keys ring_AB = sort_Ints (keys ring_AB)) by (vm_compute; reflexivity).
    rewrite E. apply (Sorted_merge_sort Z.le). }
  apply Sorted_StronglySorted in H; [|intros ???; lia].
  revert H. generalize (keys ring_AB). intros l H.
  induction H as [|x l Hl IH Hx]; intros i j a b Hij Ha Hb.
  - rewrite lookup_nil in Ha. discriminate.
  - destruct i, j; cbn in *; try lia.
    + injection Ha as <-. injection Hb as <-. lia.
    + injection Ha as <-. rewrite Forall_forall in Hx. apply Hx.
      eapply list_elem_of_lookup_2. exact Hb.
    + eapply IH; [|exact Ha|exact Hb]. lia.
Qed.

Lemma ring_Get_witness :
  ("hello" = "" → Get ring_AB "hello" = Ret ("", ring_AB)) ∧
  ("hello" ≠ "" → Get_as_specified ring_AB "hello").
Proof.
  apply (ring_Get ring_AB "hello"); [vm_compute; reflexivity|apply ring_AB_sorted].
Defined.

(** *** Rebalancing *)


(** [Remove] cannot get the write lock while it is held. *)
Lemma Remove_blocks m node :
  node ≠ "" → writer (mu m) = true → Remove m node = Blocked.
Proof.
  intros Hn Hw. unfold Remove. rewrite bool_decide_eq_false_2 by assumption.
  unfold with_mu, Lock. rewrite Hw. reflexivity.
Qed.

Lemma rebalance_loop_blocks l avg m :
  writer (mu m) = true →
  (∃ node count, (node, count) ∈ l ∧ node ≠ "" ∧
                 newReplicas m avg node count ≠ default 0 (nodeReplicas m !! node)) →
  rebalance_loop l avg m = Blocked.
Proof.
  intros Hw. induction l as [|[node count] l IH]; intros (nd & ct & Hin & Hne & Hch).
  - by apply elem_of_nil in Hin.
  - cbn [rebalance_loop].
    destruct (newReplicas m avg node count =? default 0 (nodeReplicas m !! node)) eqn:E; cbn [negb].
    + apply Z.eqb_eq in E. apply IH. exists nd, ct.
      apply elem_of_cons in Hin as [[= -> ->]|Hin]; [congruence|done].
    + destruct (decide (node = "")) as [->|Hnode].
      * cbn. apply IH. exists nd, ct.
        apply elem_of_cons in Hin as [[= -> ->]|Hin]; [congruence|done].
      * rewrite Remove_blocks by assumption. reflexivity.
Qed.

(** Whatever the order in which the range visits [nodeCounts]: as soon
    as one node's replica count has to change, [rebalanceNodes] ends up
    waiting for the lock it holds itself. *)
Lemma rebalanceNodes_blocks_on_change l m :
  mu m = mutex_free →
  (∃ node count, (node, count) ∈ l ∧ node ≠ "" ∧
                 newReplicas m (avgLoad m) node count ≠ default 0 (nodeReplicas m !! node)) →
  rebalanceNodes_in l m = Blocked.
Proof.
  intros Hm Hex. unfold rebalanceNodes_in, with_mu. rewrite Hm. cbn [Lock mutex_free writer readers obind].
  rewrite rebalance_loop_blocks; [reflexivity|reflexivity|exact Hex].
Qed.


(** The slip in [rebalanceNodes], on the ring of A and B with 50
    virtual nodes each, after 1500 lookups for A and 500 for B: the
    replica counts computed are 33 and 75, but neither is installed,
    because [Remove] is called with the write lock held. *)
Lemma ring_rebalance_blocks :
  nodeReplicas ring_loaded !! "A" = Some 50 ∧
  newReplicas ring_loaded (avgLoad ring_loaded) "A" 1500 = 33 ∧
  newReplicas ring_loaded (avgLoad ring_loaded) "B" 500 = 75 ∧
  rebalanceNodes ring_loaded = Blocked ∧
  checkAndRebalance ring_loaded = Blocked.
Proof. repeat split; vm_compute; reflexivity. Qed.





End ring_facts.


(** ** LRU-2 engine *)

Section lru2_facts.
Import lru2.

(** *** Slices and the link table *)

Lemma at_Ret {A : Type} (l : list A) (i : Z) (x : A) :
  at_ l i = Ret x ↔ 0 ≤ i ∧ l !! Z.to_nat i = Some x.
Proof.
  unfold at_. destruct (i <? 0) eqn:E.
  - apply Z.ltb_lt in E. split; [discriminate|lia].
  - apply Z.ltb_ge in E. destruct (l !! Z.to_nat i); split.
    + intros [= ->]. done.
    + intros [_ [= ->]]. done.
    + discriminate.
    + intros [_ [=]].
Qed.

Lemma at_total {A : Type} (l : list A) (i : Z) :
  0 ≤ i < Z.of_nat (length l) → ∃ x, at_ l i = Ret x.
Proof.
  intros H. destruct (lookup_lt_is_Some_2 l (Z.to_nat i)) as [x Hx]; [lia|].
  exists x. apply at_Ret. split; [lia|done].
Qed.

Lemma upd_Ret {A : Type} (l : list A) (i : Z) (x : A) :
  0 ≤ i < Z.of_nat (length l) → upd l i x = Ret (<[Z.to_nat i := x]> l).
Proof. intros H. unfold upd. destruct (at_total l i H) as [y ->]. reflexivity. Qed.

Lemma rd_total c j d :
  0 ≤ j < Z.of_nat (length (dlnk c)) → d = 0 ∨ d = 1 → ∃ x, rd c j d = Ret x.
Proof.
  intros Hj Hd. unfold rd. destruct (at_total (dlnk c) j Hj) as [pr ->]. cbn.
  destruct Hd as [-> | ->]; cbn; eauto.
Qed.

Lemma rd_Ret c j d x :
  rd c j d = Ret x →
  0 ≤ j < Z.of_nat (length (dlnk c)) ∧ (d = 0 ∨ d = 1) ∧
  ∃ pr, dlnk c !! Z.to_nat j = Some pr ∧ x = (if d =? 0 then pr.1 else pr.2).
Proof.
  unfold rd. destruct (at_ (dlnk c) j) as [pr| |] eqn:E; cbn; try discriminate.
  apply at_Ret in E as [Hj E]. pose proof (lookup_lt_Some _ _ _ E).
  destruct (d =? 0) eqn:E0; [|destruct (d =? 1) eqn:E1]; try discriminate.
  - intros [= <-]. apply Z.eqb_eq in E0. repeat split; eauto; lia.
  - intros [= <-]. apply Z.eqb_eq in E1. repeat split; eauto; lia.
Qed.

(** Reads after a whole row of the link table has been replaced. *)
Lemma rd_insert c i pr j d :
  0 ≤ i < Z.of_nat (length (dlnk c)) →
  rd (set_dlnk c (<[Z.to_nat i := pr]> (dlnk c))) j d =
  if decide (j = i) then (if d =? 0 then Ret pr.1 else if d =? 1 then Ret pr.2 else Panic)
  else rd c j d.
Proof.
  intros Hi. unfold rd, at_. cbn [set_dlnk dlnk].
  destruct (j <? 0) eqn:Ej.
  - apply Z.ltb_lt in Ej. rewrite decide_False by lia. reflexivity.
  - apply Z.ltb_ge in Ej. rewrite list_lookup_insert.
    destruct (decide (j = i)) as [->|Hne].
    + rewrite decide_True by (split; [reflexivity|lia]). reflexivity.
    + rewrite decide_False by lia. reflexivity.
Qed.

Lemma row_spec c i a b :
  0 ≤ i < Z.of_nat (length (dlnk c)) →
  ∃ l, upd (dlnk c) i (a, b) = Ret l ∧ length l = length (dlnk c) ∧
       ∀ j d, rd (set_dlnk c l) j d =
              if decide (j = i) then (if d =? 0 then Ret a else if d =? 1 then Ret b else Panic)
              else rd c j d.
Proof.
  intros Hi. rewrite upd_Ret by assumption. eexists. split; [reflexivity|].
  split; [apply length_insert|]. intros j d. apply rd_insert. assumption.
Qed.

(** What a write to one link does to all later reads. *)
Lemma wr_spec c i d x :
  0 ≤ i < Z.of_nat (length (dlnk c)) → d = 0 ∨ d = 1 →
  ∃ c', wr c i d x = Ret c' ∧
        m c' = m c ∧ hmap c' = hmap c ∧ last c' = last c ∧
        length (dlnk c') = length (dlnk c) ∧
        ∀ j d', rd c' j d' = if decide (j = i ∧ d' = d) then Ret x else rd c j d'.
Proof.
  intros Hi Hd. unfold wr.
  destruct (at_ (dlnk c) i) as [pr| |] eqn:E;
    [|destruct (at_total (dlnk c) i Hi) as [? ?]; congruence..].
  cbn [obind].
  assert (Hrd : ∀ d', rd c i d' = if d' =? 0 then Ret pr.1 else if d' =? 1 then Ret pr.2 else Panic).
  { intros d'. unfold rd. rewrite E. reflexivity. }
  destruct Hd as [-> | ->]; cbn [Z.eqb]; rewrite upd_Ret by assumption; cbn [obind].
  - eexists. split; [reflexivity|]. cbn [set_dlnk m hmap last dlnk].
    do 3 (split; [reflexivity|]). split; [apply length_insert|].
    intros j d'. rewrite rd_insert by assumption. cbn [fst snd].
    destruct (decide (j = i)) as [->|Hne].
    + rewrite Hrd. destruct (d' =? 0) eqn:E0.
      * apply Z.eqb_eq in E0. rewrite decide_True by done. reflexivity.
      * apply Z.eqb_neq in E0. rewrite decide_False by tauto. reflexivity.
    + rewrite decide_False by tauto. reflexivity.
  - eexists. split; [reflexivity|]. cbn [set_dlnk m hmap last dlnk].
    do 3 (split; [reflexivity|]). split; [apply length_insert|].
    intros j d'. rewrite rd_insert by assumption. cbn [fst snd].
    destruct (decide (j = i)) as [->|Hne].
    + rewrite Hrd. destruct (d' =? 0) eqn:E0.
      * apply Z.eqb_eq in E0. rewrite decide_False by lia. reflexivity.
      * destruct (d' =? 1) eqn:E1.
        -- apply Z.eqb_eq in E1. rewrite decide_True by done. reflexivity.
        -- apply Z.eqb_neq in E1. rewrite decide_False by tauto. reflexivity.
    + rewrite decide_False by tauto. reflexivity.
Qed.

Lemma rd_set_hmap c x j d : rd (set_hmap c x) j d = rd c j d.
Proof. reflexivity. Qed.

(** *** The boolean check and the shape conditions agree *)

Lemma cache_ok_shape c : cache_ok c = true ↔ lru2_shape c.
Proof.
  unfold cache_ok, lru2_shape. cbv zeta.
  rewrite !andb_true_iff, !Z.leb_le, bool_decide_eq_true, !forallb_forall, orb_true_iff.
  rewrite Z.ltb_lt.
  split.
  - intros [[[[[[[H1 H2] H3] H4] H5] H6] H7] H8].
    repeat split; try assumption; try lia.
    + apply rd_Ret in H as (_ & _ & pr & Hpr & ->).
      apply list_elem_of_lookup_2, list_elem_of_In in Hpr. specialize (H6 _ Hpr).
      rewrite !andb_true_iff, !Z.leb_le in H6. destruct (d =? 0); lia.
    + apply rd_Ret in H as (_ & _ & pr & Hpr & ->).
      apply list_elem_of_lookup_2, list_elem_of_In in Hpr. specialize (H6 _ Hpr).
      rewrite !andb_true_iff, !Z.leb_le in H6. destruct (d =? 0); lia.
    + apply elem_of_map_to_list, list_elem_of_In in H. specialize (H7 _ H).
      rewrite !andb_true_iff, !Z.leb_le in H7. cbn in H7. lia.
    + apply elem_of_map_to_list, list_elem_of_In in H. specialize (H7 _ H).
      rewrite !andb_true_iff, !Z.leb_le in H7. cbn in H7. lia.
    + intros Hl. destruct H8 as [H8|H8]; [lia|].
      destruct (dlnk c) as [|pr l] eqn:E; [discriminate|].
      apply andb_true_iff in H8 as [Ha Hb].
      apply negb_true_iff, Z.eqb_neq in Ha. apply negb_true_iff, Z.eqb_neq in Hb.
      exists pr.1, pr.2. unfold rd, at_. rewrite E. cbn. done.
  - intros ([H1 H2] & H3 & [H4 H5] & H6 & H7 & H8).
    repeat split; try assumption; try lia.
    + intros pr Hpr. apply list_elem_of_In, list_elem_of_lookup_1 in Hpr as [j Hj].
      pose proof (lookup_lt_Some _ _ _ Hj) as Hlt.
      assert (Ha : rd c (Z.of_nat j) 0 = Ret pr.1).
      { unfold rd, at_. rewrite (proj2 (Z.ltb_ge _ _)) by lia. rewrite Nat2Z.id, Hj. reflexivity. }
      assert (Hb : rd c (Z.of_nat j) 1 = Ret pr.2).
      { unfold rd, at_. rewrite (proj2 (Z.ltb_ge _ _)) by lia. rewrite Nat2Z.id, Hj. reflexivity. }
      apply H6 in Ha. apply H6 in Hb.
      rewrite !andb_true_iff, !Z.leb_le. lia.
    + intros [key i] Hin. apply list_elem_of_In, elem_of_map_to_list in Hin.
      apply H7 in Hin. rewrite !andb_true_iff, !Z.leb_le. cbn. lia.
    + destruct (decide (last c < 1)) as [?|Hl]; [left; done|right].
      destruct (H8 ltac:(lia)) as (a & b & Ha & Hna & Hb & Hnb).
      apply rd_Ret in Ha as (_ & _ & pr & Hpr & ->).
      apply rd_Ret in Hb as (_ & _ & pr' & Hpr' & ->).
      cbn in *. destruct (dlnk c) as [|pr0 l]; [discriminate|].
      cbn in *. injection Hpr as <-. injection Hpr' as <-.
      apply andb_true_iff. split; apply negb_true_iff, Z.eqb_neq; assumption.
Qed.

(** *** Moving a slot next to the sentinel *)

Lemma rd_linked c b j d :
  lru2_linked c b → 0 ≤ j ≤ b → d = 0 ∨ d = 1 →
  ∃ x, rd c j d = Ret x ∧ 0 ≤ x ≤ b.
Proof.
  intros (Hb & Hbd & _) Hj Hd.
  destruct (rd_total c j d) as [x Hx]; [lia|assumption|].
  exists x. split; [assumption|]. eapply Hbd; eassumption.
Qed.

Lemma rd_sentinel c b d :
  lru2_linked c b → d = 0 ∨ d = 1 →
  ∃ x, rd c 0 d = Ret x ∧ x ≠ 0 ∧ 0 ≤ x ≤ b.
Proof.
  intros (Hb & Hbd & (a & a' & Ha & Hna & Ha' & Hna')) [-> | ->].
  - exists a. split; [assumption|]. split; [assumption|]. eapply Hbd; eassumption.
  - exists a'. split; [assumption|]. split; [assumption|]. eapply Hbd; eassumption.
Qed.

Lemma wr_linked c b i d x :
  lru2_linked c b → 0 ≤ i ≤ b → 0 ≤ x ≤ b → d = 0 ∨ d = 1 → i ≠ 0 ∨ x ≠ 0 →
  ∃ c', wr c i d x = Ret c' ∧
        m c' = m c ∧ hmap c' = hmap c ∧ last c' = last c ∧
        length (dlnk c') = length (dlnk c) ∧
        lru2_linked c' b ∧
        ∀ j d', rd c' j d' = if decide (j = i ∧ d' = d) then Ret x else rd c j d'.
Proof.
  intros (Hb & Hbd & (a & a' & Ha & Hna & Ha' & Hna')) Hi Hx Hd Hnz.
  destruct (wr_spec c i d x) as (c' & Hw & Hm & Hh & Hl & Hlen & Hrd); [lia|assumption|].
  exists c'. repeat split; try assumption.
  - lia.
  - rewrite Hrd in H. case_decide; [injection H as <-; lia|]. eapply Hbd; eassumption.
  - rewrite Hrd in H. case_decide; [injection H as <-; lia|]. eapply Hbd; eassumption.
  - exists (if decide (0 = i ∧ 0 = d) then x else a), (if decide (0 = i ∧ 1 = d) then x else a').
    rewrite !Hrd. repeat split; repeat case_decide; try assumption; try reflexivity; lia.
Qed.

Lemma adjust_linked c b idx f t :
  lru2_linked c b → 1 ≤ idx ≤ b → (f = 0 ∧ t = 1) ∨ (f = 1 ∧ t = 0) →
  ∃ c', adjust c idx f t = Ret c' ∧
        m c' = m c ∧ hmap c' = hmap c ∧ last c' = last c ∧
        length (dlnk c') = length (dlnk c) ∧
        lru2_linked c' b.
Proof.
  intros Hc Hidx Hft.
  assert (Hf : f = 0 ∨ f = 1) by lia. assert (Ht : t = 0 ∨ t = 1) by lia.
  unfold adjust.
  destruct (rd_linked c b idx f Hc ltac:(lia) Hf) as (B & HB & HBb). rewrite HB. cbn [obind].
  destruct (B =? 0) eqn:EB; cbn [negb]; [exists c; done|].
  apply Z.eqb_neq in EB.
  destruct (rd_linked c b idx t Hc ltac:(lia) Ht) as (A & HA & HAb). rewrite HA. cbn [obind].
  destruct (wr_linked c b A f B Hc HAb HBb Hf ltac:(right; assumption))
    as (c1 & -> & Hm1 & Hh1 & Hl1 & Hn1 & Hc1 & Hr1). cbn [obind].
  assert (HB1 : rd c1 idx f = Ret B) by (rewrite Hr1; case_decide; [reflexivity|assumption]).
  rewrite HB1. cbn [obind].
  destruct (rd_linked c1 b idx t Hc1 ltac:(lia) Ht) as (A' & HA' & HAb'). rewrite HA'. cbn [obind].
  destruct (wr_linked c1 b B t A' Hc1 HBb HAb' Ht ltac:(left; assumption))
    as (c2 & -> & Hm2 & Hh2 & Hl2 & Hn2 & Hc2 & Hr2). cbn [obind].
  destruct (wr_linked c2 b idx f 0 Hc2 ltac:(lia) ltac:(lia) Hf ltac:(left; lia))
    as (c3 & -> & Hm3 & Hh3 & Hl3 & Hn3 & Hc3 & Hr3). cbn [obind].
  destruct (rd_sentinel c3 b t Hc3 Ht) as (S3 & -> & HS3 & HS3b). cbn [obind].
  destruct (wr_linked c3 b idx t S3 Hc3 ltac:(lia) HS3b Ht ltac:(left; lia))
    as (c4 & -> & Hm4 & Hh4 & Hl4 & Hn4 & Hc4 & Hr4). cbn [obind].
  destruct (rd_sentinel c4 b t Hc4 Ht) as (S4 & -> & HS4 & HS4b). cbn [obind].
  destruct (wr_linked c4 b S4 f idx Hc4 HS4b ltac:(lia) Hf ltac:(left; assumption))
    as (c5 & -> & Hm5 & Hh5 & Hl5 & Hn5 & Hc5 & Hr5). cbn [obind].
  destruct (wr_linked c5 b 0 t idx Hc5 ltac:(lia) ltac:(lia) Ht ltac:(right; lia))
    as (c6 & -> & Hm6 & Hh6 & Hl6 & Hn6 & Hc6 & Hr6).
  exists c6. split; [reflexivity|]. do 4 (split; [congruence|]). exact Hc6.
Qed.

(** *** The node arena *)

Lemma slot_eq idx : 1 ≤ idx ≤ 65536 → slot idx = idx - 1.
Proof. intros H. unfold slot, wrap_uint16. apply Z.mod_small. lia. Qed.

Lemma node_at_total c idx :
  1 ≤ idx ≤ Z.of_nat (length (m c)) → Z.of_nat (length (m c)) ≤ 65535 →
  ∃ nd, node_at c idx = Ret nd.
Proof.
  intros H1 H2. unfold node_at. rewrite slot_eq by lia. apply at_total. lia.
Qed.

Lemma set_node_spec c idx nd :
  1 ≤ idx ≤ Z.of_nat (length (m c)) → Z.of_nat (length (m c)) ≤ 65535 →
  ∃ c', set_node c idx nd = Ret c' ∧
        dlnk c' = dlnk c ∧ hmap c' = hmap c ∧ last c' = last c ∧
        length (m c') = length (m c) ∧
        node_at c' idx = Ret nd.
Proof.
  intros H1 H2. unfold set_node. rewrite slot_eq by lia.
  rewrite upd_Ret by lia. cbn [obind]. eexists. split; [reflexivity|].
  cbn [set_m dlnk hmap last m]. do 3 (split; [reflexivity|]).
  split; [apply length_insert|].
  unfold node_at. rewrite slot_eq by lia. cbn [set_m m]. apply at_Ret.
  split; [lia|]. apply list_lookup_insert_eq. lia.
Qed.

Lemma rd_ext c c' j d : dlnk c' = dlnk c → rd c' j d = rd c j d.
Proof. intros H. unfold rd. rewrite H. reflexivity. Qed.

Lemma node_at_ext c c' idx : m c' = m c → node_at c' idx = node_at c idx.
Proof. intros H. unfold node_at. rewrite H. reflexivity. Qed.

Lemma linked_ext c c' b : dlnk c' = dlnk c → lru2_linked c b → lru2_linked c' b.
Proof.
  intros H (H1 & H2 & (a & a' & H3)). unfold lru2_linked. rewrite H.
  split; [assumption|]. split.
  - intros j d x. rewrite (rd_ext c c') by assumption. apply H2.
  - exists a, a'. rewrite !(rd_ext c c') by assumption. assumption.
Qed.

Lemma shape_linked c : lru2_shape c → 1 ≤ last c → lru2_linked c (last c).
Proof.
  intros (Hcap & Hlen & Hlast & Hbd & Hhm & Hsent) Hl.
  split; [lia|]. split; [assumption|]. apply Hsent. assumption.
Qed.

Lemma shape_intro c :
  1 ≤ Z.of_nat (length (m c)) ≤ 65534 →
  length (dlnk c) = S (length (m c)) →
  0 ≤ last c ≤ Z.of_nat (length (m c)) →
  lru2_linked c (last c) →
  (∀ key i, hmap c !! key = Some i → 1 ≤ i ≤ last c) →
  lru2_shape c.
Proof.
  intros H1 H2 H3 (H4 & H5 & H6) H7. unfold lru2_shape. cbv zeta.
  repeat split; try lia; try (eapply H5; eassumption); try (eapply H7; eassumption).
  intros _. exact H6.
Qed.

Lemma holds_intro c key idx nd :
  hmap c !! key = Some idx → node_at c idx = Ret nd →
  holds c key = Some (v nd, expireAt nd).
Proof. intros H1 H2. unfold holds. rewrite H1, H2. reflexivity. Qed.

(** *** del, get *)

(** [del] on a well-shaped level returns; it tombstones the key's slot
    when that slot is live and changes nothing otherwise. *)
Lemma del_spec c key :
  lru2_shape c →
  ∃ c', lru2_shape c' ∧ length (m c') = length (m c) ∧
    ((∃ nd e, del c key = Ret (Some nd, 1, e, c') ∧ 0 < e ∧
              holds c key = Some (v nd, e) ∧ holds c' key = Some (v nd, 0)) ∨
     (del c key = Ret (None, 0, 0, c) ∧ c' = c ∧ live c key = false)).
Proof.
  intros Hs. pose proof Hs as (Hcap & Hlen & Hlast & Hbd & Hhm & Hsent).
  unfold del, live, holds. destruct (hmap c !! key) as [idx|] eqn:Hk;
    [|exists c; split; [assumption|]; split; [reflexivity|]; right; done].
  pose proof (Hhm _ _ Hk) as Hidx.
  destruct (node_at_total c idx) as [nd Hnd]; [lia..|]. rewrite Hnd. cbn [obind].
  destruct (0 <? expireAt nd) eqn:He;
    [|exists c; split; [assumption|]; split; [reflexivity|]; right; done].
  apply Z.ltb_lt in He.
  destruct (set_node_spec c idx {| k := k nd; v := v nd; expireAt := 0 |})
    as (c1 & -> & Hd1 & Hh1 & Hl1 & Hm1 & Hn1); [lia..|]. cbn [obind].
  destruct (adjust_linked c1 (last c) idx n p) as (c2 & -> & Hm2 & Hh2 & Hl2 & Hn2 & Hc2).
  { apply (linked_ext c); [assumption|]. apply shape_linked; [assumption|lia]. }
  { lia. } { right. done. }
  cbn [obind]. rewrite (node_at_ext c1 c2) by assumption. rewrite Hn1. cbn [obind].
  exists c2. split; [|split; [congruence|]].
  - apply shape_intro; rewrite ?Hm2, ?Hm1, ?Hl2, ?Hl1, ?Hh2, ?Hh1, ?Hn2, ?Hd1; try assumption.
  - left. exists {| k := k nd; v := v nd; expireAt := 0 |}, (expireAt nd).
    split; [reflexivity|]. split; [assumption|]. split; [reflexivity|].
    rewrite Hh2, Hh1, Hk. rewrite (node_at_ext c1 c2) by assumption. rewrite Hn1. reflexivity.
Qed.

(** [get] on a well-shaped level returns the node the key's slot holds
    and leaves every slot's contents as they were. *)
Lemma get_spec c key :
  lru2_shape c →
  ∃ c', lru2_shape c' ∧ length (m c') = length (m c) ∧
    (∀ key', holds c' key' = holds c key') ∧
    ((∃ nd, get c key = Ret (Some nd, 1, c') ∧ holds c key = Some (v nd, expireAt nd)) ∨
     (get c key = Ret (None, 0, c) ∧ c' = c ∧ holds c key = None)).
Proof.
  intros Hs. pose proof Hs as (Hcap & Hlen & Hlast & Hbd & Hhm & Hsent).
  unfold get. destruct (hmap c !! key) as [idx|] eqn:Hk.
  2: { exists c. split; [assumption|]. split; [reflexivity|]. split; [reflexivity|].
       right. unfold holds. rewrite Hk. done. }
  pose proof (Hhm _ _ Hk) as Hidx.
  destruct (adjust_linked c (last c) idx p n) as (c2 & -> & Hm2 & Hh2 & Hl2 & Hn2 & Hc2).
  { apply shape_linked; [assumption|lia]. } { lia. } { left. done. }
  cbn [obind]. rewrite (node_at_ext c c2) by assumption.
  destruct (node_at_total c idx) as [nd Hnd]; [lia..|]. rewrite Hnd. cbn [obind].
  exists c2. split; [|split; [congruence|split]].
  - apply shape_intro; rewrite ?Hm2, ?Hl2, ?Hh2, ?Hn2; try assumption.
  - intros key'. unfold holds. rewrite Hh2.
    destruct (hmap c !! key'); [|reflexivity].
    rewrite (node_at_ext c c2) by assumption. reflexivity.
  - left. exists nd. split; [reflexivity|]. apply (holds_intro c key idx nd); assumption.
Qed.

(** *** put *)

Lemma wrap_cap c : lru2_shape c → wrap_uint16 (Z.of_nat (length (m c))) = Z.of_nat (length (m c)).
Proof. intros (Hcap & _). unfold wrap_uint16. apply Z.mod_small. lia. Qed.

(** The key is indexed: its slot is overwritten in place. *)
Lemma put_update c key val e oe idx :
  lru2_shape c → hmap c !! key = Some idx →
  ∃ c', put c key val e oe = Ret (0, c', []) ∧
        lru2_shape c' ∧ length (m c') = length (m c) ∧
        hmap c' = hmap c ∧ holds c' key = Some (val, e).
Proof.
  intros Hs Hk. pose proof Hs as (Hcap & Hlen & Hlast & Hbd & Hhm & Hsent).
  pose proof (Hhm _ _ Hk) as Hidx.
  unfold put. rewrite Hk.
  destruct (node_at_total c idx) as [nd Hnd]; [lia..|]. rewrite Hnd. cbn [obind].
  destruct (set_node_spec c idx {| k := k nd; v := val; expireAt := e |})
    as (c1 & -> & Hd1 & Hh1 & Hl1 & Hm1 & Hn1); [lia..|]. cbn [obind].
  destruct (adjust_linked c1 (last c) idx p n) as (c2 & -> & Hm2 & Hh2 & Hl2 & Hn2 & Hc2).
  { apply (linked_ext c); [assumption|]. apply shape_linked; [assumption|lia]. }
  { lia. } { left. done. }
  cbn [obind]. exists c2. split; [reflexivity|].
  split; [|split; [congruence|split; [congruence|]]].
  - apply shape_intro; rewrite ?Hm2, ?Hm1, ?Hl2, ?Hl1, ?Hh2, ?Hh1, ?Hn2, ?Hd1; assumption.
  - unfold holds. rewrite Hh2, Hh1, Hk. rewrite (node_at_ext c1 c2) by assumption.
    rewrite Hn1. reflexivity.
Qed.

(** The key is new and the arena is full: the tail slot is reused. *)
Lemma put_recycle c key val e oe :
  lru2_shape c → hmap c !! key = None → last c = Z.of_nat (length (m c)) →
  ∃ c' calls, put c key val e oe = Ret (1, c', calls) ∧
        lru2_shape c' ∧ length (m c') = length (m c) ∧
        holds c' key = Some (val, e).
Proof.
  intros Hs Hk Hfull. pose proof Hs as (Hcap & Hlen & Hlast & Hbd & Hhm & Hsent).
  unfold put. rewrite Hk, (wrap_cap c Hs), (proj2 (Z.eqb_eq _ _) Hfull).
  pose proof (shape_linked c Hs ltac:(lia)) as Hlk.
  destruct (rd_sentinel c (last c) p Hlk ltac:(left; done)) as (tl & Htl & Htl0 & Htlb).
  rewrite Htl. cbn [obind].
  destruct (node_at_total c tl) as [tail Htail]; [lia..|]. rewrite Htail. cbn [obind].
  cbv zeta. rewrite !rd_set_hmap, Htl. cbn [obind].
  change (hmap (set_hmap c (delete (k tail) (hmap c)))) with (delete (k tail) (hmap c)).
  set (h' := <[key := tl]> (delete (k tail) (hmap c))).
  set (ch := set_hmap (set_hmap c (delete (k tail) (hmap c))) h').
  destruct (set_node_spec ch tl {| k := key; v := val; expireAt := e |})
    as (c1 & -> & Hd1 & Hh1 & Hl1 & Hm1 & Hn1); [cbn; lia..|]. cbn [obind].
  rewrite (rd_ext c c1) by exact Hd1. rewrite Htl. cbn [obind].
  destruct (adjust_linked c1 (last c) tl p n) as (c2 & -> & Hm2 & Hh2 & Hl2 & Hn2 & Hc2).
  { apply (linked_ext c); [assumption|]. assumption. }
  { lia. } { left. done. }
  cbn [obind]. eexists c2, _. split; [reflexivity|].
  assert (Hhm2 : hmap c2 = h') by (rewrite Hh2, Hh1; reflexivity).
  split; [|split; [rewrite Hm2, Hm1; reflexivity|]].
  - apply shape_intro; rewrite ?Hm2, ?Hm1, ?Hl2, ?Hl1, ?Hn2, ?Hd1; cbn [ch set_hmap m dlnk last];
      try assumption.
    intros key' i. rewrite Hhm2. unfold h'. rewrite lookup_insert_Some.
    intros [[_ <-]|[_ Hd]]; [lia|].
    apply lookup_delete_Some in Hd as [_ Hd]. eapply Hhm; eassumption.
  - unfold holds. rewrite Hhm2. unfold h'. rewrite lookup_insert_eq.
    rewrite (node_at_ext c1 c2) by assumption. rewrite Hn1. reflexivity.
Qed.

(** The key is new and a slot is free: the next slot is handed out and
    linked in front. *)
Lemma put_fresh c key val e oe :
  lru2_shape c → hmap c !! key = None → last c ≠ Z.of_nat (length (m c)) →
  ∃ c', put c key val e oe = Ret (1, c', []) ∧
        lru2_shape c' ∧ length (m c') = length (m c) ∧
        holds c' key = Some (val, e).
Proof.
  intros Hs Hk Hfull. pose proof Hs as (Hcap & Hlen & Hlast & Hbd & Hhm & Hsent).
  unfold put. rewrite Hk, (wrap_cap c Hs), (proj2 (Z.eqb_neq _ _) Hfull).
  assert (Hl' : wrap_uint16 (last c + 1) = last c + 1)
    by (unfold wrap_uint16; apply Z.mod_small; lia).
  rewrite Hl'. cbv zeta. set (l' := last c + 1). set (ca := set_last c l').
  assert (Hl1 : 1 ≤ l' ≤ Z.of_nat (length (m c))) by (unfold l'; lia).
  assert (Hlenz : Z.of_nat (length (dlnk c)) = Z.of_nat (length (m c)) + 1) by lia.
  (* the first link written *)
  assert (Hstep : ∃ cb,
    (if Z.of_nat (size (hmap ca)) <=? 0 then wr ca 0 p (last ca)
     else h ←! rd ca 0 n; wr ca h p (last ca)) = Ret cb ∧
    m cb = m c ∧ hmap cb = hmap c ∧ last cb = l' ∧
    length (dlnk cb) = length (dlnk c) ∧
    (∀ j d x, rd cb j d = Ret x → 0 ≤ x ≤ l') ∧
    (∃ a, rd cb 0 0 = Ret a ∧ a ≠ 0) ∧
    (∀ j, rd cb j n = rd c j n)).
  { change (hmap ca) with (hmap c). change (last ca) with l'.
    destruct (Z.of_nat (size (hmap c)) <=? 0) eqn:Hsz.
    - destruct (wr_spec ca 0 p l') as (cb & -> & Hmb & Hhb & Hlb & Hnb & Hrb);
        [cbn; lia|left; done|].
      exists cb. split; [reflexivity|]. do 4 (split; [assumption|]).
      split; [|split].
      + intros j d x. rewrite Hrb. case_decide; [intros [= <-]; lia|].
        intros Hx. apply (Hbd j d x) in Hx. unfold l'. lia.
      + exists l'. rewrite Hrb. rewrite decide_True by done. split; [reflexivity|lia].
      + intros j. rewrite Hrb. rewrite decide_False; [reflexivity|]. intros [_ [=]].
    - apply Z.leb_gt in Hsz.
      destruct (map_choose (hmap c)) as (key0 & i0 & Hi0).
      { intros Hemp. rewrite Hemp, map_size_empty in Hsz. lia. }
      pose proof (Hhm _ _ Hi0) as Hi0b.
      destruct (rd_total c 0 n) as [h Hh]; [lia|right; done|].
      change (rd ca 0 n) with (rd c 0 n). rewrite Hh. cbn [obind].
      pose proof (Hbd _ _ _ Hh) as Hhb.
      destruct (wr_spec ca h p l') as (cb & -> & Hmb & Hhmb & Hlb & Hnb & Hrb);
        [cbn; lia|left; done|].
      exists cb. split; [reflexivity|]. do 4 (split; [assumption|]).
      split; [|split].
      + intros j d x. rewrite Hrb. case_decide; [intros [= <-]; lia|].
        intros Hx. apply (Hbd j d x) in Hx. unfold l'. lia.
      + destruct (Hsent ltac:(lia)) as (a & a' & Ha & Hna & _).
        rewrite Hrb. case_decide.
        * exists l'. split; [reflexivity|lia].
        * exists a. split; [exact Ha|assumption].
      + intros j. rewrite Hrb. rewrite decide_False; [reflexivity|]. intros [_ [=]]. }
  destruct Hstep as (cb & -> & Hmb & Hhb & Hlb & Hnb & Hbb & (sa & Hsa & Hsa0) & Hrb1).
  cbn [obind].
  (* the three field assignments on the new node *)
  destruct (node_at_total cb (last cb)) as [nd0 Hnd0]; [rewrite ?Hmb, ?Hlb; lia..|].
  rewrite Hnd0. cbn [obind].
  destruct (set_node_spec cb (last cb) {| k := key; v := v nd0; expireAt := expireAt nd0 |})
    as (c1 & -> & Hd1 & Hh1 & Hla1 & Hm1 & Hn1); [rewrite ?Hmb, ?Hlb; lia..|]. cbn [obind].
  rewrite Hla1, Hn1. cbn [obind k v expireAt].
  destruct (set_node_spec c1 (last cb) {| k := key; v := val; expireAt := expireAt nd0 |})
    as (c2 & -> & Hd2 & Hh2 & Hla2 & Hm2 & Hn2); [rewrite ?Hm1, ?Hmb, ?Hlb; lia..|]. cbn [obind].
  rewrite Hla2, Hla1, Hn2. cbn [obind k v expireAt].
  destruct (set_node_spec c2 (last cb) {| k := key; v := val; expireAt := e |})
    as (c3 & -> & Hd3 & Hh3 & Hla3 & Hm3 & Hn3); [rewrite ?Hm2, ?Hm1, ?Hmb, ?Hlb; lia..|]. cbn [obind].
  assert (Hd3c : dlnk c3 = dlnk cb) by congruence.
  assert (Hla3c : last c3 = l') by congruence.
  assert (Hm3c : length (m c3) = length (m c)) by congruence.
  assert (Hh3c : hmap c3 = hmap c) by congruence.
  (* the row of the new slot and the head link *)
  destruct (rd_total c 0 n) as [h2 Hh2']; [lia|right; done|].
  pose proof (Hbd _ _ _ Hh2') as Hh2b.
  rewrite (rd_ext cb c3) by assumption. rewrite (Hrb1 0), Hh2'. cbn [obind].
  rewrite Hla3c.
  destruct (row_spec c3 l' 0 h2) as (l & -> & Hll & Hrl); [rewrite Hd3c, Hnb; lia|].
  cbn [obind].
  set (cd := set_hmap (set_dlnk c3 l) (<[key := last (set_dlnk c3 l)]> (hmap (set_dlnk c3 l)))).
  change (last cd) with (last c3). rewrite Hla3c.
  destruct (wr_spec cd 0 n l') as (ce & -> & Hme & Hhe & Hle & Hne & Hre);
    [cbn; rewrite Hll, Hd3c, Hnb; lia|right; done|].
  cbn [obind]. exists ce. split; [reflexivity|].
  assert (Hrd_e : ∀ j d x, rd ce j d = Ret x → 0 ≤ x ≤ l').
  { intros j d x. rewrite Hre. case_decide; [intros [= <-]; lia|].
    unfold cd. rewrite rd_set_hmap, Hrl. case_decide.
    - destruct (d =? 0); [intros [= <-]; lia|].
      destruct (d =? 1); [intros [= <-]; unfold l'; lia|discriminate].
    - rewrite (rd_ext cb c3) by assumption. apply Hbb. }
  assert (Hhm_e : hmap ce = <[key := l']> (hmap c)).
  { rewrite Hhe. unfold cd. cbn [set_hmap hmap set_dlnk last]. rewrite Hla3c, Hh3c. reflexivity. }
  split; [|split].
  - apply shape_intro.
    + rewrite Hme. cbn [cd set_hmap set_dlnk m]. rewrite Hm3c. assumption.
    + rewrite Hne, Hme. cbn [cd set_hmap set_dlnk m dlnk]. rewrite Hll, Hd3c, Hnb, Hm3c. assumption.
    + rewrite Hle, Hme. cbn [cd set_hmap set_dlnk m last]. rewrite Hla3c, Hm3c. lia.
    + rewrite Hle. cbn [cd set_hmap set_dlnk last]. rewrite Hla3c.
      split; [rewrite Hne; cbn [cd set_hmap set_dlnk dlnk]; rewrite Hll, Hd3c, Hnb; lia|].
      split; [exact Hrd_e|].
      exists sa, l'. rewrite !Hre. rewrite decide_False by (intros [_ [=]]).
      rewrite decide_True by done.
      unfold cd. rewrite rd_set_hmap, Hrl. rewrite decide_False by lia.
      rewrite (rd_ext cb c3) by assumption. repeat split; try assumption. lia.
    + rewrite Hle. cbn [cd set_hmap set_dlnk last]. rewrite Hla3c, Hhm_e.
      intros key' i. rewrite lookup_insert_Some. intros [[_ <-]|[_ Hi]]; [lia|].
      apply Hhm in Hi. unfold l'. lia.
  - rewrite Hme. cbn [cd set_hmap set_dlnk m]. exact Hm3c.
  - unfold holds. rewrite Hhm_e, lookup_insert_eq.
    rewrite (node_at_ext cd ce) by assumption.
    change (node_at cd l') with (node_at c3 l'). rewrite <- Hlb, Hn3. reflexivity.
Qed.

(** [put] on a well-shaped level returns, keeps the level well shaped,
    and leaves the key indexed to a slot that holds the new value and
    expiry; an indexed key keeps its index. *)
Lemma put_spec c key val e oe :
  lru2_shape c →
  ∃ r c' calls, put c key val e oe = Ret (r, c', calls) ∧
        lru2_shape c' ∧ length (m c') = length (m c) ∧
        holds c' key = Some (val, e) ∧
        (is_Some (hmap c !! key) → hmap c' = hmap c ∧ calls = []).
Proof.
  intros Hs. destruct (hmap c !! key) as [idx|] eqn:Hk.
  - destruct (put_update c key val e oe idx Hs Hk) as (c' & Hp & H1 & H2 & H3 & H4).
    exists 0, c', []. do 4 (split; [assumption|]). intros _. split; [assumption|reflexivity].
  - destruct (decide (last c = Z.of_nat (length (m c)))) as [Hf|Hf].
    + destruct (put_recycle c key val e oe Hs Hk Hf) as (c' & calls & Hp & H1 & H2 & H3).
      exists 1, c', calls. do 4 (split; [assumption|]). intros [? [=]].
    + destruct (put_fresh c key val e oe Hs Hk Hf) as (c' & Hp & H1 & H2 & H3).
      exists 1, c', []. do 4 (split; [assumption|]). intros [? [=]].
Qed.

(** *** Shards *)

Lemma land_upper a b : 0 ≤ b → 0 ≤ Z.land a b ≤ b.
Proof.
  intros Hb. split; [apply Z.land_nonneg; right; assumption|].
  assert (H : Z.ldiff (Z.land a b) b = 0).
  { apply Z.bits_inj'. intros i Hi. rewrite Z.ldiff_spec, Z.land_spec, Z.bits_0.
    destruct (Z.testbit a i), (Z.testbit b i); reflexivity. }
  pose proof (Z.sub_nocarry_ldiff b (Z.land a b) H) as E.
  assert (0 ≤ Z.ldiff b (Z.land a b)) by (apply Z.ldiff_nonneg; left; assumption).
  lia.
Qed.

Lemma store_ok_spec s :
  store_ok s = true ↔
  0 ≤ mask s ∧ length (caches s) = S (Z.to_nat (mask s)) ∧
  ∀ i cc, caches s !! i = Some cc → lru2_shape cc.1 ∧ lru2_shape cc.2.
Proof.
  unfold store_ok. rewrite !andb_true_iff, Z.leb_le, bool_decide_eq_true, forallb_forall.
  split.
  - intros [[H1 H2] H3]. do 2 (split; [assumption|]). intros i cc Hcc.
    apply list_elem_of_lookup_2, list_elem_of_In, H3, andb_true_iff in Hcc.
    rewrite <- !cache_ok_shape. exact Hcc.
  - intros (H1 & H2 & H3). split; [split; assumption|]. intros cc Hcc.
    apply list_elem_of_In, list_elem_of_lookup_1 in Hcc as [i Hi].
    apply H3 in Hi. rewrite andb_true_iff, !cache_ok_shape. exact Hi.
Qed.

Lemma shard_in_range s key :
  store_ok s = true →
  0 ≤ shard s key ∧ (Z.to_nat (shard s key) < length (caches s))%nat.
Proof.
  intros (H1 & H2 & _)%store_ok_spec. unfold shard.
  pose proof (land_upper (hashBKRD key) (mask s) H1). lia.
Qed.

Lemma with_shard_id s i cc :
  caches s !! i = Some cc → lru2_with_shard s i cc [] = s.
Proof.
  intros H. destruct s as [cs oe ev mk]. unfold lru2_with_shard. cbn in *.
  rewrite list_insert_id by assumption. rewrite app_nil_r. reflexivity.
Qed.

Lemma with_shard_ok s i cc ev :
  store_ok s = true → lru2_shape cc.1 → lru2_shape cc.2 →
  store_ok (lru2_with_shard s i cc ev) = true.
Proof.
  intros (H1 & H2 & H3)%store_ok_spec Ha Hb. apply store_ok_spec.
  cbn [lru2_with_shard mask caches]. split; [assumption|].
  split; [rewrite length_insert; assumption|].
  intros j cc' Hj. apply list_lookup_insert_Some in Hj as [(-> & <- & _)|[_ Hj]].
  - split; assumption.
  - eapply H3; eassumption.
Qed.

Lemma with_shard_lookup s i cc ev :
  (i < length (caches s))%nat → caches (lru2_with_shard s i cc ev) !! i = Some cc.
Proof. intros H. cbn. apply list_lookup_insert_eq. assumption. Qed.

Lemma level_of_ws s i cc ev idx lvl :
  0 ≤ idx → Z.to_nat idx = i → (i < length (caches s))%nat →
  level_of (lru2_with_shard s i cc ev) idx lvl =
  if lvl =? 0 then Ret cc.1 else if lvl =? 1 then Ret cc.2 else Panic.
Proof.
  intros H0 <- Hi. unfold level_of.
  rewrite (proj2 (at_Ret _ idx cc)); [reflexivity|].
  split; [assumption|]. apply with_shard_lookup. assumption.
Qed.

Lemma set_level_ws s i cc ev idx c :
  0 ≤ idx → Z.to_nat idx = i → (i < length (caches s))%nat →
  set_level (lru2_with_shard s i cc ev) idx 0 c = Ret (lru2_with_shard s i (c, cc.2) ev) ∧
  set_level (lru2_with_shard s i cc ev) idx 1 c = Ret (lru2_with_shard s i (cc.1, c) ev).
Proof.
  intros H0 <- Hi. unfold set_level.
  rewrite (proj2 (at_Ret _ idx cc)) by (split; [assumption|apply with_shard_lookup; assumption]).
  cbn [obind Z.eqb Pos.eqb].
  split; rewrite upd_Ret by (cbn; rewrite length_insert; lia);
    cbn [obind]; unfold set_caches, lru2_with_shard; cbn [caches onEvicted evicted mask];
    rewrite !list_insert_insert_eq; reflexivity.
Qed.

Lemma add_evicted_ws s i cc ev x :
  add_evicted (lru2_with_shard s i cc ev) x = lru2_with_shard s i cc (ev ++ x).
Proof. unfold add_evicted, lru2_with_shard. cbn. rewrite app_assoc. reflexivity. Qed.

Lemma del_live_after c key c' :
  lru2_shape c →
  (∃ r, del c key = Ret (r, c')) → live c' key = false.
Proof.
  intros Hs [r Hr]. destruct (del_spec c key Hs) as (c2 & _ & _ & [(nd & e & Hd & _ & _ & Hh)|(Hd & -> & Hl)]).
  - rewrite Hd in Hr. injection Hr as _ <-. unfold live. rewrite Hh. reflexivity.
  - rewrite Hd in Hr. injection Hr as _ <-. assumption.
Qed.

(** [delete_] on the key's shard returns and leaves the key live in
    neither level. *)
Lemma delete_ws s i cc ev key idx :
  0 ≤ idx → Z.to_nat idx = i → (i < length (caches s))%nat →
  lru2_shape cc.1 → lru2_shape cc.2 →
  ∃ b a' b' ev',
    delete_ (lru2_with_shard s i cc ev) key idx = Ret (b, lru2_with_shard s i (a', b') ev') ∧
    lru2_shape a' ∧ lru2_shape b' ∧ live a' key = false ∧ live b' key = false.
Proof.
  intros H0 Hi Hlt Ha Hb. unfold delete_.
  rewrite (level_of_ws s i cc ev idx 0) by assumption. cbn [Z.eqb Pos.eqb obind fst snd].
  destruct (del_spec cc.1 key Ha) as (a' & Hsa & _ & Hda).
  assert (∃ n1 s1 e1, del cc.1 key = Ret (n1, s1, e1, a')) as (n1 & s1 & e1 & Hd1).
  { destruct Hda as [(nd & e & Hd & _)|(Hd & -> & _)]; rewrite Hd; eauto. }
  rewrite Hd1. cbn [obind].
  rewrite (proj1 (set_level_ws s i cc ev idx a' H0 Hi Hlt)). cbn [obind].
  rewrite (level_of_ws s i (a', cc.2) ev idx 1) by assumption. cbn [Z.eqb Pos.eqb obind fst snd].
  destruct (del_spec cc.2 key Hb) as (b' & Hsb & _ & Hdb).
  assert (∃ n2 s2 e2, del cc.2 key = Ret (n2, s2, e2, b')) as (n2 & s2 & e2 & Hd2).
  { destruct Hdb as [(nd & e & Hd & _)|(Hd & -> & _)]; rewrite Hd; eauto. }
  rewrite Hd2. cbn [obind].
  rewrite (proj2 (set_level_ws s i (a', cc.2) ev idx b' H0 Hi Hlt)). cbn [obind fst].
  rewrite add_evicted_ws.
  eexists _, a', b', _. split; [reflexivity|].
  do 2 (split; [assumption|]). split.
  - apply (del_live_after cc.1 key a' Ha). eexists. exact Hd1.
  - apply (del_live_after cc.2 key b' Hb). eexists. exact Hd2.
Qed.

(** *** Get on the key's shard *)

Lemma live_false_holds c key val e : live c key = false → holds c key = Some (val, e) → e ≤ 0.
Proof. unfold live. intros H Hh. rewrite Hh in H. apply Z.ltb_ge in H. exact H. Qed.

Lemma Get_ws s i cc key t t' :
  0 ≤ shard s key → Z.to_nat (shard s key) = i → (i < length (caches s))%nat →
  lru2_shape cc.1 → lru2_shape cc.2 →
  ∃ val ok a' b' ev',
    Get (lru2_with_shard s i cc []) key t t' = Ret (val, ok, lru2_with_shard s i (a', b') ev') ∧
    lru2_shape a' ∧ lru2_shape b' ∧
    live a' key = false ∧
    (ok = true → ∃ e, holds b' key = Some (val, e) ∧ 0 < e) ∧
    (∀ x e, holds cc.1 key = Some (x, e) → 0 < e → t < e →
            val = x ∧ ok = true ∧ holds a' key = Some (x, 0) ∧ holds b' key = Some (x, e)) ∧
    (live cc.1 key = false →
     ∀ x e, holds cc.2 key = Some (x, e) → 0 < e → t < e → t' < e →
            val = x ∧ ok = true ∧ a' = cc.1 ∧ holds b' key = Some (x, e)).
Proof.
  intros H0 Hi Hlt Ha Hb. unfold Get.
  change (shard (lru2_with_shard s i cc []) key) with (shard s key).
  set (idx := shard s key) in *.
  rewrite (level_of_ws s i cc [] idx 0) by assumption. cbn [Z.eqb Pos.eqb obind fst snd].
  destruct (del_spec cc.1 key Ha) as (a' & Hsa & _ & [(nd & e & Hd & He & Hh & Hh')|(Hd & -> & Hl)]);
    rewrite Hd; cbn [obind];
    rewrite (proj1 (set_level_ws s i cc [] idx _ H0 Hi Hlt)); cbn [obind Z.ltb Z.compare].
  - (* the key was live in admission *)
    destruct ((0 <? e) && (e <=? t)) eqn:Hexp.
    + destruct (delete_ws s i (a', cc.2) [] key idx H0 Hi Hlt Hsa Hb)
        as (b0 & a2 & b2 & ev2 & -> & Hsa2 & Hsb2 & Hla2 & Hlb2).
      cbn [obind snd]. exists None, false, a2, b2, ev2. split; [reflexivity|].
      do 3 (split; [assumption|]). split; [discriminate|]. split.
      * intros x e0. rewrite Hh. intros [= <- <-] _ Hte.
        apply andb_true_iff in Hexp as [_ Hexp]. apply Z.leb_le in Hexp. lia.
      * intros Hlive x e0. unfold live in Hlive. rewrite Hh in Hlive.
        apply Z.ltb_ge in Hlive. lia.
    + cbn [obind].
      rewrite (level_of_ws s i (a', cc.2) [] idx 1) by assumption.
      cbn [Z.eqb Pos.eqb obind fst snd].
      change (onEvicted (lru2_with_shard s i (a', cc.2) [])) with (onEvicted s).
      destruct (put_spec cc.2 key (v nd) e (onEvicted s) Hb)
        as (r & b' & calls & -> & Hsb & _ & Hhb & _).
      cbn [obind fst snd].
      rewrite (proj2 (set_level_ws s i (a', cc.2) [] idx b' H0 Hi Hlt)). cbn [obind fst].
      rewrite add_evicted_ws.
      exists (v nd), true, a', b', ([] ++ calls). split; [reflexivity|].
      do 2 (split; [assumption|]).
      split; [unfold live; rewrite Hh'; reflexivity|].
      split; [intros _; exists e; split; assumption|]. split.
      * intros x e0. rewrite Hh. intros [= <- <-] _ _. repeat split; assumption.
      * intros Hlive x e0. unfold live in Hlive. rewrite Hh in Hlive.
        apply Z.ltb_ge in Hlive. lia.
  - (* the key was not live in admission *)
    unfold _get. rewrite (level_of_ws s i (cc.1, cc.2) [] idx 1) by assumption.
    cbn [Z.eqb Pos.eqb obind fst snd].
    destruct (get_spec cc.2 key Hb) as (b' & Hsb & _ & Hsame & [(nd & Hg & Hh)|(Hg & -> & Hh)]);
      rewrite Hg; cbn [obind];
      rewrite (proj2 (set_level_ws s i (cc.1, cc.2) [] idx _ H0 Hi Hlt)); cbn [obind fst Z.ltb Z.compare].
    + destruct ((expireAt nd <=? 0) || (expireAt nd <=? t')) eqn:Hx; cbn [obind].
      * exists None, false, cc.1, b', []. split; [reflexivity|].
        do 3 (split; [assumption|]). split; [discriminate|]. split.
        -- intros x e0 Hx0 He0 _. pose proof (live_false_holds _ _ _ _ Hl Hx0). lia.
        -- intros _ x e0. rewrite Hh. intros [= <- <-] He0 _ Hte.
           apply orb_true_iff in Hx as [Hx|Hx]; apply Z.leb_le in Hx; lia.
      * apply orb_false_iff in Hx as [Hx1 Hx2].
        apply Z.leb_gt in Hx1. apply Z.leb_gt in Hx2.
        destruct ((0 <? expireAt nd) && (expireAt nd <=? t)) eqn:Hexp.
        -- destruct (delete_ws s i (cc.1, b') [] key idx H0 Hi Hlt Ha Hsb)
             as (b0 & a2 & b2 & ev2 & -> & Hsa2 & Hsb2 & Hla2 & Hlb2).
           cbn [obind snd]. exists None, false, a2, b2, ev2. split; [reflexivity|].
           do 3 (split; [assumption|]). split; [discriminate|]. split.
           ++ intros x e0 Hx0 He0 _. pose proof (live_false_holds _ _ _ _ Hl Hx0). lia.
           ++ intros _ x e0. rewrite Hh. intros [= <- <-] He0 Hte _.
              apply andb_true_iff in Hexp as [_ Hexp]. apply Z.leb_le in Hexp. lia.
        -- exists (v nd), true, cc.1, b', []. split; [reflexivity|].
           do 3 (split; [assumption|]).
           split; [intros _; exists (expireAt nd); rewrite Hsame, Hh; split; [reflexivity|assumption]|].
           split.
           ++ intros x e0 Hx0 He0 _. pose proof (live_false_holds _ _ _ _ Hl Hx0). lia.
           ++ intros _ x e0. rewrite Hh. intros [= <- <-] _ _ _.
              repeat split. rewrite Hsame. exact Hh.
    + exists None, false, cc.1, cc.2, []. split; [reflexivity|].
      do 3 (split; [assumption|]). split; [discriminate|]. split.
      * intros x e0 Hx0 He0 _. pose proof (live_false_holds _ _ _ _ Hl Hx0). lia.
      * intros _ x e0. rewrite Hh. discriminate.
Qed.

(** *** Stores as [newLRU2Cache] builds them *)

Lemma Create_shape cap : 1 ≤ cap ≤ 65534 → lru2_shape (Create cap).
Proof.
  intros Hcap. unfold lru2_shape, Create. cbn [m dlnk hmap last].
  assert (Hw : wrap_uint16 (cap + 1) = cap + 1)
    by (unfold wrap_uint16; apply Z.mod_small; lia).
  rewrite Hw, !length_replicate.
  split; [lia|]. split; [lia|]. split; [lia|]. split; [|split].
  - intros j d x Hx. apply rd_Ret in Hx as (_ & _ & pr & Hpr & ->).
    cbn [dlnk] in Hpr. apply lookup_replicate_1 in Hpr as [-> _].
    destruct (d =? 0); cbn; lia.
  - intros key i. rewrite lookup_empty. discriminate.
  - lia.
Qed.

Lemma lor_below x y n :
  0 ≤ n → 0 ≤ x < 2 ^ n → 0 ≤ y < 2 ^ n → 0 ≤ Z.lor x y < 2 ^ n.
Proof.
  intros Hn Hx Hy. assert (H0 : 0 ≤ Z.lor x y) by (apply Z.lor_nonneg; lia).
  split; [assumption|].
  destruct (decide (Z.lor x y = 0)) as [->|Hne]; [lia|].
  apply Z.log2_lt_pow2; [lia|].
  rewrite Z.log2_lor by lia.
  destruct (decide (x = 0)) as [->|Hx0]; destruct (decide (y = 0)) as [->|Hy0].
  - rewrite Z.lor_0_l in Hne. contradiction.
  - rewrite Z.max_r by (apply Z.log2_nonneg). apply Z.log2_lt_pow2; lia.
  - rewrite Z.max_l by (apply Z.log2_nonneg). apply Z.log2_lt_pow2; lia.
  - apply Z.max_lub_lt; apply Z.log2_lt_pow2; lia.
Qed.

Lemma shiftr_below x k n : 0 ≤ k → 0 ≤ x < 2 ^ n → 0 ≤ Z.shiftr x k < 2 ^ n.
Proof.
  intros Hk Hx. rewrite Z.shiftr_div_pow2 by assumption.
  assert (0 < 2 ^ k) by (apply Z.pow_pos_nonneg; lia).
  split; [apply Z.div_pos; lia|].
  apply Z.div_lt_upper_bound; [lia|]. nia.
Qed.

Lemma maskOfNextPowOf2_range b :
  1 ≤ b ≤ 32768 → 0 ≤ maskOfNextPowOf2 b ≤ 32767.
Proof.
  intros Hb. unfold maskOfNextPowOf2.
  assert (Hw : wrap_uint16 (b - 1) = b - 1) by (unfold wrap_uint16; apply Z.mod_small; lia).
  rewrite Hw.
  destruct ((0 <? b) && (Z.land b (b - 1) =? 0)) eqn:Hp; [lia|].
  assert (Hlt : 0 ≤ b < 2 ^ 15).
  { destruct (decide (b = 32768)) as [->|Hne]; [|lia].
    vm_compute in Hp. discriminate. }
  cbv zeta.
  repeat match goal with
  | |- context [Z.lor ?x (Z.shiftr ?x ?k)] =>
      let H := fresh "H" in
      assert (H : 0 ≤ Z.lor x (Z.shiftr x k) < 2 ^ 15)
        by (apply lor_below; [lia|assumption|apply shiftr_below; [lia|assumption]]);
      generalize dependent (Z.lor x (Z.shiftr x k)); intros
  end.
  lia.
Qed.

(** A store built with a bucket count of at most 32768 and level
    capacities of at most 65534 (0 stands for the defaults) is well
    shaped. *)
Lemma newLRU2Cache_ok buckets cap1 cap2 oe :
  0 ≤ buckets ≤ 32768 → 0 ≤ cap1 ≤ 65534 → 0 ≤ cap2 ≤ 65534 →
  store_ok (newLRU2Cache buckets cap1 cap2 oe) = true.
Proof.
  intros Hb H1 H2. apply store_ok_spec. unfold newLRU2Cache. cbv zeta.
  cbn [mask caches].
  set (b' := if buckets =? 0 then 16 else buckets).
  set (c1 := if cap1 =? 0 then 1024 else cap1).
  set (c2 := if cap2 =? 0 then 1024 else cap2).
  assert (Hb' : 1 ≤ b' ≤ 32768) by (subst b'; destruct (buckets =? 0) eqn:E; [|apply Z.eqb_neq in E]; lia).
  assert (Hc1 : 1 ≤ c1 ≤ 65534) by (subst c1; destruct (cap1 =? 0) eqn:E; [|apply Z.eqb_neq in E]; lia).
  assert (Hc2 : 1 ≤ c2 ≤ 65534) by (subst c2; destruct (cap2 =? 0) eqn:E; [|apply Z.eqb_neq in E]; lia).
  pose proof (maskOfNextPowOf2_range b' Hb') as Hm.
  assert (Hw : wrap_uint16 (maskOfNextPowOf2 b' + 1) = maskOfNextPowOf2 b' + 1)
    by (unfold wrap_uint16; apply Z.mod_small; lia).
  rewrite Hw, length_replicate.
  split; [lia|]. split; [lia|].
  intros i cc Hcc. apply lookup_replicate_1 in Hcc as [-> _]. cbn [fst snd].
  split; apply Create_shape; assumption.
Qed.

(** *** The exported methods *)

Lemma shard_pair s key :
  store_ok s = true →
  ∃ cc, caches s !! Z.to_nat (shard s key) = Some cc ∧
        lru2_shape cc.1 ∧ lru2_shape cc.2 ∧
        admission s key = Some cc.1 ∧ main s key = Some cc.2.
Proof.
  intros Hs. destruct (shard_in_range s key Hs) as [H0 Hlt].
  destruct (lookup_lt_is_Some_2 _ _ Hlt) as [cc Hcc].
  exists cc. split; [assumption|].
  apply store_ok_spec in Hs as (_ & _ & Hs). destruct (Hs _ _ Hcc) as [Ha Hb].
  unfold admission, main. rewrite Hcc. done.
Qed.

Lemma with_shard_levels s key cc ev :
  store_ok s = true →
  admission (lru2_with_shard s (Z.to_nat (shard s key)) cc ev) key = Some cc.1 ∧
  main (lru2_with_shard s (Z.to_nat (shard s key)) cc ev) key = Some cc.2.
Proof.
  intros Hs. destruct (shard_in_range s key Hs) as [H0 Hlt].
  unfold admission, main.
  change (shard (lru2_with_shard s (Z.to_nat (shard s key)) cc ev) key) with (shard s key).
  rewrite with_shard_lookup by assumption. done.
Qed.

(** [Get] on a well-shaped store. *)
Lemma Get_store s key t t' cc :
  store_ok s = true → caches s !! Z.to_nat (shard s key) = Some cc →
  ∃ val ok s' a' b',
    Get s key t t' = Ret (val, ok, s') ∧ store_ok s' = true ∧
    admission s' key = Some a' ∧ main s' key = Some b' ∧
    live a' key = false ∧
    (ok = true → ∃ e, holds b' key = Some (val, e) ∧ 0 < e) ∧
    (∀ x e, holds cc.1 key = Some (x, e) → 0 < e → t < e →
            val = x ∧ ok = true ∧ holds a' key = Some (x, 0) ∧ holds b' key = Some (x, e)) ∧
    (live cc.1 key = false →
     ∀ x e, holds cc.2 key = Some (x, e) → 0 < e → t < e → t' < e →
            val = x ∧ ok = true ∧ holds b' key = Some (x, e)).
Proof.
  intros Hs Hcc. destruct (shard_in_range s key Hs) as [H0 Hlt].
  pose proof Hs as (_ & _ & Hall)%store_ok_spec. destruct (Hall _ _ Hcc) as [Ha Hb].
  destruct (Get_ws s _ cc key t t' H0 eq_refl Hlt Ha Hb)
    as (val & ok & a' & b' & ev' & HG & Hsa & Hsb & Hl & Hok & Hadm & Hmain).
  rewrite (with_shard_id s _ cc Hcc) in HG.
  exists val, ok, (lru2_with_shard s (Z.to_nat (shard s key)) (a', b') ev'), a', b'.
  split; [exact HG|]. split; [apply with_shard_ok; assumption|].
  destruct (with_shard_levels s key (a', b') ev' Hs) as [-> ->].
  do 2 (split; [reflexivity|]). split; [assumption|]. split; [assumption|].
  split; [assumption|].
  intros Hlive x e Hx He Ht Ht'. destruct (Hmain Hlive x e Hx He Ht Ht') as (-> & -> & _ & Hh).
  done.
Qed.

(** [SetWithExpiration] on a well-shaped store. *)
Lemma Set_store s key val d now cc :
  store_ok s = true → caches s !! Z.to_nat (shard s key) = Some cc →
  ∃ a' ev',
    SetWithExpiration s key val d now
      = Ret (lru2_with_shard s (Z.to_nat (shard s key)) (a', cc.2) ev') ∧
    lru2_shape a' ∧
    holds a' key = Some (val, if 0 <? d then wrap_int64 (now + d) else 0) ∧
    (is_Some (hmap cc.1 !! key) → hmap a' = hmap cc.1 ∧ ev' = []).
Proof.
  intros Hs Hcc. destruct (shard_in_range s key Hs) as [H0 Hlt].
  pose proof Hs as (_ & _ & Hall)%store_ok_spec. destruct (Hall _ _ Hcc) as [Ha Hb].
  enough (Hx : ∃ a' ev',
    SetWithExpiration (lru2_with_shard s (Z.to_nat (shard s key)) cc []) key val d now
      = Ret (lru2_with_shard s (Z.to_nat (shard s key)) (a', cc.2) ev') ∧
    lru2_shape a' ∧
    holds a' key = Some (val, if 0 <? d then wrap_int64 (now + d) else 0) ∧
    (is_Some (hmap cc.1 !! key) → hmap a' = hmap cc.1 ∧ ev' = []))
    by (rewrite (with_shard_id s _ cc Hcc) in Hx; exact Hx).
  unfold SetWithExpiration.
  change (shard (lru2_with_shard s (Z.to_nat (shard s key)) cc []) key) with (shard s key).
  rewrite (level_of_ws s _ cc [] (shard s key) 0) by done.
  cbn [Z.eqb Pos.eqb obind fst snd].
  change (onEvicted (lru2_with_shard s (Z.to_nat (shard s key)) cc [])) with (onEvicted s).
  destruct (put_spec cc.1 key val (if 0 <? d then wrap_int64 (now + d) else 0) (onEvicted s) Ha)
    as (r & a' & calls & -> & Hsa & _ & Hh & Hidx).
  cbn [obind fst snd].
  rewrite (proj1 (set_level_ws s _ cc [] (shard s key) a' H0 eq_refl Hlt)). cbn [obind].
  rewrite add_evicted_ws. exists a', ([] ++ calls). split; [reflexivity|].
  do 2 (split; [assumption|]).
  intros Hin. destruct (Hidx Hin) as [-> ->]. done.
Qed.



(** The store of the example after [Get("a")] and a second
    [Set("a", 2 bytes)]: the key is live in both levels, with the old
    value in main and the new one in admission. *)
Lemma lru2_key_live_in_both_levels :
  returns (Get lru2_one_key "a" 6 6) (λ r,
  returns (Set_ r.2 "a" (Some (bytes_n 2)) 7) (λ s,
    live_in main r.2 "a" = true ∧ live_in admission r.2 "a" = false ∧
    live_in admission s "a" = true ∧ live_in main s "a" = true ∧
    (adm ← admission s "a"; holds adm "a") = Some (Some (bytes_n 2), 10000000000000006) ∧
    (mn ← main s "a"; holds mn "a") = Some (Some (bytes_n 1), 10000000000000004) ∧
    store_ok s = true)).
Proof. vm_compute. repeat split; reflexivity. Qed.

(** C2, amended.  On a well-shaped store: [SetWithExpiration] (and so
    [Set]) returns, leaves the main level of every shard exactly as it
    was, and leaves the key in the admission level with the new value
    and expiry, in the slot it already had when it was indexed there;
    [Get] returns with the key not live in the admission level, hence
    live in at most one level; [Delete] returns with the key live in
    neither level. *)
Theorem lru2_levels_after_calls (s : lru2Store) (key : string) (val : Value)
    (d now t t' : Z) :
  store_ok s = true →
  (∃ s' adm',
     SetWithExpiration s key val d now = Ret s' ∧ store_ok s' = true ∧
     (∀ j, snd <$> caches s' !! j = snd <$> caches s !! j) ∧
     admission s' key = Some adm' ∧
     holds adm' key = Some (val, if 0 <? d then wrap_int64 (now + d) else 0) ∧
     (∀ adm, admission s key = Some adm → is_Some (hmap adm !! key) → hmap adm' = hmap adm)) ∧
  (∃ r, Get s key t t' = Ret r ∧ store_ok r.2 = true ∧
        live_in admission r.2 key = false) ∧
  (∃ r, Delete s key = Ret r ∧ store_ok r.2 = true ∧
        live_in admission r.2 key = false ∧ live_in main r.2 key = false).
Proof.
  intros Hs. destruct (shard_pair s key Hs) as (cc & Hcc & Ha & Hb & Hadm & Hmain).
  destruct (shard_in_range s key Hs) as [H0 Hlt].
  split; [|split].
  - destruct (Set_store s key val d now cc Hs Hcc) as (a' & ev' & HS & Hsa & Hh & Hidx).
    eexists _, a'. split; [exact HS|].
    split; [apply with_shard_ok; assumption|].
    split; [|split; [apply (with_shard_levels s key (a', cc.2) ev' Hs)|split; [assumption|]]].
    + intros j. cbn [lru2_with_shard caches].
      destruct (decide (j = Z.to_nat (shard s key))) as [->|Hne].
      * rewrite list_lookup_insert_eq by assumption. rewrite Hcc. reflexivity.
      * rewrite list_lookup_insert_ne by congruence. reflexivity.
    + intros adm. rewrite Hadm. intros [= <-] Hin. apply Hidx. assumption.
  - destruct (Get_store s key t t' cc Hs Hcc)
      as (v1 & ok1 & s1 & a1 & b1 & HG1 & Hs1 & Ha1 & Hb1 & Hl1 & _).
    exists (v1, ok1, s1). split; [assumption|]. split; [assumption|].
    unfold live_in. cbn [snd]. rewrite Ha1. assumption.
  - unfold Delete.
    destruct (delete_ws s _ cc [] key (shard s key) H0 eq_refl Hlt Ha Hb)
      as (b0 & a2 & b2 & ev2 & HD & Hsa2 & Hsb2 & Hla2 & Hlb2).
    rewrite (with_shard_id s _ cc Hcc) in HD.
    eexists. split; [exact HD|]. cbn [snd].
    split; [apply with_shard_ok; assumption|].
    unfold live_in.
    destruct (with_shard_levels s key (a2, b2) ev2 Hs) as [-> ->]. split; assumption.
Qed.

Lemma lru2_levels_after_calls_witness :
  (∃ s' adm',
     SetWithExpiration lru2_one_key "a" (Some (bytes_n 2)) 100 7 = Ret s' ∧ store_ok s' = true ∧
     (∀ j, snd <$> caches s' !! j = snd <$> caches lru2_one_key !! j) ∧
     admission s' "a" = Some adm' ∧
     holds adm' "a" = Some (Some (bytes_n 2), if 0 <? 100 then wrap_int64 (7 + 100) else 0) ∧
     (∀ adm, admission lru2_one_key "a" = Some adm → is_Some (hmap adm !! "a") →
             hmap adm' = hmap adm)) ∧
  (∃ r, Get lru2_one_key "a" 6 6 = Ret r ∧ store_ok r.2 = true ∧
        live_in admission r.2 "a" = false) ∧
  (∃ r, Delete lru2_one_key "a" = Ret r ∧ store_ok r.2 = true ∧
        live_in admission r.2 "a" = false ∧ live_in main r.2 "a" = false).
Proof.
  apply (lru2_levels_after_calls lru2_one_key "a" (Some (bytes_n 2)) 100 7 6 6).
  vm_compute. reflexivity.
Defined.
End lru2_facts.

(** ** LRU engine: removal, eviction order and the other methods *)

Section lru_methods.
Import lru.

Lemma set_mu_free c : mu c = mutex_free → set_mu c mutex_free = c.
Proof. destruct c; cbn; intros ->; reflexivity. Qed.

Lemma removeElement_fields c e en :
  elems c !! e = Some en →
  ∃ c', removeElement c e = Ret c' ∧
    list_ c' = filter (λ x, x ≠ e) (list_ c) ∧
    items c' = delete (key en) (items c) ∧
    expires c' = delete (key en) (expires c) ∧
    elems c' = elems c ∧ fresh c' = fresh c ∧ onEvicted c' = onEvicted c ∧
    maxBytes c' = maxBytes c ∧ mu c' = mu c ∧
    usedBytes c' = wrap_int64 (usedBytes c - wrap_int64 (len (key en) + Len (value en))) ∧
    evicted c' = evicted c ++ (if onEvicted c then [(key en, value en)] else []).
Proof.
  intros He. unfold removeElement, entry_of. rewrite He. cbn [obind].
  cbn [onEvicted set_usedBytes set_expires set_items list_Remove set_list].
  destruct (onEvicted c) eqn:Hoe; eexists; (split; [reflexivity|]); cbn;
    rewrite ?Hoe, ?app_nil_r; repeat split; reflexivity.
Qed.

(** [removeElement] of a listed element: what it changes, and that the
    invariant is kept. *)
Lemma removeElement_inv c e :
  lru_inv c → e ∈ list_ c →
  ∃ en c', elems c !! e = Some en ∧ items c !! key en = Some e ∧
    removeElement c e = Ret c' ∧ lru_inv c' ∧
    list_ c' = filter (λ x, x ≠ e) (list_ c) ∧
    items c' = delete (key en) (items c) ∧
    expires c' = delete (key en) (expires c) ∧
    elems c' = elems c ∧ fresh c' = fresh c ∧ onEvicted c' = onEvicted c ∧
    maxBytes c' = maxBytes c ∧ mu c' = mu c ∧
    usedBytes c' = usedBytes c - entry_size en ∧
    evicted c' = evicted c ++ (if onEvicted c then [(key en, value en)] else []).
Proof.
  intros [Hc Hx] He. pose proof Hc as (Hnd & Hl & Hi & Hu & Hb).
  destruct (Hl e He) as (Hfr & en & Hen & Hien).
  destruct (removeElement_consistent c e Hc He) as (c1 & Hr1 & Hc1 & _).
  destruct (removeElement_fields c e en Hen)
    as (c' & Hr & Hlist & Hit & Hex & Hel & Hfresh & Hoe & Hmax & Hmu & Hused & Hev).
  assert (c1 = c') as -> by congruence.
  exists en, c'. do 3 (split; [assumption|]).
  split.
  { split; [assumption|]. intros k [t Ht]. rewrite Hex in Ht. rewrite Hit.
    apply lookup_delete_Some in Ht as [Hne Ht].
    destruct (Hx k (ex_intro _ t Ht)) as [e' He']. exists e'.
    rewrite lookup_delete_ne by assumption. assumption. }
  do 8 (split; [assumption|]). split; [|assumption].
  destruct Hc1 as (_ & _ & _ & Hu1 & _). rewrite Hu1, Hu. unfold sum_sizes.
  rewrite Hlist, Hel. apply (sum_over_remove _ _ _ _ Hnd He Hen).
Qed.

Lemma lru_entries_cons el e l :
  lru_entries el (e :: l) =
  match el !! e with Some en => (key en, value en) :: lru_entries el l | None => lru_entries el l end.
Proof. unfold lru_entries. cbn. destruct (el !! e); reflexivity. Qed.

(** The second loop of [evict] drops a prefix of the recency list:
    the shortest one after which the bytes in use fit. *)
Lemma evict_lru_spec rounds c :
  lru_inv c → (length (list_ c) ≤ rounds)%nat →
  ∃ c' n, evict_lru rounds c = Ret c' ∧ lru_inv c' ∧
    list_ c' = drop n (list_ c) ∧ (n ≤ length (list_ c))%nat ∧
    elems c' = elems c ∧ fresh c' = fresh c ∧ onEvicted c' = onEvicted c ∧
    maxBytes c' = maxBytes c ∧ mu c' = mu c ∧
    (∀ j, (j < n)%nat → 0 < maxBytes c ∧ maxBytes c < sum_over (elems c) (drop j (list_ c))) ∧
    (0 < maxBytes c → usedBytes c' ≤ maxBytes c) ∧
    (∀ k t, expires c' !! k = Some t → expires c !! k = Some t) ∧
    (∀ k, is_Some (items c' !! k) → expires c' !! k = expires c !! k) ∧
    evicted c' = evicted c ++ (if onEvicted c then lru_entries (elems c) (take n (list_ c)) else []).
Proof.
  revert c. induction rounds as [|rounds IH]; intros c Hinv Hlen.
  - exists c, 0%nat. cbn [evict_lru]. split; [reflexivity|]. split; [assumption|].
    rewrite drop_0, take_0. split; [reflexivity|]. split; [lia|].
    do 5 (split; [reflexivity|]). split; [intros j Hj; lia|].
    split.
    { intros Hmax. destruct Hinv as [(_ & _ & _ & Hu & _) _]. rewrite Hu. unfold sum_sizes.
      destruct (list_ c); [cbn; lia|cbn in Hlen; lia]. }
    split; [auto|]. split; [auto|].
    destruct (onEvicted c); cbn; rewrite app_nil_r; reflexivity.
  - cbn [evict_lru].
    destruct ((0 <? maxBytes c) && (maxBytes c <? usedBytes c) &&
              (0 <? Z.of_nat (length (list_ c)))) eqn:Hcond.
    + apply andb_true_iff in Hcond as [[Hc1 Hc2]%andb_true_iff Hc3].
      apply Z.ltb_lt in Hc1, Hc2.
      unfold list_Front. destruct (list_ c) as [|e l] eqn:Hl; [cbn in Hc3; discriminate|].
      cbn [head].
      destruct (removeElement_inv c e Hinv) as
        (en & c1 & Hen & Hien & -> & Hinv1 & Hlist1 & Hit1 & Hex1 & Hel1 & Hfr1 & Hoe1 &
         Hmax1 & Hmu1 & Hused1 & Hev1); [rewrite Hl; left|].
      cbn [obind].
      pose proof Hinv as [(Hnd & _ & _ & Hu & _) _].
      rewrite Hl in Hnd. apply NoDup_cons in Hnd as [Hnotin Hnd].
      assert (Hl1 : list_ c1 = l).
      { rewrite Hlist1, Hl, filter_cons. rewrite decide_False by (intros Hne; apply Hne; reflexivity).
        apply filter_ne_id. assumption. }
      destruct (IH c1 Hinv1) as
        (c' & n & -> & Hinv' & Hlist' & Hn & Hel' & Hfr' & Hoe' & Hmax' & Hmu' & Hmin & Hbound &
         Hexs & Hexk & Hev'); [rewrite Hl1; cbn in Hlen; lia|].
      exists c', (S n). split; [reflexivity|]. split; [assumption|].
      split; [rewrite Hlist', Hl1; reflexivity|].
      split; [rewrite Hl1 in Hn; cbn; lia|].
      split; [congruence|]. split; [congruence|]. split; [congruence|].
      split; [congruence|]. split; [congruence|].
      split.
      { intros [|j] Hj; (split; [assumption|]).
        - rewrite drop_0. unfold sum_sizes in Hu. rewrite Hl in Hu. lia.
        - cbn [drop]. destruct (Hmin j) as [_ Hm]; [lia|].
          rewrite Hmax1, Hel1, Hl1 in Hm. exact Hm. }
      split; [intros Hmax; rewrite <- Hmax1; apply Hbound; lia|].
      split.
      { intros k t Ht. apply Hexs in Ht. rewrite Hex1 in Ht.
        apply lookup_delete_Some in Ht as [_ Ht]. exact Ht. }
      split.
      { intros k Hk. rewrite (Hexk k Hk), Hex1.
        destruct (decide (key en = k)) as [<-|Hne]; [|apply lookup_delete_ne; assumption].
        exfalso. destruct Hk as [e' He'].
        destruct Hinv' as [(_ & _ & Hi' & _) _]. destruct (Hi' _ _ He') as (Hin' & en' & Hen' & Hk').
        rewrite Hlist', Hl1 in Hin'. eapply elem_of_sublist in Hin'; [|apply sublist_drop].
        rewrite Hel', Hel1 in Hen'.
        destruct Hinv1 as [(_ & Hl1' & Hi1 & _) _].
        destruct (Hl1' e') as (_ & en1 & Hen1 & Hien1); [rewrite Hl1; assumption|].
        rewrite Hel1 in Hen1. assert (en1 = en') as -> by congruence.
        rewrite Hk', Hit1, lookup_delete_eq in Hien1. discriminate. }
      rewrite Hev', Hev1, Hoe1, Hel1, Hl1. cbn [take].
      rewrite lru_entries_cons, Hen.
      destruct (onEvicted c); cbn; rewrite <- ?app_assoc; reflexivity.
    + exists c, 0%nat. split; [reflexivity|]. split; [assumption|].
      rewrite drop_0, take_0. split; [reflexivity|]. split; [lia|].
      do 5 (split; [reflexivity|]). split; [intros j Hj; lia|].
      split.
      { intros Hmax.
        apply andb_false_iff in Hcond as [[Hc1|Hc2]%andb_false_iff|Hc3].
        * apply Z.ltb_ge in Hc1. lia.
        * apply Z.ltb_ge in Hc2. lia.
        * apply Z.ltb_ge in Hc3.
          destruct Hinv as [(_ & _ & _ & Hu & _) _]. rewrite Hu. unfold sum_sizes.
          destruct (list_ c); [cbn; lia|cbn in Hc3; lia]. }
      split; [auto|]. split; [auto|].
      destruct (onEvicted c); cbn; rewrite app_nil_r; reflexivity.
Qed.

Lemma filter_ext_in {A : Type} (P Q : A → Prop) `{!∀ x, Decision (P x)} `{!∀ x, Decision (Q x)}
    (l : list A) :
  (∀ x, x ∈ l → P x ↔ Q x) → filter P l = filter Q l.
Proof.
  induction l as [|x l IH]; intros Hpq; [reflexivity|].
  rewrite !filter_cons.
  assert (Hx : P x ↔ Q x) by (apply Hpq; left).
  rewrite IH by (intros y Hy; apply Hpq; right; exact Hy).
  destruct (decide (P x)), (decide (Q x)); tauto || reflexivity.
Qed.

Lemma filter_all {A : Type} (P : A → Prop) `{!∀ x, Decision (P x)} (l : list A) :
  (∀ x, x ∈ l → P x) → filter P l = l.
Proof.
  induction l as [|x l IH]; intros Hp; [reflexivity|].
  rewrite filter_cons, decide_True by (apply Hp; left).
  rewrite IH by (intros y Hy; apply Hp; right; exact Hy). reflexivity.
Qed.

Lemma lru_expired_skip k t l now c k' :
  After now t = false →
  lru_expired ((k, t) :: l) now c k' = lru_expired l now c k'.
Proof.
  intros Ha. unfold lru_expired. destruct (expires c !! k') as [t'|]; [|reflexivity].
  destruct (decide ((k', t') = (k, t))) as [Heq|Hne].
  - injection Heq as -> ->. rewrite Ha, !andb_false_r. reflexivity.
  - f_equal. apply bool_decide_ext. rewrite elem_of_cons. tauto.
Qed.

Lemma lru_expired_removed k t l now c c1 k' :
  k' ≠ k → expires c1 !! k' = expires c !! k' →
  lru_expired l now c1 k' = lru_expired ((k, t) :: l) now c k'.
Proof.
  intros Hne He. unfold lru_expired. rewrite He.
  destruct (expires c !! k') as [t'|]; [|reflexivity].
  f_equal. apply bool_decide_ext. rewrite elem_of_cons.
  split; [tauto|]. intros [Heq|H]; [congruence|exact H].
Qed.

(** The first loop of [evict] removes the elements of the keys that
    have expired, and nothing else. *)
Lemma evict_expired_spec l now c :
  lru_inv c → NoDup l.*1 → (∀ k t, (k, t) ∈ l → expires c !! k = Some t) →
  ∃ c', evict_expired l now c = Ret c' ∧ lru_inv c' ∧
    list_ c' = filter (λ e, lru_keeps l now c e = true) (list_ c) ∧
    elems c' = elems c ∧ fresh c' = fresh c ∧ onEvicted c' = onEvicted c ∧
    maxBytes c' = maxBytes c ∧ mu c' = mu c ∧
    (∀ k, expires c' !! k = if lru_expired l now c k then None else expires c !! k) ∧
    (∀ k, items c' !! k = if lru_expired l now c k then None else items c !! k).
Proof.
  revert c. induction l as [|[k t] l IH]; intros c Hinv Hnd Hl.
  - exists c. split; [reflexivity|]. split; [assumption|].
    assert (Hno : ∀ k, lru_expired [] now c k = false).
    { intros k. unfold lru_expired. destruct (expires c !! k); [|reflexivity].
      rewrite bool_decide_eq_false_2; [reflexivity|]. apply not_elem_of_nil. }
    split.
    { symmetry. apply filter_all. intros e _. unfold lru_keeps.
      destruct (elems c !! e); [rewrite Hno|]; reflexivity. }
    do 5 (split; [reflexivity|]).
    split; intros k; rewrite Hno; reflexivity.
  - cbn [fmap list_fmap fst] in Hnd. apply NoDup_cons in Hnd as [Hk Hnd].
    assert (Hkt : expires c !! k = Some t) by (apply Hl; left).
    cbn [evict_expired].
    destruct (After now t) eqn:Ha.
    + pose proof Hinv as [(Hndl & Hlc & Hic & _) Hx].
      destruct (Hx k (ex_intro _ t Hkt)) as [e He]. rewrite He.
      destruct (Hic k e He) as (Hin & en0 & Hen0 & Hkey0).
      destruct (removeElement_inv c e Hinv Hin) as
        (en & c1 & Hen & Hien & -> & Hinv1 & Hlist1 & Hit1 & Hex1 & Hel1 & Hfr1 & Hoe1 &
         Hmax1 & Hmu1 & _).
      assert (en0 = en) as -> by congruence. rewrite Hkey0 in *.
      cbn [obind].
      destruct (IH c1 Hinv1 Hnd) as
        (c' & -> & Hinv' & Hlist' & Hel' & Hfr' & Hoe' & Hmax' & Hmu' & Hexp' & Hit').
      { intros k' t' Hin'. rewrite Hex1, lookup_delete_ne; [apply Hl; right; exact Hin'|].
        intros <-. apply Hk. apply list_elem_of_fmap. exists (k, t'). done. }
      assert (Hself : lru_expired ((k, t) :: l) now c k = true).
      { unfold lru_expired. rewrite Hkt, Ha, bool_decide_eq_true_2 by left. reflexivity. }
      assert (Hgone : lru_expired l now c1 k = false).
      { unfold lru_expired. rewrite Hex1, lookup_delete_eq. reflexivity. }
      exists c'. split; [reflexivity|]. split; [assumption|].
      split.
      { rewrite Hlist', Hlist1, list_filter_filter. apply filter_ext_in.
        intros x Hx'. destruct (Hlc x Hx') as (_ & enx & Henx & Hix).
        unfold lru_keeps. rewrite Hel1, Henx.
        destruct (decide (x = e)) as [->|Hne].
        - assert (enx = en) as -> by congruence. rewrite Hkey0, Hself. cbn.
          split; [intros [_ Hc]; congruence|discriminate].
        - assert (Hkx : key enx ≠ k) by (intros Heq; rewrite Heq in Hix; congruence).
          rewrite (lru_expired_removed k t l now c c1) by
            (try assumption; rewrite Hex1; apply lookup_delete_ne; congruence).
          tauto. }
      split; [congruence|]. split; [congruence|]. split; [congruence|].
      split; [congruence|]. split; [congruence|].
      split; intros k'; [rewrite Hexp'|rewrite Hit'].
      * destruct (decide (k' = k)) as [->|Hne].
        -- rewrite Hgone, Hself, Hex1, lookup_delete_eq. reflexivity.
        -- rewrite (lru_expired_removed k t l now c c1) by
             (try assumption; rewrite Hex1; apply lookup_delete_ne; congruence).
           rewrite Hex1, lookup_delete_ne by congruence. reflexivity.
      * destruct (decide (k' = k)) as [->|Hne].
        -- rewrite Hgone, Hself, Hit1, lookup_delete_eq. reflexivity.
        -- rewrite (lru_expired_removed k t l now c c1) by
             (try assumption; rewrite Hex1; apply lookup_delete_ne; congruence).
           rewrite Hit1, lookup_delete_ne by congruence. reflexivity.
    + cbn [obind].
      destruct (IH c Hinv Hnd) as
        (c' & -> & Hinv' & Hlist' & Hel' & Hfr' & Hoe' & Hmax' & Hmu' & Hexp' & Hit').
      { intros k' t' Hin'. apply Hl. right. exact Hin'. }
      exists c'. split; [reflexivity|]. split; [assumption|].
      split.
      { rewrite Hlist'. apply list_filter_iff. intros x. unfold lru_keeps.
        destruct (elems c !! x); [|tauto]. rewrite lru_expired_skip by assumption. tauto. }
      do 5 (split; [assumption|]).
      split; intros k'; rewrite lru_expired_skip by assumption; auto.
Qed.

Lemma lru_expired_all now c k :
  lru_expired (map_to_list (expires c)) now c k = lru_stale now c k.
Proof.
  unfold lru_expired, lru_stale. destruct (expires c !! k) as [t|] eqn:Hk; [|reflexivity].
  rewrite bool_decide_eq_true_2; [reflexivity|]. apply elem_of_map_to_list. exact Hk.
Qed.

Lemma lru_keeps_all now c e :
  lru_keeps (map_to_list (expires c)) now c e = lru_fresh now c e.
Proof.
  unfold lru_keeps, lru_fresh. destruct (elems c !! e); [|reflexivity].
  rewrite lru_expired_all. reflexivity.
Qed.

Lemma items_of_listed c e en :
  lru_inv c → e ∈ list_ c → elems c !! e = Some en → items c !! key en = Some e.
Proof.
  intros [(_ & Hl & _) _] He Hen. destruct (Hl e He) as (_ & en' & Hen' & Hi). congruence.
Qed.

Lemma listed_of_items c k e :
  lru_inv c → items c !! k = Some e →
  e ∈ list_ c ∧ ∃ en, elems c !! e = Some en ∧ key en = k.
Proof. intros [(_ & _ & Hi & _) _] Hk. apply Hi. exact Hk. Qed.

(** [evict]: the keys that have expired go first, whatever their
    place; then the least recently used of the rest, as long as the
    bytes in use exceed the bound. *)
Lemma evict_spec c now :
  lru_inv c →
  ∃ c' n, evict c now = Ret c' ∧ lru_inv c' ∧
    list_ c' = drop n (filter (λ e, lru_fresh now c e = true) (list_ c)) ∧
    (n ≤ length (filter (λ e, lru_fresh now c e = true) (list_ c)))%nat ∧
    elems c' = elems c ∧ fresh c' = fresh c ∧ onEvicted c' = onEvicted c ∧
    maxBytes c' = maxBytes c ∧ mu c' = mu c ∧
    (∀ j, (j < n)%nat →
          0 < maxBytes c ∧
          maxBytes c < sum_over (elems c) (drop j (filter (λ e, lru_fresh now c e = true) (list_ c)))) ∧
    (0 < maxBytes c → usedBytes c' ≤ maxBytes c) ∧
    (∀ k t, expires c' !! k = Some t → expires c !! k = Some t ∧ After now t = false) ∧
    (∀ k, is_Some (items c' !! k) → expires c' !! k = expires c !! k).
Proof.
  intros Hinv. unfold evict.
  destruct (evict_expired_spec (map_to_list (expires c)) now c Hinv) as
    (c1 & -> & Hinv1 & Hlist1 & Hel1 & Hfr1 & Hoe1 & Hmax1 & Hmu1 & Hexp1 & Hit1).
  { apply NoDup_fst_map_to_list. }
  { intros k t Hin. apply elem_of_map_to_list in Hin. exact Hin. }
  cbn [obind].
  destruct (evict_lru_spec (length (list_ c1)) c1 Hinv1 (le_n _)) as
    (c' & n & -> & Hinv' & Hlist' & Hn & Hel' & Hfr' & Hoe' & Hmax' & Hmu' & Hmin & Hbound &
     Hexs & Hexk & _).
  assert (HF : list_ c1 = filter (λ e, lru_fresh now c e = true) (list_ c)).
  { rewrite Hlist1. apply list_filter_iff. intros e. rewrite lru_keeps_all. tauto. }
  exists c', n. split; [reflexivity|]. split; [assumption|].
  split; [rewrite Hlist', HF; reflexivity|].
  split; [rewrite <- HF; exact Hn|].
  split; [congruence|]. split; [congruence|]. split; [congruence|].
  split; [congruence|]. split; [congruence|].
  split.
  { intros j Hj. destruct (Hmin j Hj) as [H1 H2]. rewrite Hmax1, Hel1, HF in *. done. }
  split; [rewrite <- Hmax1; exact Hbound|].
  split.
  { intros k t Ht. apply Hexs in Ht. rewrite Hexp1, lru_expired_all in Ht.
    unfold lru_stale in Ht. destruct (expires c !! k) as [t'|] eqn:Hk.
    - destruct (After now t') eqn:Ha; [discriminate|]. injection Ht as <-. done.
    - discriminate. }
  intros k [e He]. rewrite (Hexk k (ex_intro _ e He)), Hexp1.
  destruct (lru_expired (map_to_list (expires c)) now c k) eqn:Hx; [|reflexivity].
  exfalso. destruct (listed_of_items c' k e Hinv' He) as (Hin & en & Hen & Hkey).
  rewrite Hlist' in Hin. eapply elem_of_sublist in Hin; [|apply sublist_drop].
  rewrite Hel' in Hen. pose proof (items_of_listed c1 e en Hinv1 Hin Hen) as Hi.
  rewrite Hkey, Hit1, Hx in Hi. discriminate.
Qed.

Lemma sum_over_elem el l e en :
  e ∈ l → el !! e = Some en → entry_size en ≤ sum_over el l.
Proof.
  induction l as [|x l IH]; intros Hin He; [by apply elem_of_nil in Hin|].
  rewrite sum_over_cons. apply elem_of_cons in Hin as [->|Hin].
  - rewrite He. pose proof (sum_over_nonneg el l). lia.
  - specialize (IH Hin He). destruct (el !! x) as [enx|]; [|assumption].
    pose proof (entry_size_nonneg enx). lia.
Qed.

(** The state [SetWithExpiration] has built when it calls [evict] on
    the insert path. *)
Lemma insert_state c k b d now :
  lru_inv c → mu c = mutex_free → items c !! k = None →
  sum_sizes c + len k + Len b < 2 ^ 62 →
  ∃ cI,
    (∀ now', SetWithExpiration c k (Some b) d now now' = (c2 ←! evict cI now'; with_mu Unlock c2)) ∧
    lru_inv cI ∧
    list_ cI = list_ c ++ [fresh c] ∧
    elems cI = <[fresh c := {| key := k; value := b |}]> (elems c) ∧
    items cI = <[k := fresh c]> (items c) ∧
    expires cI = (if 0 <? d then <[k := now + d]> (expires c) else delete k (expires c)) ∧
    usedBytes cI = usedBytes c + len k + Len b ∧
    maxBytes cI = maxBytes c ∧ onEvicted cI = onEvicted c ∧ evicted cI = evicted c ∧
    mu cI = {| readers := 0; writer := true |} ∧ fresh c ∉ list_ c.
Proof.
  intros [Hc Hx] Hmu Hk Hsz. pose proof Hc as (Hnd & Hl & Hi & Hu & Hb).
  pose proof (sum_over_nonneg (elems c) (list_ c)) as Hnn.
  pose proof (entry_size_nonneg {| key := k; value := b |}) as Hen.
  unfold entry_size in Hen. cbn [key value] in Hen.
  assert (Hfresh : fresh c ∉ list_ c).
  { intros Hin. destruct (Hl _ Hin) as [Hlt _]. lia. }
  set (ex := if 0 <? d then <[k := now + d]> (expires c) else delete k (expires c)).
  exists {| mu := {| readers := 0; writer := true |};
            elems := <[fresh c := {| key := k; value := b |}]> (elems c);
            list_ := list_ c ++ [fresh c];
            items := <[k := fresh c]> (items c);
            expires := ex;
            maxBytes := maxBytes c;
            usedBytes := usedBytes c + len k + Len b;
            onEvicted := onEvicted c; evicted := evicted c; fresh := S (fresh c) |}.
  split.
  { intros now'. unfold SetWithExpiration, with_mu at 1. rewrite Hmu.
    cbn [Lock mutex_free writer readers obind].
    assert (Hw : wrap_int64 (usedBytes c + wrap_int64 (len k + Len b)) = usedBytes c + len k + Len b).
    { unfold sum_sizes in *. rewrite (wrap_int64_small (len k + Len b)) by lia.
      rewrite wrap_int64_small by lia. lia. }
    subst ex. destruct (0 <? d); cbn [items set_expires set_mu]; rewrite Hk;
      unfold list_PushBack; cbv zeta;
      cbn [fresh elems list_ set_expires set_mu set_elems set_list set_fresh set_items
           set_usedBytes usedBytes items expires maxBytes onEvicted evicted mu];
      rewrite Hw; reflexivity. }
  split.
  { split.
    - unfold consistent, sum_sizes. cbn [list_ elems items usedBytes fresh].
      split; [|split; [|split; [|split]]].
      + apply NoDup_app. split; [assumption|]. split; [|apply NoDup_singleton].
        intros e He Hs%list_elem_of_singleton. subst e. contradiction.
      + intros e [He|Hs%list_elem_of_singleton]%elem_of_app; [|subst e].
        * destruct (Hl e He) as (Hlt & en & Hen' & Hien). split; [lia|].
          exists en. rewrite lookup_insert_ne by lia. split; [assumption|].
          rewrite lookup_insert_ne; [assumption|]. intros Heq. rewrite <- Heq in Hien. congruence.
        * split; [lia|]. exists {| key := k; value := b |}.
          rewrite lookup_insert_eq. cbn [key]. rewrite lookup_insert_eq. done.
      + intros k' e. rewrite lookup_insert_Some. intros [[<- <-]|[Hne Hke]].
        * split; [apply elem_of_app; right; apply list_elem_of_singleton; reflexivity|].
          exists {| key := k; value := b |}. rewrite lookup_insert_eq. done.
        * destruct (Hi k' e Hke) as (Hin & en & Hen' & Hkey).
          split; [apply elem_of_app; left; assumption|].
          exists en. rewrite lookup_insert_ne; [done|]. intros Heq. subst e. contradiction.
      + rewrite sum_over_app, lookup_insert_eq, sum_over_insert by assumption.
        unfold entry_size. cbn [key value]. unfold sum_sizes in *. lia.
      + rewrite sum_over_app, lookup_insert_eq, sum_over_insert by assumption.
        unfold entry_size. cbn [key value]. unfold sum_sizes in *. lia.
    - unfold expires_ok. cbn [expires items]. intros k' Hk'.
      destruct (decide (k' = k)) as [->|Hne]; [rewrite lookup_insert_eq; eauto|].
      rewrite lookup_insert_ne by congruence. apply Hx.
      subst ex. destruct (0 <? d).
      + rewrite lookup_insert_ne in Hk' by congruence. exact Hk'.
      + rewrite lookup_delete_ne in Hk' by congruence. exact Hk'. }
  cbn. repeat split; try reflexivity. exact Hfresh.
Qed.

Lemma newLRUCache_inv maxB oe : lru_inv (newLRUCache maxB oe).
Proof.
  split; [apply newLRUCache_consistent|].
  intros k [t Ht]. cbn in Ht. rewrite lookup_empty in Ht. discriminate.
Qed.

Lemma unlock_held c :
  mu c = {| readers := 0; writer := true |} →
  with_mu Unlock c = Ret (set_mu c mutex_free).
Proof. intros H. unfold with_mu, Unlock. rewrite H. reflexivity. Qed.

Lemma lru_inv_set_mu c x : lru_inv c → lru_inv (set_mu c x).
Proof. intros H. exact H. Qed.

(** The insert path as a whole. *)
Lemma SetWithExpiration_insert c k b d now now' :
  lru_inv c → mu c = mutex_free → items c !! k = None →
  sum_sizes c + len k + Len b < 2 ^ 62 →
  (0 < d → now' ≤ now + d) →
  ∃ c' n,
    SetWithExpiration c k (Some b) d now now' = Ret c' ∧
    lru_inv c' ∧ mu c' = mutex_free ∧ maxBytes c' = maxBytes c ∧
    elems c' = <[fresh c := {| key := k; value := b |}]> (elems c) ∧
    list_ c' = drop n (filter (λ e, lru_fresh now' c e = true) (list_ c) ++ [fresh c]) ∧
    (n ≤ S (length (filter (λ e, lru_fresh now' c e = true) (list_ c))))%nat ∧
    (∀ j, (j < n)%nat →
          0 < maxBytes c ∧
          maxBytes c < sum_over (<[fresh c := {| key := k; value := b |}]> (elems c))
                         (drop j (filter (λ e, lru_fresh now' c e = true) (list_ c) ++ [fresh c]))) ∧
    (0 < maxBytes c → usedBytes c' ≤ maxBytes c) ∧
    (is_Some (items c' !! k) → expires c' !! k = if 0 <? d then Some (now + d) else None).
Proof.
  intros Hinv Hmu Hk Hsz Hd.
  destruct (insert_state c k b d now Hinv Hmu Hk Hsz) as
    (cI & Heq & HinvI & HlI & HelI & HitI & HexI & HuI & HmI & HoI & HevI & HmuI & Hfresh).
  rewrite Heq.
  destruct (evict_spec cI now' HinvI) as
    (c2 & n & -> & Hinv2 & Hl2 & Hn & Hel2 & Hfr2 & Hoe2 & Hmax2 & Hmu2 & Hmin & Hbound & Hexs & Hexk).
  cbn [obind]. rewrite unlock_held by congruence.
  assert (HF : filter (λ e, lru_fresh now' cI e = true) (list_ cI) =
               filter (λ e, lru_fresh now' c e = true) (list_ c) ++ [fresh c]).
  { rewrite HlI, filter_app. f_equal.
    - apply filter_ext_in. intros e He. unfold lru_fresh.
      assert (Hne : e ≠ fresh c) by (intros ->; contradiction).
      rewrite HelI, lookup_insert_ne by congruence.
      destruct (elems c !! e) as [en|] eqn:Hen; [|tauto].
      pose proof (items_of_listed c e en Hinv He Hen) as Hi.
      assert (Hkk : key en ≠ k) by (intros Heq'; rewrite Heq' in Hi; congruence).
      unfold lru_stale. rewrite HexI.
      destruct (0 <? d); [rewrite lookup_insert_ne by congruence|rewrite lookup_delete_ne by congruence];
        tauto.
    - rewrite filter_cons, filter_nil. rewrite decide_True; [reflexivity|].
      unfold lru_fresh. rewrite HelI, lookup_insert_eq. cbn [key].
      unfold lru_stale. rewrite HexI. destruct (0 <? d) eqn:Hd0.
      + rewrite lookup_insert_eq. apply Z.ltb_lt in Hd0. specialize (Hd Hd0).
        unfold After. rewrite (proj2 (Z.ltb_ge _ _)) by lia. reflexivity.
      + rewrite lookup_delete_eq. reflexivity. }
  rewrite HF in *.
  exists (set_mu c2 mutex_free), n. split; [reflexivity|].
  split; [apply lru_inv_set_mu; assumption|]. split; [reflexivity|].
  cbn [set_mu maxBytes elems list_ usedBytes items expires].
  split; [congruence|]. split; [congruence|]. split; [assumption|].
  split; [rewrite length_app in Hn; cbn in Hn; lia|].
  split; [intros j Hj; destruct (Hmin j Hj) as [H1 H2]; rewrite HmI, HelI in *; done|].
  split; [rewrite <- HmI; exact Hbound|].
  intros Hk'. rewrite (Hexk k Hk'), HexI.
  destruct (0 <? d); [apply lookup_insert_eq|apply lookup_delete_eq].
Qed.

Lemma SetWithExpiration_insert_fits c k b d now now' :
  lru_inv c → mu c = mutex_free → items c !! k = None →
  sum_sizes c + len k + Len b < 2 ^ 62 →
  (0 < d → now' ≤ now + d) →
  maxBytes c ≤ 0 ∨ len k + Len b ≤ maxBytes c →
  ∃ c' e,
    SetWithExpiration c k (Some b) d now now' = Ret c' ∧
    lru_inv c' ∧ mu c' = mutex_free ∧
    items c' !! k = Some e ∧ elems c' !! e = Some {| key := k; value := b |} ∧
    last (list_ c') = Some e ∧
    expires c' !! k = (if 0 <? d then Some (now + d) else None) ∧
    (0 < maxBytes c → usedBytes c' ≤ maxBytes c).
Proof.
  intros Hinv Hmu Hk Hsz Hd Hfit.
  destruct (SetWithExpiration_insert c k b d now now' Hinv Hmu Hk Hsz Hd) as
    (c' & n & HS & Hinv' & Hmu' & Hmax' & Hel' & Hl' & Hn & Hmin & Hbound & Hexp).
  set (F := filter (λ e, lru_fresh now' c e = true) (list_ c)) in *.
  assert (HnF : (n ≤ length F)%nat).
  { destruct (decide (n ≤ length F)%nat) as [|Hgt]; [assumption|exfalso].
    destruct (Hmin (length F)) as [H1 H2]; [lia|].
    rewrite drop_app_length in H2. rewrite sum_over_cons, lookup_insert_eq in H2.
    unfold entry_size in H2. cbn [key value sum_over foldr] in H2. lia. }
  assert (Hlist : list_ c' = drop n F ++ [fresh c]).
  { rewrite Hl', drop_app_le by assumption. reflexivity. }
  assert (Hin : fresh c ∈ list_ c').
  { rewrite Hlist. apply elem_of_app. right. apply list_elem_of_singleton. reflexivity. }
  assert (Hen : elems c' !! fresh c = Some {| key := k; value := b |}).
  { rewrite Hel'. apply lookup_insert_eq. }
  pose proof (items_of_listed c' _ _ Hinv' Hin Hen) as Hi. cbn [key] in Hi.
  exists c', (fresh c). split; [assumption|]. split; [assumption|]. split; [assumption|].
  split; [assumption|]. split; [assumption|].
  split; [rewrite Hlist; apply last_snoc|].
  split; [apply Hexp; eauto|]. assumption.
Qed.

(** X1.  An insertion that fits stays: [SetWithExpiration] of a key
    that is not yet stored, whose entry (key plus value bytes) is
    within [maxBytes] or on a store without byte bound, returns with
    the key stored under the new value at the most recent end of the
    list, the lock released and the invariant kept; with a byte bound
    the bytes in use are within it. *)
Theorem lru_Set_keeps_fitting_entry c k b d now now' :
  lru_inv c → mu c = mutex_free → items c !! k = None →
  sum_sizes c + len k + Len b < 2 ^ 62 →
  (0 < d → now' ≤ now + d) →
  maxBytes c ≤ 0 ∨ len k + Len b ≤ maxBytes c →
  ∃ c' e,
    SetWithExpiration c k (Some b) d now now' = Ret c' ∧
    lru_inv c' ∧ mu c' = mutex_free ∧
    items c' !! k = Some e ∧ elems c' !! e = Some {| key := k; value := b |} ∧
    last (list_ c') = Some e ∧
    expires c' !! k = (if 0 <? d then Some (now + d) else None) ∧
    (0 < maxBytes c → usedBytes c' ≤ maxBytes c).
Proof. apply SetWithExpiration_insert_fits. Qed.

Lemma lru_Set_keeps_fitting_entry_witness :
  ∃ c' e,
    SetWithExpiration (newLRUCache 10 false) "a" (Some (bytes_n 3)) 5 100 101 = Ret c' ∧
    lru_inv c' ∧ mu c' = mutex_free ∧
    items c' !! "a" = Some e ∧ elems c' !! e = Some {| key := "a"; value := bytes_n 3 |} ∧
    last (list_ c') = Some e ∧
    expires c' !! "a" = (if 0 <? 5 then Some (100 + 5) else None) ∧
    (0 < maxBytes (newLRUCache 10 false) → usedBytes c' ≤ maxBytes (newLRUCache 10 false)).
Proof.
  apply (lru_Set_keeps_fitting_entry (newLRUCache 10 false) "a" (bytes_n 3) 5 100 101).
  - apply newLRUCache_inv.
  - reflexivity.
  - reflexivity.
  - vm_compute. reflexivity.
  - lia.
  - right. vm_compute. discriminate.
Defined.

(** X2.  An insertion that cannot fit empties the store: when the new
    entry alone is larger than a positive [maxBytes], [evict] drops
    every element, the new one included, and the call returns with
    an empty store. *)
Theorem lru_Set_oversized_entry_empties_store c k b d now now' :
  lru_inv c → mu c = mutex_free → items c !! k = None →
  sum_sizes c + len k + Len b < 2 ^ 62 →
  (0 < d → now' ≤ now + d) →
  0 < maxBytes c < len k + Len b →
  ∃ c',
    SetWithExpiration c k (Some b) d now now' = Ret c' ∧
    list_ c' = [] ∧ items c' = ∅ ∧ expires c' = ∅ ∧ usedBytes c' = 0 ∧
    mu c' = mutex_free ∧ maxBytes c' = maxBytes c.
Proof.
  intros Hinv Hmu Hk Hsz Hd Hbig.
  destruct (SetWithExpiration_insert c k b d now now' Hinv Hmu Hk Hsz Hd) as
    (c' & n & HS & Hinv' & Hmu' & Hmax' & Hel' & Hl' & Hn & Hmin & Hbound & Hexp).
  set (F := filter (λ e, lru_fresh now' c e = true) (list_ c)) in *.
  pose proof Hinv' as [(_ & _ & Hi' & Hu' & _) Hx'].
  assert (Hlist : list_ c' = []).
  { destruct (decide (n ≤ length F)%nat) as [Hle|Hgt].
    - exfalso. assert (Hin : fresh c ∈ list_ c').
      { rewrite Hl', drop_app_le by assumption. apply elem_of_app. right.
        apply list_elem_of_singleton. reflexivity. }
      pose proof (sum_over_elem (elems c') (list_ c') (fresh c) {| key := k; value := b |} Hin) as Hge.
      rewrite Hel', lookup_insert_eq in Hge. specialize (Hge eq_refl).
      unfold entry_size in Hge. cbn [key value] in Hge.
      rewrite <- Hel' in Hge. fold (sum_sizes c') in Hge. rewrite <- Hu' in Hge.
      specialize (Hbound (proj1 Hbig)). lia.
    - rewrite Hl'. apply drop_ge. rewrite length_app. cbn. lia. }
  assert (Hitems : items c' = ∅).
  { apply map_eq. intros k'. rewrite lookup_empty.
    destruct (items c' !! k') as [e|] eqn:He; [|reflexivity].
    destruct (Hi' k' e He) as [Hin _]. rewrite Hlist in Hin. by apply elem_of_nil in Hin. }
  exists c'. split; [assumption|]. split; [assumption|]. split; [assumption|].
  split.
  { apply map_eq. intros k'. rewrite lookup_empty.
    destruct (expires c' !! k') as [t|] eqn:Ht; [|reflexivity].
    destruct (Hx' k' (ex_intro _ t Ht)) as [e He]. rewrite Hitems, lookup_empty in He. discriminate. }
  split; [rewrite Hu'; unfold sum_sizes; rewrite Hlist; reflexivity|].
  split; assumption.
Qed.

Lemma lru_Set_oversized_entry_empties_store_witness :
  ∃ c',
    SetWithExpiration (newLRUCache 3 false) "a" (Some (bytes_n 3)) 0 100 101 = Ret c' ∧
    list_ c' = [] ∧ items c' = ∅ ∧ expires c' = ∅ ∧ usedBytes c' = 0 ∧
    mu c' = mutex_free ∧ maxBytes c' = maxBytes (newLRUCache 3 false).
Proof.
  apply (lru_Set_oversized_entry_empties_store (newLRUCache 3 false) "a" (bytes_n 3) 0 100 101).
  - apply newLRUCache_inv.
  - reflexivity.
  - reflexivity.
  - vm_compute. reflexivity.
  - lia.
  - split; vm_compute; reflexivity.
Defined.

Lemma lock_free c :
  mu c = mutex_free → with_mu Lock c = Ret (set_mu c {| readers := 0; writer := true |}).
Proof. intros H. unfold with_mu, Lock. rewrite H. reflexivity. Qed.

Lemma set_mu_set_mu c x y : set_mu (set_mu c x) y = set_mu c y.
Proof. reflexivity. Qed.

(** X3.  [Delete] of a key that is not stored returns false and
    leaves the store as it was; of a stored key it returns true,
    removes the key with its expiry and its element, gives back
    exactly the entry's bytes, reports the entry to the callback if
    there is one, and keeps the invariant. *)
Theorem lru_Delete_removes_key c k :
  lru_inv c → mu c = mutex_free →
  match items c !! k with
  | None => Delete c k = Ret (false, c)
  | Some e =>
      ∃ en c', elems c !! e = Some en ∧ Delete c k = Ret (true, c') ∧
        lru_inv c' ∧ mu c' = mutex_free ∧
        items c' = delete k (items c) ∧ expires c' = delete k (expires c) ∧
        list_ c' = filter (λ x, x ≠ e) (list_ c) ∧
        usedBytes c' = usedBytes c - (len k + Len (value en)) ∧
        maxBytes c' = maxBytes c ∧
        evicted c' = evicted c ++ (if onEvicted c then [(k, value en)] else [])
  end.
Proof.
  intros Hinv Hmu. unfold Delete. rewrite lock_free by assumption. cbn [obind set_mu items].
  destruct (items c !! k) as [e|] eqn:Hk.
  - destruct (listed_of_items c k e Hinv Hk) as (Hin & en0 & Hen0 & Hkey0).
    destruct (removeElement_inv (set_mu c {| readers := 0; writer := true |}) e) as
      (en & c1 & Hen & Hien & -> & Hinv1 & Hlist1 & Hit1 & Hex1 & Hel1 & Hfr1 & Hoe1 &
       Hmax1 & Hmu1 & Hused1 & Hev1); [exact Hinv|exact Hin|].
    cbn [set_mu elems] in Hen. assert (en0 = en) as -> by congruence. rewrite Hkey0 in *.
    cbn [obind]. rewrite unlock_held by (rewrite Hmu1; reflexivity). cbn [obind].
    exists en, (set_mu c1 mutex_free). split; [assumption|]. split; [reflexivity|].
    split; [exact Hinv1|]. split; [reflexivity|].
    cbn [set_mu items expires list_ usedBytes maxBytes evicted].
    split; [exact Hit1|]. split; [exact Hex1|]. split; [exact Hlist1|].
    split; [rewrite Hused1; unfold entry_size; rewrite Hkey0; cbn; lia|].
    split; [exact Hmax1|exact Hev1].
  - rewrite unlock_held by reflexivity. cbn [obind]. rewrite set_mu_set_mu, set_mu_free by assumption.
    reflexivity.
Qed.

Lemma lru_ab_inv : lru_inv lru_ab ∧ mu lru_ab = mutex_free.
Proof.
  destruct (SetWithExpiration_insert (newLRUCache 100 true) "a" (bytes_n 3) 5 0 0) as
    (c1 & n1 & HS1 & Hinv1 & Hmu1 & _); [apply newLRUCache_inv|reflexivity|reflexivity| |lia|].
  { vm_compute. reflexivity. }
  assert (Hc1 : c1 = {| mu := mutex_free;
     elems := <[0%nat := {| key := "a"; value := bytes_n 3 |}]> ∅;
     list_ := [0%nat]; items := <["a" := 0%nat]> ∅; expires := <["a" := 5]> ∅;
     maxBytes := 100; usedBytes := 4; onEvicted := true; evicted := []; fresh := 1 |}).
  { assert (H : SetWithExpiration (newLRUCache 100 true) "a" (Some (bytes_n 3)) 5 0 0 = Ret
       {| mu := mutex_free;
          elems := <[0%nat := {| key := "a"; value := bytes_n 3 |}]> ∅;
          list_ := [0%nat]; items := <["a" := 0%nat]> ∅; expires := <["a" := 5]> ∅;
          maxBytes := 100; usedBytes := 4; onEvicted := true; evicted := []; fresh := 1 |})
      by (vm_compute; reflexivity).
    congruence. }
  destruct (SetWithExpiration_insert c1 "b" (bytes_n 5) 0 1 1 Hinv1 Hmu1) as
    (c2 & n2 & HS2 & Hinv2 & Hmu2 & _).
  { rewrite Hc1. reflexivity. }
  { rewrite Hc1. vm_compute. reflexivity. }
  { lia. }
  assert (lru_ab = c2) as ->; [|split; assumption].
  unfold lru_ab. rewrite HS1. unfold Set_. rewrite HS2. reflexivity.
Qed.

Lemma lru_Delete_removes_key_witness :
  match items lru_ab !! "a" with
  | None => Delete lru_ab "a" = Ret (false, lru_ab)
  | Some e =>
      ∃ en c', elems lru_ab !! e = Some en ∧ Delete lru_ab "a" = Ret (true, c') ∧
        lru_inv c' ∧ mu c' = mutex_free ∧
        items c' = delete "a" (items lru_ab) ∧ expires c' = delete "a" (expires lru_ab) ∧
        list_ c' = filter (λ x, x ≠ e) (list_ lru_ab) ∧
        usedBytes c' = usedBytes lru_ab - (len "a" + Len (value en)) ∧
        maxBytes c' = maxBytes lru_ab ∧
        evicted c' = evicted lru_ab ++ (if onEvicted lru_ab then [("a", value en)] else [])
  end.
Proof. apply (lru_Delete_removes_key lru_ab "a"); apply lru_ab_inv. Defined.

Lemma items_after_evict c c' now n :
  lru_inv c → lru_inv c' → elems c' = elems c →
  list_ c' = drop n (filter (λ e, lru_fresh now c e = true) (list_ c)) →
  ∀ k e, items c' !! k = Some e ↔ items c !! k = Some e ∧ e ∈ list_ c'.
Proof.
  intros Hinv Hinv' Hel Hl k e. split.
  - intros He. destruct (listed_of_items c' k e Hinv' He) as (Hin & en & Hen & Hkey).
    split; [|assumption]. rewrite Hl in Hin.
    eapply elem_of_sublist in Hin; [|apply sublist_drop].
    apply list_elem_of_filter in Hin as [_ Hin]. rewrite Hel in Hen.
    rewrite <- Hkey. apply items_of_listed; assumption.
  - intros [He Hin]. destruct (listed_of_items c k e Hinv He) as (_ & en & Hen & Hkey).
    rewrite <- Hkey. apply items_of_listed; [assumption|assumption|]. rewrite Hel. assumption.
Qed.

(** X4.  [SetMaxBytes] with a bound that is not positive only records
    the bound.  With a positive bound it returns with the bytes in
    use within the bound, having dropped the entries that had expired
    and, of the others, a prefix of the recency list: the least
    recently used entries go first, and no more of them than needed. *)
Theorem lru_SetMaxBytes_evicts_least_recent c maxB now :
  lru_inv c → mu c = mutex_free →
  (maxB ≤ 0 → SetMaxBytes c maxB now = Ret (set_maxBytes c maxB)) ∧
  (0 < maxB →
   ∃ c' n,
     SetMaxBytes c maxB now = Ret c' ∧ lru_inv c' ∧ mu c' = mutex_free ∧
     maxBytes c' = maxB ∧ usedBytes c' ≤ maxB ∧ elems c' = elems c ∧
     list_ c' = drop n (filter (λ e, lru_fresh now c e = true) (list_ c)) ∧
     (∀ j, (j < n)%nat →
           maxB < sum_over (elems c) (drop j (filter (λ e, lru_fresh now c e = true) (list_ c)))) ∧
     (∀ k e, items c' !! k = Some e ↔ items c !! k = Some e ∧ e ∈ list_ c')).
Proof.
  intros Hinv Hmu. unfold SetMaxBytes. rewrite lock_free by assumption. cbn [obind]. split.
  - intros Hle. rewrite (proj2 (Z.ltb_ge 0 maxB)) by lia. cbn [obind].
    rewrite unlock_held by reflexivity. f_equal.
    destruct c; cbn in *; subst; reflexivity.
  - intros Hpos. rewrite (proj2 (Z.ltb_lt 0 maxB)) by lia.
    set (c1 := set_maxBytes _ _).
    assert (Hinv1 : lru_inv c1) by exact Hinv.
    destruct (evict_spec c1 now Hinv1) as
      (c2 & n & -> & Hinv2 & Hl2 & Hn & Hel2 & Hfr2 & Hoe2 & Hmax2 & Hmu2 & Hmin & Hbound & _).
    cbn [obind]. rewrite unlock_held by (rewrite Hmu2; reflexivity).
    exists (set_mu c2 mutex_free), n. split; [reflexivity|].
    split; [exact Hinv2|]. split; [reflexivity|].
    cbn [set_mu maxBytes usedBytes elems list_ items].
    split; [exact Hmax2|]. split; [apply Hbound; exact Hpos|]. split; [exact Hel2|].
    split; [exact Hl2|]. split; [intros j Hj; apply (Hmin j Hj)|].
    apply (items_after_evict c c2 now n Hinv Hinv2 Hel2 Hl2).
Qed.

Lemma lru_SetMaxBytes_evicts_least_recent_witness :
  (6 ≤ 0 → SetMaxBytes lru_ab 6 2 = Ret (set_maxBytes lru_ab 6)) ∧
  (0 < 6 →
   ∃ c' n,
     SetMaxBytes lru_ab 6 2 = Ret c' ∧ lru_inv c' ∧ mu c' = mutex_free ∧
     maxBytes c' = 6 ∧ usedBytes c' ≤ 6 ∧ elems c' = elems lru_ab ∧
     list_ c' = drop n (filter (λ e, lru_fresh 2 lru_ab e = true) (list_ lru_ab)) ∧
     (∀ j, (j < n)%nat →
           6 < sum_over (elems lru_ab) (drop j (filter (λ e, lru_fresh 2 lru_ab e = true) (list_ lru_ab)))) ∧
     (∀ k e, items c' !! k = Some e ↔ items lru_ab !! k = Some e ∧ e ∈ list_ c')).
Proof. apply (lru_SetMaxBytes_evicts_least_recent lru_ab 6 2); apply lru_ab_inv. Defined.

(** X5.  A round of the cleanup loop returns with no expired entry
    left: every expiry still recorded is not before the clock
    reading.  Only keys that were stored and had not expired remain;
    on a store without byte bound all of those remain, and with a
    byte bound the bytes in use are within it. *)
Theorem lru_cleanup_tick_drops_expired c now :
  lru_inv c → mu c = mutex_free →
  ∃ c',
    cleanupLoop_tick c now = Ret c' ∧ lru_inv c' ∧ mu c' = mutex_free ∧
    (∀ k t, expires c' !! k = Some t → After now t = false) ∧
    (∀ k e, items c' !! k = Some e → items c !! k = Some e ∧ lru_stale now c k = false) ∧
    (maxBytes c ≤ 0 →
     ∀ k e, items c !! k = Some e → lru_stale now c k = false → items c' !! k = Some e) ∧
    (0 < maxBytes c → usedBytes c' ≤ maxBytes c).
Proof.
  intros Hinv Hmu. unfold cleanupLoop_tick. rewrite lock_free by assumption. cbn [obind].
  set (c1 := set_mu c _).
  assert (Hinv1 : lru_inv c1) by exact Hinv.
  destruct (evict_spec c1 now Hinv1) as
    (c2 & n & -> & Hinv2 & Hl2 & Hn & Hel2 & Hfr2 & Hoe2 & Hmax2 & Hmu2 & Hmin & Hbound & Hexs & _).
  cbn [obind]. rewrite unlock_held by (rewrite Hmu2; reflexivity).
  pose proof (items_after_evict c c2 now n Hinv Hinv2 Hel2 Hl2) as Hit.
  exists (set_mu c2 mutex_free). split; [reflexivity|].
  split; [exact Hinv2|]. split; [reflexivity|].
  cbn [set_mu expires items usedBytes].
  split; [intros k t Ht; apply (Hexs k t Ht)|].
  split.
  { intros k e He. apply Hit in He as [He Hin]. split; [assumption|].
    rewrite Hl2 in Hin. eapply elem_of_sublist in Hin; [|apply sublist_drop].
    apply list_elem_of_filter in Hin as [Hfresh Hin].
    destruct (listed_of_items c k e Hinv He) as (_ & en & Hen & Hkey).
    change (lru_fresh now c e = true) in Hfresh.
    unfold lru_fresh in Hfresh. rewrite Hen, Hkey in Hfresh.
    apply negb_true_iff in Hfresh. exact Hfresh. }
  split; [|exact Hbound].
  intros Hmax k e He Hst. apply Hit. split; [assumption|].
  assert (n = 0%nat) as ->.
  { destruct n as [|n]; [reflexivity|]. destruct (Hmin 0%nat) as [H _]; [lia|]. cbn in H. lia. }
  rewrite Hl2, drop_0. apply list_elem_of_filter.
  destruct (listed_of_items c k e Hinv He) as (Hin & en & Hen & Hkey).
  split; [|assumption]. change (lru_fresh now c e = true).
  unfold lru_fresh. rewrite Hen, Hkey, Hst. reflexivity.
Qed.

Lemma lru_cleanup_tick_drops_expired_witness :
  ∃ c',
    cleanupLoop_tick lru_ab 10 = Ret c' ∧ lru_inv c' ∧ mu c' = mutex_free ∧
    (∀ k t, expires c' !! k = Some t → After 10 t = false) ∧
    (∀ k e, items c' !! k = Some e → items lru_ab !! k = Some e ∧ lru_stale 10 lru_ab k = false) ∧
    (maxBytes lru_ab ≤ 0 →
     ∀ k e, items lru_ab !! k = Some e → lru_stale 10 lru_ab k = false → items c' !! k = Some e) ∧
    (0 < maxBytes lru_ab → usedBytes c' ≤ maxBytes lru_ab).
Proof. apply (lru_cleanup_tick_drops_expired lru_ab 10); apply lru_ab_inv. Defined.

(** The update path of [SetWithExpiration] keeps the invariant. *)
Lemma SetWithExpiration_update_inv c k b d now now' e :
  lru_inv c → mu c = mutex_free → items c !! k = Some e →
  sum_sizes c + Len b < 2 ^ 62 →
  ∃ old c',
    elems c !! e = Some old ∧
    SetWithExpiration c k (Some b) d now now' = Ret c' ∧
    lru_inv c' ∧ mu c' = mutex_free ∧ items c' = items c ∧
    elems c' = <[e := {| key := k; value := b |}]> (elems c) ∧
    list_ c' = filter (λ x, x ≠ e) (list_ c) ++ [e] ∧
    expires c' = (if 0 <? d then <[k := now + d]> (expires c) else delete k (expires c)) ∧
    usedBytes c' = usedBytes c + Len b - Len (value old) ∧ maxBytes c' = maxBytes c.
Proof.
  intros Hinv Hmu Hk Hsz. pose proof Hinv as [Hc Hx].
  pose proof Hc as (Hnd & Hl & Hi & Hu & Hb).
  destruct (Hi k e Hk) as (Hin & old & Hold & Hkey).
  pose proof (sum_over_remove (elems c) (list_ c) e old Hnd Hin Hold) as Hrem.
  pose proof (sum_over_nonneg (elems c) (filter (λ x, x ≠ e) (list_ c))) as Hnn.
  pose proof (entry_size_nonneg old) as Hso.
  assert (HLb : 0 ≤ Len b) by (unfold Len; lia).
  assert (HLo : 0 ≤ Len (value old)) by (unfold Len; lia).
  assert (Hlk : 0 ≤ len k) by (unfold len; lia).
  unfold entry_size in Hrem, Hso. rewrite Hkey in Hrem, Hso.
  set (ex := if 0 <? d then <[k := now + d]> (expires c) else delete k (expires c)).
  exists old,
    {| mu := mutex_free;
       elems := <[e := {| key := k; value := b |}]> (elems c);
       list_ := filter (λ x, x ≠ e) (list_ c) ++ [e];
       items := items c; expires := ex; maxBytes := maxBytes c;
       usedBytes := usedBytes c + Len b - Len (value old);
       onEvicted := onEvicted c; evicted := evicted c; fresh := fresh c |}.
  split; [assumption|]. split.
  { unfold SetWithExpiration. rewrite lock_free by assumption. cbn [obind].
    assert (Hw : wrap_int64 (usedBytes c + wrap_int64 (Len b - Len (value old)))
                 = usedBytes c + Len b - Len (value old)).
    { unfold entry_size, sum_sizes in *.
      rewrite (wrap_int64_small (Len b - Len (value old))) by lia.
      rewrite wrap_int64_small by lia. lia. }
    subst ex. destruct (0 <? d); cbn [items set_expires set_mu elems]; rewrite Hk;
      unfold entry_of; cbn [set_expires set_mu elems]; rewrite Hold; cbn [obind];
      unfold list_MoveToBack, in_list;
      cbn [list_ set_elems set_usedBytes set_expires set_mu];
      rewrite bool_decide_eq_true_2 by assumption;
      rewrite unlock_held by reflexivity;
      cbn [usedBytes set_expires set_mu]; rewrite Hw, Hkey; reflexivity. }
  assert (Hnotin : e ∉ filter (λ x, x ≠ e) (list_ c)).
  { intros [Hne _]%list_elem_of_filter. apply Hne. reflexivity. }
  split.
  { split.
    - unfold consistent, sum_sizes. cbn [list_ elems items usedBytes fresh].
      split; [|split; [|split; [|split]]].
      + apply NoDup_app. split; [apply NoDup_filter; assumption|].
        split; [|apply NoDup_singleton].
        intros x Hx' Hs%list_elem_of_singleton. subst x. contradiction.
      + intros x [[Hne Hx']%list_elem_of_filter|Hs%list_elem_of_singleton]%elem_of_app.
        * destruct (Hl x Hx') as (Hlt & en & Hen & Hien). split; [assumption|].
          exists en. rewrite lookup_insert_ne by congruence. done.
        * subst x. destruct (Hl e Hin) as (Hlt & _). split; [assumption|].
          exists {| key := k; value := b |}. rewrite lookup_insert_eq. done.
      + intros k' x Hk'. destruct (Hi k' x Hk') as (Hx' & en & Hen & Hkey').
        destruct (decide (x = e)) as [->|Hne].
        * split; [apply elem_of_app; right; apply list_elem_of_singleton; reflexivity|].
          exists {| key := k; value := b |}. rewrite lookup_insert_eq.
          split; [reflexivity|]. cbn [key]. congruence.
        * split; [apply elem_of_app; left; apply list_elem_of_filter; done|].
          exists en. rewrite lookup_insert_ne by congruence. done.
      + rewrite sum_over_app, lookup_insert_eq, sum_over_insert by assumption.
        unfold entry_size in *. cbn [key value]. unfold sum_sizes in *. lia.
      + rewrite sum_over_app, lookup_insert_eq, sum_over_insert by assumption.
        unfold entry_size in *. cbn [key value]. unfold sum_sizes in *. lia.
    - unfold expires_ok. cbn [expires items]. intros k' Hk'.
      destruct (decide (k' = k)) as [->|Hne]; [eauto|]. apply Hx.
      subst ex. destruct (0 <? d).
      + rewrite lookup_insert_ne in Hk' by congruence. exact Hk'.
      + rewrite lookup_delete_ne in Hk' by congruence. exact Hk'. }
  cbn. repeat split; reflexivity.
Qed.

Lemma MoveToBack_idle c e :
  mu c = mutex_free →
  set_mu (list_MoveToBack (set_mu c {| readers := 1; writer := false |}) e) mutex_free
  = list_MoveToBack c e.
Proof.
  intros Hmu. unfold list_MoveToBack, in_list. cbn [set_mu list_].
  destruct (bool_decide (e ∈ list_ c)); destruct c; cbn in *; subst; reflexivity.
Qed.

Lemma rlock_free c :
  mu c = mutex_free → with_mu RLock c = Ret (set_mu c {| readers := 1; writer := false |}).
Proof. intros H. unfold with_mu, RLock. rewrite H. reflexivity. Qed.

Lemma runlock_one c :
  mu c = {| readers := 1; writer := false |} →
  with_mu RUnlock c = Ret (set_mu c mutex_free).
Proof. intros H. unfold with_mu, RUnlock. rewrite H. reflexivity. Qed.

(** A hit of [GetWithExpiration] on an idle store. *)
Lemma GetWithExpiration_hit c k now e en :
  mu c = mutex_free → items c !! k = Some e → elems c !! e = Some en →
  lru_stale now c k = false →
  GetWithExpiration c k now =
    Ret (Some (value en),
         match expires c !! k with Some t => Sub t now | None => 0 end,
         true, list_MoveToBack c e).
Proof.
  intros Hmu Hk Hen Hst. unfold GetWithExpiration. rewrite rlock_free by assumption.
  cbn [obind set_mu items expires]. rewrite Hk.
  assert (He : ∀ c1, elems c1 = elems c → entry_of (list_MoveToBack c1 e) e = Ret en).
  { intros c1 H1. unfold entry_of, list_MoveToBack. destruct (in_list c1 e); cbn; rewrite H1, Hen; done. }
  assert (Hm : mu (list_MoveToBack (set_mu c {| readers := 1; writer := false |}) e)
               = {| readers := 1; writer := false |}).
  { unfold list_MoveToBack. destruct (in_list _ e); reflexivity. }
  unfold lru_stale in Hst. destruct (expires c !! k) as [t|].
  - rewrite Hst. rewrite He by reflexivity. cbn [obind].
    rewrite runlock_one by exact Hm. cbn [obind]. rewrite MoveToBack_idle by assumption. reflexivity.
  - rewrite He by reflexivity. cbn [obind].
    rewrite runlock_one by exact Hm. cbn [obind]. rewrite MoveToBack_idle by assumption. reflexivity.
Qed.

(** A miss of [GetWithExpiration] on an idle store leaves it as it was. *)
Lemma GetWithExpiration_miss c k now :
  mu c = mutex_free →
  items c !! k = None ∨ lru_stale now c k = true →
  GetWithExpiration c k now = Ret (None, 0, false, c).
Proof.
  intros Hmu Hmiss. unfold GetWithExpiration. rewrite rlock_free by assumption.
  cbn [obind set_mu items expires].
  assert (Hback : with_mu RUnlock (set_mu c {| readers := 1; writer := false |}) = Ret c).
  { rewrite runlock_one by reflexivity. rewrite set_mu_set_mu, set_mu_free by assumption. reflexivity. }
  destruct (items c !! k) as [e|] eqn:Hk.
  - destruct Hmiss as [|Hst]; [discriminate|]. unfold lru_stale in Hst.
    destruct (expires c !! k) as [t|]; [|discriminate]. rewrite Hst, Hback. reflexivity.
  - rewrite Hback. reflexivity.
Qed.

(** X6.  What [SetWithExpiration] stores, [GetWithExpiration] finds:
    after a call that updates a stored key, or inserts a key whose
    entry fits, a lookup of the key returns the new value with the
    flag true and the time left (0 for an entry without expiry), and
    makes the key the most recently used; once the expiry has passed
    the lookup reports a miss and leaves the store as it is. *)
Theorem lru_GetWithExpiration_after_Set c k b d now now' t :
  lru_inv c → mu c = mutex_free →
  sum_sizes c + len k + Len b < 2 ^ 62 →
  (0 < d → now' ≤ now + d) →
  (items c !! k = None → maxBytes c ≤ 0 ∨ len k + Len b ≤ maxBytes c) →
  ∃ c1,
    SetWithExpiration c k (Some b) d now now' = Ret c1 ∧
    if (0 <? d) && (now + d <? t)
    then GetWithExpiration c1 k t = Ret (None, 0, false, c1)
    else ∃ c2 e,
           GetWithExpiration c1 k t =
             Ret (Some b, (if 0 <? d then Sub (now + d) t else 0), true, c2) ∧
           items c2 !! k = Some e ∧ last (list_ c2) = Some e ∧ mu c2 = mutex_free.
Proof.
  intros Hinv Hmu Hsz Hd Hfit.
  assert (Hcore : ∃ c1 e,
    SetWithExpiration c k (Some b) d now now' = Ret c1 ∧ mu c1 = mutex_free ∧
    items c1 !! k = Some e ∧ elems c1 !! e = Some {| key := k; value := b |} ∧
    e ∈ list_ c1 ∧
    expires c1 !! k = (if 0 <? d then Some (now + d) else None)).
  { destruct (items c !! k) as [e|] eqn:Hk.
    - destruct (SetWithExpiration_update_inv c k b d now now' e Hinv Hmu Hk) as
        (old & c1 & Hold & HS & Hinv1 & Hmu1 & Hit1 & Hel1 & Hl1 & Hex1 & _).
      { pose proof (Zle_0_nat (String.length k)). unfold len in Hsz. lia. }
      exists c1, e. split; [assumption|]. split; [assumption|].
      split; [rewrite Hit1; assumption|]. split; [rewrite Hel1; apply lookup_insert_eq|].
      split; [rewrite Hl1; apply elem_of_app; right; apply list_elem_of_singleton; reflexivity|].
      rewrite Hex1. destruct (0 <? d); [apply lookup_insert_eq|apply lookup_delete_eq].
    - destruct (SetWithExpiration_insert_fits c k b d now now' Hinv Hmu Hk Hsz Hd (Hfit eq_refl)) as
        (c1 & e & HS & Hinv1 & Hmu1 & Hit1 & Hel1 & Hlast & Hex1 & _).
      exists c1, e. do 4 (split; [assumption|]). split; [|assumption].
      destruct (listed_of_items c1 k e Hinv1 Hit1) as [Hin _]. exact Hin. }
  destruct Hcore as (c1 & e & HS & Hmu1 & Hit1 & Hel1 & Hin1 & Hex1).
  exists c1. split; [assumption|].
  assert (Hst : lru_stale t c1 k = (0 <? d) && (now + d <? t)).
  { unfold lru_stale. rewrite Hex1. destruct (0 <? d); reflexivity. }
  destruct ((0 <? d) && (now + d <? t)) eqn:Hcase.
  - apply GetWithExpiration_miss; [assumption|]. right. exact Hst.
  - exists (list_MoveToBack c1 e), e.
    rewrite (GetWithExpiration_hit c1 k t e _ Hmu1 Hit1 Hel1 Hst). rewrite Hex1. cbn [value].
    split; [destruct (0 <? d); reflexivity|].
    unfold list_MoveToBack, in_list. rewrite bool_decide_eq_true_2 by assumption.
    cbn [set_list items list_ mu]. split; [assumption|]. split; [apply last_snoc|assumption].
Qed.

Lemma lru_GetWithExpiration_after_Set_witness :
  ∃ c1,
    SetWithExpiration lru_ab "b" (Some (bytes_n 7)) 20 100 101 = Ret c1 ∧
    if (0 <? 20) && (100 + 20 <? 110)
    then GetWithExpiration c1 "b" 110 = Ret (None, 0, false, c1)
    else ∃ c2 e,
           GetWithExpiration c1 "b" 110 =
             Ret (Some (bytes_n 7), (if 0 <? 20 then Sub (100 + 20) 110 else 0), true, c2) ∧
           items c2 !! "b" = Some e ∧ last (list_ c2) = Some e ∧ mu c2 = mutex_free.
Proof.
  apply (lru_GetWithExpiration_after_Set lru_ab "b" (bytes_n 7) 20 100 101 110).
  - apply lru_ab_inv.
  - apply lru_ab_inv.
  - vm_compute. reflexivity.
  - lia.
  - vm_compute. discriminate.
Defined.

Lemma Clear_callbacks_spec l c :
  (∀ ke, ke ∈ l → is_Some (elems c !! ke.2)) →
  Clear_callbacks l c = Ret (set_evicted c (evicted c ++ lru_entries (elems c) l.*2)).
Proof.
  revert c. induction l as [|[k0 e] l IH]; intros c Hl.
  - cbn. rewrite app_nil_r. destruct c; reflexivity.
  - cbn [Clear_callbacks fmap list_fmap snd]. rewrite lru_entries_cons.
    destruct (Hl (k0, e)) as [en Hen]; [left|]. cbn [snd] in Hen.
    unfold entry_of. rewrite Hen. cbn [obind].
    rewrite IH by (intros ke Hke; cbn; apply Hl; right; exact Hke).
    cbn [set_evicted evicted elems]. rewrite <- app_assoc. reflexivity.
Qed.

(** X7.  [Clear] returns with an empty store: no element, no key, no
    expiry, no byte in use, so that [Len] gives 0; the byte bound is
    kept, and when there is a callback it has been given every
    stored entry once, in the order in which the range went over the
    keys. *)
Theorem lru_Clear_empties_store c l :
  lru_inv c → mu c = mutex_free → l ≡ₚ map_to_list (items c) →
  ∃ c',
    Clear_in l c = Ret c' ∧ lru_inv c' ∧ mu c' = mutex_free ∧
    list_ c' = [] ∧ items c' = ∅ ∧ expires c' = ∅ ∧ usedBytes c' = 0 ∧
    maxBytes c' = maxBytes c ∧
    evicted c' = evicted c ++ (if onEvicted c then lru_entries (elems c) l.*2 else []) ∧
    Len_ c' = Ret (0, c').
Proof.
  intros Hinv Hmu Hl. unfold Clear_in. rewrite lock_free by assumption. cbn [obind set_mu onEvicted].
  set (cL := set_mu c _).
  assert (Hcb : (if onEvicted c then Clear_callbacks l cL else Ret cL) =
                Ret (set_evicted cL (evicted c ++ (if onEvicted c then lru_entries (elems c) l.*2 else [])))).
  { destruct (onEvicted c).
    - rewrite Clear_callbacks_spec; [reflexivity|].
      intros [k e] Hke. cbn [snd]. rewrite Hl in Hke. apply elem_of_map_to_list in Hke.
      destruct (listed_of_items c k e Hinv Hke) as (_ & en & Hen & _). exists en. exact Hen.
    - rewrite app_nil_r. destruct c; reflexivity. }
  change (onEvicted c) with (onEvicted c) in Hcb. rewrite Hcb. cbn [obind].
  rewrite unlock_held by reflexivity.
  eexists. split; [reflexivity|].
  cbn [set_mu set_usedBytes set_expires set_items set_list set_evicted list_ items expires
       usedBytes maxBytes evicted mu].
  split.
  { split.
    - unfold consistent, sum_sizes. cbn. split; [apply NoDup_nil_2|].
      split; [intros e He; by apply elem_of_nil in He|].
      split; [intros k e; rewrite lookup_empty; discriminate|]. split; [reflexivity|lia].
    - intros k [t Ht]. cbn in Ht. rewrite lookup_empty in Ht. discriminate. }
  do 7 (split; [reflexivity|]).
  unfold Len_. rewrite rlock_free by reflexivity. cbn [obind].
  rewrite runlock_one by reflexivity. cbn. reflexivity.
Qed.

Lemma lru_Clear_empties_store_witness :
  ∃ c',
    Clear_in (map_to_list (items lru_ab)) lru_ab = Ret c' ∧ lru_inv c' ∧ mu c' = mutex_free ∧
    list_ c' = [] ∧ items c' = ∅ ∧ expires c' = ∅ ∧ usedBytes c' = 0 ∧
    maxBytes c' = maxBytes lru_ab ∧
    evicted c' = evicted lru_ab ++
      (if onEvicted lru_ab then lru_entries (elems lru_ab) (map_to_list (items lru_ab)).*2 else []) ∧
    Len_ c' = Ret (0, c').
Proof.
  apply (lru_Clear_empties_store lru_ab (map_to_list (items lru_ab)));
    [apply lru_ab_inv|apply lru_ab_inv|reflexivity].
Defined.

(** X8.  [UpdateExpiration] of a key that is not stored returns false
    and changes nothing.  For a stored key it returns true and only
    the expiry changes: a positive duration sets it to that long
    after the clock reading, any other removes it; [GetExpiration]
    then gives back that expiry, and [GetWithExpiration] finds the
    stored value with the matching time left, or reports a miss once
    the new expiry has passed. *)
Theorem lru_UpdateExpiration_then_lookup c k d now t :
  mu c = mutex_free →
  match items c !! k with
  | None => UpdateExpiration c k d now = Ret (false, c)
  | Some e =>
      ∃ c1,
        UpdateExpiration c k d now = Ret (true, c1) ∧
        mu c1 = mutex_free ∧ items c1 = items c ∧ list_ c1 = list_ c ∧
        elems c1 = elems c ∧ usedBytes c1 = usedBytes c ∧
        expires c1 = (if 0 <? d then <[k := now + d]> (expires c) else delete k (expires c)) ∧
        GetExpiration c1 k = Ret ((if 0 <? d then Some (now + d) else None), c1) ∧
        (lru_inv c → lru_inv c1) ∧
        ∀ en, elems c !! e = Some en →
          GetWithExpiration c1 k t =
            if (0 <? d) && (now + d <? t) then Ret (None, 0, false, c1)
            else Ret (Some (value en), (if 0 <? d then Sub (now + d) t else 0), true,
                      list_MoveToBack c1 e)
  end.
Proof.
  intros Hmu. unfold UpdateExpiration. rewrite lock_free by assumption.
  cbn [obind set_mu items]. destruct (items c !! k) as [e|] eqn:Hk.
  - set (ex := if 0 <? d then <[k := now + d]> (expires c) else delete k (expires c)).
    assert (Hc1 : (if 0 <? d
                   then set_expires (set_mu c {| readers := 0; writer := true |})
                          (<[k := now + d]> (expires (set_mu c {| readers := 0; writer := true |})))
                   else set_expires (set_mu c {| readers := 0; writer := true |})
                          (delete k (expires (set_mu c {| readers := 0; writer := true |}))))
                  = set_expires (set_mu c {| readers := 0; writer := true |}) ex).
    { subst ex. destruct (0 <? d); reflexivity. }
    rewrite Hc1. rewrite unlock_held by reflexivity. cbn [obind].
    set (c1 := set_mu _ mutex_free).
    assert (Hlook : expires c1 !! k = if 0 <? d then Some (now + d) else None).
    { subst c1 ex. cbn. destruct (0 <? d); [apply lookup_insert_eq|apply lookup_delete_eq]. }
    exists c1. split; [reflexivity|]. do 6 (split; [reflexivity|]).
    split.
    { unfold GetExpiration. rewrite rlock_free by reflexivity. cbn [obind].
      rewrite runlock_one by reflexivity. cbn [obind]. rewrite set_mu_set_mu.
      change (expires (set_mu c1 {| readers := 1; writer := false |})) with (expires c1).
      rewrite Hlook. reflexivity. }
    split.
    { intros [Hc Hx]. split; [exact Hc|]. intros k' Hk'.
      destruct (decide (k' = k)) as [->|Hne]; [exists e; exact Hk|]. apply Hx.
      subst c1 ex. cbn in Hk'. destruct (0 <? d).
      + rewrite lookup_insert_ne in Hk' by congruence. exact Hk'.
      + rewrite lookup_delete_ne in Hk' by congruence. exact Hk'. }
    intros en Hen.
    assert (Hst : lru_stale t c1 k = (0 <? d) && (now + d <? t)).
    { unfold lru_stale. rewrite Hlook. destruct (0 <? d); reflexivity. }
    destruct ((0 <? d) && (now + d <? t)) eqn:Hcase.
    + apply GetWithExpiration_miss; [reflexivity|]. right. exact Hst.
    + rewrite (GetWithExpiration_hit c1 k t e en eq_refl Hk Hen Hst), Hlook.
      destruct (0 <? d); reflexivity.
  - rewrite unlock_held by reflexivity. cbn [obind].
    rewrite set_mu_set_mu, set_mu_free by assumption. reflexivity.
Qed.

Lemma lru_UpdateExpiration_then_lookup_witness :
  match items lru_ab !! "b" with
  | None => UpdateExpiration lru_ab "b" 30 100 = Ret (false, lru_ab)
  | Some e =>
      ∃ c1,
        UpdateExpiration lru_ab "b" 30 100 = Ret (true, c1) ∧
        mu c1 = mutex_free ∧ items c1 = items lru_ab ∧ list_ c1 = list_ lru_ab ∧
        elems c1 = elems lru_ab ∧ usedBytes c1 = usedBytes lru_ab ∧
        expires c1 = (if 0 <? 30 then <["b" := 100 + 30]> (expires lru_ab)
                      else delete "b" (expires lru_ab)) ∧
        GetExpiration c1 "b" = Ret ((if 0 <? 30 then Some (100 + 30) else None), c1) ∧
        (lru_inv lru_ab → lru_inv c1) ∧
        ∀ en, elems lru_ab !! e = Some en →
          GetWithExpiration c1 "b" 120 =
            if (0 <? 30) && (100 + 30 <? 120) then Ret (None, 0, false, c1)
            else Ret (Some (value en), (if 0 <? 30 then Sub (100 + 30) 120 else 0), true,
                      list_MoveToBack c1 e)
  end.
Proof. apply (lru_UpdateExpiration_then_lookup lru_ab "b" 30 100 120). apply lru_ab_inv. Defined.

End lru_methods.

(** ** Peer addresses *)

Section addr_facts.
Import mycache.
Import Stdlib.Strings.Ascii.
Local Open Scope nat_scope.

Lemma prefix_byte c ch s :
  String.prefix (String c "") (String ch s) = Ascii.eqb c ch.
Proof.
  cbn. destruct (Ascii.ascii_dec c ch) as [->|Hne].
  - rewrite Ascii.eqb_refl. destruct s; reflexivity.
  - symmetry. apply Ascii.eqb_neq. exact Hne.
Qed.

Lemma append_cons x (a b : string) : String x a +:+ b = String x (a +:+ b).
Proof. reflexivity. Qed.

Lemma append_nil_l (b : string) : "" +:+ b = b.
Proof. reflexivity. Qed.

Lemma append_assoc (a b c : string) : (a +:+ b) +:+ c = a +:+ (b +:+ c).
Proof.
  induction a as [|x a IH]; [reflexivity|]. rewrite !append_cons, IH. reflexivity.
Qed.

Lemma append_empty_r (a : string) : a +:+ "" = a.
Proof. induction a as [|x a IH]; [reflexivity|]. rewrite append_cons, IH. reflexivity. Qed.

Lemma count_byte_app c a b : count_byte c (a +:+ b) = count_byte c a + count_byte c b.
Proof.
  induction a as [|x a IH]; [reflexivity|]. rewrite append_cons. cbn [count_byte].
  rewrite IH. lia.
Qed.

(** Splitting at one byte: a string without the byte is one piece; a
    string with it breaks at its first occurrence. *)
Lemma Split_from_none c cur s :
  count_byte c s = 0 → Split_from (String c "") 0 cur s = [cur +:+ s].
Proof.
  revert cur. induction s as [|ch s IH]; intros cur Hc.
  - cbn [Split_from]. rewrite append_empty_r. reflexivity.
  - cbn [Split_from]. rewrite prefix_byte. cbn [count_byte] in Hc.
    destruct (Ascii.eqb c ch); [discriminate|]. rewrite IH by exact Hc.
    rewrite append_assoc. reflexivity.
Qed.

Lemma Split_from_first c cur a b :
  count_byte c a = 0 →
  Split_from (String c "") 0 cur (a +:+ String c b) = (cur +:+ a) :: Split_from (String c "") 0 "" b.
Proof.
  revert cur. induction a as [|ch a IH]; intros cur Hc.
  - rewrite append_nil_l. cbn [Split_from]. rewrite prefix_byte, Ascii.eqb_refl.
    cbn [String.length Nat.sub]. rewrite append_empty_r. reflexivity.
  - rewrite append_cons. cbn [Split_from]. rewrite prefix_byte. cbn [count_byte] in Hc.
    destruct (Ascii.eqb c ch); [discriminate|]. rewrite IH by exact Hc.
    rewrite append_assoc. reflexivity.
Qed.

Lemma first_byte c s :
  count_byte c s ≠ 0 → ∃ a b, s = a +:+ String c b ∧ count_byte c a = 0 ∧
                             count_byte c s = S (count_byte c b).
Proof.
  induction s as [|ch s IH]; intros Hc; [cbn in Hc; lia|].
  cbn [count_byte] in Hc |- *. destruct (Ascii.eqb c ch) eqn:E.
  - apply Ascii.eqb_eq in E as <-. exists "", s. done.
  - destruct (IH Hc) as (a & b & -> & Ha & Hb). exists (String ch a), b.
    rewrite append_cons. cbn [count_byte]. rewrite E. done.
Qed.

Lemma length_Split_from c cur s :
  length (Split_from (String c "") 0 cur s) = S (count_byte c s).
Proof.
  remember (count_byte c s) as n eqn:Hn. revert cur s Hn.
  induction n as [|n IH]; intros cur s Hn.
  - rewrite Split_from_none by congruence. reflexivity.
  - destruct (first_byte c s) as (a & b & -> & Ha & Hb); [lia|].
    rewrite Split_from_first by exact Ha. cbn [length]. f_equal. apply IH. lia.
Qed.

Lemma Split_two c s :
  count_byte c s = 1 →
  ∃ a b, s = a +:+ String c b ∧ count_byte c a = 0 ∧ count_byte c b = 0 ∧
         Split s (String c "") = [a; b].
Proof.
  intros Hc. destruct (first_byte c s) as (a & b & -> & Ha & Hb); [lia|].
  exists a, b. split; [reflexivity|]. split; [assumption|]. split; [lia|].
  unfold Split. rewrite Split_from_first by exact Ha.
  rewrite Split_from_none by lia. reflexivity.
Qed.

(** X9.  [ValidPeerAddr] accepts exactly the strings host:port with
    one colon in all, whose host is the word localhost or holds
    exactly three dots; it looks at nothing else, so that neither
    the pieces between the dots nor the port need be numbers, or
    even be there. *)
Theorem ValidPeerAddr_accepts (addr : string) :
  ValidPeerAddr addr = true ↔
  ∃ host port,
    addr = host +:+ ":" +:+ port ∧
    count_byte ":"%char host = 0 ∧ count_byte ":"%char port = 0 ∧
    (host = "localhost" ∨ count_byte "."%char host = 3).
Proof.
  unfold ValidPeerAddr. cbv zeta. unfold Split at 1.
  rewrite length_Split_from. split.
  - destruct (Nat.eqb (S (count_byte ":"%char addr)) 2) eqn:E; [|discriminate].
    apply Nat.eqb_eq in E. cbn [negb].
    destruct (Split_two ":"%char addr) as (a & b & -> & Ha & Hb & HS); [lia|].
    fold (Split (a +:+ String ":"%char b) ":"). rewrite HS. change (default "" ([a; b] !! 0)) with a.
    unfold Split. rewrite length_Split_from.
    intros H. exists a, b. split; [reflexivity|]. split; [assumption|]. split; [assumption|].
    destruct (String.eqb a "localhost") eqn:El; [left; apply String.eqb_eq; exact El|].
    right. cbn [negb andb] in H.
    destruct (Nat.eqb (S (count_byte "."%char a)) 4) eqn:E4; [|discriminate H].
    apply Nat.eqb_eq in E4. lia.
  - intros (host & port & -> & Hh & Hp & Hhost).
    change (":" +:+ port) with (String ":"%char port).
    assert (Hc : count_byte ":"%char (host +:+ String ":"%char port) = 1).
    { rewrite count_byte_app. cbn [count_byte]. rewrite Ascii.eqb_refl. lia. }
    rewrite Hc. cbn [Nat.eqb negb].
    fold (Split (host +:+ String ":"%char port) ":"). unfold Split.
    rewrite Split_from_first by exact Hh. rewrite append_nil_l.
    change (default "" ((host :: Split_from ":" 0 "" port) !! 0)) with host.
    rewrite length_Split_from.
    destruct Hhost as [->|H3].
    + reflexivity.
    + rewrite H3. cbn. rewrite andb_false_r. reflexivity.
Qed.

End addr_facts.

(** ** Single-flight: every schedule *)

Section singleflight_inv.
Import singleflight.
Context (fn : nat → Z).

Lemma sf_lookup_moved (l : list goroutine) tid r p' j rj :
  l !! tid = Some r →
  <[tid := {| key := key r; at_pc := p' |}]> l !! j = Some rj →
  (j = tid ∧ rj = {| key := key r; at_pc := p' |}) ∨ (j ≠ tid ∧ l !! j = Some rj).
Proof.
  intros Hr Hj. apply list_lookup_insert_Some in Hj as [(-> & <- & _)|[Hne Hj]]; [left|right]; done.
Qed.

Lemma sf_lookup_mover (l : list goroutine) tid r x :
  l !! tid = Some r → <[tid := x]> l !! tid = Some x.
Proof. intros Hr. apply list_lookup_insert_eq. eapply lookup_lt_Some. exact Hr. Qed.

Lemma sf_pc_ok_transfer g g' p :
  (∀ c cl, calls g !! c = Some cl →
     ∃ cl', calls g' !! c = Some cl' ∧
            (sf_owns p = Some c → wg cl' = wg cl) ∧
            (is_Some (val cl) → is_Some (val cl'))) →
  (started g ≤ started g')%nat →
  sf_pc_ok fn g p → sf_pc_ok fn g' p.
Proof.
  intros Hc Hs. destruct p as [|c|c| |c|c|c nth|c|c|c|r]; cbn [sf_pc_ok sf_owns] in *;
    try exact (λ x, x).
  - intros Hlt. apply lookup_lt_is_Some in Hlt as [cl Hcl].
    destruct (Hc c cl Hcl) as (cl' & Hcl' & _). eapply lookup_lt_Some. exact Hcl'.
  - intros (cl & Hcl & Hv). destruct (Hc c cl Hcl) as (cl' & Hcl' & _ & Hv'). eauto.
  - intros (cl & Hcl & Hw). destruct (Hc c cl Hcl) as (cl' & Hcl' & Hw' & _).
    exists cl'. split; [assumption|]. rewrite Hw' by reflexivity. exact Hw.
  - intros (cl & Hcl & Hw). destruct (Hc c cl Hcl) as (cl' & Hcl' & Hw' & _).
    exists cl'. split; [assumption|]. rewrite Hw' by reflexivity. exact Hw.
  - intros (Hn & cl & Hcl & Hw). split; [lia|]. destruct (Hc c cl Hcl) as (cl' & Hcl' & Hw' & _).
    exists cl'. split; [assumption|]. rewrite Hw' by reflexivity. exact Hw.
  - intros (cl & Hcl & Hw & Hv). destruct (Hc c cl Hcl) as (cl' & Hcl' & Hw' & Hv').
    exists cl'. split; [assumption|]. rewrite Hw' by reflexivity. split; [exact Hw|]. apply Hv'. exact Hv.
  - intros (cl & Hcl & Hv). destruct (Hc c cl Hcl) as (cl' & Hcl' & _ & Hv'). eauto.
  - intros (cl & Hcl & Hv). destruct (Hc c cl Hcl) as (cl' & Hcl' & _ & Hv'). eauto.
  - intros (i & Hi & ->). exists i. split; [lia|reflexivity].
Qed.

Lemma sf_owner_has_record g tid r c :
  sf_inv fn g → routines g !! tid = Some r → sf_owns (at_pc r) = Some c →
  ∃ cl, calls g !! c = Some cl ∧ wg cl = 1.
Proof.
  intros (_ & Hpc & _) Hr Ho. specialize (Hpc tid r Hr).
  destruct (at_pc r); cbn [sf_owns] in Ho; try discriminate; injection Ho as ->;
    cbn [sf_pc_ok] in Hpc.
  - exact Hpc.
  - exact Hpc.
  - destruct Hpc as [_ H]. exact H.
  - destruct Hpc as (cl & H1 & H2 & _). eauto.
Qed.

(** The goroutine moves on without touching the call records. *)
Lemma sf_inv_move g tid r p' m' st' :
  sf_inv fn g → routines g !! tid = Some r →
  sf_owns p' = sf_owns (at_pc r) →
  (∀ k c, m' !! k = Some c → (c < length (calls g))%nat) →
  (started g ≤ st')%nat →
  sf_pc_ok fn {| m := m'; calls := calls g; started := st';
                 routines := <[tid := {| key := key r; at_pc := p' |}]> (routines g) |} p' →
  sf_inv fn {| m := m'; calls := calls g; started := st';
               routines := <[tid := {| key := key r; at_pc := p' |}]> (routines g) |}.
Proof.
  intros (Hm & Hpc & Hcl & Huniq) Hr Hown Hm' Hst Hp'.
  split; [exact Hm'|]. split; [|split].
  - intros j rj Hj. cbn [routines] in Hj.
    destruct (sf_lookup_moved _ _ _ _ _ _ Hr Hj) as [[-> ->]|[Hne Hj']].
    + exact Hp'.
    + apply (sf_pc_ok_transfer g); [|exact Hst|exact (Hpc j rj Hj')].
      intros c cl Hc. exists cl. done.
  - intros c cl Hc. cbn [calls] in Hc. destruct (Hcl c cl Hc) as [Hv Hw].
    split.
    { intros x Hx. destruct (Hv x Hx) as (i & Hi & ->). exists i. cbn [started]. split; [lia|reflexivity]. }
    destruct Hw as [Hw|(Hw & t0 & r0 & Ht0 & Ho)]; [left; exact Hw|right].
    split; [exact Hw|]. cbn [routines].
    destruct (decide (t0 = tid)) as [->|Hne].
    + exists tid, {| key := key r; at_pc := p' |}.
      split; [eapply sf_lookup_mover; exact Hr|]. cbn [at_pc]. rewrite Hown.
      assert (r0 = r) as -> by congruence. exact Ho.
    + exists t0, r0. split; [|exact Ho]. rewrite list_lookup_insert_ne by congruence. exact Ht0.
  - intros t1 t2 r1 r2 c H1 H2 Ho1 Ho2. cbn [routines] in H1, H2.
    assert (Hold : ∀ t rt, <[tid := {| key := key r; at_pc := p' |}]> (routines g) !! t = Some rt →
              sf_owns (at_pc rt) = Some c →
              ∃ rt', routines g !! t = Some rt' ∧ sf_owns (at_pc rt') = Some c).
    { intros t rt Ht Ho. destruct (sf_lookup_moved _ _ _ _ _ _ Hr Ht) as [[-> ->]|[Hne Ht']].
      - exists r. split; [exact Hr|]. cbn [at_pc] in Ho. rewrite <- Hown. exact Ho.
      - exists rt. done. }
    destruct (Hold t1 r1 H1 Ho1) as (r1' & H1' & Ho1').
    destruct (Hold t2 r2 H2 Ho2) as (r2' & H2' & Ho2').
    exact (Huniq t1 t2 r1' r2' c H1' H2' Ho1' Ho2').
Qed.

(** [AtNew]: a fresh record is appended and the goroutine becomes
    its producer. *)
Lemma sf_inv_new g tid r :
  sf_inv fn g → routines g !! tid = Some r → at_pc r = AtNew →
  sf_inv fn {| m := m g; calls := calls g ++ [{| wg := 1; val := None |}]; started := started g;
               routines := <[tid := {| key := key r; at_pc := AtStore (length (calls g)) |}]>
                             (routines g) |}.
Proof.
  intros Hinv Hr Hat. pose proof Hinv as (Hm & Hpc & Hcl & Huniq).
  split; [|split; [|split]].
  - intros k c Hk. cbn [m calls] in *. rewrite length_app. cbn. specialize (Hm k c Hk). lia.
  - intros j rj Hj. cbn [routines] in Hj.
    destruct (sf_lookup_moved _ _ _ _ _ _ Hr Hj) as [[-> ->]|[Hne Hj']].
    + cbn [at_pc sf_pc_ok calls]. exists {| wg := 1; val := None |}. split; [|reflexivity].
      rewrite lookup_app_r by lia. rewrite Nat.sub_diag. reflexivity.
    + apply (sf_pc_ok_transfer g); [|cbn; lia|exact (Hpc j rj Hj')].
      intros c cl Hc. exists cl. cbn [calls]. split; [|done].
      rewrite lookup_app_l by (eapply lookup_lt_Some; exact Hc). exact Hc.
  - intros c cl Hc. cbn [calls started routines] in *.
    destruct (decide (c < length (calls g))%nat) as [Hlt|Hge].
    + rewrite lookup_app_l in Hc by assumption. destruct (Hcl c cl Hc) as [Hv Hw].
      split; [exact Hv|]. destruct Hw as [Hw|(Hw & t0 & r0 & Ht0 & Ho)]; [left; exact Hw|right].
      split; [exact Hw|]. exists t0, r0. split; [|exact Ho].
      rewrite list_lookup_insert_ne; [exact Ht0|].
      intros <-. assert (r0 = r) as -> by congruence. rewrite Hat in Ho. discriminate.
    + rewrite lookup_app_r in Hc by lia.
      destruct (c - length (calls g))%nat as [|x] eqn:Hx; [|destruct x; discriminate].
      injection Hc as <-. cbn [val wg]. split; [intros x Hx'; discriminate|]. right.
      split; [reflexivity|]. exists tid, {| key := key r; at_pc := AtStore (length (calls g)) |}.
      split; [eapply sf_lookup_mover; exact Hr|]. cbn. f_equal. lia.
  - intros t1 t2 r1 r2 c H1 H2 Ho1 Ho2. cbn [routines] in H1, H2.
    destruct (sf_lookup_moved _ _ _ _ _ _ Hr H1) as [[-> ->]|[Hne1 H1']];
      destruct (sf_lookup_moved _ _ _ _ _ _ Hr H2) as [[-> ->]|[Hne2 H2']].
    + reflexivity.
    + exfalso. cbn in Ho1. injection Ho1 as <-.
      destruct (sf_owner_has_record g t2 r2 _ Hinv H2' Ho2) as (cl & Hcl' & _).
      apply lookup_lt_Some in Hcl'. lia.
    + exfalso. cbn in Ho2. injection Ho2 as <-.
      destruct (sf_owner_has_record g t1 r1 _ Hinv H1' Ho1) as (cl & Hcl' & _).
      apply lookup_lt_Some in Hcl'. lia.
    + exact (Huniq t1 t2 r1 r2 c H1' H2' Ho1 Ho2).
Qed.

(** [InFn]: the result of the invocation is stored in the record. *)
Lemma sf_inv_fn g tid r c nth cl :
  sf_inv fn g → routines g !! tid = Some r → at_pc r = InFn c nth → calls g !! c = Some cl →
  sf_inv fn {| m := m g;
               calls := <[c := {| wg := wg cl; val := Some (fn nth) |}]> (calls g);
               started := started g;
               routines := <[tid := {| key := key r; at_pc := AtDone c |}]> (routines g) |}.
Proof.
  intros Hinv Hr Hat Hc. pose proof Hinv as (Hm & Hpc & Hcl & Huniq).
  pose proof (Hpc tid r Hr) as Hme. rewrite Hat in Hme. cbn [sf_pc_ok] in Hme.
  destruct Hme as (Hnth & cl0 & Hcl0 & Hw0). assert (cl0 = cl) as -> by congruence.
  assert (Htr : ∀ c' cl', calls g !! c' = Some cl' →
            ∃ cl'', <[c := {| wg := wg cl; val := Some (fn nth) |}]> (calls g) !! c' = Some cl'' ∧
                    wg cl'' = wg cl' ∧ (is_Some (val cl') → is_Some (val cl''))).
  { intros c' cl' Hc'. destruct (decide (c' = c)) as [->|Hne].
    - assert (cl' = cl) as -> by congruence. eexists.
      split; [apply list_lookup_insert_eq; eapply lookup_lt_Some; exact Hc|]. cbn. eauto.
    - exists cl'. rewrite list_lookup_insert_ne by congruence. done. }
  split; [|split; [|split]].
  - intros k c' Hk. cbn [m calls] in *. rewrite length_insert. exact (Hm k c' Hk).
  - intros j rj Hj. cbn [routines] in Hj.
    destruct (sf_lookup_moved _ _ _ _ _ _ Hr Hj) as [[-> ->]|[Hne Hj']].
    + cbn [at_pc sf_pc_ok calls]. eexists.
      split; [apply list_lookup_insert_eq; eapply lookup_lt_Some; exact Hc|]. cbn. eauto.
    + apply (sf_pc_ok_transfer g); [|cbn; lia|exact (Hpc j rj Hj')].
      intros c' cl' Hc'. destruct (Htr c' cl' Hc') as (cl'' & H1 & H2 & H3).
      exists cl''. cbn [calls]. split; [exact H1|]. split; [intros _; exact H2|exact H3].
  - intros c' cl' Hc'. cbn [calls started routines] in *.
    assert (Hown : ∀ c0, (∃ t0 r0, routines g !! t0 = Some r0 ∧ sf_owns (at_pc r0) = Some c0) →
              ∃ t0 r0, <[tid := {| key := key r; at_pc := AtDone c |}]> (routines g) !! t0 = Some r0 ∧
                       sf_owns (at_pc r0) = Some c0).
    { intros c0 (t0 & r0 & Ht0 & Ho). destruct (decide (t0 = tid)) as [->|Hne].
      - exists tid, {| key := key r; at_pc := AtDone c |}.
        split; [eapply sf_lookup_mover; exact Hr|].
        assert (r0 = r) as -> by congruence. rewrite Hat in Ho. exact Ho.
      - exists t0, r0. split; [|exact Ho]. rewrite list_lookup_insert_ne by congruence. exact Ht0. }
    destruct (decide (c' = c)) as [->|Hne].
    + rewrite list_lookup_insert_eq in Hc' by (eapply lookup_lt_Some; exact Hc).
      injection Hc' as <-. cbn [val wg]. split.
      * intros x Hx. injection Hx as <-. exists nth. done.
      * right. split; [exact Hw0|]. destruct (Hcl c cl Hc) as [_ [[Hz _]|[_ Ho]]]; [lia|].
        apply Hown. exact Ho.
    + rewrite list_lookup_insert_ne in Hc' by congruence.
      destruct (Hcl c' cl' Hc') as [Hv Hw]. split; [exact Hv|].
      destruct Hw as [Hw|[Hw Ho]]; [left; exact Hw|right]. split; [exact Hw|]. apply Hown. exact Ho.
  - intros t1 t2 r1 r2 c0 H1 H2 Ho1 Ho2. cbn [routines] in H1, H2.
    assert (Hold : ∀ t rt, <[tid := {| key := key r; at_pc := AtDone c |}]> (routines g) !! t = Some rt →
              sf_owns (at_pc rt) = Some c0 →
              ∃ rt', routines g !! t = Some rt' ∧ sf_owns (at_pc rt') = Some c0).
    { intros t rt Ht Ho. destruct (sf_lookup_moved _ _ _ _ _ _ Hr Ht) as [[-> ->]|[Hne Ht']].
      - exists r. split; [exact Hr|]. rewrite Hat. exact Ho.
      - exists rt. done. }
    destruct (Hold t1 r1 H1 Ho1) as (r1' & H1' & Ho1').
    destruct (Hold t2 r2 H2 Ho2) as (r2' & H2' & Ho2').
    exact (Huniq t1 t2 r1' r2' c0 H1' H2' Ho1' Ho2').
Qed.

(** [AtDone]: the counter goes from 1 to 0 and the record is done. *)
Lemma sf_inv_done g tid r c cl :
  sf_inv fn g → routines g !! tid = Some r → at_pc r = AtDone c → calls g !! c = Some cl →
  sf_inv fn {| m := m g;
               calls := <[c := {| wg := wg cl - 1; val := val cl |}]> (calls g);
               started := started g;
               routines := <[tid := {| key := key r; at_pc := AtDelete c |}]> (routines g) |}.
Proof.
  intros Hinv Hr Hat Hc. pose proof Hinv as (Hm & Hpc & Hcl & Huniq).
  pose proof (Hpc tid r Hr) as Hme. rewrite Hat in Hme. cbn [sf_pc_ok] in Hme.
  destruct Hme as (cl0 & Hcl0 & Hw0 & Hv0). assert (cl0 = cl) as -> by congruence.
  assert (Hnot : ∀ j rj, j ≠ tid → routines g !! j = Some rj → sf_owns (at_pc rj) ≠ Some c).
  { intros j rj Hne Hj Ho. apply Hne. apply (Huniq j tid rj r c Hj Hr Ho). rewrite Hat. reflexivity. }
  split; [|split; [|split]].
  - intros k c' Hk. cbn [m calls] in *. rewrite length_insert. exact (Hm k c' Hk).
  - intros j rj Hj. cbn [routines] in Hj.
    destruct (sf_lookup_moved _ _ _ _ _ _ Hr Hj) as [[-> ->]|[Hne Hj']].
    + cbn [at_pc sf_pc_ok calls]. eexists.
      split; [apply list_lookup_insert_eq; eapply lookup_lt_Some; exact Hc|]. cbn. exact Hv0.
    + apply (sf_pc_ok_transfer g); [|cbn; lia|exact (Hpc j rj Hj')].
      intros c' cl' Hc'. cbn [calls]. destruct (decide (c' = c)) as [->|Hnc].
      * assert (cl' = cl) as -> by congruence. eexists.
        split; [apply list_lookup_insert_eq; eapply lookup_lt_Some; exact Hc|]. cbn.
        split; [|done]. intros Ho. exfalso. exact (Hnot j rj Hne Hj' Ho).
      * exists cl'. rewrite list_lookup_insert_ne by congruence. done.
  - intros c' cl' Hc'. cbn [calls started routines] in *.
    destruct (decide (c' = c)) as [->|Hne].
    + rewrite list_lookup_insert_eq in Hc' by (eapply lookup_lt_Some; exact Hc).
      injection Hc' as <-. cbn [val wg]. split.
      * destruct (Hcl c cl Hc) as [Hv _]. exact Hv.
      * left. split; [lia|exact Hv0].
    + rewrite list_lookup_insert_ne in Hc' by congruence.
      destruct (Hcl c' cl' Hc') as [Hv Hw]. split; [exact Hv|].
      destruct Hw as [Hw|(Hw & t0 & r0 & Ht0 & Ho)]; [left; exact Hw|right]. split; [exact Hw|].
      exists t0, r0. split; [|exact Ho]. rewrite list_lookup_insert_ne; [exact Ht0|].
      intros <-. assert (r0 = r) as -> by congruence. rewrite Hat in Ho. cbn in Ho. congruence.
  - intros t1 t2 r1 r2 c0 H1 H2 Ho1 Ho2. cbn [routines] in H1, H2.
    destruct (sf_lookup_moved _ _ _ _ _ _ Hr H1) as [[-> ->]|[Hne1 H1']]; [discriminate|].
    destruct (sf_lookup_moved _ _ _ _ _ _ Hr H2) as [[-> ->]|[Hne2 H2']]; [discriminate|].
    exact (Huniq t1 t2 r1 r2 c0 H1' H2' Ho1 Ho2).
Qed.

Lemma sf_step_inv g tid g' : sf_inv fn g → step fn g tid = Some g' → sf_inv fn g'.
Proof.
  intros Hinv Hstep. pose proof Hinv as (Hm & Hpc & Hcl & Huniq).
  unfold step in Hstep. destruct (routines g !! tid) as [r|] eqn:Hr; [|discriminate].
  cbn [mbind option_bind] in Hstep. pose proof (Hpc tid r Hr) as Hme.
  destruct (at_pc r) as [|c|c| |c|c|c nth|c|c|c|x] eqn:Hat; cbn [sf_pc_ok] in Hme.
  - destruct (m g !! key r) as [c|] eqn:Hk; injection Hstep as <-.
    + apply (sf_inv_move g tid r (AtWait c) (m g) (started g)); try done.
      * rewrite Hat. reflexivity.
      * exact (Hm _ _ Hk).
    + apply (sf_inv_move g tid r AtNew (m g) (started g)); try done.
      rewrite Hat. reflexivity.
  - destruct (calls g !! c) as [cl|] eqn:Hc; [|discriminate]. cbn [mbind option_bind] in Hstep.
    destruct (wg cl =? 0) eqn:Hw; [|discriminate]. injection Hstep as <-.
    apply Z.eqb_eq in Hw.
    apply (sf_inv_move g tid r (AtReturnWaited c) (m g) (started g)); try done.
    + rewrite Hat. reflexivity.
    + cbn [sf_pc_ok calls]. exists cl. split; [exact Hc|].
      destruct (Hcl c cl Hc) as [_ [[_ Hv]|[Hw1 _]]]; [exact Hv|lia].
  - destruct (calls g !! c) as [cl|] eqn:Hc; [|discriminate]. cbn [mbind option_bind] in Hstep.
    injection Hstep as <-.
    apply (sf_inv_move g tid r (Returned (val cl)) (m g) (started g)); try done.
    + rewrite Hat. reflexivity.
    + cbn [sf_pc_ok started]. destruct Hme as (cl0 & Hc0 & [x Hx]).
      assert (cl0 = cl) as -> by congruence.
      destruct (Hcl c cl Hc) as [Hv _]. destruct (Hv x Hx) as (i & Hi & ->).
      exists i. split; [exact Hi|exact Hx].
  - injection Hstep as <-. apply (sf_inv_new g tid r Hinv Hr Hat).
  - injection Hstep as <-.
    apply (sf_inv_move g tid r (AtCallFn c) (<[key r := c]> (m g)) (started g)); try done.
    + rewrite Hat. reflexivity.
    + intros k c' Hk. apply lookup_insert_Some in Hk as [[_ <-]|[_ Hk]]; [|exact (Hm _ _ Hk)].
      destruct Hme as (cl & Hc & _). eapply lookup_lt_Some. exact Hc.
  - injection Hstep as <-.
    apply (sf_inv_move g tid r (InFn c (started g)) (m g) (S (started g))); try done.
    + rewrite Hat. reflexivity.
    + lia.
    + cbn [sf_pc_ok started calls]. split; [lia|exact Hme].
  - destruct (calls g !! c) as [cl|] eqn:Hc; [|discriminate]. cbn [mbind option_bind] in Hstep.
    injection Hstep as <-. apply (sf_inv_fn g tid r c nth cl Hinv Hr Hat Hc).
  - destruct (calls g !! c) as [cl|] eqn:Hc; [|discriminate]. cbn [mbind option_bind] in Hstep.
    injection Hstep as <-. apply (sf_inv_done g tid r c cl Hinv Hr Hat Hc).
  - injection Hstep as <-.
    apply (sf_inv_move g tid r (AtReturn c) (delete (key r) (m g)) (started g)); try done.
    + rewrite Hat. reflexivity.
    + intros k c' Hk. apply lookup_delete_Some in Hk as [_ Hk]. exact (Hm _ _ Hk).
  - destruct (calls g !! c) as [cl|] eqn:Hc; [|discriminate]. cbn [mbind option_bind] in Hstep.
    injection Hstep as <-.
    apply (sf_inv_move g tid r (Returned (val cl)) (m g) (started g)); try done.
    + rewrite Hat. reflexivity.
    + cbn [sf_pc_ok started]. destruct Hme as (cl0 & Hc0 & [x Hx]).
      assert (cl0 = cl) as -> by congruence.
      destruct (Hcl c cl Hc) as [Hv _]. destruct (Hv x Hx) as (i & Hi & ->).
      exists i. split; [exact Hi|exact Hx].
  - discriminate.
Qed.

Lemma sf_enter_inv ks : sf_inv fn (enter ks).
Proof.
  split; [|split; [|split]].
  - intros k c Hk. cbn in Hk. rewrite lookup_empty in Hk. discriminate.
  - intros tid r Hr. cbn [enter routines] in Hr. apply list_lookup_fmap_Some in Hr as (k & -> & _).
    exact I.
  - intros c cl Hc. cbn in Hc. rewrite lookup_nil in Hc. discriminate.
  - intros t1 t2 r1 r2 c H1 _ Ho. cbn [enter routines] in H1.
    apply list_lookup_fmap_Some in H1 as (k & -> & _). discriminate.
Qed.

Lemma sf_run_inv sched g g' : sf_inv fn g → run fn sched g = Some g' → sf_inv fn g'.
Proof.
  revert g. induction sched as [|tid sched IH]; intros g Hinv Hrun.
  - injection Hrun as <-. exact Hinv.
  - cbn [run] in Hrun. destruct (step fn g tid) as [g1|] eqn:Hs; [|discriminate].
    cbn [mbind option_bind] in Hrun. exact (IH g1 (sf_step_inv g tid g1 Hinv Hs) Hrun).
Qed.

Lemma sum_list_with_insert {A : Type} (f : A → nat) (l : list A) (i : nat) (x y : A) :
  l !! i = Some x →
  (sum_list_with f (<[i := y]> l) + f x = sum_list_with f l + f y)%nat.
Proof.
  revert i. induction l as [|a l IH]; intros i Hi; [discriminate|].
  destruct i as [|i].
  - injection Hi as ->. simpl. lia.
  - simpl in Hi |- *. specialize (IH i Hi). lia.
Qed.

(** What one action does to the counts. *)
Lemma sf_step_measure g tid g' :
  step fn g tid = Some g' →
  length (routines g') = length (routines g) ∧
  (started g' + sum_list_with (λ r, sf_before_fn (at_pc r)) (routines g')
   ≤ started g + sum_list_with (λ r, sf_before_fn (at_pc r)) (routines g))%nat ∧
  (S (sum_list_with (λ r, sf_rank (at_pc r)) (routines g'))
   ≤ sum_list_with (λ r, sf_rank (at_pc r)) (routines g))%nat.
Proof.
  intros Hstep. unfold step in Hstep.
  destruct (routines g !! tid) as [r|] eqn:Hr; [|discriminate].
  cbn [mbind option_bind] in Hstep.
  assert (Hgo : ∀ p' st',
    (st' + sf_before_fn p' ≤ started g + sf_before_fn (at_pc r))%nat →
    (S (sf_rank p') ≤ sf_rank (at_pc r))%nat →
    ∀ l, l = <[tid := {| key := key r; at_pc := p' |}]> (routines g) →
    length l = length (routines g) ∧
    (st' + sum_list_with (λ r, sf_before_fn (at_pc r)) l
     ≤ started g + sum_list_with (λ r, sf_before_fn (at_pc r)) (routines g))%nat ∧
    (S (sum_list_with (λ r, sf_rank (at_pc r)) l)
     ≤ sum_list_with (λ r, sf_rank (at_pc r)) (routines g))%nat).
  { intros p' st' H1 H2 l ->. split; [apply length_insert|].
    pose proof (sum_list_with_insert (λ r, sf_before_fn (at_pc r)) (routines g) tid r
                  {| key := key r; at_pc := p' |} Hr) as Hb.
    pose proof (sum_list_with_insert (λ r, sf_rank (at_pc r)) (routines g) tid r
                  {| key := key r; at_pc := p' |} Hr) as Hk.
    cbn [at_pc] in Hb, Hk. lia. }
  destruct (at_pc r) as [|c|c| |c|c|c nth|c|c|c|x] eqn:Hat.
  - destruct (m g !! key r) as [c|]; injection Hstep as <-;
      (eapply Hgo; [| |reflexivity]); cbn; lia.
  - destruct (calls g !! c) as [cl|]; [|discriminate]. cbn [mbind option_bind] in Hstep.
    destruct (wg cl =? 0); [|discriminate]. injection Hstep as <-.
    (eapply Hgo; [| |reflexivity]); cbn; lia.
  - destruct (calls g !! c) as [cl|]; [|discriminate]. cbn [mbind option_bind] in Hstep.
    injection Hstep as <-. (eapply Hgo; [| |reflexivity]); cbn; lia.
  - injection Hstep as <-. (eapply Hgo; [| |reflexivity]); cbn; lia.
  - injection Hstep as <-. (eapply Hgo; [| |reflexivity]); cbn; lia.
  - injection Hstep as <-. (eapply Hgo; [| |reflexivity]); cbn; lia.
  - destruct (calls g !! c) as [cl|]; [|discriminate]. cbn [mbind option_bind] in Hstep.
    injection Hstep as <-. (eapply Hgo; [| |reflexivity]); cbn; lia.
  - destruct (calls g !! c) as [cl|]; [|discriminate]. cbn [mbind option_bind] in Hstep.
    injection Hstep as <-. (eapply Hgo; [| |reflexivity]); cbn; lia.
  - injection Hstep as <-. (eapply Hgo; [| |reflexivity]); cbn; lia.
  - destruct (calls g !! c) as [cl|]; [|discriminate]. cbn [mbind option_bind] in Hstep.
    injection Hstep as <-. (eapply Hgo; [| |reflexivity]); cbn; lia.
  - discriminate.
Qed.

Lemma sf_run_measure sched g g' :
  run fn sched g = Some g' →
  length (routines g') = length (routines g) ∧
  (started g' + sum_list_with (λ r, sf_before_fn (at_pc r)) (routines g')
   ≤ started g + sum_list_with (λ r, sf_before_fn (at_pc r)) (routines g))%nat ∧
  (length sched + sum_list_with (λ r, sf_rank (at_pc r)) (routines g')
   ≤ sum_list_with (λ r, sf_rank (at_pc r)) (routines g))%nat.
Proof.
  revert g. induction sched as [|tid sched IH]; intros g Hrun.
  - injection Hrun as <-. cbn. lia.
  - cbn [run] in Hrun. destruct (step fn g tid) as [g1|] eqn:Hs; [|discriminate].
    cbn [mbind option_bind] in Hrun.
    destruct (sf_step_measure g tid g1 Hs) as (H1 & H2 & H3).
    destruct (IH g1 Hrun) as (H4 & H5 & H6). cbn [length]. lia.
Qed.

Lemma sf_enter_measure ks :
  length (routines (enter ks)) = length ks ∧
  sum_list_with (λ r, sf_before_fn (at_pc r)) (routines (enter ks)) = length ks ∧
  sum_list_with (λ r, sf_rank (at_pc r)) (routines (enter ks)) = (8 * length ks)%nat.
Proof.
  unfold enter. cbn [routines]. induction ks as [|k ks (H1 & H2 & H3)]; [done|].
  cbn [fmap list_fmap length sum_list_with at_pc sf_before_fn sf_rank] in *.
  rewrite H1, H2, H3. lia.
Qed.

(** A goroutine that has not returned can act, or waits for a record
    whose producer can. *)
Lemma sf_progress g tid r :
  sf_inv fn g → routines g !! tid = Some r →
  (∀ x, at_pc r ≠ Returned x) →
  ∃ tid', is_Some (step fn g tid').
Proof.
  intros (Hm & Hpc & Hcl & Huniq) Hr Hnot. pose proof (Hpc tid r Hr) as Hme.
  assert (Hown : ∀ t0 r0 c, routines g !! t0 = Some r0 → sf_owns (at_pc r0) = Some c →
                            is_Some (step fn g t0)).
  { intros t0 r0 c0 Ht0 Ho. pose proof (Hpc t0 r0 Ht0) as H0. unfold step. rewrite Ht0.
    cbn [mbind option_bind].
    destruct (at_pc r0); cbn [sf_owns] in Ho; try discriminate; cbn [sf_pc_ok] in H0.
    - eauto.
    - eauto.
    - destruct H0 as (_ & cl & -> & _). cbn. eauto.
    - destruct H0 as (cl & -> & _). cbn. eauto. }
  destruct (at_pc r) as [|c|c| |c|c|c nth|c|c|c|x] eqn:Hat; cbn [sf_pc_ok] in Hme.
  - exists tid. unfold step. rewrite Hr. cbn [mbind option_bind]. rewrite Hat.
    destruct (m g !! key r); eauto.
  - apply lookup_lt_is_Some in Hme as [cl Hc].
    destruct (Hcl c cl Hc) as [_ [[Hw _]|(Hw & t0 & r0 & Ht0 & Ho)]].
    + exists tid. unfold step. rewrite Hr. cbn [mbind option_bind]. rewrite Hat, Hc.
      cbn [mbind option_bind]. rewrite Hw. cbn. eauto.
    + exists t0. exact (Hown t0 r0 c Ht0 Ho).
  - exists tid. unfold step. rewrite Hr. cbn [mbind option_bind]. rewrite Hat.
    destruct Hme as (cl & -> & _). cbn. eauto.
  - exists tid. unfold step. rewrite Hr. cbn [mbind option_bind]. rewrite Hat. eauto.
  - exists tid. apply (Hown tid r c Hr). rewrite Hat. reflexivity.
  - exists tid. apply (Hown tid r c Hr). rewrite Hat. reflexivity.
  - exists tid. apply (Hown tid r c Hr). rewrite Hat. reflexivity.
  - exists tid. apply (Hown tid r c Hr). rewrite Hat. reflexivity.
  - exists tid. unfold step. rewrite Hr. cbn [mbind option_bind]. rewrite Hat. eauto.
  - exists tid. unfold step. rewrite Hr. cbn [mbind option_bind]. rewrite Hat.
    destruct Hme as (cl & -> & _). cbn. eauto.
  - exfalso. exact (Hnot x eq_refl).
Qed.

End singleflight_inv.

Section singleflight_all_schedules.
Import singleflight.

(** X10.  Whatever the number of callers, their keys and the order in
    which they act: every value [Do] returns is the result of an
    invocation of [fn] that has started (a waiter is never handed the
    record before the result is in it), and [fn] is invoked at most
    once per caller. *)
Theorem singleflight_results_come_from_fn (fn : nat → Z) (ks : list string)
    (sched : list nat) (g : Group) :
  run fn sched (enter ks) = Some g →
  (∀ tid r, returned g tid = Some r → ∃ i, (i < started g)%nat ∧ r = Some (fn i)) ∧
  (started g ≤ length ks)%nat.
Proof.
  intros Hrun. split.
  - intros tid r Hret. unfold returned in Hret.
    destruct (routines g !! tid) as [rt|] eqn:Hrt; [|discriminate].
    cbn [mbind option_bind] in Hret.
    destruct (sf_run_inv fn sched _ g (sf_enter_inv fn ks) Hrun) as (_ & Hpc & _).
    specialize (Hpc tid rt Hrt). destruct (at_pc rt); try discriminate.
    injection Hret as <-. exact Hpc.
  - destruct (sf_run_measure fn sched _ g Hrun) as (_ & H & _).
    destruct (sf_enter_measure ks) as (_ & H2 & _). cbn [enter started] in H. lia.
Qed.

Lemma singleflight_results_come_from_fn_witness :
  (∀ tid r, returned sf_race_end tid = Some r →
            ∃ i, (i < started sf_race_end)%nat ∧ r = Some (Z.of_nat i)) ∧
  (started sf_race_end ≤ length ["k"; "k"])%nat.
Proof.
  apply (singleflight_results_come_from_fn (λ n, Z.of_nat n) ["k"; "k"] race_schedule sf_race_end).
  vm_compute. reflexivity.
Defined.

(** X11.  [Do] cannot deadlock and cannot run for ever as long as
    [fn] returns: from its entry to its return a caller takes at most
    eight actions, so no schedule of n callers is longer than 8n;
    and a state in which no goroutine can act is a state in which
    every caller has returned. *)
Theorem singleflight_no_deadlock (fn : nat → Z) (ks : list string)
    (sched : list nat) (g : Group) :
  run fn sched (enter ks) = Some g →
  (length sched ≤ 8 * length ks)%nat ∧
  ((∀ tid, step fn g tid = None) →
   ∀ tid r, routines g !! tid = Some r → ∃ x, at_pc r = Returned x).
Proof.
  intros Hrun. split.
  - destruct (sf_run_measure fn sched _ g Hrun) as (_ & _ & H).
    destruct (sf_enter_measure ks) as (_ & _ & H3). lia.
  - intros Hstuck tid r Hr.
    destruct (at_pc r) as [|c|c| |c|c|c nth|c|c|c|x] eqn:Hat; try (exists x; reflexivity);
      exfalso;
      (destruct (sf_progress fn g tid r (sf_run_inv fn sched _ g (sf_enter_inv fn ks) Hrun) Hr)
         as (t' & [g' Hg']); [intros x; rewrite Hat; discriminate|]);
      rewrite Hstuck in Hg'; discriminate.
Qed.

Lemma singleflight_no_deadlock_witness :
  (length race_schedule ≤ 8 * length ["k"; "k"])%nat ∧
  ((∀ tid, step (λ n, Z.of_nat n) sf_race_end tid = None) →
   ∀ tid r, routines sf_race_end !! tid = Some r → ∃ x, at_pc r = Returned x).
Proof.
  apply (singleflight_no_deadlock (λ n, Z.of_nat n) ["k"; "k"] race_schedule sf_race_end).
  vm_compute. reflexivity.
Defined.

End singleflight_all_schedules.

(** ** Consistent hash ring: membership *)

Section ring_members.
Import consistenthash.

Lemma ring_fold_add (node : string) (h : Z → Z) (l : list Z) (m : Map) :
  foldl (λ m i, set_hashMap (set_keys m (keys m ++ [h i])) (<[h i := node]> (hashMap m))) m l =
  {| mu := mu m; config := config m; keys := keys m ++ (h <$> l);
     hashMap := foldl (λ hm x, <[x := node]> hm) (hashMap m) (h <$> l);
     nodeReplicas := nodeReplicas m; nodeCounts := nodeCounts m;
     totalRequests := totalRequests m |}.
Proof.
  revert m. induction l as [|i l IH]; intros m.
  - cbn. rewrite app_nil_r. destruct m; reflexivity.
  - cbn [foldl fmap list_fmap]. rewrite IH. cbn [set_hashMap set_keys keys hashMap mu config
      nodeReplicas nodeCounts totalRequests]. rewrite <- app_assoc. reflexivity.
Qed.

Lemma foldl_inv_ext {A B : Type} (P : A → Prop) (F G : A → B → A) (l : list B) (a : A) :
  (∀ a b, P a → F a b = G a b ∧ P (G a b)) → P a → foldl F a l = foldl G a l.
Proof.
  intros HFG. revert a. induction l as [|b l IH]; intros a Ha; [reflexivity|].
  cbn [foldl]. destruct (HFG a b Ha) as [-> HP]. apply IH. exact HP.
Qed.

Lemma ring_fold_add_cfg (node : string) (cfg : Config) (l : list Z) (m : Map) :
  config m = cfg →
  foldl (λ m i, let hash := vhash m node i in
                set_hashMap (set_keys m (keys m ++ [hash])) (<[hash := node]> (hashMap m))) m l =
  foldl (λ m i, set_hashMap (set_keys m (keys m ++ [HashFunc cfg (node +:+ "-" +:+ pretty i)]))
                            (<[HashFunc cfg (node +:+ "-" +:+ pretty i) := node]> (hashMap m)))
        m l.
Proof.
  intros Hc. apply (foldl_inv_ext (λ m, config m = cfg)); [|exact Hc].
  intros a b Ha. unfold vhash. rewrite Ha. split; reflexivity || exact Ha.
Qed.

(** [addNode] in one step. *)
Lemma addNode_eq m node R :
  addNode m node R =
  {| mu := mu m; config := config m;
     keys := keys m ++ ring_vhashes (config m) node R;
     hashMap := foldl (λ hm x, <[x := node]> hm) (hashMap m) (ring_vhashes (config m) node R);
     nodeReplicas := <[node := R]> (nodeReplicas m); nodeCounts := nodeCounts m;
     totalRequests := totalRequests m |}.
Proof.
  unfold addNode. cbv zeta.
  rewrite (ring_fold_add_cfg node (config m)) by reflexivity.
  rewrite (ring_fold_add node (λ i, HashFunc (config m) (node +:+ "-" +:+ pretty i))).
  reflexivity.
Qed.

Lemma lookup_fold_insert (node : string) (l : list Z) (hm : gmap Z string) (h : Z) :
  foldl (λ hm x, <[x := node]> hm) hm l !! h = if decide (h ∈ l) then Some node else hm !! h.
Proof.
  revert hm. induction l as [|x l IH]; intros hm.
  - cbn. rewrite decide_False by apply not_elem_of_nil. reflexivity.
  - cbn [foldl]. rewrite IH. destruct (decide (h ∈ l)) as [Hin|Hnin].
    + rewrite decide_True by (right; exact Hin). reflexivity.
    + destruct (decide (h = x)) as [->|Hne].
      * rewrite decide_True by left. apply lookup_insert_eq.
      * rewrite decide_False by (intros [?|?]%elem_of_cons; contradiction).
        apply lookup_insert_ne. congruence.
Qed.

Lemma addNode_owned m node R :
  node ≠ "" → ring_owned m → ring_owned (addNode m node R).
Proof.
  intros Hne Ho h Hh. rewrite addNode_eq in *. cbn [keys hashMap nodeReplicas] in *.
  rewrite lookup_fold_insert. destruct (decide (h ∈ ring_vhashes (config m) node R)) as [Hin|Hnin].
  - exists node. split; [reflexivity|]. split; [exact Hne|]. rewrite lookup_insert_eq. eauto.
  - apply elem_of_app in Hh as [Hh|Hh]; [|contradiction].
    destruct (Ho h Hh) as (n0 & H1 & H2 & H3). exists n0. split; [exact H1|]. split; [exact H2|].
    destruct (decide (n0 = node)) as [->|Hn]; [rewrite lookup_insert_eq; eauto|].
    rewrite lookup_insert_ne by congruence. exact H3.
Qed.

Lemma Add_fold_spec (nodes : list string) (m : Map) :
  let R := DefaultReplicas (config m) in
  let m1 := foldl (λ m node, if bool_decide (node = "") then m
                             else addNode m node (DefaultReplicas (config m))) m nodes in
  mu m1 = mu m ∧ config m1 = config m ∧ nodeCounts m1 = nodeCounts m ∧
  totalRequests m1 = totalRequests m ∧
  keys m1 = keys m ++ concat ((λ node, ring_vhashes (config m) node R) <$>
                              filter (λ n, n ≠ "") nodes) ∧
  (∀ node, node ∈ nodes → node ≠ "" → nodeReplicas m1 !! node = Some R) ∧
  (∀ node, node ∉ nodes → nodeReplicas m1 !! node = nodeReplicas m !! node) ∧
  (ring_owned m → ring_owned m1).
Proof.
  cbv zeta. revert m. induction nodes as [|node nodes IH]; intros m.
  - cbn. rewrite app_nil_r. repeat split; try done. intros node Hin. by apply elem_of_nil in Hin.
  - cbn [foldl]. rewrite filter_cons.
    destruct (decide (node = "")) as [->|Hne].
    + rewrite bool_decide_eq_true_2 by reflexivity. rewrite decide_False by (intros H; apply H; reflexivity).
      destruct (IH m) as (H1 & H2 & H3 & H4 & H5 & H6 & H7 & H8).
      do 5 (split; [assumption|]). split; [|split; [|assumption]].
      * intros n [->|Hin]%elem_of_cons Hn; [contradiction|]. apply H6; assumption.
      * intros n Hn. apply H7. intros Hin. apply Hn. right. exact Hin.
    + rewrite bool_decide_eq_false_2 by assumption. rewrite decide_True by assumption.
      destruct (IH (addNode m node (DefaultReplicas (config m))))
        as (H1 & H2 & H3 & H4 & H5 & H6 & H7 & H8).
      rewrite addNode_eq in *.
      cbn [mu config nodeCounts totalRequests keys nodeReplicas] in *.
      do 4 (split; [assumption|]).
      split; [rewrite H5; cbn [fmap list_fmap concat]; rewrite <- app_assoc; reflexivity|].
      split; [|split].
      * intros n Hin Hn. destruct (decide (n ∈ nodes)) as [Hin'|Hnin]; [apply H6; assumption|].
        rewrite H7 by assumption. apply elem_of_cons in Hin as [->|Hin]; [|contradiction].
        apply lookup_insert_eq.
      * intros n Hn. rewrite H7 by (intros Hin; apply Hn; right; exact Hin).
        apply lookup_insert_ne. intros ->. apply Hn. left.
      * intros Ho. apply H8. rewrite <- addNode_eq. apply addNode_owned; assumption.
Qed.

Lemma StronglySorted_sorted (l : list Z) : StronglySorted Z.le l → sorted l.
Proof.
  intros H. induction H as [|x l Hl IH Hx]; intros i j a b Hij Ha Hb.
  - rewrite lookup_nil in Ha. discriminate.
  - destruct i, j; cbn in *; try lia.
    + injection Ha as <-. injection Hb as <-. lia.
    + injection Ha as <-. rewrite Forall_forall in Hx. apply Hx.
      eapply list_elem_of_lookup_2. exact Hb.
    + eapply IH; [|exact Ha|exact Hb]. lia.
Qed.

Lemma sort_Ints_sorted (l : list Z) : sorted (sort_Ints l).
Proof.
  apply StronglySorted_sorted. apply Sorted_StronglySorted; [intros ???; lia|].
  apply (Sorted_merge_sort Z.le).
Qed.

Lemma ring_owned_perm m m' :
  keys m' ≡ₚ keys m → hashMap m' = hashMap m → nodeReplicas m' = nodeReplicas m →
  ring_owned m → ring_owned m'.
Proof.
  intros Hk Hh Hn Ho h Hin. rewrite Hk in Hin. rewrite Hh, Hn. apply Ho. exact Hin.
Qed.

Lemma ring_lock_free m :
  mu m = mutex_free → with_mu Lock m = Ret (set_mu m {| readers := 0; writer := true |}).
Proof. intros H. unfold with_mu, Lock. rewrite H. reflexivity. Qed.

Lemma ring_unlock_held m :
  mu m = {| readers := 0; writer := true |} → with_mu Unlock m = Ret (set_mu m mutex_free).
Proof. intros H. unfold with_mu, Unlock. rewrite H. reflexivity. Qed.

(** [Add] as a whole. *)
Lemma Add_spec m nodes :
  nodes ≠ [] → mu m = mutex_free →
  ∃ m',
    Add m nodes = Ret (None, m') ∧ mu m' = mutex_free ∧ config m' = config m ∧
    sorted (keys m') ∧
    keys m' ≡ₚ keys m ++ concat ((λ node, ring_vhashes (config m) node (DefaultReplicas (config m)))
                                  <$> filter (λ n, n ≠ "") nodes) ∧
    (∀ node, node ∈ nodes → node ≠ "" →
             nodeReplicas m' !! node = Some (DefaultReplicas (config m))) ∧
    (∀ node, node ∉ nodes → nodeReplicas m' !! node = nodeReplicas m !! node) ∧
    nodeCounts m' = nodeCounts m ∧ totalRequests m' = totalRequests m ∧
    (ring_owned m → ring_owned m').
Proof.
  intros Hne Hmu. unfold Add. destruct nodes as [|n0 nodes]; [contradiction|].
  rewrite ring_lock_free by assumption. cbn [obind].
  set (mL := set_mu m _).
  destruct (Add_fold_spec (n0 :: nodes) mL) as (H1 & H2 & H3 & H4 & H5 & H6 & H7 & H8).
  set (m1 := foldl _ mL (n0 :: nodes)) in *.
  rewrite ring_unlock_held by (cbn [set_keys mu]; rewrite H1; reflexivity). cbn [obind].
  eexists. split; [reflexivity|].
  cbn [set_mu set_keys mu config keys nodeReplicas nodeCounts totalRequests].
  split; [reflexivity|]. split; [exact H2|]. split; [apply sort_Ints_sorted|].
  split; [unfold sort_Ints; rewrite merge_sort_Permutation, H5; reflexivity|].
  split; [exact H6|]. split; [exact H7|]. split; [exact H3|]. split; [exact H4|].
  intros Ho. eapply (ring_owned_perm m1);
    [cbn [keys set_mu set_keys]; unfold sort_Ints; apply merge_sort_Permutation|reflexivity|reflexivity|].
  apply H8. exact Ho.
Qed.

Lemma Search_loop_range f rounds i j :
  0 ≤ i ≤ j → i ≤ Search_loop rounds f i j ≤ j.
Proof.
  revert i j. induction rounds as [|rounds IH]; intros i j Hij; [cbn; lia|].
  cbn [Search_loop]. destruct (i <? j) eqn:Hlt; [|lia].
  apply Z.ltb_lt in Hlt.
  assert (Hh : i ≤ (i + j) / 2 < j)
    by (split; [apply Z.div_le_lower_bound|apply Z.div_lt_upper_bound]; lia).
  destruct (negb (f ((i + j) / 2))).
  - specialize (IH ((i + j) / 2 + 1) j ltac:(lia)). lia.
  - specialize (IH i ((i + j) / 2) ltac:(lia)). lia.
Qed.

Lemma New_owned cfg : ring_owned (New cfg).
Proof. intros h Hin. cbn in Hin. by apply elem_of_nil in Hin. Qed.


(** X12.  [Add] without a node is an error and changes nothing.
    Otherwise, on an idle ring, it returns without error with the
    lock free and [keys] sorted; the ring has gained the
    [DefaultReplicas] virtual nodes of every node with a name, each
    such node is registered with that count, no other registration
    and no counter has changed, and every virtual node still
    belongs to a registered node. *)
Theorem ring_Add_registers_nodes m nodes :
  nodes ≠ [] → mu m = mutex_free →
  Add m [] = Ret (Some ErrNoNodes, m) ∧
  ∃ m',
    Add m nodes = Ret (None, m') ∧ mu m' = mutex_free ∧ config m' = config m ∧
    sorted (keys m') ∧
    keys m' ≡ₚ keys m ++ concat ((λ node, ring_vhashes (config m) node (DefaultReplicas (config m)))
                                  <$> filter (λ n, n ≠ "") nodes) ∧
    (∀ node, node ∈ nodes → node ≠ "" →
             nodeReplicas m' !! node = Some (DefaultReplicas (config m))) ∧
    (∀ node, node ∉ nodes → nodeReplicas m' !! node = nodeReplicas m !! node) ∧
    nodeCounts m' = nodeCounts m ∧ totalRequests m' = totalRequests m ∧
    (ring_owned m → ring_owned m').
Proof. intros Hne Hmu. split; [reflexivity|]. apply Add_spec; assumption. Qed.

Lemma ring_Add_registers_nodes_witness :
  Add (New ring_cfg) [] = Ret (Some ErrNoNodes, New ring_cfg) ∧
  ∃ m',
    Add (New ring_cfg) ["A"; ""; "B"] = Ret (None, m') ∧ mu m' = mutex_free ∧
    config m' = config (New ring_cfg) ∧
    sorted (keys m') ∧
    keys m' ≡ₚ keys (New ring_cfg) ++
               concat ((λ node, ring_vhashes (config (New ring_cfg)) node
                                  (DefaultReplicas (config (New ring_cfg))))
                       <$> filter (λ n, n ≠ "") ["A"; ""; "B"]) ∧
    (∀ node, node ∈ ["A"; ""; "B"] → node ≠ "" →
             nodeReplicas m' !! node = Some (DefaultReplicas (config (New ring_cfg)))) ∧
    (∀ node, node ∉ ["A"; ""; "B"] → nodeReplicas m' !! node = nodeReplicas (New ring_cfg) !! node) ∧
    nodeCounts m' = nodeCounts (New ring_cfg) ∧ totalRequests m' = totalRequests (New ring_cfg) ∧
    (ring_owned (New ring_cfg) → ring_owned m').
Proof.
  apply (ring_Add_registers_nodes (New ring_cfg) ["A"; ""; "B"]); [discriminate|reflexivity].
Defined.

Lemma ring_AB_owned : ring_owned ring_AB ∧ mu ring_AB = mutex_free ∧ keys ring_AB ≠ [].
Proof.
  destruct (Add_spec (New ring_cfg) ["A"; "B"]) as (m' & HA & Hmu & _ & _ & Hk & _ & _ & _ & _ & Ho);
    [discriminate|reflexivity|].
  assert (ring_AB = m') as ->; [unfold ring_AB; rewrite HA; reflexivity|].
  split; [apply Ho, New_owned|]. split; [exact Hmu|].
  intros Hnil. rewrite Hnil in Hk. apply Permutation_nil_l in Hk. vm_compute in Hk. discriminate.
Qed.

(** X13.  On a ring all of whose virtual nodes belong to registered
    nodes (as [New] and [Add] leave it), with at least one virtual
    node and no writer, [Get] of a key that is not empty returns the
    owner of one of the virtual nodes: a registered node with a
    name.  Only that node's count and [totalRequests] change, each
    by one. *)
Theorem ring_Get_returns_registered_node m key :
  writer (mu m) = false → ring_owned m → keys m ≠ [] → key ≠ "" →
  ∃ node h,
    Get m key =
      Ret (node,
           set_totalRequests
             (set_nodeCounts m (<[node := wrap_int64 (default 0 (nodeCounts m !! node) + 1)]>
                                  (nodeCounts m)))
             (wrap_int64 (totalRequests m + 1))) ∧
    h ∈ keys m ∧ hashMap m !! h = Some node ∧ node ≠ "" ∧
    is_Some (nodeReplicas m !! node).
Proof.
  intros Hw Ho Hk Hkey. unfold Get. rewrite bool_decide_eq_false_2 by assumption.
  rewrite ring_RLock by assumption. cbn [obind set_mu keys].
  destruct (keys m) as [|k0 ks] eqn:Hkeys; [contradiction|].
  replace (Z.of_nat (length (k0 :: ks)) =? 0) with false
    by (symmetry; apply Z.eqb_neq; cbn [length]; lia).
  set (i := Search _ _).
  assert (Hi : 0 ≤ i ≤ Z.of_nat (length (k0 :: ks))).
  { subst i. unfold Search. apply Search_loop_range. lia. }
  set (idx := if i =? Z.of_nat (length (k0 :: ks)) then 0 else i).
  assert (Hidx : 0 ≤ idx < Z.of_nat (length (k0 :: ks))).
  { subst idx. destruct (i =? _) eqn:He.
    - cbn [length]. lia.
    - apply Z.eqb_neq in He. lia. }
  destruct ((k0 :: ks) !! Z.to_nat idx) as [h|] eqn:Hh;
    [|apply lookup_ge_None in Hh; lia].
  assert (Hin : h ∈ keys m) by (rewrite Hkeys; eapply list_elem_of_lookup_2; exact Hh).
  destruct (Ho h Hin) as (node & Hnode & Hname & Hreg).
  exists node, h. cbn [hashMap nodeCounts set_mu config totalRequests]. rewrite Hnode. cbn [default from_option id].
  split; [|rewrite <- Hkeys; done].
  unfold with_mu, RUnlock. cbn.
  destruct m as [[r w] ? ? ? ? ? ?]. cbn in *. subst w. reflexivity.
Qed.

Lemma ring_Get_returns_registered_node_witness :
  ∃ node h,
    Get ring_AB "hello" =
      Ret (node,
           set_totalRequests
             (set_nodeCounts ring_AB
                (<[node := wrap_int64 (default 0 (nodeCounts ring_AB !! node) + 1)]>
                   (nodeCounts ring_AB)))
             (wrap_int64 (totalRequests ring_AB + 1))) ∧
    h ∈ keys ring_AB ∧ hashMap ring_AB !! h = Some node ∧ node ≠ "" ∧
    is_Some (nodeReplicas ring_AB !! node).
Proof.
  apply (ring_Get_returns_registered_node ring_AB "hello").
  - destruct ring_AB_owned as (_ & -> & _). reflexivity.
  - apply ring_AB_owned.
  - apply ring_AB_owned.
  - discriminate.
Defined.


Lemma remove_first_perm (h : Z) (l : list Z) : h ∈ l → l ≡ₚ h :: remove_first h l.
Proof.
  induction l as [|x l IH]; intros Hin; [by apply elem_of_nil in Hin|].
  cbn [remove_first]. destruct (x =? h) eqn:E.
  - apply Z.eqb_eq in E as ->. reflexivity.
  - apply Z.eqb_neq in E. apply elem_of_cons in Hin as [->|Hin]; [contradiction|].
    rewrite (IH Hin) at 1. apply perm_swap.
Qed.

Lemma remove_first_all (hs l l0 : list Z) :
  l ≡ₚ hs ++ l0 → foldl (λ ks h, remove_first h ks) l hs ≡ₚ l0.
Proof.
  revert l. induction hs as [|h hs IH]; intros l Hl; [exact Hl|].
  cbn [foldl]. apply IH. cbn [app] in Hl.
  assert (Hin : h ∈ l) by (rewrite Hl; left).
  rewrite (remove_first_perm h l Hin) in Hl. apply Permutation_cons_inv in Hl. exact Hl.
Qed.

Lemma remove_first_subset (h : Z) (l : list Z) x : x ∈ remove_first h l → x ∈ l.
Proof.
  induction l as [|y l IH]; [done|]. cbn [remove_first]. destruct (y =? h).
  - intros H. right. exact H.
  - intros [->|H]%elem_of_cons; [left|right; apply IH; exact H].
Qed.

Lemma remove_first_StronglySorted (h : Z) (l : list Z) :
  StronglySorted Z.le l → StronglySorted Z.le (remove_first h l).
Proof.
  induction 1 as [|x l Hl IH Hx]; [constructor|].
  cbn [remove_first]. destruct (x =? h); [exact Hl|].
  constructor; [exact IH|]. rewrite Forall_forall in *. intros y Hy. apply Hx.
  eapply remove_first_subset. exact Hy.
Qed.

Lemma fold_remove_StronglySorted (hs l : list Z) :
  StronglySorted Z.le l → StronglySorted Z.le (foldl (λ ks h, remove_first h ks) l hs).
Proof.
  revert l. induction hs as [|h hs IH]; intros l Hl; [exact Hl|].
  cbn [foldl]. apply IH. apply remove_first_StronglySorted. exact Hl.
Qed.

Lemma lookup_fold_delete (l : list Z) (hm : gmap Z string) (h : Z) :
  foldl (λ hm x, delete x hm) hm l !! h = if decide (h ∈ l) then None else hm !! h.
Proof.
  revert hm. induction l as [|x l IH]; intros hm.
  - cbn. rewrite decide_False by apply not_elem_of_nil. reflexivity.
  - cbn [foldl]. rewrite IH. destruct (decide (h ∈ l)) as [Hin|Hnin].
    + rewrite decide_True by (right; exact Hin). reflexivity.
    + destruct (decide (h = x)) as [->|Hne].
      * rewrite decide_True by left. apply lookup_delete_eq.
      * rewrite decide_False by (intros [?|?]%elem_of_cons; contradiction).
        apply lookup_delete_ne. congruence.
Qed.

Lemma ring_fold_remove (h : Z → Z) (l : list Z) (m : Map) :
  foldl (λ m i, set_keys (set_hashMap m (delete (h i) (hashMap m))) (remove_first (h i) (keys m))) m l =
  {| mu := mu m; config := config m;
     keys := foldl (λ ks x, remove_first x ks) (keys m) (h <$> l);
     hashMap := foldl (λ hm x, delete x hm) (hashMap m) (h <$> l);
     nodeReplicas := nodeReplicas m; nodeCounts := nodeCounts m;
     totalRequests := totalRequests m |}.
Proof.
  revert m. induction l as [|i l IH]; intros m.
  - cbn. destruct m; reflexivity.
  - cbn [foldl fmap list_fmap]. rewrite IH. reflexivity.
Qed.

Lemma ring_fold_remove_cfg (node : string) (cfg : Config) (l : list Z) (m : Map) :
  config m = cfg →
  foldl (λ m i, let hash := vhash m node i in
                set_keys (set_hashMap m (delete hash (hashMap m))) (remove_first hash (keys m))) m l =
  foldl (λ m i, set_keys (set_hashMap m (delete (HashFunc cfg (node +:+ "-" +:+ pretty i)) (hashMap m)))
                         (remove_first (HashFunc cfg (node +:+ "-" +:+ pretty i)) (keys m)))
        m l.
Proof.
  intros Hc. apply (foldl_inv_ext (λ m, config m = cfg)); [|exact Hc].
  intros a b Ha. unfold vhash. rewrite Ha. split; reflexivity || exact Ha.
Qed.

(** [Remove] of a registered node on an idle ring, in one step. *)
Lemma Remove_eq m node R :
  mu m = mutex_free → node ≠ "" → nodeReplicas m !! node = Some R → R ≠ 0 →
  Remove m node =
  Ret (None,
       {| mu := mutex_free; config := config m;
          keys := foldl (λ ks x, remove_first x ks) (keys m) (ring_vhashes (config m) node R);
          hashMap := foldl (λ hm x, delete x hm) (hashMap m) (ring_vhashes (config m) node R);
          nodeReplicas := delete node (nodeReplicas m);
          nodeCounts := delete node (nodeCounts m);
          totalRequests := totalRequests m |}).
Proof.
  intros Hmu Hne HR HR0. unfold Remove. rewrite bool_decide_eq_false_2 by assumption.
  rewrite ring_lock_free by assumption. cbn [obind set_mu nodeReplicas]. rewrite HR.
  cbn [default from_option id]. rewrite (proj2 (Z.eqb_neq R 0) HR0).
  rewrite (ring_fold_remove_cfg node (config m)) by reflexivity.
  rewrite (ring_fold_remove (λ i, HashFunc (config m) (node +:+ "-" +:+ pretty i))).
  rewrite ring_unlock_held by reflexivity. reflexivity.
Qed.

(** [Remove] of a node that is not registered. *)
Lemma Remove_unknown m node :
  mu m = mutex_free → node ≠ "" → default 0 (nodeReplicas m !! node) = 0 →
  Remove m node = Ret (Some (ErrNodeNotFound node), m).
Proof.
  intros Hmu Hne HR. unfold Remove. rewrite bool_decide_eq_false_2 by assumption.
  rewrite ring_lock_free by assumption. cbn [obind set_mu nodeReplicas]. rewrite HR.
  cbn. destruct m as [mu0 ? ? ? ? ? ?]. cbn in *. subst mu0. reflexivity.
Qed.

(** X14.  [Remove] undoes [Add]: on an idle ring on which [node] is
    not registered and none of its virtual nodes would collide with
    one that is on the ring, [Remove(node)] is the error "not found"
    and changes nothing, while after [Add(node)] it succeeds and
    gives back the ring as it was - the same virtual nodes, in
    ascending order, with the same owners, registrations and total. *)
Theorem ring_Remove_undoes_Add m node :
  mu m = mutex_free → node ≠ "" → 0 < DefaultReplicas (config m) →
  nodeReplicas m !! node = None →
  (∀ h, h ∈ ring_vhashes (config m) node (DefaultReplicas (config m)) → hashMap m !! h = None) →
  Remove m "" = Ret (Some ErrInvalidNode, m) ∧
  Remove m node = Ret (Some (ErrNodeNotFound node), m) ∧
  ∃ m1 m2,
    Add m [node] = Ret (None, m1) ∧ Remove m1 node = Ret (None, m2) ∧
    keys m2 ≡ₚ keys m ∧ sorted (keys m2) ∧ hashMap m2 = hashMap m ∧
    nodeReplicas m2 = nodeReplicas m ∧ nodeCounts m2 = delete node (nodeCounts m) ∧
    totalRequests m2 = totalRequests m ∧ config m2 = config m ∧ mu m2 = mutex_free.
Proof.
  intros Hmu Hne HR Hreg Hfree. split; [reflexivity|].
  split; [apply Remove_unknown; [assumption|assumption|rewrite Hreg; reflexivity]|].
  set (R := DefaultReplicas (config m)) in *.
  set (hs := ring_vhashes (config m) node R) in *.
  assert (HA : Add m [node] =
    Ret (None, {| mu := mutex_free; config := config m;
                  keys := sort_Ints (keys m ++ hs);
                  hashMap := foldl (λ hm x, <[x := node]> hm) (hashMap m) hs;
                  nodeReplicas := <[node := R]> (nodeReplicas m);
                  nodeCounts := nodeCounts m; totalRequests := totalRequests m |})).
  { unfold Add. rewrite ring_lock_free by assumption. cbn [obind foldl].
    rewrite bool_decide_eq_false_2 by assumption. rewrite addNode_eq.
    rewrite ring_unlock_held by reflexivity. reflexivity. }
  eexists _, _. split; [exact HA|].
  split.
  { apply (Remove_eq _ node R); [reflexivity|assumption|cbn; apply lookup_insert_eq|lia]. }
  cbn [keys hashMap nodeReplicas nodeCounts totalRequests config mu]. fold hs.
  split.
  { apply remove_first_all. unfold sort_Ints. rewrite merge_sort_Permutation.
    apply Permutation_app_comm. }
  split.
  { apply StronglySorted_sorted, fold_remove_StronglySorted.
    apply Sorted_StronglySorted; [intros ???; lia|]. apply (Sorted_merge_sort Z.le). }
  split.
  { apply map_eq. intros h. rewrite lookup_fold_delete, lookup_fold_insert.
    destruct (decide (h ∈ hs)) as [Hin|Hnin]; [symmetry; apply Hfree; exact Hin|reflexivity]. }
  split; [rewrite delete_insert_eq; apply delete_id; exact Hreg|].
  repeat split; reflexivity.
Qed.

Lemma ring_Remove_undoes_Add_witness :
  Remove ring_AB "" = Ret (Some ErrInvalidNode, ring_AB) ∧
  Remove ring_AB "C" = Ret (Some (ErrNodeNotFound "C"), ring_AB) ∧
  ∃ m1 m2,
    Add ring_AB ["C"] = Ret (None, m1) ∧ Remove m1 "C" = Ret (None, m2) ∧
    keys m2 ≡ₚ keys ring_AB ∧ sorted (keys m2) ∧ hashMap m2 = hashMap ring_AB ∧
    nodeReplicas m2 = nodeReplicas ring_AB ∧ nodeCounts m2 = delete "C" (nodeCounts ring_AB) ∧
    totalRequests m2 = totalRequests ring_AB ∧ config m2 = config ring_AB ∧ mu m2 = mutex_free.
Proof.
  apply (ring_Remove_undoes_Add ring_AB "C").
  - apply ring_AB_owned.
  - discriminate.
  - vm_compute. reflexivity.
  - vm_compute. reflexivity.
  - intros h Hh.
    assert (Hb : forallb (λ h, bool_decide (hashMap ring_AB !! h = None))
                   (ring_vhashes (config ring_AB) "C" (DefaultReplicas (config ring_AB))) = true)
      by (vm_compute; reflexivity).
    rewrite forallb_forall in Hb. specialize (Hb h). apply bool_decide_eq_true in Hb; [exact Hb|].
    apply list_elem_of_In. exact Hh.
Defined.

(** X15.  A rebalance that has something to change never completes:
    on an idle ring, as soon as the replica count computed for one
    node with a name differs from its current one, [rebalanceNodes]
    ends up waiting for the write lock it is holding itself -
    whatever the order in which the range visits the nodes - and so
    does [checkAndRebalance] once 1000 requests are counted and the
    threshold is passed. *)
Theorem ring_rebalance_self_deadlock m :
  mu m = mutex_free →
  (∃ node count, nodeCounts m !! node = Some count ∧ node ≠ "" ∧
                 newReplicas m (avgLoad m) node count ≠ default 0 (nodeReplicas m !! node)) →
  rebalanceNodes m = Blocked ∧
  (∀ l, l ≡ₚ map_to_list (nodeCounts m) → rebalanceNodes_in l m = Blocked) ∧
  (1000 ≤ totalRequests m →
   PrimFloat.ltb (LoadBalanceThreshold (config m)) (maxDiff m) = true →
   checkAndRebalance m = Blocked).
Proof.
  intros Hmu (node & count & Hin & Hne & Hch).
  assert (Hall : ∀ l, l ≡ₚ map_to_list (nodeCounts m) → rebalanceNodes_in l m = Blocked).
  { intros l Hl. unfold rebalanceNodes_in. rewrite ring_lock_free by assumption. cbn [obind].
    rewrite rebalance_loop_blocks; [reflexivity|reflexivity|].
    exists node, count. split; [|split; assumption].
    rewrite Hl. apply elem_of_map_to_list. exact Hin. }
  split; [apply Hall; reflexivity|]. split; [exact Hall|].
  intros Ht Hd. unfold checkAndRebalance. rewrite (proj2 (Z.ltb_ge _ _)) by lia.
  rewrite Hd. apply Hall. reflexivity.
Qed.

Lemma ring_rebalance_self_deadlock_witness :
  rebalanceNodes ring_loaded = Blocked ∧
  (∀ l, l ≡ₚ map_to_list (nodeCounts ring_loaded) → rebalanceNodes_in l ring_loaded = Blocked) ∧
  (1000 ≤ totalRequests ring_loaded →
   PrimFloat.ltb (LoadBalanceThreshold (config ring_loaded)) (maxDiff ring_loaded) = true →
   checkAndRebalance ring_loaded = Blocked).
Proof.
  apply (ring_rebalance_self_deadlock ring_loaded).
  - vm_compute. reflexivity.
  - exists "A", 1500. split; [vm_compute; reflexivity|]. split; [discriminate|].
    vm_compute. discriminate.
Defined.

End ring_members.

(** ** LRU-2 engine: the shard mask *)

Section lru2_mask.
Import lru2.

Lemma smear_step x y w :
  0 ≤ w →
  (∀ i, 0 ≤ i → Z.testbit y i = true ↔ ∃ k, 0 ≤ k < w ∧ Z.testbit x (i + k) = true) →
  ∀ i, 0 ≤ i →
    Z.testbit (Z.lor y (Z.shiftr y w)) i = true ↔
    ∃ k, 0 ≤ k < 2 * w ∧ Z.testbit x (i + k) = true.
Proof.
  intros Hw Hy i Hi. rewrite Z.lor_spec, Z.shiftr_spec by lia. rewrite orb_true_iff.
  rewrite (Hy i Hi), (Hy (i + w)) by lia. split.
  - intros [(k & Hk & Hb)|(k & Hk & Hb)].
    + exists k. split; [lia|exact Hb].
    + exists (w + k). split; [lia|]. replace (i + (w + k)) with (i + w + k) by lia. exact Hb.
  - intros (k & Hk & Hb). destruct (decide (k < w)) as [Hlt|Hge].
    + left. exists k. split; [lia|exact Hb].
    + right. exists (k - w). split; [lia|]. replace (i + w + (k - w)) with (i + k) by lia. exact Hb.
Qed.

(** The four shift-and-or steps set every bit below the highest one. *)
Lemma smear_value x :
  0 < x < 2 ^ 16 →
  (let cap := Z.lor x (Z.shiftr x 1) in
   let cap := Z.lor cap (Z.shiftr cap 2) in
   let cap := Z.lor cap (Z.shiftr cap 4) in
   Z.lor cap (Z.shiftr cap 8)) = 2 ^ (Z.log2 x + 1) - 1.
Proof.
  intros Hx. cbv zeta.
  assert (H1 : ∀ i, 0 ≤ i → Z.testbit x i = true ↔ ∃ k, 0 ≤ k < 1 ∧ Z.testbit x (i + k) = true).
  { intros i Hi. split.
    - intros Hb. exists 0. split; [lia|]. rewrite Z.add_0_r. exact Hb.
    - intros (k & Hk & Hb). replace (i + k) with i in Hb by lia. exact Hb. }
  pose proof (smear_step x x 1 ltac:(lia) H1) as H2.
  pose proof (smear_step x _ 2 ltac:(lia) H2) as H4.
  pose proof (smear_step x _ 4 ltac:(lia) H4) as H8.
  pose proof (smear_step x _ 8 ltac:(lia) H8) as H16.
  assert (Hn : 0 ≤ Z.log2 x < 16).
  { split; [apply Z.log2_nonneg|]. apply Z.log2_lt_pow2; lia. }
  apply Z.bits_inj'. intros i Hi.
  replace (2 ^ (Z.log2 x + 1) - 1) with (Z.ones (Z.log2 x + 1))
    by (rewrite Z.ones_equiv; lia).
  apply Bool.eq_iff_eq_true. rewrite (H16 i Hi), Z.ones_spec_iff by lia. split.
  - intros (k & Hk & Hb). split; [lia|].
    destruct (decide (i + k ≤ Z.log2 x)) as [|Hgt]; [lia|].
    rewrite Z.bits_above_log2 in Hb by lia. discriminate.
  - intros Hlt. exists (Z.log2 x - i). split; [lia|].
    replace (i + (Z.log2 x - i)) with (Z.log2 x) by lia. apply Z.bit_log2. lia.
Qed.

Lemma pow2_land_pred n : 0 ≤ n → Z.land (2 ^ n) (2 ^ n - 1) = 0.
Proof.
  intros Hn. apply Z.bits_inj'. intros i Hi. rewrite Z.land_spec, Z.bits_0.
  replace (2 ^ n - 1) with (Z.ones n) by (rewrite Z.ones_equiv; lia).
  rewrite Z.pow2_bits_eqb by lia.
  destruct (n =? i) eqn:E; [|reflexivity]. apply Z.eqb_eq in E as <-.
  rewrite Z.ones_spec_high by lia. reflexivity.
Qed.

Lemma land_pred_pow2 x : 0 < x → Z.land x (x - 1) = 0 → x = 2 ^ Z.log2 x.
Proof.
  intros Hx Hl. pose proof (Z.log2_spec x Hx) as [Hlo Hhi].
  destruct (decide (x = 2 ^ Z.log2 x)) as [|Hne]; [assumption|exfalso].
  assert (Hb : Z.testbit (Z.land x (x - 1)) (Z.log2 x) = true).
  { rewrite Z.land_spec, Z.bit_log2 by lia.
    assert (Z.log2 (x - 1) = Z.log2 x) as <-.
    { apply Z.log2_unique; [apply Z.log2_nonneg|]. lia. }
    apply Z.bit_log2. pose proof (Z.pow_pos_nonneg 2 (Z.log2 x) ltac:(lia) (Z.log2_nonneg x)). lia. }
  rewrite Hl, Z.bits_0 in Hb. discriminate.
Qed.

(** The mask is one less than the least power of two that is not
  below the bucket count. *)
Lemma maskOfNextPowOf2_pow2 cap :
  1 ≤ cap ≤ 65535 →
  maskOfNextPowOf2 0 = 0 ∧
  (∃ n, 0 ≤ n ≤ 16 ∧ maskOfNextPowOf2 cap + 1 = 2 ^ n ∧ cap ≤ 2 ^ n < 2 * cap) ∧
  (32768 < cap → maskOfNextPowOf2 cap = 65535).
Proof.
  intros Hcap. split; [reflexivity|].
  assert (Hn : 0 ≤ Z.log2 cap < 16).
  { split; [apply Z.log2_nonneg|]. apply Z.log2_lt_pow2; lia. }
  pose proof (Z.log2_spec cap ltac:(lia)) as [Hlo Hhi].
  assert (Hex : ∃ n, 0 ≤ n ≤ 16 ∧ maskOfNextPowOf2 cap + 1 = 2 ^ n ∧ cap ≤ 2 ^ n < 2 * cap).
  { unfold maskOfNextPowOf2.
    assert (Hw : wrap_uint16 (cap - 1) = cap - 1) by (unfold wrap_uint16; apply Z.mod_small; lia).
    rewrite Hw. destruct ((0 <? cap) && (Z.land cap (cap - 1) =? 0)) eqn:Hp.
    - apply andb_true_iff in Hp as [_ Hp]. apply Z.eqb_eq in Hp.
      pose proof (land_pred_pow2 cap ltac:(lia) Hp) as Hpow.
      exists (Z.log2 cap). split; [lia|]. split; [lia|]. lia.
    - rewrite smear_value by lia. exists (Z.log2 cap + 1). split; [lia|]. split; [lia|].
      replace (Z.log2 cap + 1) with (Z.succ (Z.log2 cap)) by lia.
      rewrite Z.pow_succ_r in * by lia.
      assert (cap ≠ 2 ^ Z.log2 cap).
      { intros Heq. rewrite Heq in Hp at 2 3. rewrite pow2_land_pred in Hp by lia.
        rewrite (proj2 (Z.ltb_lt 0 cap)) in Hp by lia. discriminate. }
      lia. }
  split; [exact Hex|]. intros Hbig. destruct Hex as (n & Hn16 & Hm & Hle & Hlt).
  assert (n = 16).
  { destruct (decide (n = 16)) as [|Hne]; [assumption|exfalso].
    assert (2 ^ n ≤ 2 ^ 15) by (apply Z.pow_le_mono_r; lia). lia. }
  subst n. lia.
Qed.

(** X16.  [maskOfNextPowOf2]: for a bucket count from 1 to 65535 the
    result is one less than a power of two, the least power of two
    that is not below the count; so a count above 32768 gives the
    mask 65535.  For 0 the result is 0. *)
Theorem lru2_maskOfNextPowOf2_least_power cap :
  1 ≤ cap ≤ 65535 →
  maskOfNextPowOf2 0 = 0 ∧
  (∃ n, 0 ≤ n ≤ 16 ∧ maskOfNextPowOf2 cap + 1 = 2 ^ n ∧ cap ≤ 2 ^ n < 2 * cap) ∧
  (32768 < cap → maskOfNextPowOf2 cap = 65535).
Proof. apply maskOfNextPowOf2_pow2. Qed.

Lemma lru2_maskOfNextPowOf2_least_power_witness :
  maskOfNextPowOf2 0 = 0 ∧
  (∃ n, 0 ≤ n ≤ 16 ∧ maskOfNextPowOf2 1000 + 1 = 2 ^ n ∧ 1000 ≤ 2 ^ n < 2 * 1000) ∧
  (32768 < 1000 → maskOfNextPowOf2 1000 = 65535).
Proof. apply (lru2_maskOfNextPowOf2_least_power 1000). lia. Defined.

End lru2_mask.

(** ** LRU-2 engine: set, get and delete composed *)

Section lru2_calls.
Import lru2.

Lemma at_nil {A : Type} (i : Z) : at_ (@nil A) i = Panic.
Proof. unfold at_. destruct (i <? 0); [reflexivity|]. rewrite lookup_nil. reflexivity. Qed.

(** A level with an empty link table cannot take a first key. *)
Lemma put_no_links c key val e oe :
  hmap c = ∅ → dlnk c = [] → last c ≠ wrap_uint16 (Z.of_nat (length (m c))) →
  put c key val e oe = Panic.
Proof.
  intros Hh Hd Hl. unfold put. rewrite Hh, lookup_empty.
  rewrite (proj2 (Z.eqb_neq _ _) Hl). cbn [set_last hmap last dlnk m].
  rewrite Hh, map_size_empty. unfold wr.
  change (dlnk (set_last c (wrap_uint16 (last c + 1)))) with (dlnk c).
  rewrite Hd, at_nil. reflexivity.
Qed.

Lemma put_Create_65535 key val e oe : put (Create 65535) key val e oe = Panic.
Proof.
  apply put_no_links; [reflexivity|reflexivity|].
  cbn [last m Create]. rewrite length_replicate, Z2Nat.id by lia.
  change (wrap_uint16 65535) with 65535. discriminate.
Qed.

(** [delete_] on the key's shard reports whether the key was live in
    a level. *)
Lemma delete_ws_result s i cc ev key idx :
  0 ≤ idx → Z.to_nat idx = i → (i < length (caches s))%nat →
  lru2_shape cc.1 → lru2_shape cc.2 →
  ∃ a' b' ev',
    delete_ (lru2_with_shard s i cc ev) key idx
      = Ret (live cc.1 key || live cc.2 key, lru2_with_shard s i (a', b') ev') ∧
    lru2_shape a' ∧ lru2_shape b' ∧ live a' key = false ∧ live b' key = false.
Proof.
  intros H0 Hi Hlt Ha Hb. unfold delete_.
  rewrite (level_of_ws s i cc ev idx 0) by assumption. cbn [Z.eqb Pos.eqb obind fst snd].
  destruct (del_spec cc.1 key Ha) as (a' & Hsa & _ & Hda).
  assert (∃ n1 s1 e1, del cc.1 key = Ret (n1, s1, e1, a') ∧ (0 <? s1) = live cc.1 key)
    as (n1 & s1 & e1 & Hd1 & Hl1).
  { destruct Hda as [(nd & e & Hd & He & Hh & _)|(Hd & -> & Hl)]; rewrite Hd.
    - eexists _, _, _. split; [reflexivity|]. unfold live. rewrite Hh.
      symmetry. apply Z.ltb_lt. exact He.
    - eexists _, _, _. split; [reflexivity|]. rewrite Hl. reflexivity. }
  rewrite Hd1. cbn [obind].
  rewrite (proj1 (set_level_ws s i cc ev idx a' H0 Hi Hlt)). cbn [obind].
  rewrite (level_of_ws s i (a', cc.2) ev idx 1) by assumption. cbn [Z.eqb Pos.eqb obind fst snd].
  destruct (del_spec cc.2 key Hb) as (b' & Hsb & _ & Hdb).
  assert (∃ n2 s2 e2, del cc.2 key = Ret (n2, s2, e2, b') ∧ (0 <? s2) = live cc.2 key)
    as (n2 & s2 & e2 & Hd2 & Hl2).
  { destruct Hdb as [(nd & e & Hd & He & Hh & _)|(Hd & -> & Hl)]; rewrite Hd.
    - eexists _, _, _. split; [reflexivity|]. unfold live. rewrite Hh.
      symmetry. apply Z.ltb_lt. exact He.
    - eexists _, _, _. split; [reflexivity|]. rewrite Hl. reflexivity. }
  rewrite Hd2. cbn [obind].
  rewrite (proj2 (set_level_ws s i (a', cc.2) ev idx b' H0 Hi Hlt)). cbn [obind fst].
  rewrite add_evicted_ws, Hl1, Hl2.
  eexists a', b', _. split; [reflexivity|].
  do 2 (split; [assumption|]). split.
  - apply (del_live_after cc.1 key a' Ha). eexists. exact Hd1.
  - apply (del_live_after cc.2 key b' Hb). eexists. exact Hd2.
Qed.

(** The misses of [Get] on the key's shard. *)
Lemma Get_ws_miss s i cc key t t' :
  0 ≤ shard s key → Z.to_nat (shard s key) = i → (i < length (caches s))%nat →
  lru2_shape cc.1 → lru2_shape cc.2 →
  ∃ val ok a' b' ev',
    Get (lru2_with_shard s i cc []) key t t' = Ret (val, ok, lru2_with_shard s i (a', b') ev') ∧
    lru2_shape a' ∧ lru2_shape b' ∧
    (∀ x e, holds cc.1 key = Some (x, e) → 0 < e → e ≤ t →
            val = None ∧ ok = false ∧ live a' key = false ∧ live b' key = false) ∧
    (live cc.1 key = false →
     ∀ x e, holds cc.2 key = Some (x, e) → 0 < e → e ≤ t' →
            val = None ∧ ok = false ∧ a' = cc.1 ∧ holds b' key = Some (x, e) ∧ ev' = []) ∧
    (live cc.1 key = false → live cc.2 key = false →
            val = None ∧ ok = false ∧ a' = cc.1 ∧
            (∀ key', holds b' key' = holds cc.2 key') ∧ ev' = []).
Proof.
  intros H0 Hi Hlt Ha Hb. unfold Get.
  change (shard (lru2_with_shard s i cc []) key) with (shard s key).
  set (idx := shard s key) in *.
  rewrite (level_of_ws s i cc [] idx 0) by assumption. cbn [Z.eqb Pos.eqb obind fst snd].
  destruct (del_spec cc.1 key Ha) as (a' & Hsa & _ & [(nd & e & Hd & He & Hh & Hh')|(Hd & -> & Hl)]);
    rewrite Hd; cbn [obind];
    rewrite (proj1 (set_level_ws s i cc [] idx _ H0 Hi Hlt)); cbn [obind Z.ltb Z.compare].
  - assert (Hlive : live cc.1 key = true) by (unfold live; rewrite Hh; apply Z.ltb_lt; exact He).
    destruct ((0 <? e) && (e <=? t)) eqn:Hexp.
    + destruct (delete_ws s i (a', cc.2) [] key idx H0 Hi Hlt Hsa Hb)
        as (b0 & a2 & b2 & ev2 & -> & Hsa2 & Hsb2 & Hla2 & Hlb2).
      cbn [obind snd]. exists None, false, a2, b2, ev2. split; [reflexivity|].
      do 2 (split; [assumption|]). split; [|split].
      * intros x e0 _ _ _. repeat split; assumption.
      * intros Hf. rewrite Hf in Hlive. discriminate Hlive.
      * intros Hf. rewrite Hf in Hlive. discriminate Hlive.
    + cbn [obind].
      rewrite (level_of_ws s i (a', cc.2) [] idx 1) by assumption.
      cbn [Z.eqb Pos.eqb obind fst snd].
      change (onEvicted (lru2_with_shard s i (a', cc.2) [])) with (onEvicted s).
      destruct (put_spec cc.2 key (v nd) e (onEvicted s) Hb)
        as (r & b' & calls & -> & Hsb & _ & Hhb & _).
      cbn [obind fst snd].
      rewrite (proj2 (set_level_ws s i (a', cc.2) [] idx b' H0 Hi Hlt)). cbn [obind fst].
      rewrite add_evicted_ws.
      exists (v nd), true, a', b', ([] ++ calls). split; [reflexivity|].
      do 2 (split; [assumption|]). split; [|split].
      * intros x e0. rewrite Hh. intros [= <- <-] _ Hte.
        apply andb_false_iff in Hexp as [Hexp|Hexp].
        -- apply Z.ltb_ge in Hexp. lia.
        -- apply Z.leb_gt in Hexp. lia.
      * intros Hf. rewrite Hf in Hlive. discriminate Hlive.
      * intros Hf. rewrite Hf in Hlive. discriminate Hlive.
  - unfold _get. rewrite (level_of_ws s i (cc.1, cc.2) [] idx 1) by assumption.
    cbn [Z.eqb Pos.eqb obind fst snd].
    destruct (get_spec cc.2 key Hb) as (b' & Hsb & _ & Hsame & [(nd & Hg & Hh)|(Hg & -> & Hh)]);
      rewrite Hg; cbn [obind];
      rewrite (proj2 (set_level_ws s i (cc.1, cc.2) [] idx _ H0 Hi Hlt)); cbn [obind fst Z.ltb Z.compare].
    + destruct ((expireAt nd <=? 0) || (expireAt nd <=? t')) eqn:Hx; cbn [obind].
      * exists None, false, cc.1, b', []. split; [reflexivity|].
        do 2 (split; [assumption|]). split; [|split].
        -- intros x e0 Hx0 He0 _. pose proof (live_false_holds _ _ _ _ Hl Hx0). lia.
        -- intros _ x e0 Hx0 _ _. repeat split. rewrite Hsame. exact Hx0.
        -- intros _ _. repeat split. exact Hsame.
      * apply orb_false_iff in Hx as [Hx1 Hx2].
        apply Z.leb_gt in Hx1. apply Z.leb_gt in Hx2.
        destruct ((0 <? expireAt nd) && (expireAt nd <=? t)) eqn:Hexp.
        -- destruct (delete_ws s i (cc.1, b') [] key idx H0 Hi Hlt Ha Hsb)
             as (b0 & a2 & b2 & ev2 & -> & Hsa2 & Hsb2 & Hla2 & Hlb2).
           cbn [obind snd]. exists None, false, a2, b2, ev2. split; [reflexivity|].
           do 2 (split; [assumption|]). split; [|split].
           ++ intros x e0 Hx0 He0 _. pose proof (live_false_holds _ _ _ _ Hl Hx0). lia.
           ++ intros _ x e0. rewrite Hh. intros [= <- <-] _ Hte. lia.
           ++ intros _ Hlb. pose proof (live_false_holds _ _ _ _ Hlb Hh). lia.
        -- exists (v nd), true, cc.1, b', []. split; [reflexivity|].
           do 2 (split; [assumption|]). split; [|split].
           ++ intros x e0 Hx0 He0 _. pose proof (live_false_holds _ _ _ _ Hl Hx0). lia.
           ++ intros _ x e0. rewrite Hh. intros [= <- <-] _ Hte. lia.
           ++ intros _ Hlb. pose proof (live_false_holds _ _ _ _ Hlb Hh). lia.
    + exists None, false, cc.1, cc.2, []. split; [reflexivity|].
      do 2 (split; [assumption|]). split; [|split].
      * intros x e0 Hx0 He0 _. pose proof (live_false_holds _ _ _ _ Hl Hx0). lia.
      * intros _ x e0 Hx0 _ _. repeat split. exact Hx0.
      * intros _ _. repeat split.
Qed.

(** The misses of [Get] on a well-shaped store. *)
Lemma Get_store_miss s key t t' cc :
  store_ok s = true → caches s !! Z.to_nat (shard s key) = Some cc →
  ∃ val ok s' a' b',
    Get s key t t' = Ret (val, ok, s') ∧ store_ok s' = true ∧
    admission s' key = Some a' ∧ main s' key = Some b' ∧
    (∀ x e, holds cc.1 key = Some (x, e) → 0 < e → e ≤ t →
            val = None ∧ ok = false ∧ live a' key = false ∧ live b' key = false) ∧
    (live cc.1 key = false →
     ∀ x e, holds cc.2 key = Some (x, e) → 0 < e → e ≤ t' →
            val = None ∧ ok = false ∧ a' = cc.1 ∧ holds b' key = Some (x, e) ∧
            evicted s' = evicted s) ∧
    (live cc.1 key = false → live cc.2 key = false →
            val = None ∧ ok = false ∧ a' = cc.1 ∧
            (∀ key', holds b' key' = holds cc.2 key') ∧ evicted s' = evicted s).
Proof.
  intros Hs Hcc. destruct (shard_in_range s key Hs) as [H0 Hlt].
  pose proof Hs as (_ & _ & Hall)%store_ok_spec. destruct (Hall _ _ Hcc) as [Ha Hb].
  destruct (Get_ws_miss s _ cc key t t' H0 eq_refl Hlt Ha Hb)
    as (val & ok & a' & b' & ev' & HG & Hsa & Hsb & Hexp & Hmain & Hnone).
  rewrite (with_shard_id s _ cc Hcc) in HG.
  exists val, ok, (lru2_with_shard s (Z.to_nat (shard s key)) (a', b') ev'), a', b'.
  split; [exact HG|]. split; [apply with_shard_ok; assumption|].
  destruct (with_shard_levels s key (a', b') ev' Hs) as [-> ->].
  do 2 (split; [reflexivity|]). split; [assumption|]. split.
  - intros Hl x e Hx He Ht. destruct (Hmain Hl x e Hx He Ht) as (-> & -> & -> & Hh & ->).
    cbn [evicted lru2_with_shard]. rewrite app_nil_r. done.
  - intros Hl Hl'. destruct (Hnone Hl Hl') as (-> & -> & -> & Hh & ->).
    cbn [evicted lru2_with_shard]. rewrite app_nil_r. done.
Qed.

(** [Delete] on a well-shaped store. *)
Lemma Delete_store s key cc :
  store_ok s = true → caches s !! Z.to_nat (shard s key) = Some cc →
  ∃ s' a' b',
    Delete s key = Ret (live cc.1 key || live cc.2 key, s') ∧ store_ok s' = true ∧
    caches s' !! Z.to_nat (shard s' key) = Some (a', b') ∧
    live a' key = false ∧ live b' key = false.
Proof.
  intros Hs Hcc. destruct (shard_in_range s key Hs) as [H0 Hlt].
  pose proof Hs as (_ & _ & Hall)%store_ok_spec. destruct (Hall _ _ Hcc) as [Ha Hb].
  destruct (delete_ws_result s _ cc [] key (shard s key) H0 eq_refl Hlt Ha Hb)
    as (a' & b' & ev' & HD & Hsa & Hsb & Hla & Hlb).
  rewrite (with_shard_id s _ cc Hcc) in HD.
  exists (lru2_with_shard s (Z.to_nat (shard s key)) (a', b') ev'), a', b'.
  split; [exact HD|]. split; [apply with_shard_ok; assumption|].
  split; [|split; assumption].
  change (shard (lru2_with_shard s (Z.to_nat (shard s key)) (a', b') ev') key) with (shard s key).
  apply with_shard_lookup. exact Hlt.
Qed.

(** The store after [SetWithExpiration], with the shard of the key. *)
Lemma Set_store_next s key val d now cc :
  store_ok s = true → caches s !! Z.to_nat (shard s key) = Some cc →
  ∃ s1 a',
    SetWithExpiration s key val d now = Ret s1 ∧ store_ok s1 = true ∧
    caches s1 !! Z.to_nat (shard s1 key) = Some (a', cc.2) ∧
    holds a' key = Some (val, if 0 <? d then wrap_int64 (now + d) else 0).
Proof.
  intros Hs Hcc. destruct (shard_in_range s key Hs) as [H0 Hlt].
  pose proof Hs as (_ & _ & Hall)%store_ok_spec. destruct (Hall _ _ Hcc) as [Ha Hb].
  destruct (Set_store s key val d now cc Hs Hcc) as (a' & ev' & HS & Hsa & Hh & _).
  exists (lru2_with_shard s (Z.to_nat (shard s key)) (a', cc.2) ev'), a'.
  split; [exact HS|]. split; [apply with_shard_ok; assumption|]. split; [|exact Hh].
  change (shard (lru2_with_shard s (Z.to_nat (shard s key)) (a', cc.2) ev') key) with (shard s key).
  apply with_shard_lookup. exact Hlt.
Qed.

Lemma levels_of_shard s key cc :
  caches s !! Z.to_nat (shard s key) = Some cc →
  admission s key = Some cc.1 ∧ main s key = Some cc.2.
Proof. intros H. unfold admission, main. rewrite H. done. Qed.

(** Each call returns on a well-shaped store and leaves it well-shaped. *)
Lemma lru2_do_ok s c :
  store_ok s = true → ∃ s', lru2_do s c = Ret s' ∧ store_ok s' = true ∧ mask s' = mask s.
Proof.
  intros Hs. destruct c as [key val now|key val d now|key t t'|key];
    destruct (shard_pair s key Hs) as (cc & Hcc & Ha & Hb & _); cbn [lru2_do].
  - destruct (Set_store s key val 9999999999999999 now cc Hs Hcc) as (a' & ev' & HS & Hsa & _).
    unfold Set_. rewrite HS. eexists. split; [reflexivity|].
    split; [apply with_shard_ok; assumption|reflexivity].
  - destruct (Set_store s key val d now cc Hs Hcc) as (a' & ev' & HS & Hsa & _).
    rewrite HS. eexists. split; [reflexivity|].
    split; [apply with_shard_ok; assumption|reflexivity].
  - destruct (shard_in_range s key Hs) as [H0 Hlt].
    destruct (Get_ws s _ cc key t t' H0 eq_refl Hlt Ha Hb)
      as (val & ok & a' & b' & ev' & HG & Hsa & Hsb & _).
    rewrite (with_shard_id s _ cc Hcc) in HG. rewrite HG. cbn [obind snd].
    eexists. split; [reflexivity|]. split; [apply with_shard_ok; assumption|reflexivity].
  - destruct (shard_in_range s key Hs) as [H0 Hlt].
    destruct (delete_ws_result s _ cc [] key (shard s key) H0 eq_refl Hlt Ha Hb)
      as (a' & b' & ev' & HD & Hsa & Hsb & _).
    rewrite (with_shard_id s _ cc Hcc) in HD. unfold Delete. rewrite HD. cbn [obind snd].
    eexists. split; [reflexivity|]. split; [apply with_shard_ok; assumption|reflexivity].
Qed.

(** X17.  A store built with a bucket count above 32768 has no shard
    at all, since the shard count [mask + 1] wraps to 0 in uint16:
    every [SetWithExpiration], [Get] and [Delete] on it panics with
    an index out of range.  With a valid bucket count and a first
    level capacity of 65535 the link table of the level is empty
    for the same reason, and every [SetWithExpiration] panics. *)
Theorem lru2_uint16_overflow_panics (buckets buckets' cap1 cap2 : Z) (oe : bool)
    (key : string) (val : Value) (d now t t' : Z) :
  32768 < buckets ≤ 65535 → 0 ≤ buckets' ≤ 32768 →
  caches (newLRU2Cache buckets cap1 cap2 oe) = [] ∧
  SetWithExpiration (newLRU2Cache buckets cap1 cap2 oe) key val d now = Panic ∧
  Get (newLRU2Cache buckets cap1 cap2 oe) key t t' = Panic ∧
  Delete (newLRU2Cache buckets cap1 cap2 oe) key = Panic ∧
  SetWithExpiration (newLRU2Cache buckets' 65535 cap2 oe) key val d now = Panic.
Proof.
  intros Hb Hb'.
  assert (Hc : caches (newLRU2Cache buckets cap1 cap2 oe) = []).
  { unfold newLRU2Cache. cbn [caches].
    rewrite (proj2 (Z.eqb_neq buckets 0)) by lia.
    destruct (maskOfNextPowOf2_pow2 buckets ltac:(lia)) as (_ & _ & Hm). rewrite Hm by lia.
    reflexivity. }
  split; [exact Hc|].
  split; [unfold SetWithExpiration, level_of; rewrite Hc, at_nil; reflexivity|].
  split; [unfold Get, level_of; rewrite Hc, at_nil; reflexivity|].
  split; [unfold Delete, delete_, level_of; rewrite Hc, at_nil; reflexivity|].
  set (bb := if buckets' =? 0 then 16 else buckets').
  assert (Hbb : 1 ≤ bb ≤ 32768) by (unfold bb; destruct (buckets' =? 0) eqn:E; lia).
  pose proof (maskOfNextPowOf2_range bb Hbb) as Hm.
  unfold SetWithExpiration, level_of, shard, newLRU2Cache.
  fold bb. cbn [caches mask onEvicted].
  pose proof (land_upper (hashBKRD key) (maskOfNextPowOf2 bb) ltac:(lia)) as Hidx.
  unfold at_. rewrite (proj2 (Z.ltb_ge _ 0)) by lia.
  rewrite lookup_replicate_2.
  - cbn [Z.eqb obind fst]. change (if 65535 =? 0 then 1024 else 65535) with 65535.
    rewrite put_Create_65535. reflexivity.
  - unfold wrap_uint16. rewrite Z.mod_small by lia. lia.
Qed.

Lemma lru2_uint16_overflow_panics_witness :
  caches (newLRU2Cache 40000 512 256 false) = [] ∧
  SetWithExpiration (newLRU2Cache 40000 512 256 false) "a" (Some (bytes_n 1)) 10 5 = Panic ∧
  Get (newLRU2Cache 40000 512 256 false) "a" 6 6 = Panic ∧
  Delete (newLRU2Cache 40000 512 256 false) "a" = Panic ∧
  SetWithExpiration (newLRU2Cache 16 65535 256 false) "a" (Some (bytes_n 1)) 10 5 = Panic.
Proof.
  apply (lru2_uint16_overflow_panics 40000 16 512 256 false "a" (Some (bytes_n 1)) 10 5 6 6); lia.
Defined.

(** X18.  On a store built with at most 32768 buckets and level
    capacities of at most 65534, every finite run of [Set],
    [SetWithExpiration], [Get] and [Delete] calls returns: no call
    panics, and the store stays well-shaped with the same mask. *)
Theorem lru2_calls_never_panic (buckets cap1 cap2 : Z) (oe : bool) (cs : list lru2_call) :
  0 ≤ buckets ≤ 32768 → 0 ≤ cap1 ≤ 65534 → 0 ≤ cap2 ≤ 65534 →
  ∃ s', lru2_run (newLRU2Cache buckets cap1 cap2 oe) cs = Ret s' ∧
        store_ok s' = true ∧
        mask s' = mask (newLRU2Cache buckets cap1 cap2 oe) ∧
        length (caches s') = length (caches (newLRU2Cache buckets cap1 cap2 oe)).
Proof.
  intros Hb H1 H2. pose proof (newLRU2Cache_ok buckets cap1 cap2 oe Hb H1 H2) as Hs.
  revert Hs. generalize (newLRU2Cache buckets cap1 cap2 oe). intros s Hs.
  revert s Hs. induction cs as [|c cs IH]; intros s Hs.
  - exists s. done.
  - destruct (lru2_do_ok s c Hs) as (s1 & Hdo & Hs1 & Hm1).
    destruct (IH s1 Hs1) as (s' & Hrun & Hs' & Hm' & Hlen).
    exists s'. cbn [lru2_run]. rewrite Hdo. cbn [obind]. split; [exact Hrun|].
    split; [exact Hs'|]. split; [congruence|].
    rewrite Hlen. apply store_ok_spec in Hs as (_ & -> & _).
    apply store_ok_spec in Hs1 as (_ & -> & _). rewrite Hm1. reflexivity.
Qed.

Lemma lru2_calls_never_panic_witness :
  ∃ s', lru2_run (newLRU2Cache 1 2 2 true)
          [CallSet "a" (Some (bytes_n 1)) 5; CallGet "a" 6 6; CallSet "b" None 7;
           CallSetWithExpiration "c" (Some (bytes_n 2)) (-1) 8; CallDelete "a";
           CallGet "zz" 9 9] = Ret s' ∧
        store_ok s' = true ∧
        mask s' = mask (newLRU2Cache 1 2 2 true) ∧
        length (caches s') = length (caches (newLRU2Cache 1 2 2 true)).
Proof. apply (lru2_calls_never_panic 1 2 2 true); lia. Defined.

(** X19.  Round trip: after [SetWithExpiration(key, val, d)] with a
    positive duration on a well-shaped store, a [Get(key)] whose
    clock reading is before the expiry [now + d] (in int64) returns
    [val] with [true]; afterwards the key sits in the main level
    with that value and expiry and is live nowhere in the admission
    level. *)
Theorem lru2_Set_then_Get_hits (s : lru2Store) (key : string) (val : Value)
    (d now t t' : Z) :
  store_ok s = true → 0 < d →
  0 < wrap_int64 (now + d) → t < wrap_int64 (now + d) →
  ∃ s1 s2 mn,
    SetWithExpiration s key val d now = Ret s1 ∧
    Get s1 key t t' = Ret (val, true, s2) ∧ store_ok s2 = true ∧
    main s2 key = Some mn ∧ holds mn key = Some (val, wrap_int64 (now + d)) ∧
    live_in admission s2 key = false.
Proof.
  intros Hs Hd He Ht.
  destruct (shard_pair s key Hs) as (cc & Hcc & _).
  destruct (Set_store_next s key val d now cc Hs Hcc) as (s1 & a' & HS & Hs1 & Hcc1 & Hh).
  rewrite (proj2 (Z.ltb_lt 0 d) Hd) in Hh.
  destruct (Get_store s1 key t t' (a', cc.2) Hs1 Hcc1)
    as (v1 & ok1 & s2 & a2 & b2 & HG & Hs2 & Ha2 & Hb2 & Hl2 & _ & Hhit & _).
  destruct (Hhit val _ Hh He Ht) as (-> & -> & _ & Hhb).
  exists s1, s2, b2. split; [exact HS|]. split; [exact HG|]. split; [exact Hs2|].
  split; [exact Hb2|]. split; [exact Hhb|]. unfold live_in. rewrite Ha2. exact Hl2.
Qed.

Lemma lru2_Set_then_Get_hits_witness :
  ∃ s1 s2 mn,
    SetWithExpiration lru2_one_key "b" (Some (bytes_n 3)) 100 7 = Ret s1 ∧
    Get s1 "b" 50 50 = Ret (Some (bytes_n 3), true, s2) ∧ store_ok s2 = true ∧
    main s2 "b" = Some mn ∧ holds mn "b" = Some (Some (bytes_n 3), wrap_int64 (7 + 100)) ∧
    live_in admission s2 "b" = false.
Proof.
  apply (lru2_Set_then_Get_hits lru2_one_key "b" (Some (bytes_n 3)) 100 7 50 50).
  - vm_compute. reflexivity.
  - lia.
  - vm_compute. reflexivity.
  - vm_compute. reflexivity.
Defined.

(** X20.  Expiry: after [SetWithExpiration(key, val, d)] with a
    positive duration, a [Get(key)] whose clock reading has reached
    the expiry returns nil with [false], and afterwards the key is
    live in neither level of its shard, also when the main level
    held an older entry of the key. *)
Theorem lru2_Set_then_Get_after_expiry (s : lru2Store) (key : string) (val : Value)
    (d now t t' : Z) :
  store_ok s = true → 0 < d →
  0 < wrap_int64 (now + d) → wrap_int64 (now + d) ≤ t →
  ∃ s1 s2,
    SetWithExpiration s key val d now = Ret s1 ∧
    Get s1 key t t' = Ret (None, false, s2) ∧ store_ok s2 = true ∧
    live_in admission s2 key = false ∧ live_in main s2 key = false.
Proof.
  intros Hs Hd He Ht.
  destruct (shard_pair s key Hs) as (cc & Hcc & _).
  destruct (Set_store_next s key val d now cc Hs Hcc) as (s1 & a' & HS & Hs1 & Hcc1 & Hh).
  rewrite (proj2 (Z.ltb_lt 0 d) Hd) in Hh.
  destruct (Get_store_miss s1 key t t' (a', cc.2) Hs1 Hcc1)
    as (v1 & ok1 & s2 & a2 & b2 & HG & Hs2 & Ha2 & Hb2 & Hexp & _).
  destruct (Hexp val _ Hh He Ht) as (-> & -> & Hla & Hlb).
  exists s1, s2. split; [exact HS|]. split; [exact HG|]. split; [exact Hs2|].
  unfold live_in. rewrite Ha2, Hb2. done.
Qed.

Lemma lru2_Set_then_Get_after_expiry_witness :
  ∃ s1 s2,
    SetWithExpiration lru2_promoted "a" (Some (bytes_n 3)) 100 7 = Ret s1 ∧
    Get s1 "a" 107 107 = Ret (None, false, s2) ∧ store_ok s2 = true ∧
    live_in admission s2 "a" = false ∧ live_in main s2 "a" = false.
Proof.
  apply (lru2_Set_then_Get_after_expiry lru2_promoted "a" (Some (bytes_n 3)) 100 7 107 107).
  - vm_compute. reflexivity.
  - lia.
  - vm_compute. reflexivity.
  - vm_compute. discriminate.
Defined.

(** X21.  A key that is live only in the main level and whose expiry
    the clock has reached when [_get] reads it: [Get] returns nil
    with [false], but it does not remove the entry; the key stays in
    the main level with its value and positive expiry, and no
    callback runs. *)
Theorem lru2_Get_leaves_expired_main_entry (s : lru2Store) (key : string) (mn : cache)
    (x : Value) (e t t' : Z) :
  store_ok s = true → live_in admission s key = false →
  main s key = Some mn → holds mn key = Some (x, e) → 0 < e → e ≤ t' →
  ∃ s' mn',
    Get s key t t' = Ret (None, false, s') ∧ store_ok s' = true ∧
    main s' key = Some mn' ∧ holds mn' key = Some (x, e) ∧
    live_in main s' key = true ∧ live_in admission s' key = false ∧
    evicted s' = evicted s.
Proof.
  intros Hs Hla Hmn Hh He Ht.
  destruct (shard_pair s key Hs) as (cc & Hcc & _ & _ & Ha & Hb).
  rewrite Hb in Hmn. injection Hmn as <-.
  unfold live_in in Hla. rewrite Ha in Hla.
  destruct (Get_store_miss s key t t' cc Hs Hcc)
    as (v1 & ok1 & s' & a' & b' & HG & Hs' & Ha' & Hb' & _ & Hmain & _).
  destruct (Hmain Hla x e Hh He Ht) as (-> & -> & -> & Hh' & Hev).
  exists s', b'. split; [exact HG|]. split; [exact Hs'|]. split; [exact Hb'|].
  split; [exact Hh'|]. unfold live_in. rewrite Ha', Hb'. unfold live at 1. rewrite Hh'.
  split; [apply Z.ltb_lt; exact He|]. split; [exact Hla|exact Hev].
Qed.

Lemma lru2_Get_leaves_expired_main_entry_witness :
  ∃ s' mn',
    Get lru2_promoted "a" 10000000000000004 10000000000000004 = Ret (None, false, s') ∧
    store_ok s' = true ∧
    main s' "a" = Some mn' ∧ holds mn' "a" = Some (Some (bytes_n 1), 10000000000000004) ∧
    live_in main s' "a" = true ∧ live_in admission s' "a" = false ∧
    evicted s' = evicted lru2_promoted.
Proof.
  apply (lru2_Get_leaves_expired_main_entry lru2_promoted "a"
           (default (Create 2) (main lru2_promoted "a"))
           (Some (bytes_n 1)) 10000000000000004 10000000000000004 10000000000000004).
  - vm_compute. reflexivity.
  - vm_compute. reflexivity.
  - vm_compute. reflexivity.
  - vm_compute. reflexivity.
  - lia.
  - lia.
Defined.

(** X22.  [SetWithExpiration] with a duration that is not positive
    writes the value with expiry 0, the mark of a deleted slot: the
    key is not live in the admission level afterwards, and a [Get]
    answers from the main level alone; it misses when the key is not
    live there, and returns the older value of the main level when
    that one is live and not expired. *)
Theorem lru2_Set_nonpositive_expiration (s : lru2Store) (key : string) (val : Value)
    (d now t t' : Z) :
  store_ok s = true → d ≤ 0 →
  ∃ s1,
    SetWithExpiration s key val d now = Ret s1 ∧ store_ok s1 = true ∧
    live_in admission s1 key = false ∧
    (live_in main s key = false → ∃ s2, Get s1 key t t' = Ret (None, false, s2)) ∧
    (∀ mn x e, main s key = Some mn → holds mn key = Some (x, e) →
               0 < e → t < e → t' < e →
               ∃ s2, Get s1 key t t' = Ret (x, true, s2)).
Proof.
  intros Hs Hd.
  destruct (shard_pair s key Hs) as (cc & Hcc & _ & _ & Ha & Hb).
  destruct (Set_store_next s key val d now cc Hs Hcc) as (s1 & a' & HS & Hs1 & Hcc1 & Hh).
  rewrite (proj2 (Z.ltb_ge 0 d) Hd) in Hh.
  assert (Hla : live a' key = false) by (unfold live; rewrite Hh; reflexivity).
  destruct (levels_of_shard s1 key _ Hcc1) as [Ha1 Hb1].
  exists s1. split; [exact HS|]. split; [exact Hs1|].
  split; [unfold live_in; rewrite Ha1; exact Hla|]. split.
  - intros Hlm. unfold live_in in Hlm. rewrite Hb in Hlm.
    destruct (Get_store_miss s1 key t t' (a', cc.2) Hs1 Hcc1)
      as (v1 & ok1 & s2 & a2 & b2 & HG & _ & _ & _ & _ & _ & Hnone).
    destruct (Hnone Hla Hlm) as (-> & -> & _). exists s2. exact HG.
  - intros mn x e Hmn Hx He Ht Ht'. rewrite Hb in Hmn. injection Hmn as <-.
    destruct (Get_store s1 key t t' (a', cc.2) Hs1 Hcc1)
      as (v1 & ok1 & s2 & a2 & b2 & HG & _ & _ & _ & _ & _ & _ & Hmain).
    destruct (Hmain Hla x e Hx He Ht Ht') as (-> & -> & _). exists s2. exact HG.
Qed.

Lemma lru2_Set_nonpositive_expiration_witness :
  ∃ s1,
    SetWithExpiration lru2_promoted "a" (Some (bytes_n 3)) 0 7 = Ret s1 ∧ store_ok s1 = true ∧
    live_in admission s1 "a" = false ∧
    (live_in main lru2_promoted "a" = false → ∃ s2, Get s1 "a" 8 8 = Ret (None, false, s2)) ∧
    (∀ mn x e, main lru2_promoted "a" = Some mn → holds mn "a" = Some (x, e) →
               0 < e → 8 < e → 8 < e →
               ∃ s2, Get s1 "a" 8 8 = Ret (x, true, s2)).
Proof.
  apply (lru2_Set_nonpositive_expiration lru2_promoted "a" (Some (bytes_n 3)) 0 7 8 8).
  - vm_compute. reflexivity.
  - lia.
Defined.

(** X23.  [Delete(key)] on a well-shaped store returns [true] exactly
    when the key was live in the admission or the main level of its
    shard; afterwards the key is live in neither level, and a
    [Get(key)] returns nil with [false]. *)
Theorem lru2_Delete_then_Get_misses (s : lru2Store) (key : string) (t t' : Z) :
  store_ok s = true →
  ∃ s1 s2,
    Delete s key = Ret (live_in admission s key || live_in main s key, s1) ∧
    store_ok s1 = true ∧
    live_in admission s1 key = false ∧ live_in main s1 key = false ∧
    Get s1 key t t' = Ret (None, false, s2) ∧ store_ok s2 = true.
Proof.
  intros Hs.
  destruct (shard_pair s key Hs) as (cc & Hcc & _ & _ & Ha & Hb).
  destruct (Delete_store s key cc Hs Hcc) as (s1 & a' & b' & HD & Hs1 & Hcc1 & Hla & Hlb).
  destruct (levels_of_shard s1 key _ Hcc1) as [Ha1 Hb1].
  destruct (Get_store_miss s1 key t t' (a', b') Hs1 Hcc1)
    as (v1 & ok1 & s2 & a2 & b2 & HG & Hs2 & _ & _ & _ & _ & Hnone).
  destruct (Hnone Hla Hlb) as (-> & -> & _).
  exists s1, s2. unfold live_in. rewrite Ha, Hb, Ha1, Hb1.
  split; [exact HD|]. split; [exact Hs1|]. split; [exact Hla|]. split; [exact Hlb|].
  split; [exact HG|exact Hs2].
Qed.

Lemma lru2_Delete_then_Get_misses_witness :
  ∃ s1 s2,
    Delete lru2_promoted "a"
      = Ret (live_in admission lru2_promoted "a" || live_in main lru2_promoted "a", s1) ∧
    store_ok s1 = true ∧
    live_in admission s1 "a" = false ∧ live_in main s1 "a" = false ∧
    Get s1 "a" 8 8 = Ret (None, false, s2) ∧ store_ok s2 = true.
Proof. apply (lru2_Delete_then_Get_misses lru2_promoted "a" 8 8). vm_compute. reflexivity. Defined.

End lru2_calls.

(** ** Cache wrapper: Get, Delete and Close *)

Section cache_calls.
Import mycache.

Lemma ensureInitialized_fields c :
  initialized c = 0 ∨ initialized c = 1 →
  initialized (ensureInitialized c) = 1 ∧ closed (ensureInitialized c) = closed c ∧
  hits (ensureInitialized c) = hits c ∧ misses (ensureInitialized c) = misses c ∧
  opts (ensureInitialized c) = opts c.
Proof. intros [H|H]; unfold ensureInitialized; rewrite H; cbn; done. Qed.

Lemma ensureInitialized_done c : initialized c = 1 → ensureInitialized c = c.
Proof. intros H. unfold ensureInitialized. rewrite H. reflexivity. Qed.

(** [Cache.Add] on an open cache whose store is an LRU-2 store. *)
Lemma Cache_Add_lru2 c s key v clk s1 :
  closed c = 0 → store (ensureInitialized c) = Some (StoreLRU2 s) →
  lru2.SetWithExpiration s key (Some v) 9999999999999999 (t_store clk) = Ret s1 →
  Cache_Add c key v clk = Ret (set_store (ensureInitialized c) (Some (StoreLRU2 s1))).
Proof.
  intros Hc Hst HS. unfold Cache_Add. rewrite Hc. cbn [Z.eqb].
  unfold the_store. rewrite Hst. cbn [obind Store_Set]. unfold lru2.Set_. rewrite HS.
  reflexivity.
Qed.

(** [Cache.Get] on an open, initialised cache whose store is an LRU-2
    store. *)
Lemma Cache_Get_lru2 c s key clk val ok s1 :
  closed c = 0 → initialized c = 1 → store c = Some (StoreLRU2 s) →
  lru2.Get s key (t_store clk) (t_evict clk) = Ret (val, ok, s1) →
  Cache_Get c key clk =
    let c1 := set_store c (Some (StoreLRU2 s1)) in
    if negb ok then Ret ([], false, set_misses c1 (wrap_int64 (misses c + 1)), [])
    else match val with
         | Some bv => Ret (bv, true, set_hits c1 (wrap_int64 (hits c + 1)), [])
         | None =>
             Ret ([], false,
                  set_misses (set_hits c1 (wrap_int64 (hits c + 1)))
                             (wrap_int64 (misses c + 1)), [])
         end.
Proof.
  intros Hc Hi Hst HG. unfold Cache_Get. rewrite Hc, Hi. cbn [Z.eqb Pos.eqb].
  unfold the_store. rewrite Hst. cbn [obind Store_Get]. rewrite HG. cbn [obind].
  destruct ok; [destruct val|]; reflexivity.
Qed.

Lemma Cache_Delete_lru2 c s key b s1 :
  closed c = 0 → initialized c = 1 → store c = Some (StoreLRU2 s) →
  lru2.Delete s key = Ret (b, s1) →
  Cache_Delete c key = Ret (b, set_store c (Some (StoreLRU2 s1))).
Proof.
  intros Hc Hi Hst HD. unfold Cache_Delete. rewrite Hc, Hi. cbn [Z.eqb Pos.eqb orb].
  unfold the_store. rewrite Hst. cbn [obind Store_Delete]. rewrite HD. reflexivity.
Qed.

(** X24.  An open cache on a well-shaped LRU-2 store: [Add(key, v)]
    followed by a [Get(key)] before the default expiry of the store
    returns [v] with [true] and counts one hit; a [Delete(key)] then
    returns [true], and the next [Get(key)] returns the empty view
    with [false] and counts one miss. *)
Theorem Cache_Add_Get_Delete_on_lru2 (c : Cache) (s : lru2.lru2Store) (key : string)
    (v : ByteView) (clk clk1 clk2 : clock) :
  closed c = 0 → initialized c = 0 ∨ initialized c = 1 →
  store (ensureInitialized c) = Some (StoreLRU2 s) → lru2.store_ok s = true →
  0 < wrap_int64 (t_store clk + 9999999999999999) →
  t_store clk1 < wrap_int64 (t_store clk + 9999999999999999) →
  ∃ c1 c2 c3 c4,
    Cache_Add c key v clk = Ret c1 ∧
    Cache_Get c1 key clk1 = Ret (v, true, c2, []) ∧
    hits c2 = wrap_int64 (hits c + 1) ∧ misses c2 = misses c ∧
    Cache_Delete c2 key = Ret (true, c3) ∧
    Cache_Get c3 key clk2 = Ret ([], false, c4, []) ∧
    hits c4 = hits c2 ∧ misses c4 = wrap_int64 (misses c + 1).
Proof.
  intros Hc Hi Hst Hs He Ht.
  destruct (ensureInitialized_fields c Hi) as (Hi0 & Hc0 & Hh0 & Hm0 & _).
  rewrite Hc in Hc0.
  destruct (shard_pair s key Hs) as (cc & Hcc & _).
  destruct (Set_store_next s key (Some v) 9999999999999999 (t_store clk) cc Hs Hcc)
    as (s1 & a1 & HS & Hs1 & Hcc1 & Hh1).
  change (0 <? 9999999999999999) with true in Hh1. cbv iota in Hh1.
  destruct (Get_store s1 key (t_store clk1) (t_evict clk1) (a1, cc.2) Hs1 Hcc1)
    as (v1 & ok1 & s2 & a2 & b2 & HG & Hs2 & Ha2 & Hb2 & Hl2 & _ & Hhit & _).
  destruct (Hhit (Some v) _ Hh1 He Ht) as (-> & -> & _ & Hhb).
  destruct (shard_pair s2 key Hs2) as (cc2 & Hcc2 & _ & _ & Ha2' & Hb2').
  rewrite Ha2' in Ha2. injection Ha2 as Ea. rewrite Hb2' in Hb2. injection Hb2 as Eb.
  destruct (Delete_store s2 key cc2 Hs2 Hcc2) as (s3 & a3 & b3 & HD & Hs3 & Hcc3 & Hla3 & Hlb3).
  assert (Hlive : lru2.live cc2.1 key || lru2.live cc2.2 key = true).
  { rewrite Eb. unfold lru2.live at 2. rewrite Hhb.
    rewrite (proj2 (Z.ltb_lt _ _) He). apply orb_true_r. }
  rewrite Hlive in HD.
  destruct (Get_store_miss s3 key (t_store clk2) (t_evict clk2) (a3, b3) Hs3 Hcc3)
    as (v4 & ok4 & s4 & a4 & b4 & HG4 & _ & _ & _ & _ & _ & Hnone).
  destruct (Hnone Hla3 Hlb3) as (-> & -> & _).
  set (c1 := set_store (ensureInitialized c) (Some (StoreLRU2 s1))).
  set (c2 := set_hits (set_store c1 (Some (StoreLRU2 s2))) (wrap_int64 (hits c1 + 1))).
  set (c3 := set_store c2 (Some (StoreLRU2 s3))).
  set (c4 := set_misses (set_store c3 (Some (StoreLRU2 s4))) (wrap_int64 (misses c3 + 1))).
  exists c1, c2, c3, c4.
  split; [exact (Cache_Add_lru2 c s key v clk s1 Hc Hst HS)|].
  split; [exact (Cache_Get_lru2 c1 s1 key clk1 (Some v) true s2 Hc0 Hi0 eq_refl HG)|].
  split; [cbn; rewrite Hh0; reflexivity|]. split; [cbn; exact Hm0|].
  split; [exact (Cache_Delete_lru2 c2 s2 key true s3 Hc0 Hi0 eq_refl HD)|].
  split; [exact (Cache_Get_lru2 c3 s3 key clk2 None false s4 Hc0 Hi0 eq_refl HG4)|].
  split; [reflexivity|]. cbn. rewrite Hm0. reflexivity.
Qed.

Lemma Cache_Add_Get_Delete_on_lru2_witness :
  ∃ c1 c2 c3 c4,
    Cache_Add (NewCache DefaultCacheOptions) "a" (bytes_n 3) clk0 = Ret c1 ∧
    Cache_Get c1 "a" clk0 = Ret (bytes_n 3, true, c2, []) ∧
    hits c2 = wrap_int64 (hits (NewCache DefaultCacheOptions) + 1) ∧
    misses c2 = misses (NewCache DefaultCacheOptions) ∧
    Cache_Delete c2 "a" = Ret (true, c3) ∧
    Cache_Get c3 "a" clk0 = Ret ([], false, c4, []) ∧
    hits c4 = hits c2 ∧
    misses c4 = wrap_int64 (misses (NewCache DefaultCacheOptions) + 1).
Proof.
  apply (Cache_Add_Get_Delete_on_lru2 (NewCache DefaultCacheOptions)
           (lru2.newLRU2Cache 16 512 256 false) "a" (bytes_n 3) clk0 clk0 clk0).
  - reflexivity.
  - left. reflexivity.
  - reflexivity.
  - apply newLRU2Cache_ok; lia.
  - reflexivity.
  - reflexivity.
Defined.

(** What every call on a cache does once its LRU store is left
    write-locked. *)
Lemma Cache_lru_locked c lc :
  closed c = 0 → initialized c = 1 → store c = Some (StoreLRU lc) →
  writer (lru.mu lc) = true →
  (∀ key v clk, Cache_Add c key v clk = Blocked) ∧
  (∀ key clk, Cache_Get c key clk = Blocked) ∧
  (∀ key, Cache_Delete c key = Blocked).
Proof.
  intros Hc Hi Hst Hw. split; [|split].
  - intros key v clk. unfold Cache_Add. rewrite Hc. cbn [Z.eqb].
    rewrite (ensureInitialized_done c Hi). unfold the_store. rewrite Hst.
    cbn [obind Store_Set]. unfold lru.Set_, lru.SetWithExpiration, lru.with_mu, Lock.
    rewrite Hw. reflexivity.
  - intros key clk. unfold Cache_Get. rewrite Hc, Hi. cbn [Z.eqb Pos.eqb].
    unfold the_store. rewrite Hst. cbn [obind Store_Get].
    unfold lru.Get, lru.with_mu, RLock. rewrite Hw. reflexivity.
  - intros key. unfold Cache_Delete. rewrite Hc, Hi. cbn [Z.eqb Pos.eqb orb].
    unfold the_store. rewrite Hst. cbn [obind Store_Delete].
    unfold lru.Delete, lru.with_mu, Lock. rewrite Hw. reflexivity.
Qed.

(** X25.  An open cache on an LRU store: after [Add(key, v)] of a new
    key that fits the byte limit, [Get(key)] returns the empty view
    with [false] and counts a miss, although the store holds the
    key; and since the store's [Get] returns with its write lock
    held, every later [Add], [Get] and [Delete] on the cache blocks. *)
Theorem Cache_on_lru_store_misses_then_blocks (c : Cache) (lc : lru.lruCache)
    (key : string) (v : ByteView) (clk clk1 : clock) :
  closed c = 0 → initialized c = 0 ∨ initialized c = 1 →
  store (ensureInitialized c) = Some (StoreLRU lc) →
  lru_inv lc → lru.mu lc = mutex_free → lru.items lc !! key = None →
  lru.sum_sizes lc + len key + Len v < 2 ^ 62 →
  lru.maxBytes lc ≤ 0 ∨ len key + Len v ≤ lru.maxBytes lc →
  ∃ c1 c2 lc1,
    Cache_Add c key v clk = Ret c1 ∧
    store c1 = Some (StoreLRU lc1) ∧ is_Some (lru.items lc1 !! key) ∧
    Cache_Get c1 key clk1 = Ret ([], false, c2, []) ∧
    hits c2 = hits c ∧ misses c2 = wrap_int64 (misses c + 1) ∧
    (∀ key' v' clk', Cache_Add c2 key' v' clk' = Blocked) ∧
    (∀ key' clk', Cache_Get c2 key' clk' = Blocked) ∧
    (∀ key', Cache_Delete c2 key' = Blocked).
Proof.
  intros Hc Hi Hst Hinv Hmu Hnew Hsz Hfit.
  destruct (ensureInitialized_fields c Hi) as (Hi0 & Hc0 & Hh0 & Hm0 & _).
  rewrite Hc in Hc0.
  destruct (SetWithExpiration_insert_fits lc key v 0 (t_store clk) (t_evict clk)
              Hinv Hmu Hnew Hsz ltac:(lia) Hfit)
    as (lc1 & e & HS & Hinv1 & Hmu1 & Hit1 & Hel1 & _ & Hex1 & _).
  change (0 <? 0) with false in Hex1. cbv iota in Hex1.
  destruct (Get_hit lc1 key (t_store clk1) e _
              ltac:(rewrite Hmu1; reflexivity) ltac:(rewrite Hmu1; reflexivity) Hit1 Hel1)
    as (lc2 & HG & _ & Hmu2 & _).
  { intros t Ht. rewrite Hex1 in Ht. discriminate Ht. }
  set (c1 := set_store (ensureInitialized c) (Some (StoreLRU lc1))).
  set (c2 := set_misses (set_store c1 (Some (StoreLRU lc2))) (wrap_int64 (misses c1 + 1))).
  exists c1, c2, lc1.
  assert (HA : Cache_Add c key v clk = Ret c1).
  { unfold Cache_Add. rewrite Hc. cbn [Z.eqb]. unfold the_store. rewrite Hst.
    cbn [obind Store_Set]. unfold lru.Set_. rewrite HS. reflexivity. }
  assert (HGc : Cache_Get c1 key clk1 = Ret ([], false, c2, [])).
  { unfold Cache_Get.
    change (closed c1) with (closed (ensureInitialized c)).
    change (initialized c1) with (initialized (ensureInitialized c)).
    rewrite Hc0, Hi0. cbn [Z.eqb Pos.eqb].
    change (the_store c1) with (Ret (A := Store) (StoreLRU lc1)).
    cbn [obind Store_Get]. rewrite HG. reflexivity. }
  split; [exact HA|]. split; [reflexivity|]. split; [rewrite Hit1; eauto|].
  split; [exact HGc|]. split; [exact Hh0|]. split; [cbn; rewrite Hm0; reflexivity|].
  apply (Cache_lru_locked c2 lc2); [exact Hc0|exact Hi0|reflexivity|].
  rewrite Hmu2. reflexivity.
Qed.

Lemma Cache_on_lru_store_misses_then_blocks_witness :
  ∃ c1 c2 lc1,
    Cache_Add (NewCache opts_lru) "a" (bytes_n 3) clk0 = Ret c1 ∧
    store c1 = Some (StoreLRU lc1) ∧ is_Some (lru.items lc1 !! "a") ∧
    Cache_Get c1 "a" clk0 = Ret ([], false, c2, []) ∧
    hits c2 = hits (NewCache opts_lru) ∧
    misses c2 = wrap_int64 (misses (NewCache opts_lru) + 1) ∧
    (∀ key' v' clk', Cache_Add c2 key' v' clk' = Blocked) ∧
    (∀ key' clk', Cache_Get c2 key' clk' = Blocked) ∧
    (∀ key', Cache_Delete c2 key' = Blocked).
Proof.
  apply (Cache_on_lru_store_misses_then_blocks (NewCache opts_lru)
           (lru.newLRUCache 100 false) "a" (bytes_n 3) clk0 clk0).
  - reflexivity.
  - left. reflexivity.
  - reflexivity.
  - apply newLRUCache_inv.
  - reflexivity.
  - reflexivity.
  - vm_compute. reflexivity.
  - right. vm_compute. discriminate.
Defined.

(** X26.  [Close] on an open cache drops the store and marks the
    cache closed and not initialised.  From then on [Add] and
    [AddWithExpiration] change nothing (no store is created again),
    [Get] returns the empty view with [false] without counting a
    miss, [Delete] returns [false], and a second [Close] changes
    nothing. *)
Theorem Cache_closed_is_inert (c : Cache) (key : string) (v : ByteView) (t : Z)
    (clk : clock) :
  closed c = 0 →
  closed (Cache_Close c) = 1 ∧ store (Cache_Close c) = None ∧
  initialized (Cache_Close c) = 0 ∧
  hits (Cache_Close c) = hits c ∧ misses (Cache_Close c) = misses c ∧
  Cache_Add (Cache_Close c) key v clk = Ret (Cache_Close c) ∧
  Cache_AddWithExpiration (Cache_Close c) key v t clk = Ret (Cache_Close c) ∧
  Cache_Get (Cache_Close c) key clk = Ret ([], false, Cache_Close c, []) ∧
  Cache_Delete (Cache_Close c) key = Ret (false, Cache_Close c) ∧
  Cache_Close (Cache_Close c) = Cache_Close c.
Proof.
  intros Hc. unfold Cache_Close at 1 2 3 4 5. rewrite Hc. cbn [Z.eqb negb].
  do 5 (split; [reflexivity|]).
  assert (Hcl : closed (Cache_Close c) = 1) by (unfold Cache_Close; rewrite Hc; reflexivity).
  unfold Cache_Add, Cache_AddWithExpiration, Cache_Get, Cache_Delete.
  rewrite Hcl. cbn [Z.eqb Pos.eqb orb]. do 4 (split; [reflexivity|]).
  unfold Cache_Close at 1. rewrite Hcl. reflexivity.
Qed.

Lemma Cache_closed_is_inert_witness :
  closed (Cache_Close cache_with_a) = 1 ∧ store (Cache_Close cache_with_a) = None ∧
  initialized (Cache_Close cache_with_a) = 0 ∧
  hits (Cache_Close cache_with_a) = hits cache_with_a ∧
  misses (Cache_Close cache_with_a) = misses cache_with_a ∧
  Cache_Add (Cache_Close cache_with_a) "a" (bytes_n 2) clk0 = Ret (Cache_Close cache_with_a) ∧
  Cache_AddWithExpiration (Cache_Close cache_with_a) "a" (bytes_n 2) 20 clk0
    = Ret (Cache_Close cache_with_a) ∧
  Cache_Get (Cache_Close cache_with_a) "a" clk0 = Ret ([], false, Cache_Close cache_with_a, []) ∧
  Cache_Delete (Cache_Close cache_with_a) "a" = Ret (false, Cache_Close cache_with_a) ∧
  Cache_Close (Cache_Close cache_with_a) = Cache_Close cache_with_a.
Proof.
  apply (Cache_closed_is_inert cache_with_a "a" (bytes_n 2) 20 clk0).
  vm_compute. reflexivity.
Defined.

End cache_calls.

(** ** The registry of groups *)

Section registry_calls.
Import mycache.

Lemma apply_options_fields opts_ g :
  name (foldl apply_option g opts_) = name g ∧
  gclosed (foldl apply_option g opts_) = gclosed g.
Proof.
  revert g. induction opts_ as [|o opts_ IH]; intros g; [done|].
  cbn [foldl]. destruct (IH (apply_option g o)) as [-> ->]. destruct o; done.
Qed.

(** [NewGroup] with a Getter, when [groupsMu] is free. *)
Lemma NewGroup_free w name_ cb opts_ :
  groupsMu w = mutex_free →
  ∃ g, name g = name_ ∧ gclosed g = 0 ∧
    NewGroup w name_ cb true opts_ =
      Ret (length (heap w),
           {| heap := heap w ++ [g]; groups := <[name_ := length (heap w)]> (groups w);
              groupsMu := mutex_free |}).
Proof.
  intros Hmu. unfold NewGroup. cbn [negb]. rewrite Hmu.
  cbn [Lock mutex_free writer readers obind set_groupsMu set_groups set_heap heap groups
       groupsMu Unlock].
  eexists. split; [|split; [|reflexivity]].
  - apply apply_options_fields.
  - apply apply_options_fields.
Qed.

Lemma GetGroup_free w name_ :
  groupsMu w = mutex_free → GetGroup w name_ = Ret (groups w !! name_, w).
Proof.
  intros Hmu. unfold GetGroup. rewrite Hmu. destruct w as [h gs mu]. cbn in Hmu. subst mu.
  reflexivity.
Qed.

(** [Close] of an open Group, when [groupsMu] is free. *)
Lemma Group_Close_open w a g :
  groupsMu w = mutex_free → heap w !! a = Some g → gclosed g = 0 →
  Group_Close w a =
    Ret {| heap := <[a := {| name := name g; mainCache := Cache_Close (mainCache g);
                             peers := peers g; expiration := expiration g;
                             gclosed := 1 |}]> (heap w);
           groups := delete (name g) (groups w);
           groupsMu := mutex_free |}.
Proof.
  intros Hmu Hg Hc. unfold Group_Close. rewrite Hg, Hc. cbn [Z.eqb negb].
  cbn [set_heap groupsMu]. rewrite Hmu. reflexivity.
Qed.

(** [Close] of an open Group by a caller that holds [groupsMu]. *)
Lemma Group_Close_held w a g :
  writer (groupsMu w) = true → heap w !! a = Some g → gclosed g = 0 →
  Group_Close w a = Blocked.
Proof.
  intros Hmu Hg Hc. unfold Group_Close. rewrite Hg, Hc. cbn [Z.eqb negb].
  cbn [set_heap groupsMu]. unfold Lock. rewrite Hmu. reflexivity.
Qed.

Lemma NewGroup_inv w name_ cb opts_ :
  registry_inv w →
  ∃ a w', NewGroup w name_ cb true opts_ = Ret (a, w') ∧ registry_inv w' ∧
          groups w' !! name_ = Some a ∧
          (∀ n', n' ≠ name_ → groups w' !! n' = groups w !! n').
Proof.
  intros [Hmu Hreg]. destruct (NewGroup_free w name_ cb opts_ Hmu) as (g & Hn & Hc & ->).
  eexists _, _. split; [reflexivity|]. split; [|split].
  - split; [reflexivity|]. cbn [groups heap]. intros n' a'.
    destruct (decide (n' = name_)) as [->|Hne].
    + rewrite lookup_insert_eq. intros [= <-]. exists g.
      rewrite lookup_app_r, Nat.sub_diag by lia. done.
    + rewrite lookup_insert_ne by done. intros Hl.
      destruct (Hreg n' a' Hl) as (g' & Hg' & Hc' & Hn'). exists g'.
      rewrite lookup_app_l by (eapply lookup_lt_Some; exact Hg'). done.
  - cbn [groups]. apply lookup_insert_eq.
  - intros n' Hne. cbn [groups]. apply lookup_insert_ne. done.
Qed.

Lemma Group_Close_inv w a :
  registry_inv w → (a < length (heap w))%nat →
  ∃ w', Group_Close w a = Ret w' ∧ registry_inv w' ∧
        (∀ n', groups w' !! n' = Some a → False) ∧
        (∃ g, heap w' !! a = Some g ∧ gclosed g ≠ 0).
Proof.
  intros [Hmu Hreg] Hlt. destruct (lookup_lt_is_Some_2 _ _ Hlt) as [g Hg].
  destruct (decide (gclosed g = 0)) as [Hc|Hc].
  - rewrite (Group_Close_open w a g Hmu Hg Hc). eexists. split; [reflexivity|].
    assert (Hother : ∀ n' a', delete (name g) (groups w) !! n' = Some a' →
              a' ≠ a ∧ ∃ g', heap w !! a' = Some g' ∧ gclosed g' = 0 ∧ name g' = n').
    { intros n' a' Hl. apply lookup_delete_Some in Hl as [Hne Hl].
      destruct (Hreg n' a' Hl) as (g' & Hg' & Hc' & Hn'). split; [|eauto].
      intros ->. rewrite Hg in Hg'. injection Hg' as <-. congruence. }
    split; [|split].
    + split; [reflexivity|]. cbn [groups heap]. intros n' a' Hl.
      destruct (Hother n' a' Hl) as (Hne & g' & Hg' & Hc' & Hn'). exists g'.
      rewrite list_lookup_insert_ne by done. done.
    + cbn [groups]. intros n' Hl. destruct (Hother n' a Hl) as [Hne _]. done.
    + cbn [heap]. eexists. rewrite list_lookup_insert_eq by exact Hlt.
      split; [reflexivity|]. cbn. lia.
  - exists w. split.
    + unfold Group_Close. rewrite Hg. rewrite (proj2 (Z.eqb_neq _ _) Hc). reflexivity.
    + split; [split; assumption|]. split.
      * intros n' Hl. destruct (Hreg n' a Hl) as (g' & Hg' & Hc' & _).
        rewrite Hg in Hg'. injection Hg' as <-. done.
      * exists g. done.
Qed.

Lemma registry_one_inv : registry_inv registry_one.
Proof.
  split; [reflexivity|]. intros n' a'. unfold registry_one. cbn.
  intros Hl. apply lookup_insert_Some in Hl as [[<- <-]|[_ Hl]].
  - eexists. split; [reflexivity|]. done.
  - rewrite lookup_empty in Hl. discriminate Hl.
Qed.

(** X27.  [NewGroup] under a name that is taken replaces the
    registered group, and [GetGroup] then returns the new one.  A
    later [Close] of the replaced group deletes the name from the
    registry: [GetGroup] returns nil although the new group is still
    open. *)
Theorem registry_Close_of_replaced_group (w : Registry) (name_ : string)
    (cb1 cb2 : Z) (opts1 opts2 : list GroupOption) :
  registry_inv w →
  ∃ a1 w1 a2 w2 w3 g2,
    NewGroup w name_ cb1 true opts1 = Ret (a1, w1) ∧
    NewGroup w1 name_ cb2 true opts2 = Ret (a2, w2) ∧ a1 ≠ a2 ∧
    GetGroup w2 name_ = Ret (Some a2, w2) ∧
    Group_Close w2 a1 = Ret w3 ∧
    GetGroup w3 name_ = Ret (None, w3) ∧
    heap w3 !! a2 = Some g2 ∧ gclosed g2 = 0 ∧ name g2 = name_.
Proof.
  intros [Hmu Hreg].
  destruct (NewGroup_free w name_ cb1 opts1 Hmu) as (g1 & Hn1 & Hc1 & HN1).
  set (w1 := {| heap := heap w ++ [g1]; groups := <[name_ := length (heap w)]> (groups w);
                groupsMu := mutex_free |}) in *.
  destruct (NewGroup_free w1 name_ cb2 opts2 eq_refl) as (g2 & Hn2 & Hc2 & HN2).
  set (w2 := {| heap := heap w1 ++ [g2]; groups := <[name_ := length (heap w1)]> (groups w1);
                groupsMu := mutex_free |}) in *.
  assert (Hl1 : length (heap w1) = S (length (heap w))).
  { unfold w1. cbn [heap]. rewrite length_app. cbn. lia. }
  assert (Hg1 : heap w2 !! length (heap w) = Some g1).
  { unfold w2, w1. cbn [heap]. rewrite lookup_app_l by (rewrite length_app; cbn; lia).
    rewrite lookup_app_r, Nat.sub_diag by lia. reflexivity. }
  pose proof (Group_Close_open w2 (length (heap w)) g1 eq_refl Hg1 Hc1) as HC.
  eexists _, w1, _, w2, _, g2. split; [exact HN1|]. split; [exact HN2|].
  split; [lia|]. split.
  { rewrite (GetGroup_free w2 name_ eq_refl). unfold w2. cbn [groups].
    rewrite lookup_insert_eq. reflexivity. }
  split; [exact HC|]. split.
  { rewrite GetGroup_free by reflexivity. cbn [groups]. rewrite Hn1, lookup_delete_eq.
    reflexivity. }
  split; [|split; assumption]. cbn [heap].
  rewrite list_lookup_insert_ne by lia. unfold w2. cbn [heap].
  rewrite lookup_app_r, Nat.sub_diag by lia. reflexivity.
Qed.

Lemma registry_Close_of_replaced_group_witness :
  ∃ a1 w1 a2 w2 w3 g2,
    NewGroup no_groups "scores" 64 true [] = Ret (a1, w1) ∧
    NewGroup w1 "scores" 128 true [WithExpiration 5] = Ret (a2, w2) ∧ a1 ≠ a2 ∧
    GetGroup w2 "scores" = Ret (Some a2, w2) ∧
    Group_Close w2 a1 = Ret w3 ∧
    GetGroup w3 "scores" = Ret (None, w3) ∧
    heap w3 !! a2 = Some g2 ∧ gclosed g2 = 0 ∧ name g2 = "scores".
Proof.
  apply (registry_Close_of_replaced_group no_groups "scores" 64 128 [] [WithExpiration 5]).
  split; [reflexivity|]. intros n' a' Hl. cbn in Hl. rewrite lookup_empty in Hl.
  discriminate Hl.
Defined.

(** X28.  In a registry as the package keeps it ([groupsMu] free,
    every registered group open), [DestroyGroup] never returns
    [true]: for a name that is not registered it returns [false] and
    changes nothing, and for a registered name it blocks, because
    the group's [Close] waits for [groupsMu], which [DestroyGroup]
    itself holds.  [DestroyAllGroups] likewise blocks unless the
    registry is empty.  [NewGroup] and [Close] keep the registry in
    this shape. *)
Theorem registry_DestroyGroup_blocks (w : Registry) :
  registry_inv w →
  (∀ name_, groups w !! name_ = None → DestroyGroup w name_ = Ret (false, w)) ∧
  (∀ name_, is_Some (groups w !! name_) → DestroyGroup w name_ = Blocked) ∧
  (groups w = ∅ → DestroyAllGroups w = Ret w) ∧
  (groups w ≠ ∅ → DestroyAllGroups w = Blocked) ∧
  (∀ name_ cb opts_, ∃ a w', NewGroup w name_ cb true opts_ = Ret (a, w') ∧ registry_inv w') ∧
  (∀ a, (a < length (heap w))%nat → ∃ w', Group_Close w a = Ret w' ∧ registry_inv w').
Proof.
  intros Hinv. pose proof Hinv as [Hmu Hreg].
  split; [|split; [|split; [|split; [|split]]]].
  - intros name_ Hn. unfold DestroyGroup. rewrite Hmu. cbn. rewrite Hn. cbn.
    destruct w as [h gs mu]. cbn in Hmu. subst mu. reflexivity.
  - intros name_ [a Ha]. unfold DestroyGroup. rewrite Hmu. cbn. rewrite Ha.
    destruct (Hreg name_ a Ha) as (g & Hg & Hc & _).
    rewrite (Group_Close_held _ a g); [reflexivity|reflexivity|exact Hg|exact Hc].
  - intros He. unfold DestroyAllGroups. rewrite Hmu. cbn. rewrite He, map_to_list_empty. cbn.
    destruct w as [h gs mu]. cbn in Hmu, He. subst mu gs. reflexivity.
  - intros Hne. unfold DestroyAllGroups. rewrite Hmu. cbn.
    destruct (map_to_list (groups w)) as [|[n' a'] l] eqn:Hl.
    + apply map_to_list_empty_iff in Hl. done.
    + assert (Hin : groups w !! n' = Some a').
      { apply elem_of_map_to_list. rewrite Hl. left. }
      cbn. rewrite Hin. rewrite bool_decide_eq_true_2 by eauto.
      destruct (Hreg n' a' Hin) as (g & Hg & Hc & _).
      rewrite (Group_Close_held _ a' g); [reflexivity|reflexivity|exact Hg|exact Hc].
  - intros name_ cb opts_.
    destruct (NewGroup_inv w name_ cb opts_ Hinv) as (a & w' & HN & Hinv' & _).
    eauto.
  - intros a Hlt. destruct (Group_Close_inv w a Hinv Hlt) as (w' & HC & Hinv' & _). eauto.
Qed.

Lemma registry_DestroyGroup_blocks_witness :
  (∀ name_, groups registry_one !! name_ = None →
            DestroyGroup registry_one name_ = Ret (false, registry_one)) ∧
  (∀ name_, is_Some (groups registry_one !! name_) →
            DestroyGroup registry_one name_ = Blocked) ∧
  (groups registry_one = ∅ → DestroyAllGroups registry_one = Ret registry_one) ∧
  (groups registry_one ≠ ∅ → DestroyAllGroups registry_one = Blocked) ∧
  (∀ name_ cb opts_, ∃ a w', NewGroup registry_one name_ cb true opts_ = Ret (a, w') ∧
                             registry_inv w') ∧
  (∀ a, (a < length (heap registry_one))%nat →
        ∃ w', Group_Close registry_one a = Ret w' ∧ registry_inv w').
Proof. apply (registry_DestroyGroup_blocks registry_one). apply registry_one_inv. Defined.

End registry_calls.

(** ** Group: reads through the local cache *)

Section group_reads.
Import mycache.

(** The write to the cache that [Group.Set] and [load] make. *)
Lemma Cache_write_lru2 (g : Group) s key v clk :
  closed (mainCache g) = 0 →
  store (ensureInitialized (mainCache g)) = Some (StoreLRU2 s) →
  0 < (if 0 <? expiration g then t_group clk + expiration g - t_cache clk
       else 9999999999999999) →
  ∀ s1,
  lru2.SetWithExpiration s key (Some v)
    (if 0 <? expiration g then t_group clk + expiration g - t_cache clk
     else 9999999999999999) (t_store clk) = Ret s1 →
  (if 0 <? expiration g
   then Cache_AddWithExpiration (mainCache g) key v (t_group clk + expiration g) clk
   else Cache_Add (mainCache g) key v clk)
  = Ret (set_store (ensureInitialized (mainCache g)) (Some (StoreLRU2 s1))).
Proof.
  intros Hc Hst Hd s1 HS. destruct (0 <? expiration g).
  - unfold Cache_AddWithExpiration. rewrite Hc. cbn [Z.eqb].
    rewrite (proj2 (Z.leb_gt _ _) Hd).
    unfold the_store. rewrite Hst. cbn [obind Store_SetWithExpiration]. rewrite HS.
    reflexivity.
  - apply (Cache_Add_lru2 _ s); assumption.
Qed.

(** A write to a cache on a well-shaped LRU-2 store, and the lookup
    that follows it before the expiry. *)
Lemma Cache_write_then_Get (g : Group) s key v clk clk1 :
  closed (mainCache g) = 0 →
  initialized (mainCache g) = 0 ∨ initialized (mainCache g) = 1 →
  store (ensureInitialized (mainCache g)) = Some (StoreLRU2 s) → lru2.store_ok s = true →
  0 < (if 0 <? expiration g then t_group clk + expiration g - t_cache clk
       else 9999999999999999) →
  0 < wrap_int64 (t_store clk +
                  (if 0 <? expiration g then t_group clk + expiration g - t_cache clk
                   else 9999999999999999)) →
  t_store clk1 < wrap_int64 (t_store clk +
                  (if 0 <? expiration g then t_group clk + expiration g - t_cache clk
                   else 9999999999999999)) →
  ∃ c1 c2,
    (if 0 <? expiration g
     then Cache_AddWithExpiration (mainCache g) key v (t_group clk + expiration g) clk
     else Cache_Add (mainCache g) key v clk) = Ret c1 ∧
    Cache_Get c1 key clk1 = Ret (v, true, c2, []) ∧
    closed c2 = 0 ∧ hits c2 = wrap_int64 (hits (mainCache g) + 1) ∧
    misses c2 = misses (mainCache g).
Proof.
  intros Hc Hi Hst Hs Hd He Ht.
  destruct (ensureInitialized_fields _ Hi) as (Hi0 & Hc0 & Hh0 & Hm0 & _).
  rewrite Hc in Hc0.
  set (d := if 0 <? expiration g then t_group clk + expiration g - t_cache clk
            else 9999999999999999) in *.
  destruct (shard_pair s key Hs) as (cc & Hcc & _).
  destruct (Set_store_next s key (Some v) d (t_store clk) cc Hs Hcc)
    as (s1 & a1 & HS & Hs1 & Hcc1 & Hh1).
  rewrite (proj2 (Z.ltb_lt 0 d) Hd) in Hh1.
  destruct (Get_store s1 key (t_store clk1) (t_evict clk1) (a1, cc.2) Hs1 Hcc1)
    as (v1 & ok1 & s2 & a2 & b2 & HG & Hs2 & _ & _ & _ & _ & Hhit & _).
  destruct (Hhit (Some v) _ Hh1 He Ht) as (-> & -> & _).
  exists (set_store (ensureInitialized (mainCache g)) (Some (StoreLRU2 s1))). eexists.
  split; [exact (Cache_write_lru2 g s key v clk Hc Hst Hd s1 HS)|].
  split; [exact (Cache_Get_lru2 (set_store (ensureInitialized (mainCache g))
                                           (Some (StoreLRU2 s1)))
                                s1 key clk1 (Some v) true s2 Hc0 Hi0 eq_refl HG)|].
  cbn. rewrite Hh0, Hm0. done.
Qed.

(** A lookup of a key that no level of the store holds live. *)
Lemma Cache_Get_miss_lru2 c s key clk :
  closed c = 0 → initialized c = 0 ∨ initialized c = 1 →
  store (ensureInitialized c) = Some (StoreLRU2 s) → lru2.store_ok s = true →
  lru2.live_in lru2.admission s key = false → lru2.live_in lru2.main s key = false →
  ∃ c' s',
    Cache_Get c key clk = Ret ([], false, c', []) ∧
    closed c' = 0 ∧ (initialized c' = 0 ∨ initialized c' = 1) ∧
    store (ensureInitialized c') = Some (StoreLRU2 s') ∧ lru2.store_ok s' = true.
Proof.
  intros Hc [Hi|Hi] Hst Hs Hla Hlb.
  - exists (set_misses c (wrap_int64 (misses c + 1))), s.
    split; [unfold Cache_Get; rewrite Hc, Hi; reflexivity|].
    split; [exact Hc|]. split; [left; exact Hi|]. split; [|exact Hs].
    unfold ensureInitialized in *. cbn [initialized set_misses]. rewrite Hi in *.
    exact Hst.
  - rewrite (ensureInitialized_done c Hi) in Hst.
    destruct (shard_pair s key Hs) as (cc & Hcc & _ & _ & Ha & Hb).
    unfold lru2.live_in in Hla, Hlb. rewrite Ha in Hla. rewrite Hb in Hlb.
    destruct (Get_store_miss s key (t_store clk) (t_evict clk) cc Hs Hcc)
      as (v1 & ok1 & s' & a' & b' & HG & Hs' & _ & _ & _ & _ & Hnone).
    destruct (Hnone Hla Hlb) as (-> & -> & _).
    eexists _, s'. split; [exact (Cache_Get_lru2 c s key clk None false s' Hc Hi Hst HG)|].
    cbn. split; [exact Hc|]. split; [right; exact Hi|]. split; [|exact Hs'].
    unfold ensureInitialized. cbn. rewrite Hi. reflexivity.
Qed.

(** X29.  An open group whose cache sits on a well-shaped LRU-2
    store, as [NewGroup] sets it up: after [Set(key, value)] a
    [Get(key)] before the expiry returns the value from the local
    cache with no error and counts a local hit; neither the peers
    nor the Getter are asked, whatever they would answer. *)
Theorem Group_Set_then_Get_is_local (g : Group) (s : lru2.lru2Store) (st : groupStats)
    (getter : Getter) (remote : PeerGet) (ctx : Context) (key : string)
    (value : list Byte.byte) (clk clk1 clk2 : clock) (t_start t_end : Z) :
  gclosed g ≠ 1 → key ≠ "" → value ≠ [] →
  closed (mainCache g) = 0 →
  initialized (mainCache g) = 0 ∨ initialized (mainCache g) = 1 →
  store (ensureInitialized (mainCache g)) = Some (StoreLRU2 s) → lru2.store_ok s = true →
  0 < (if 0 <? expiration g then t_group clk + expiration g - t_cache clk
       else 9999999999999999) →
  0 < wrap_int64 (t_store clk +
                  (if 0 <? expiration g then t_group clk + expiration g - t_cache clk
                   else 9999999999999999)) →
  t_store clk1 < wrap_int64 (t_store clk +
                  (if 0 <? expiration g then t_group clk + expiration g - t_cache clk
                   else 9999999999999999)) →
  ∃ g1 g2 sp,
    Set_ g ctx key value clk = Ret (None, g1, sp) ∧
    Get g1 st getter remote key clk1 t_start t_end clk2
      = Ret (value, None, g2, AddInt64 st LocalHits 1, []) ∧
    gclosed g2 = gclosed g ∧ name g2 = name g.
Proof.
  intros Hg Hk Hv Hc Hi Hst Hs Hd He Ht.
  destruct (Cache_write_then_Get g s key value clk clk1 Hc Hi Hst Hs Hd He Ht)
    as (c1 & c2 & HW & HG & _).
  assert (Hlen : (Z.of_nat (length value) =? 0) = false).
  { apply Z.eqb_neq. destruct value; [done|]. cbn [length]. lia. }
  eexists (set_mainCache g c1), (set_mainCache (set_mainCache g c1) c2), _.
  split.
  - unfold Set_. rewrite (proj2 (Z.eqb_neq _ _) Hg), (bool_decide_eq_false_2 _ Hk), Hlen.
    rewrite HW. reflexivity.
  - split; [|done]. unfold Get. cbn [gclosed set_mainCache mainCache].
    rewrite (proj2 (Z.eqb_neq _ _) Hg), (bool_decide_eq_false_2 _ Hk), HG. reflexivity.
Qed.

Lemma Group_Set_then_Get_is_local_witness :
  ∃ g1 g2 sp,
    Set_ group_lru2 Background "k" (bytes_n 3) clk0 = Ret (None, g1, sp) ∧
    Get g1 stats0 (λ _, inr "no data") (λ _ _ _, inr "unreachable") "k" clk0 11 12 clk0
      = Ret (bytes_n 3, None, g2, AddInt64 stats0 LocalHits 1, []) ∧
    gclosed g2 = gclosed group_lru2 ∧ name g2 = name group_lru2.
Proof.
  apply (Group_Set_then_Get_is_local group_lru2
           (lru2.newLRU2Cache 16 512 256 false) stats0 (λ _, inr "no data")
           (λ _ _ _, inr "unreachable") Background "k" (bytes_n 3) clk0 clk0 clk0 11 12).
  - discriminate.
  - discriminate.
  - discriminate.
  - reflexivity.
  - left. reflexivity.
  - reflexivity.
  - apply newLRU2Cache_ok; lia.
  - reflexivity.
  - reflexivity.
  - reflexivity.
Defined.

(** X30.  Read-through: on an open group whose cache holds no live
    entry for the key, [Get(key)] counts a local miss and one load
    and asks [loadData]; when that yields bytes (from the owning
    peer or from the Getter) they are returned with no error and
    written to the cache, so that a second [Get(key)] before the
    expiry returns the same bytes as a local hit without a load,
    whatever the Getter and the peers would answer then.  When the
    Getter fails and no peer answered, the first [Get] returns the
    wrapped error, counts a loader error and leaves the cache as the
    lookup left it. *)
Theorem Group_Get_reads_through (g : Group) (s : lru2.lru2Store) (st : groupStats)
    (getter getter' : Getter) (remote remote' : PeerGet) (key : string)
    (clk clk' clk1 clk2 : clock) (t_start t_end t_start' t_end' : Z) :
  gclosed g ≠ 1 → key ≠ "" →
  closed (mainCache g) = 0 →
  initialized (mainCache g) = 0 ∨ initialized (mainCache g) = 1 →
  store (ensureInitialized (mainCache g)) = Some (StoreLRU2 s) → lru2.store_ok s = true →
  lru2.live_in lru2.admission s key = false → lru2.live_in lru2.main s key = false →
  0 < (if 0 <? expiration g then t_group clk' + expiration g - t_cache clk'
       else 9999999999999999) →
  0 < wrap_int64 (t_store clk' +
                  (if 0 <? expiration g then t_group clk' + expiration g - t_cache clk'
                   else 9999999999999999)) →
  t_store clk1 < wrap_int64 (t_store clk' +
                  (if 0 <? expiration g then t_group clk' + expiration g - t_cache clk'
                   else 9999999999999999)) →
  let r := loadData g (AddInt64 st LocalMisses 1) getter remote key in
  let st1 := AddInt64 (AddInt64 r.2 LoadDuration (Sub t_end t_start)) Loads 1 in
  (∀ bytes, r.1 = inl bytes →
     ∃ g1 g2,
       Get g st getter remote key clk t_start t_end clk' = Ret (bytes, None, g1, st1, []) ∧
       Get g1 st1 getter' remote' key clk1 t_start' t_end' clk2
         = Ret (bytes, None, g2, AddInt64 st1 LocalHits 1, [])) ∧
  (∀ e, r.1 = inr e →
     ∃ c1,
       Cache_Get (mainCache g) key clk = Ret ([], false, c1, []) ∧
       Get g st getter remote key clk t_start t_end clk'
         = Ret ([], Some e, set_mainCache g c1, AddInt64 st1 LoaderErrors 1, [])).
Proof.
  intros Hg Hk Hc Hi Hst Hs Hla Hlb Hd He Ht r st1.
  destruct (Cache_Get_miss_lru2 (mainCache g) s key clk Hc Hi Hst Hs Hla Hlb)
    as (c0 & s0 & HG0 & Hc0 & Hi0 & Hst0 & Hs0).
  set (g0 := set_mainCache g c0).
  assert (Hr : loadData g0 (AddInt64 st LocalMisses 1) getter remote key = r) by reflexivity.
  assert (Hhead : ∀ k : ByteView * bool * Cache * list lru.spawned →
                      outcome (ByteView * option get_error * Group * groupStats *
                               list lru.spawned),
            (if gclosed g =? 1 then Ret ([], Some (PackageError ErrGroupClosed), g, st, [])
             else if bool_decide (key = "")
                  then Ret ([], Some (PackageError ErrKeyRequired), g, st, [])
                  else r0 ←! Cache_Get (mainCache g) key clk; k r0)
            = k ([], false, c0, [])).
  { intros k. rewrite (proj2 (Z.eqb_neq _ _) Hg), (bool_decide_eq_false_2 _ Hk), HG0.
    reflexivity. }
  split.
  - intros bytes Hb.
    destruct (Cache_write_then_Get g0 s0 key bytes clk' clk1 Hc0 Hi0 Hst0 Hs0 Hd He Ht)
      as (c1 & c2 & HW & HG & _).
    exists (set_mainCache g0 c1), (set_mainCache (set_mainCache g0 c1) c2). split.
    + unfold Get. rewrite Hhead. cbn [negb]. fold g0. unfold load. rewrite Hr, Hb.
      change (expiration g0) with (expiration g) in *.
      change (mainCache g0) with c0 in *. rewrite HW. reflexivity.
    + unfold Get.
      change (gclosed (set_mainCache g0 c1)) with (gclosed g).
      change (mainCache (set_mainCache g0 c1)) with c1.
      rewrite (proj2 (Z.eqb_neq _ _) Hg), (bool_decide_eq_false_2 _ Hk), HG. reflexivity.
  - intros e Hb. exists c0. split; [exact HG0|].
    unfold Get. rewrite Hhead. cbn [negb]. fold g0. unfold load. rewrite Hr, Hb.
    reflexivity.
Qed.

Lemma Group_Get_reads_through_witness :
  (∀ bytes,
     (loadData group_lru2 (AddInt64 stats0 LocalMisses 1) (λ _, inl (bytes_n 3))
               (λ _ _ _, inr "unreachable") "k").1 = inl bytes →
     ∃ g1 g2,
       Get group_lru2 stats0 (λ _, inl (bytes_n 3)) (λ _ _ _, inr "unreachable") "k"
           clk0 11 12 clk0
         = Ret (bytes, None, g1,
                (AddInt64 (AddInt64 (loadData group_lru2 (AddInt64 stats0 LocalMisses 1) (λ _, inl (bytes_n 3))
               (λ _ _ _, inr "unreachable") "k").2
              LoadDuration (Sub 12 11)) Loads 1), []) ∧
       Get g1 (AddInt64 (AddInt64 (loadData group_lru2 (AddInt64 stats0 LocalMisses 1) (λ _, inl (bytes_n 3))
               (λ _ _ _, inr "unreachable") "k").2
              LoadDuration (Sub 12 11)) Loads 1)
           (λ _, inr "no data") (λ _ _ _, inr "unreachable") "k" clk0 13 14 clk0
         = Ret (bytes, None, g2,
                AddInt64 (AddInt64 (AddInt64 (loadData group_lru2 (AddInt64 stats0 LocalMisses 1) (λ _, inl (bytes_n 3))
               (λ _ _ _, inr "unreachable") "k").2
              LoadDuration (Sub 12 11)) Loads 1) LocalHits 1, [])) ∧
  (∀ e,
     (loadData group_lru2 (AddInt64 stats0 LocalMisses 1) (λ _, inl (bytes_n 3))
               (λ _ _ _, inr "unreachable") "k").1 = inr e →
     ∃ c1,
       Cache_Get (mainCache group_lru2) "k" clk0 = Ret ([], false, c1, []) ∧
       Get group_lru2 stats0 (λ _, inl (bytes_n 3)) (λ _ _ _, inr "unreachable") "k"
           clk0 11 12 clk0
         = Ret ([], Some e, set_mainCache group_lru2 c1,
                AddInt64 (AddInt64 (AddInt64 (loadData group_lru2 (AddInt64 stats0 LocalMisses 1) (λ _, inl (bytes_n 3))
               (λ _ _ _, inr "unreachable") "k").2
              LoadDuration (Sub 12 11)) Loads 1) LoaderErrors 1, [])).
Proof.
  apply (Group_Get_reads_through group_lru2
           (lru2.newLRU2Cache 16 512 256 false) stats0
           (λ _, inl (bytes_n 3)) (λ _, inr "no data")
           (λ _ _ _, inr "unreachable") (λ _ _ _, inr "unreachable")
           "k" clk0 clk0 clk0 clk0 11 12 13 14).
  - discriminate.
  - discriminate.
  - reflexivity.
  - left. reflexivity.
  - reflexivity.
  - apply newLRU2Cache_ok; lia.
  - vm_compute. reflexivity.
  - vm_compute. reflexivity.
  - reflexivity.
  - reflexivity.
  - reflexivity.
Defined.

End group_reads.
